(** * A shallow embedding of the mutable core of [vg.cpp]

    The development follows the source file [src/vg.cpp]: handles, the node
    and edge store with its side indices, the path hooks used by the graph
    edits, and the inversion unfolding.  Integers of the source are [Z],
    sequences are lists of characters, the hash maps of the class are [gmap]s and the
    protobuf repeated fields are lists. *)

From Stdlib Require Import ZArith Lia Ascii.
From stdpp Require Import gmap strings list fin_maps sorting.

Local Open Scope Z_scope.

(** ** Handles (vg.cpp, lines 80-100) *)

Module Handle.

(** Modelled from the spec: the two masks are declared in the class header,
    which is not part of the sources at hand; the comment in [get_handle]
    fixes them: the id lives in the low 63 bits, the orientation in the
    high bit of a 64-bit word. *)
Definition HIGH_BIT : Z := Z.shiftl 1 63.
Definition LOW_BITS : Z := Z.ones 63.

(** Conversion of a signed 64-bit id to the unsigned word [size_t]. *)
Definition to_size_t (z : Z) : Z := z mod 2 ^ 64.

Definition get_handle (node_id : Z) (is_reverse : bool) : Z :=
  let handle := to_size_t node_id in
  if is_reverse then Z.lor handle HIGH_BIT else handle.

Definition get_id (handle : Z) : Z := Z.land handle LOW_BITS.

(** The conversion of the masked word to [bool] tests it against zero. *)
Definition get_is_reverse (handle : Z) : bool :=
  negb (Z.land handle HIGH_BIT =? 0).

Definition flip (handle : Z) : Z := Z.lxor handle HIGH_BIT.

End Handle.

(** ** Serial and parallel node iteration (vg.cpp, lines 159-178) *)

Record Node := mkNode { node_id : Z; node_sequence : list ascii }.
Record Edge := mkEdge {
  edge_from : Z; edge_to : Z; edge_from_start : bool; edge_to_end : bool }.

#[global] Instance Node_eq_dec : EqDecision Node.
Proof. solve_decision. Defined.
#[global] Instance Edge_eq_dec : EqDecision Edge.
Proof. solve_decision. Defined.

(** A DNA literal. *)
Definition dna (s : string) : list ascii := String.list_ascii_of_string s.

Module Iteration.

Section visitors.
(** The iteratee is a closure: it reads and updates captured state of
      some type [S] and answers whether the iteration may go on. *)
Context {S : Type}.
Definition visitor : Type := Z -> S -> bool * S.

(** The serial loop [for (i = 0; i < node_size; ++i)] with its early
      [return]. *)
Fixpoint serial_loop (iteratee : visitor) (nodes : list Node) (s : S) : S :=
    match nodes with
    | [] => s
    | n :: rest =>
        let '(go_on, s') := iteratee (Handle.get_handle (node_id n) false) s in
        if go_on then serial_loop iteratee rest s' else s'
    end.

(** The [omp parallel for] loop runs the body once for every index; the
      answer of the iteratee is dropped (the [return] is commented out).
      [schedule] is the order in which the runtime happens to execute the
      bodies of the indices. *)
Definition parallel_loop (iteratee : visitor) (nodes : list Node)
      (schedule : list nat) (s : S) : S :=
    foldl (fun s i =>
             match nodes !! i with
             | Some n => (iteratee (Handle.get_handle (node_id n) false) s).2
             | None => s
             end) s schedule.

Definition for_each_handle (iteratee : visitor) (parallel : bool)
      (schedule : list nat) (nodes : list Node) (s : S) : S :=
    if parallel then parallel_loop iteratee nodes schedule s
    else serial_loop iteratee nodes s.
End visitors.

(** A visitor that records every handle it is called with, and answers with
    [answer]. *)
Definition recording (answer : Z -> bool) : @visitor (list Z) :=
  fun h log => (answer h, log ++ [h]).

Definition handles_of (nodes : list Node) : list Z :=
  (fun n => Handle.get_handle (node_id n) false) <$> nodes.

End Iteration.

(** ** Failures

    [get_node] throws [runtime_error] for a missing id, [assert] aborts,
    and [divide_node] prints the offending node and position and calls
    [exit(1)]. *)

Inductive error :=
  | NoNode (id : Z)
  | AssertFailed (what : string)
  | DivideOutOfRange (id pos len : Z).

Inductive res (A : Type) :=
  | Ok (a : A)
  | Err (e : error).
Arguments Ok {A} a.
Arguments Err {A} e.

#[global] Instance res_ret : MRet res := fun A a => Ok a.
#[global] Instance res_bind : MBind res := fun A B f m =>
  match m with
  | Ok a => f a
  | Err e => Err e
  end.

Definition is_ok {A : Type} (r : res A) : Prop :=
  match r with Ok _ => True | Err _ => False end.

(** ** Node sides (nodeside.hpp) *)

(** Modelled from the spec: [NodeSide] and its helpers are declared in a
    header that is not part of the sources at hand.  A side is a node id
    and the flag "is the end side"; sides are ordered by id, then start
    before end; an edge is keyed by the lexicographically ordered pair of
    its two sides ("canonically represented by the lexicographic minimum of
    its two sides"). *)
Definition NodeSide : Type := Z * bool.

Definition side_ltb (a b : Z * bool) : bool :=
  (a.1 <? b.1) || ((a.1 =? b.1) && (negb a.2 && b.2)).

Definition minmax (a b : NodeSide) : NodeSide * NodeSide :=
  if side_ltb b a then (b, a) else (a, b).

Definition pair_from_edge (e : Edge) : NodeSide * NodeSide :=
  minmax (edge_from e, negb (edge_from_start e)) (edge_to e, edge_to_end e).

(** The entries of the adjacency lists are pairs of the other node's id and
    the relative-orientation bit.  An entry on a start side with the same
    relative orientation leads to the other node's end, and so on. *)
Definition pair_from_start_edge (start_id : Z) (oriented_other : Z * bool)
    : NodeSide * NodeSide :=
  minmax (start_id, false) (oriented_other.1, negb oriented_other.2).

Definition pair_from_end_edge (end_id : Z) (oriented_other : Z * bool)
    : NodeSide * NodeSide :=
  minmax (end_id, true) (oriented_other.1, oriented_other.2).

(** ** Ordered sets ([std::set]) as sorted duplicate-free lists *)

Section ordered_set.
Context {A : Type} (ltb : A -> A -> bool).

Fixpoint set_insert (x : A) (s : list A) : list A :=
    match s with
    | [] => [x]
    | y :: s' =>
        if ltb x y then x :: y :: s'
        else if ltb y x then y :: set_insert x s'
        else y :: s'
    end.

Definition set_of_list (l : list A) : list A :=
    foldl (fun s x => set_insert x s) [] l.
End ordered_set.

(** [std::pair]'s lexicographic [operator<]. *)
Definition pair_ltb {A B : Type} (lta : A -> A -> bool) (ltb : B -> B -> bool)
    (a b : A * B) : bool :=
  lta a.1 b.1 || (negb (lta b.1 a.1) && ltb a.2 b.2).

Definition sides_ltb : NodeSide * NodeSide -> NodeSide * NodeSide -> bool :=
  pair_ltb side_ltb side_ltb.

(** ** Paths (path.hpp, path.cpp) *)

Record mapping_t := mkMapping {
  m_node_id : Z; m_is_reverse : bool; m_length : Z; m_rank : Z }.

#[global] Instance mapping_eq_dec : EqDecision mapping_t.
Proof. solve_decision. Defined.

Definition set_node_id (id : Z) (m : mapping_t) : mapping_t :=
  mkMapping id (m_is_reverse m) (m_length m) (m_rank m).
Definition set_is_reverse (b : bool) (m : mapping_t) : mapping_t :=
  mkMapping (m_node_id m) b (m_length m) (m_rank m).
Definition set_length (len : Z) (m : mapping_t) : mapping_t :=
  mkMapping (m_node_id m) (m_is_reverse m) len (m_rank m).

(** ** The graph object *)

(** The class keeps the protobuf graph (two repeated fields) and its
    indices.  A [Node*] or [Edge*] of the source is represented by the
    record it points to; the pointer-keyed tables [node_index] and
    [edge_index] are keyed by what identifies the object in the class's own
    lookups: the node id, and the canonical side pair used by [has_edge]. *)
Record VG := mkVG {
  graph_node : list Node;
  graph_edge : list Edge;
  node_by_id : gmap Z Node;
  node_index : gmap Z nat;
  edge_by_sides : gmap (NodeSide * NodeSide) Edge;
  edge_index : gmap (NodeSide * NodeSide) nat;
  edges_on_start : gmap Z (list (Z * bool));
  edges_on_end : gmap Z (list (Z * bool));
  current_id : Z;
  paths : list (string * list mapping_t);
}.

(** [VG::VG(void)] with [init]. *)
Definition empty_graph : VG := mkVG [] [] ∅ ∅ ∅ ∅ ∅ ∅ 1 [].

Section field_updates.
Implicit Type g : VG.

Definition with_graph_node g v :=
    mkVG v (graph_edge g) (node_by_id g) (node_index g) (edge_by_sides g)
      (edge_index g) (edges_on_start g) (edges_on_end g) (current_id g) (paths g).
Definition with_graph_edge g v :=
    mkVG (graph_node g) v (node_by_id g) (node_index g) (edge_by_sides g)
      (edge_index g) (edges_on_start g) (edges_on_end g) (current_id g) (paths g).
Definition with_node_by_id g v :=
    mkVG (graph_node g) (graph_edge g) v (node_index g) (edge_by_sides g)
      (edge_index g) (edges_on_start g) (edges_on_end g) (current_id g) (paths g).
Definition with_node_index g v :=
    mkVG (graph_node g) (graph_edge g) (node_by_id g) v (edge_by_sides g)
      (edge_index g) (edges_on_start g) (edges_on_end g) (current_id g) (paths g).
Definition with_edge_by_sides g v :=
    mkVG (graph_node g) (graph_edge g) (node_by_id g) (node_index g) v
      (edge_index g) (edges_on_start g) (edges_on_end g) (current_id g) (paths g).
Definition with_edge_index g v :=
    mkVG (graph_node g) (graph_edge g) (node_by_id g) (node_index g) (edge_by_sides g)
      v (edges_on_start g) (edges_on_end g) (current_id g) (paths g).
Definition with_edges_on_start g v :=
    mkVG (graph_node g) (graph_edge g) (node_by_id g) (node_index g) (edge_by_sides g)
      (edge_index g) v (edges_on_end g) (current_id g) (paths g).
Definition with_edges_on_end g v :=
    mkVG (graph_node g) (graph_edge g) (node_by_id g) (node_index g) (edge_by_sides g)
      (edge_index g) (edges_on_start g) v (current_id g) (paths g).
Definition with_current_id g v :=
    mkVG (graph_node g) (graph_edge g) (node_by_id g) (node_index g) (edge_by_sides g)
      (edge_index g) (edges_on_start g) (edges_on_end g) v (paths g).
Definition with_paths g v :=
    mkVG (graph_node g) (graph_edge g) (node_by_id g) (node_index g) (edge_by_sides g)
      (edge_index g) (edges_on_start g) (edges_on_end g) (current_id g) v.
End field_updates.

(** ** Vector helpers *)

(** [swap_remove] (utility.hpp): overwrite the first element equal to [e]
    with the last element and drop the last slot. *)
Fixpoint swap_remove {A : Type} `{EqDecision A} (v : list A) (e : A) : list A :=
  match v with
  | [] => []
  | x :: rest =>
      if decide (x = e) then
        match rest with
        | [] => []
        | y :: rest' => List.last rest y :: removelast rest
        end
      else x :: swap_remove rest e
  end.

(** [RepeatedPtrField::SwapElements]. *)
Definition swap_elements {A : Type} (l : list A) (i j : nat) : list A :=
  match l !! i, l !! j with
  | Some a, Some b => <[i := b]> (<[j := a]> l)
  | _, _ => l
  end.

(** [v[k].emplace_back(x)] on a map of vectors. *)
Definition push_back_at (k : Z) (x : Z * bool) (m : gmap Z (list (Z * bool)))
    : gmap Z (list (Z * bool)) :=
  <[k := default [] (m !! k) ++ [x]]> m.

(** [swap_remove(edges_start(k), x); if (m[k].empty()) m.erase(k);] *)
Definition swap_remove_at (k : Z) (x : Z * bool) (m : gmap Z (list (Z * bool)))
    : gmap Z (list (Z * bool)) :=
  match swap_remove (default [] (m !! k)) x with
  | [] => delete k m
  | v => <[k := v]> m
  end.

(** ** Lookups (vg.cpp, lines 563-589, 2197-2241, 2485-2494, 3687-3694, 3885-3893) *)

Definition edges_start (g : VG) (id : Z) : list (Z * bool) :=
  default [] (edges_on_start g !! id).

Definition edges_end (g : VG) (id : Z) : list (Z * bool) :=
  default [] (edges_on_end g !! id).

Definition has_node (g : VG) (id : Z) : bool :=
  bool_decide (is_Some (node_by_id g !! id)).

Definition get_node (g : VG) (id : Z) : res Node :=
  match node_by_id g !! id with
  | Some n => Ok n
  | None => Err (NoNode id)
  end.

Definition has_edge (g : VG) (e : Edge) : bool :=
  bool_decide (is_Some (edge_by_sides g !! pair_from_edge e)).

Definition get_edge (g : VG) (side1 side2 : NodeSide) : option Edge :=
  edge_by_sides g !! minmax side1 side2.

Definition max_node_id (g : VG) : Z :=
  foldl (fun max_id n => if max_id <? node_id n then node_id n else max_id)
        0 (graph_node g).

(** ** Nodes (vg.cpp, lines 3895-3919) *)

Definition create_node_with_id (g : VG) (seq : list ascii) (id : Z) : res (VG * Node) :=
  if id =? 0 then Err (AssertFailed "id != 0")
  else
    let node := mkNode id seq in
    let g1 := with_graph_node g (graph_node g ++ [node]) in
    let g2 := with_node_by_id g1 (<[id := node]> (node_by_id g1)) in
    let g3 := with_node_index g2
                (<[id := (length (graph_node g2) - 1)%nat]> (node_index g2)) in
    Ok (g3, node).

Definition create_node (g : VG) (seq : list ascii) : res (VG * Node) :=
  let g1 := if current_id g =? 1
            then with_current_id g (max_node_id g + 1) else g in
  let id := current_id g1 in
  create_node_with_id (with_current_id g1 (id + 1)) seq id.

(** ** Edges (vg.cpp, lines 3666-3883) *)

Definition index_edge_by_node_sides (g : VG) (edge : Edge) : VG :=
  let g1 := with_edge_by_sides g (<[pair_from_edge edge := edge]> (edge_by_sides g)) in
  let relative_orientation := xorb (edge_from_start edge) (edge_to_end edge) in
  let g2 :=
    if edge_from_start edge
    then with_edges_on_start g1
           (push_back_at (edge_from edge) (edge_to edge, relative_orientation)
              (edges_on_start g1))
    else with_edges_on_end g1
           (push_back_at (edge_from edge) (edge_to edge, relative_orientation)
              (edges_on_end g1)) in
  if negb (edge_from edge =? edge_to edge)
     || eqb (edge_from_start edge) (edge_to_end edge)
  then
    if edge_to_end edge
    then with_edges_on_end g2
           (push_back_at (edge_to edge) (edge_from edge, relative_orientation)
              (edges_on_end g2))
    else with_edges_on_start g2
           (push_back_at (edge_to edge) (edge_from edge, relative_orientation)
              (edges_on_start g2))
  else g2.

Definition set_edge (g : VG) (edge : Edge) : VG :=
  if has_edge g edge then g else index_edge_by_node_sides g edge.

Definition create_edge (g : VG) (from to : Z) (from_start to_end : bool) : VG * Edge :=
  match get_edge g (from, negb from_start) (to, to_end) with
  | Some edge => (g, edge)
  | None =>
      let edge := mkEdge from to from_start to_end in
      let g1 := with_graph_edge g (graph_edge g ++ [edge]) in
      let g2 := set_edge g1 edge in
      (with_edge_index g2
         (<[pair_from_edge edge := (length (graph_edge g2) - 1)%nat]> (edge_index g2)),
       edge)
  end.

Definition unindex_edge_by_node_sides (g : VG) (edge : Edge) : VG :=
  if negb (has_edge g edge) then g
  else
    let g1 := with_edge_by_sides g (delete (pair_from_edge edge) (edge_by_sides g)) in
    let relative_orientation := xorb (edge_from_start edge) (edge_to_end edge) in
    let g2 :=
      if edge_from_start edge
      then with_edges_on_start g1
             (swap_remove_at (edge_from edge) (edge_to edge, relative_orientation)
                (edges_on_start g1))
      else with_edges_on_end g1
             (swap_remove_at (edge_from edge) (edge_to edge, relative_orientation)
                (edges_on_end g1)) in
    if negb (edge_from edge =? edge_to edge)
       || eqb (edge_from_start edge) (edge_to_end edge)
    then
      if edge_to_end edge
      then with_edges_on_end g2
             (swap_remove_at (edge_to edge) (edge_from edge, relative_orientation)
                (edges_on_end g2))
      else with_edges_on_start g2
             (swap_remove_at (edge_to edge) (edge_from edge, relative_orientation)
                (edges_on_start g2))
    else g2.

(** [destroy_edge] on an [Edge] pointer; [None] is the null pointer.  The slot of the
    edge is read with [operator[]], which yields 0 for a missing key. *)
Definition destroy_edge_ptr (g : VG) (edge : option Edge) : VG :=
  match edge with
  | None => g
  | Some edge =>
      if negb (has_edge g edge) then g
      else
        let g1 := unindex_edge_by_node_sides g edge in
        let lei := (length (graph_edge g1) - 1)%nat in
        let tei := default 0%nat (edge_index g1 !! pair_from_edge edge) in
        let g2 := with_edge_index g1 (delete (pair_from_edge edge) (edge_index g1)) in
        let g3 :=
          if bool_decide (lei = tei) then g2
          else
            match graph_edge g2 !! lei with
            | None => g2
            | Some last =>
                let g21 := with_edge_index g2
                             (delete (pair_from_edge last) (edge_index g2)) in
                let g22 := with_graph_edge g21
                             (swap_elements (graph_edge g21) tei lei) in
                let g23 := with_edge_index g22
                             (<[pair_from_edge last := tei]> (edge_index g22)) in
                set_edge g23 last
            end in
        with_graph_edge g3 (removelast (graph_edge g3))
  end.

Definition destroy_edge (g : VG) (side1 side2 : NodeSide) : VG :=
  destroy_edge_ptr g (get_edge g side1 side2).

(** [destroy_edge(const handle_t&, const handle_t&)] (lines 204-213). *)
Definition destroy_edge_handles (g : VG) (left right : Z) : VG :=
  match get_edge g (Handle.get_id left, negb (Handle.get_is_reverse left))
                   (Handle.get_id right, Handle.get_is_reverse right) with
  | Some found => destroy_edge_ptr g (Some found)
  | None => g
  end.

(** [create_edge(const handle_t&, const handle_t&)] (lines 199-202). *)
Definition create_edge_handles (g : VG) (left right : Z) : res VG :=
  from ← get_node g (Handle.get_id left);
  to ← get_node g (Handle.get_id right);
  Ok (fst (create_edge g (node_id from) (node_id to)
             (Handle.get_is_reverse left) (Handle.get_is_reverse right))).

(** [destroy_node] on a [Node] pointer (lines 4000-4055).  The paths are not touched. *)
Definition destroy_node_ptr (g : VG) (node : Node) : VG :=
  if negb (has_node g (node_id node)) then g
  else
    let edges_to_destroy :=
      set_of_list sides_ltb
        ((pair_from_start_edge (node_id node) <$> edges_start g (node_id node))
         ++ (pair_from_end_edge (node_id node) <$> edges_end g (node_id node))) in
    let g1 := foldl (fun g e => destroy_edge g e.1 e.2) g edges_to_destroy in
    let g2 := with_edges_on_start g1 (delete (node_id node) (edges_on_start g1)) in
    let g3 := with_edges_on_end g2 (delete (node_id node) (edges_on_end g2)) in
    let lni := (length (graph_node g3) - 1)%nat in
    let tni := default 0%nat (node_index g3 !! node_id node) in
    let g4 :=
      if bool_decide (lni = tni) then g3
      else
        match graph_node g3 !! lni with
        | None => g3
        | Some last =>
            let g31 := with_graph_node g3 (swap_elements (graph_node g3) tni lni) in
            let g32 := with_node_by_id g31 (<[node_id last := last]> (node_by_id g31)) in
            let g33 := with_node_index g32 (delete (node_id last) (node_index g32)) in
            with_node_index g33 (<[node_id last := tni]> (node_index g33))
        end in
    let g5 := with_node_by_id g4 (delete (node_id node) (node_by_id g4)) in
    let g6 := with_node_index g5 (delete (node_id node) (node_index g5)) in
    with_graph_node g6 (removelast (graph_node g6)).

(** [destroy_node(id_t)] (lines 3996-3998) and [destroy_handle]
    (lines 194-197). *)
Definition destroy_node (g : VG) (id : Z) : res VG :=
  node ← get_node g id;
  Ok (destroy_node_ptr g node).

Definition destroy_handle (g : VG) (handle : Z) : res VG :=
  destroy_node g (Handle.get_id handle).

(** ** Traversals (vg.cpp, lines 4453-4485) *)

Definition NodeTraversal : Type := Node * bool.

Definition nodes_prev (g : VG) (node : NodeTraversal) : res (list NodeTraversal) :=
  let left_nodes := if node.2 then edges_end g (node_id node.1)
                    else edges_start g (node_id node.1) in
  mapM (fun prev : Z * bool =>
          n ← get_node g prev.1; Ok (n, xorb prev.2 node.2)) left_nodes.

Definition nodes_next (g : VG) (node : NodeTraversal) : res (list NodeTraversal) :=
  let right_nodes := if node.2 then edges_start g (node_id node.1)
                     else edges_end g (node_id node.1) in
  mapM (fun next : Z * bool =>
          n ← get_node g next.1; Ok (n, xorb next.2 node.2)) right_nodes.

(** ** The path collection *)

Module Paths.

(** Modelled from the spec: the path collection (path.hpp, path.cpp) is not
    part of the sources at hand.  A collection is a list of named paths,
    each "an ordered list of mappings"; the per-node queries used by the
    graph edits are computed from that list.  A mapping pointer is
    represented by the mapping it points to and the name of its path; an
    iterator into a path is a position in its list.  Sets of mapping
    pointers are enumerated in path order. *)
Definition t : Type := list (string * list mapping_t).

Definition get_path (ps : t) (name : string) : list mapping_t :=
  default [] (snd <$> List.find (fun p => bool_decide (p.1 = name)) ps).

Fixpoint alter_path (f : list mapping_t -> list mapping_t) (name : string) (ps : t) : t :=
  match ps with
  | [] => []
  | (n, ms) :: rest =>
      if decide (n = name) then (n, f ms) :: rest
      else (n, ms) :: alter_path f name rest
  end.

Definition has_path (ps : t) (name : string) : bool :=
  bool_decide (name ∈ fst <$> ps).

(** Modelled from the spec: [get_create_path]. *)
Definition get_create_path (ps : t) (name : string) : t :=
  if has_path ps name then ps else ps ++ [(name, [])].

Definition mappings_on (id : Z) (ms : list mapping_t) : list mapping_t :=
  filter (fun m => m_node_id m = id) ms.

(** Modelled from the spec: [get_node_mapping_by_path_name], the mappings
    on a node grouped by the name of their path. *)
Definition get_node_mapping_by_path_name (ps : t) (id : Z) : list (string * list mapping_t) :=
  omap (fun p : string * list mapping_t =>
          match mappings_on id p.2 with
          | [] => None
          | l => Some (p.1, l)
          end) ps.

(** Modelled from the spec: [of_node], "the set of path names" a node
    carries. *)
Definition of_node (ps : t) (id : Z) : gset string :=
  list_to_set (fst <$> get_node_mapping_by_path_name ps id).

Definition has_node_mapping (ps : t) (id : Z) : bool :=
  match get_node_mapping_by_path_name ps id with
  | [] => false
  | _ => true
  end.

(** Modelled from the spec: [remove_mapping(m)] takes the mapping out of
    its path and returns the position that followed it. *)
Definition remove_mapping (ps : t) (name : string) (m : mapping_t) : t * nat :=
  match list_find (fun x => x = m) (get_path ps name) with
  | Some (i, _) => (alter_path (delete i) name ps, i)
  | None => (ps, length (get_path ps name))
  end.

(** Modelled from the spec: [insert_mapping(name, before, mapping)] puts the
    mapping before the given position and returns the position of the new
    mapping. *)
Definition insert_mapping (ps : t) (before : nat) (name : string) (m : mapping_t) : t * nat :=
  (alter_path (fun ms => take before ms ++ m :: drop before ms) name ps, before).

(** Modelled from the spec: [append_mapping(name, mapping)] adds the mapping
    at the end of the named path, creating the path when needed. *)
Definition append_mapping (ps : t) (name : string) (m : mapping_t) : t :=
  alter_path (fun ms => ms ++ [m]) name (get_create_path ps name).

(** Modelled from the spec: cutting a mapping yields "two mappings summing
    to the original"; both keep the node, the orientation and the rank of
    the mapping they come from.  The offset is a [size_t]. *)
Definition cut_mapping (m : mapping_t) (offset : Z) : mapping_t * mapping_t :=
  let offset := offset mod 2 ^ 64 in
  let left_length := Z.min offset (m_length m) in
  (set_length left_length m, set_length (m_length m - left_length) m).

(** [std::map<int, T>]: association list sorted by key. *)
Section rank_map.
Context {A : Type}.

Fixpoint rmap_insert (k : Z) (v : A) (m : list (Z * A)) : list (Z * A) :=
    match m with
    | [] => [(k, v)]
    | (k', v') :: m' =>
        if k <? k' then (k, v) :: m
        else if k =? k' then (k, v) :: m'
        else (k', v') :: rmap_insert k v m'
    end.

Fixpoint rmap_find (k : Z) (m : list (Z * A)) : option A :=
    match m with
    | [] => None
    | (k', v') :: m' => if k =? k' then Some v' else rmap_find k m'
    end.

Fixpoint rmap_erase (k : Z) (m : list (Z * A)) : list (Z * A) :=
    match m with
    | [] => []
    | (k', v') :: m' => if k =? k' then m' else (k', v') :: rmap_erase k m'
    end.
End rank_map.

Definition by_rank (ms : list mapping_t) : list (Z * mapping_t) :=
  foldl (fun r m => rmap_insert (m_rank m) m r) [] ms.

(** Modelled from the spec: [get_node_mapping_copies_by_rank], copies of
    the mappings on a node by path name, then by rank. *)
Definition get_node_mapping_copies_by_rank (ps : t) (id : Z)
    : list (string * list (Z * mapping_t)) :=
  (fun p : string * list mapping_t => (p.1, by_rank p.2))
    <$> get_node_mapping_by_path_name ps id.

End Paths.

(** ** Perfect path neighbours (vg.cpp, lines 1647-1728) *)

(** [mapping_is_total_match]; a [mapping_t] carries no edits, so it is a
    simple match by construction. *)
Definition mapping_is_total_match (g : VG) (m : mapping_t) : res bool :=
  node ← get_node g (m_node_id m);
  Ok (m_length m =? Z.of_nat (length (node_sequence node))).

Section perfect_neighbors.
Variables (left_backward right_backward : bool).

(** The inner loop over the ranked mappings of the left node: look up the
      partner on the right node, compare orientations, erase the partner. *)
Fixpoint verify_ranked (ranked1 ranked2 : list (Z * mapping_t))
      : option (list (Z * mapping_t)) :=
    match ranked1 with
    | [] => Some ranked2
    | (rank, m) :: rest =>
        let with_left := eqb (m_is_reverse m) left_backward in
        match Paths.rmap_find (rank + (if with_left then 1 else -1)) ranked2 with
        | None => None
        | Some f =>
            if negb (eqb with_left (eqb (m_is_reverse f) right_backward)) then None
            else verify_ranked rest
                   (Paths.rmap_erase (rank + (if with_left then 1 else -1)) ranked2)
        end
    end.

(** The outer loop over the path names of [r1]; [r2] is updated in
      place.  [None] is the early [return false]. *)
Fixpoint verify_adjacency (r1 : list (string * list (Z * mapping_t)))
      (r2 : list (string * list (Z * mapping_t)))
      : option (list (string * list (Z * mapping_t))) :=
    match r1 with
    | [] => Some r2
    | (name, ranked1) :: rest =>
        let ranked2 := default [] (snd <$> List.find (fun p => bool_decide (p.1 = name)) r2) in
        match verify_ranked ranked1 ranked2 with
        | None => None
        | Some ranked2' =>
            verify_adjacency rest
              ((fun p : string * list (Z * mapping_t) =>
                  if decide (p.1 = name) then (p.1, ranked2') else p) <$> r2)
        end
    end.
End perfect_neighbors.

Definition nodes_are_perfect_path_neighbors (g : VG) (left right : NodeTraversal) : bool :=
  if bool_decide (Paths.of_node (paths g) (node_id left.1)
                  ≠ Paths.of_node (paths g) (node_id right.1)) then false
  else
    let m1 := Paths.get_node_mapping_by_path_name (paths g) (node_id left.1) in
    let m2 := Paths.get_node_mapping_by_path_name (paths g) (node_id right.1) in
    let r1 := (fun p : string * list mapping_t => (p.1, Paths.by_rank p.2)) <$> m1 in
    let r2 := (fun p : string * list mapping_t =>
                 (p.1, Paths.by_rank
                         (default [] (snd <$> List.find (fun q => bool_decide (q.1 = p.1)) m2))))
                <$> m1 in
    match verify_adjacency left.2 right.2 r1 r2 with
    | None => false
    | Some r2' =>
        forallb (fun p : string * list (Z * mapping_t) =>
                   match p.2 with [] => true | _ => false end) r2'
    end.

(** ** Sequences *)

(** Modelled from the spec: [reverse_complement] (utility.cpp) is not part
    of the sources at hand; "reverse traversal reads end to start as the
    reverse complement", over the alphabet A, C, G, T, N. *)
Definition complement (c : ascii) : ascii :=
  if decide (c = "A"%char) then "T"%char
  else if decide (c = "T"%char) then "A"%char
  else if decide (c = "C"%char) then "G"%char
  else if decide (c = "G"%char) then "C"%char
  else c.

Definition reverse_complement (seq : list ascii) : list ascii :=
  complement <$> reverse seq.

(** [std::string::substr(pos, count)]; [count] is a [size_t], so a negative
    difference of two [int]s asks for the rest of the string. *)
Definition substr (s : list ascii) (pos : Z) (count : Z) : list ascii :=
  if count <? 0 then drop (Z.to_nat pos) s
  else take (Z.to_nat count) (drop (Z.to_nat pos) s).

(** ** Dividing a node (vg.cpp, lines 4190-4398) *)

Definition seq_size (node : Node) : Z := Z.of_nat (length (node_sequence node)).

(** The check of all positions; the first offending one is reported. *)
Definition check_positions (node : Node) (positions : list Z) : res unit :=
  match List.find (fun pos => (pos <? 0) || (seq_size node <? pos)) positions with
  | Some pos => Err (DivideOutOfRange (node_id node) pos (seq_size node))
  | None => Ok tt
  end.

(** The nodes ending at the given positions, then the node with the
    remaining sequence. *)
Fixpoint create_parts (g : VG) (node : Node) (last_pos : Z) (positions : list Z)
    : res (VG * list Node) :=
  match positions with
  | [] =>
      '(g1, last_node) ← create_node g (drop (Z.to_nat last_pos) (node_sequence node));
      Ok (g1, [last_node])
  | pos :: rest =>
      '(g1, new_node) ← create_node g (substr (node_sequence node) last_pos (pos - last_pos));
      '(g2, parts) ← create_parts g1 node pos rest;
      Ok (g2, new_node :: parts)
  end.

Definition id_flag_pair_ltb : (Z * bool) * (Z * bool) -> (Z * bool) * (Z * bool) -> bool :=
  pair_ltb side_ltb side_ltb.

Definition front_id (node : Node) (parts : list Node) : Z :=
  node_id (default node (head parts)).
Definition back_id (node : Node) (parts : list Node) : Z :=
  node_id (List.last parts node).

Definition divide_edges_to_create (g : VG) (node : Node) (parts : list Node)
    : list ((Z * bool) * (Z * bool)) :=
  set_of_list id_flag_pair_ltb
    (((fun e : Z * bool =>
         let first := if e.1 =? node_id node
                      then (if e.2 then front_id node parts else back_id node parts)
                      else e.1 in
         ((first, e.2), (front_id node parts, false)))
        <$> edges_start g (node_id node))
     ++ ((fun e : Z * bool =>
            let first := if e.1 =? node_id node
                         then (if e.2 then back_id node parts else front_id node parts)
                         else e.1 in
            ((back_id node parts, false), (first, e.2)))
           <$> edges_end g (node_id node))).

Fixpoint connect_parts (g : VG) (parts : list Node) : VG :=
  match parts with
  | a :: (b :: _) as rest =>
      connect_parts (create_edge g (node_id a) (node_id b) false false).1 rest
  | _ => g
  end.

(** The cuts of one mapping, in node order. *)
Fixpoint cut_parts (node_len : Z) (remainder : mapping_t) (local_offset : Z)
    (positions : list Z) (parts : list Node) (back : Z) : list mapping_t :=
  match positions, parts with
  | pos :: positions', part :: parts' =>
      let halves :=
        if m_is_reverse remainder
        then (let h := Paths.cut_mapping remainder (node_len - pos) in (h.2, h.1))
        else Paths.cut_mapping remainder (pos - local_offset) in
      set_node_id (node_id part) halves.1
        :: cut_parts node_len halves.2 pos positions' parts' back
  | _, _ => [set_node_id back remainder]
  end.

(** Replace one mapping of the divided node by its pieces. *)
Definition divide_one_mapping (node : Node) (positions : list Z) (parts : list Node)
    (ps : Paths.t) (path_name : string) (m : mapping_t) : Paths.t :=
  let mapping_parts := cut_parts (seq_size node) m 0 positions parts (back_id node parts) in
  let is_rev := m_is_reverse m in
  let '(ps1, mpit) := Paths.remove_mapping ps path_name m in
  fst (foldl (fun (acc : Paths.t * nat) part =>
                Paths.insert_mapping acc.1 acc.2 path_name part)
             (ps1, mpit)
             (if is_rev then mapping_parts else reverse mapping_parts)).

Definition divide_paths (node : Node) (positions : list Z) (parts : list Node)
    (ps : Paths.t) : Paths.t :=
  if Paths.has_node_mapping ps (node_id node) then
    let to_divide :=
      mbind (fun pm : string * list mapping_t => (fun m => (pm.1, m)) <$> pm.2)
            (Paths.get_node_mapping_by_path_name ps (node_id node)) in
    foldl (fun ps nm => divide_one_mapping node positions parts ps nm.1 nm.2) ps to_divide
  else ps.

Definition divide_node (g : VG) (node : Node) (positions : list Z)
    : res (VG * list Node) :=
  _ ← check_positions node positions;
  '(g1, parts) ← create_parts g node 0 positions;
  let g2 := foldl (fun g e => (create_edge g e.1.1 e.2.1 e.1.2 e.2.2).1) g1
                  (divide_edges_to_create g1 node parts) in
  let g3 := connect_parts g2 parts in
  let g4 := with_paths g3 (divide_paths node positions parts (paths g3)) in
  Ok (destroy_node_ptr g4 node, parts).

(** ** Concatenating a run of nodes (vg.cpp, lines 1856-2031) *)

Definition assert (b : bool) (what : string) : res unit :=
  if b then Ok tt else Err (AssertFailed what).

Definition concat_mappings_for_nodes (g : VG) (nodes : list NodeTraversal)
    : res (list (string * list mapping_t)) :=
  let total_length := foldl (fun acc (t : NodeTraversal) => acc + seq_size t.1) 0 nodes in
  _ ← assert (0 <? total_length) "total_length > 0";
  match nodes with
  | [] => Ok []
  | front :: _ =>
      Ok ((fun nr : string * list (Z * mapping_t) =>
             (nr.1,
              (fun rm : Z * mapping_t =>
                 let m := if front.2
                          then set_is_reverse (negb (m_is_reverse rm.2)) rm.2
                          else rm.2 in
                 set_length total_length m) <$> nr.2))
            <$> Paths.get_node_mapping_copies_by_rank (paths g) (node_id front.1))
  end.

Definition remove_mappings_of (ps : Paths.t) (id : Z) : Paths.t :=
  foldl (fun ps (nm : string * mapping_t) => (Paths.remove_mapping ps nm.1 nm.2).1) ps
        (mbind (fun pm : string * list mapping_t => (fun m => (pm.1, m)) <$> pm.2)
               (Paths.get_node_mapping_by_path_name ps id)).

Definition append_new_mappings (ps : Paths.t) (id : Z)
    (new_mappings : list (string * list mapping_t)) : Paths.t :=
  foldl (fun ps (nm : string * list mapping_t) =>
           foldl (fun ps m => Paths.append_mapping ps nm.1 (set_node_id id m)) ps nm.2)
        ps new_mappings.

(** The loop over the traversals left of the first one. *)
Fixpoint connect_prev (g : VG) (node : Node) (front back : NodeTraversal)
    (prevs : list NodeTraversal) : res VG :=
  match prevs with
  | [] => Ok g
  | prev :: rest =>
      g1 ← (if node_id prev.1 =? node_id back.1 then
              let backward := xorb prev.2 back.2 in
              _ ← assert (negb backward) "!prev.backward";
              Ok (create_edge g (node_id node) (node_id node) backward false).1
            else if node_id prev.1 =? node_id front.1 then
              let backward := xorb prev.2 front.2 in
              _ ← assert backward "prev.backward";
              Ok (create_edge g (node_id node) (node_id node) backward false).1
            else
              Ok (create_edge g (node_id prev.1) (node_id node) prev.2 false).1);
      connect_prev g1 node front back rest
  end.

(** The loop over the traversals right of the last one. *)
Fixpoint connect_next (g : VG) (node : Node) (front back : NodeTraversal)
    (nexts : list NodeTraversal) : res VG :=
  match nexts with
  | [] => Ok g
  | next :: rest =>
      g1 ← (if node_id next.1 =? node_id back.1 then
              let backward := xorb next.2 back.2 in
              _ ← assert backward "next.backward";
              Ok (create_edge g (node_id node) (node_id node) false backward).1
            else if node_id next.1 =? node_id front.1 then
              Ok g
            else
              Ok (create_edge g (node_id node) (node_id next.1) false next.2).1);
      connect_next g1 node front back rest
  end.

Definition concat_nodes (g : VG) (nodes : list NodeTraversal) : res (VG * Node) :=
  match nodes with
  | [] => Err (AssertFailed "!nodes.empty() && nodes.front() != nodes.back()")
  | front :: _ =>
      let back := List.last nodes front in
      _ ← assert (negb (bool_decide (node_id front.1 = node_id back.1 /\ front.2 = back.2)))
                 "!nodes.empty() && nodes.front() != nodes.back()";
      new_mappings ← concat_mappings_for_nodes g nodes;
      let seq := mbind (fun n : NodeTraversal =>
                          if n.2 then reverse_complement (node_sequence n.1)
                          else node_sequence n.1) nodes in
      '(g1, node) ← create_node g seq;
      let ps1 := foldl (fun ps (n : NodeTraversal) => remove_mappings_of ps (node_id n.1))
                       (paths g1) nodes in
      let ps2 := append_new_mappings ps1 (node_id node) new_mappings in
      let g2 := with_paths g1 ps2 in
      prevs ← nodes_prev g2 front;
      g3 ← connect_prev g2 node front back prevs;
      nexts ← nodes_next g3 back;
      g4 ← connect_next g3 node front back nexts;
      Ok (foldl (fun g (n : NodeTraversal) => destroy_node_ptr g n.1) g4 nodes, node)
  end.

(** ** Re-orienting a node (vg.cpp, lines 113-157, 219-297) *)

Definition get_sequence (g : VG) (handle : Z) : res (list ascii) :=
  match node_by_id g !! Handle.get_id handle with
  | Some node =>
      Ok (if negb (Z.land handle Handle.HIGH_BIT =? 0)
          then reverse_complement (node_sequence node)
          else node_sequence node)
  | None => Err (NoNode (Handle.get_id handle))
  end.

(** [follow_edges] with an iteratee that collects the handles and never
    stops the iteration. *)
Definition follow_edges_collect (g : VG) (handle : Z) (go_left : bool) : list Z :=
  let is_reverse := Handle.get_is_reverse handle in
  let edge_set := if xorb go_left is_reverse then edges_on_start g else edges_on_end g in
  match edge_set !! Handle.get_id handle with
  | Some found =>
      (fun id_and_flip : Z * bool =>
         Handle.get_handle id_and_flip.1 (xorb is_reverse id_and_flip.2)) <$> found
  | None => []
  end.

Fixpoint reconnect_left (g : VG) (handle rev_handle new_handle : Z) (left_nodes : list Z)
    : res VG :=
  match left_nodes with
  | [] => Ok g
  | left_node :: rest =>
      let left' := if left_node =? handle then Handle.flip new_handle
                   else if left_node =? rev_handle then new_handle else left_node in
      g1 ← create_edge_handles g left' new_handle;
      reconnect_left g1 handle rev_handle new_handle rest
  end.

Fixpoint reconnect_right (g : VG) (handle rev_handle new_handle : Z) (right_nodes : list Z)
    : res VG :=
  match right_nodes with
  | [] => Ok g
  | right_node :: rest =>
      let right' := if right_node =? handle then Handle.flip new_handle
                    else if right_node =? rev_handle then new_handle else right_node in
      g1 ← create_edge_handles g new_handle right';
      reconnect_right g1 handle rev_handle new_handle rest
  end.

Definition apply_orientation (g : VG) (handle : Z) : res (VG * Z) :=
  if negb (Handle.get_is_reverse handle) then Ok (g, handle)
  else
    let rev_handle := Handle.flip handle in
    let right_nodes := follow_edges_collect g handle false in
    let left_nodes := follow_edges_collect g handle true in
    let g1 := foldl (fun g left => destroy_edge_handles g left handle) g left_nodes in
    let g2 := foldl (fun g right => destroy_edge_handles g handle right) g1 right_nodes in
    new_sequence ← get_sequence g2 handle;
    let id := Handle.get_id handle in
    g3 ← destroy_handle g2 handle;
    '(g4, new_node) ← create_node_with_id g3 new_sequence id;
    let new_handle := Handle.get_handle id false in
    g5 ← reconnect_left g4 handle rev_handle new_handle left_nodes;
    g6 ← reconnect_right g5 handle rev_handle new_handle right_nodes;
    Ok (g6, new_handle).

(** ** Unfolding inversions (vg.cpp, lines 7243-7510) *)

(** [get_edge] on two traversals (lines 3700-3705): from the right side of
    the left traversal to the left side of the right one.  An [Edge] pointer
    is modelled by the record it points to, the null pointer by [None]. *)
Definition get_edge_travs (g : VG) (left_trav right_trav : NodeTraversal) : option Edge :=
  get_edge g (node_id left_trav.1, negb left_trav.2) (node_id right_trav.1, right_trav.2).

(** Modelled from the spec: the order of [std::set<NodeTraversal>]
    (nodetraversal.hpp is not part of the sources at hand).  The source
    compares node pointers, then the orientation; the node id stands in for
    the pointer. *)
Definition trav_ltb (a b : NodeTraversal) : bool :=
  side_ltb (node_id a.1, a.2) (node_id b.1, b.2).

(** [travs_from] and [travs_to] (lines 4436-4451). *)
Definition travs_from (g : VG) (node : NodeTraversal) : res (list NodeTraversal) :=
  fromv ← nodes_next g node;
  Ok (set_of_list trav_ltb fromv).

Definition travs_to (g : VG) (node : NodeTraversal) : res (list NodeTraversal) :=
  tov ← nodes_prev g node;
  Ok (set_of_list trav_ltb tov).

(** [NodeTraversal::reverse]. *)
Definition trav_reverse (t : NodeTraversal) : NodeTraversal := (t.1, negb t.2).

(** [emplace] and [insert] on an [unordered_set]: the set is listed in the
    order of first insertion, which is also the order in which the model
    iterates over it (the source leaves that order to the hash table). *)
Definition emplace {A : Type} `{EqDecision A} (x : A) (s : list A) : list A :=
  if bool_decide (x ∈ s) then s else s ++ [x].

(** A loop whose body may fail. *)
Fixpoint fold_res {A B : Type} (f : A -> B -> res A) (a : A) (l : list B) : res A :=
  match l with
  | [] => Ok a
  | x :: l' => a' ← f a x; fold_res f a' l'
  end.

(** [main_orientation[id]]: a missing key reads as the default pair.  The
    source would also insert the default, but it reads only keys that are
    present or were just tested with [count]. *)
Definition orientation_of (mo : gmap Z (Z * bool)) (id : Z) : Z * bool :=
  default (0, false) (mo !! id).

(** The state of the orientation-inducing search: the graph being built, the
    induced orientation of each node, the edges traversed forward, the edges
    found to flip onto the reverse strand, and the stack, whose back is the
    head of the list. *)
Record dfs_state := mkDfs {
  dfs_unfolded : VG;
  dfs_orientation : gmap Z (Z * bool);
  dfs_forward : list (option Edge);
  dfs_reversing : list (NodeTraversal * NodeTraversal);
  dfs_stack : list NodeTraversal }.

Definition oriented_sequence (t : NodeTraversal) : list ascii :=
  if t.2 then reverse_complement (node_sequence t.1) else node_sequence t.1.

(** The body of the loop over [travs_from(trav)] (lines 7287-7323). *)
Definition visit_next (g : VG) (trav : NodeTraversal) (oriented_trav : Z * bool)
    (st : dfs_state) (next : NodeTraversal) : res dfs_state :=
  match dfs_orientation st !! node_id next.1 with
  | Some oriented_next =>
      let trav_edge := get_edge_travs g trav next in
      if negb (eqb next.2 oriented_next.2) then
        Ok (mkDfs (dfs_unfolded st) (dfs_orientation st) (dfs_forward st)
                  (emplace (trav, next) (dfs_reversing st)) (dfs_stack st))
      else if negb (bool_decide (trav_edge ∈ dfs_forward st)) then
        Ok (mkDfs (create_edge (dfs_unfolded st) oriented_trav.1 oriented_next.1
                               false false).1
                  (dfs_orientation st) (emplace trav_edge (dfs_forward st))
                  (dfs_reversing st) (dfs_stack st))
      else Ok st
  | None =>
      '(u1, new_node) ← create_node (dfs_unfolded st) (oriented_sequence next);
      Ok (mkDfs (create_edge u1 oriented_trav.1 (node_id new_node) false false).1
                (<[node_id next.1 := (node_id new_node, next.2)]> (dfs_orientation st))
                (emplace (get_edge_travs g trav next) (dfs_forward st))
                (dfs_reversing st)
                (next :: dfs_stack st))
  end.

(** The body of the loop over [travs_to(trav)] (lines 7326-7364). *)
Definition visit_prev (g : VG) (trav : NodeTraversal) (oriented_trav : Z * bool)
    (st : dfs_state) (prev : NodeTraversal) : res dfs_state :=
  match dfs_orientation st !! node_id prev.1 with
  | Some oriented_prev =>
      let trav_edge := get_edge_travs g prev trav in
      if negb (eqb prev.2 oriented_prev.2) then
        Ok (mkDfs (dfs_unfolded st) (dfs_orientation st) (dfs_forward st)
                  (emplace (trav_reverse trav, trav_reverse prev) (dfs_reversing st))
                  (dfs_stack st))
      else if negb (bool_decide (trav_edge ∈ dfs_forward st)) then
        Ok (mkDfs (create_edge (dfs_unfolded st) oriented_prev.1 oriented_trav.1
                               false false).1
                  (dfs_orientation st) (emplace trav_edge (dfs_forward st))
                  (dfs_reversing st) (dfs_stack st))
      else Ok st
  | None =>
      '(u1, new_node) ← create_node (dfs_unfolded st) (oriented_sequence prev);
      Ok (mkDfs (create_edge u1 (node_id new_node) oriented_trav.1 false false).1
                (<[node_id prev.1 := (node_id new_node, prev.2)]> (dfs_orientation st))
                (emplace (get_edge_travs g prev trav) (dfs_forward st))
                (dfs_reversing st)
                (prev :: dfs_stack st))
  end.

(** One turn of the [while (!stack.empty())] loop, after the pop. *)
Definition dfs_visit (g : VG) (st : dfs_state) (trav : NodeTraversal) : res dfs_state :=
  let oriented_trav := orientation_of (dfs_orientation st) (node_id trav.1) in
  nexts ← travs_from g trav;
  st1 ← fold_res (visit_next g trav oriented_trav) st nexts;
  prevs ← travs_to g trav;
  fold_res (visit_prev g trav oriented_trav) st1 prevs.

(** The [while] loop; [None] when the turns allowed are used up. *)
Fixpoint dfs_loop (fuel : nat) (g : VG) (st : dfs_state) : option (res dfs_state) :=
  match dfs_stack st with
  | [] => Some (Ok st)
  | trav :: rest =>
      match fuel with
      | O => None
      | S fuel' =>
          match dfs_visit g (mkDfs (dfs_unfolded st) (dfs_orientation st) (dfs_forward st)
                                   (dfs_reversing st) rest) trav with
          | Ok st' => dfs_loop fuel' g st'
          | Err e => Some (Err e)
          end
      end
  end.

(** The body of the loop over the nodes of the graph (lines 7257-7366). *)
Definition orient_from (fuel : nat) (g : VG) (st : dfs_state) (node : Node)
    : option (res dfs_state) :=
  if bool_decide (is_Some (dfs_orientation st !! node_id node)) then Some (Ok st)
  else
    match create_node (dfs_unfolded st) (node_sequence node) with
    | Ok (u1, inducing_node) =>
        dfs_loop fuel g
          (mkDfs u1 (<[node_id node := (node_id inducing_node, false)]> (dfs_orientation st))
                 (dfs_forward st) (dfs_reversing st) [(node, false)])
    | Err e => Some (Err e)
    end.

Fixpoint orient_all (fuel : nat) (g : VG) (st : dfs_state) (nodes : list Node)
    : option (res dfs_state) :=
  match nodes with
  | [] => Some (Ok st)
  | node :: rest =>
      match orient_from fuel g st node with
      | Some (Ok st') => orient_all fuel g st' rest
      | other => other
      end
  end.

Definition induce_orientation (fuel : nat) (g : VG) : option (res dfs_state) :=
  orient_all fuel g (mkDfs empty_graph ∅ [] [] []) (graph_node g).

(** The state of the search along the reverse strand: the graph being
    built, the reverse-strand copy of each node copied so far, the edges
    added within the copy, the traversals queued so far, and the priority
    queue, smallest distance first.  Among traversals at the same distance
    the model takes the one queued first; the source leaves that order to
    the heap. *)
Record search_state := mkSearch {
  s_unfolded : VG;
  s_reversed_nodes : gmap Z Z;
  s_reversed_edges : list (option Edge);
  s_queued : list (Z * bool);
  s_queue : list (NodeTraversal * Z) }.

Fixpoint queue_push (x : NodeTraversal * Z) (q : list (NodeTraversal * Z))
    : list (NodeTraversal * Z) :=
  match q with
  | [] => [x]
  | y :: q' => if x.2 <? y.2 then x :: y :: q' else y :: queue_push x q'
  end.

(** [reversed_nodes[id]]: a missing key reads as 0. *)
Definition reversed_of (rn : gmap Z Z) (id : Z) : Z := default 0 (rn !! id).

(** The copy of a node on the reverse of the main orientation is made when
    the node has none yet. *)
Definition ensure_reversed (mo : gmap Z (Z * bool)) (u : VG) (rn : gmap Z Z) (node : Node)
    : res (VG * gmap Z Z) :=
  if bool_decide (is_Some (rn !! node_id node)) then Ok (u, rn)
  else
    '(u1, rev_node) ← create_node u (if (orientation_of mo (node_id node)).2
                                     then node_sequence node
                                     else reverse_complement (node_sequence node));
    Ok (u1, <[node_id node := node_id rev_node]> rn).

Definition enqueue (t : NodeTraversal) (dist : Z) (st : search_state) : search_state :=
  if bool_decide ((node_id t.1, t.2) ∈ s_queued st) then st
  else mkSearch (s_unfolded st) (s_reversed_nodes st) (s_reversed_edges st)
                (emplace (node_id t.1, t.2) (s_queued st))
                (queue_push (t, dist) (s_queue st)).

(** The body of the loop over the reversing edges (lines 7392-7427). *)
Definition search_init (mo : gmap Z (Z * bool)) (st : search_state)
    (init : NodeTraversal * NodeTraversal) : res search_state :=
  let init_trav := init.1 in
  let init_next := init.2 in
  '(u1, rn1) ← ensure_reversed mo (s_unfolded st) (s_reversed_nodes st) init_next.1;
  let u2 :=
    if eqb init_trav.2 (orientation_of mo (node_id init_trav.1)).2
    then (create_edge u1 (orientation_of mo (node_id init_trav.1)).1
                      (reversed_of rn1 (node_id init_next.1)) false false).1
    else (create_edge u1 (reversed_of rn1 (node_id init_next.1))
                      (orientation_of mo (node_id init_trav.1)).1 false false).1 in
  Ok (enqueue init_next 0
        (mkSearch u2 rn1 (s_reversed_edges st) (s_queued st) (s_queue st))).

(** The body of the loop over [travs_from(dist_trav.trav)]
    (lines 7445-7493). *)
Definition search_next (g : VG) (mo : gmap Z (Z * bool)) (trav : NodeTraversal)
    (dist_thru : Z) (st : search_state) (next : NodeTraversal) : res search_state :=
  if eqb (eqb next.2 (orientation_of mo (node_id next.1)).2)
         (eqb trav.2 (orientation_of mo (node_id trav.1)).2)
  then
    '(u1, rn1) ← ensure_reversed mo (s_unfolded st) (s_reversed_nodes st) next.1;
    let edge := get_edge_travs g trav next in
    let st2 :=
      if bool_decide (edge ∈ s_reversed_edges st)
      then mkSearch u1 rn1 (s_reversed_edges st) (s_queued st) (s_queue st)
      else
        let u2 :=
          if eqb trav.2 (orientation_of mo (node_id trav.1)).2
          then (create_edge u1 (reversed_of rn1 (node_id next.1))
                            (reversed_of rn1 (node_id trav.1)) false false).1
          else (create_edge u1 (reversed_of rn1 (node_id trav.1))
                            (reversed_of rn1 (node_id next.1)) false false).1 in
        mkSearch u2 rn1 (emplace edge (s_reversed_edges st)) (s_queued st) (s_queue st) in
    Ok (enqueue next dist_thru st2)
  else Ok st.

(** The [while (!queue.empty())] loop; [None] when the turns allowed are
    used up. *)
Fixpoint search_loop (fuel : nat) (g : VG) (mo : gmap Z (Z * bool)) (max_length : Z)
    (st : search_state) : option (res search_state) :=
  match s_queue st with
  | [] => Some (Ok st)
  | (trav, dist) :: rest =>
      match fuel with
      | O => None
      | S fuel' =>
          let st0 := mkSearch (s_unfolded st) (s_reversed_nodes st) (s_reversed_edges st)
                              (s_queued st) rest in
          let dist_thru := dist + seq_size trav.1 in
          if max_length <=? dist_thru then search_loop fuel' g mo max_length st0
          else
            match nexts ← travs_from g trav;
                  fold_res (search_next g mo trav dist_thru) st0 nexts with
            | Ok st' => search_loop fuel' g mo max_length st'
            | Err e => Some (Err e)
            end
      end
  end.

(** The backward node translators (lines 7497-7505); the tables are read in
    the order of their keys. *)
Definition translate_back (mo : gmap Z (Z * bool)) (rn : gmap Z Z)
    (node_translation : gmap Z (Z * bool)) : gmap Z (Z * bool) :=
  let t1 := foldl (fun t (rec : Z * (Z * bool)) => <[rec.2.1 := (rec.1, rec.2.2)]> t)
                  node_translation (map_to_list mo) in
  foldl (fun t (rec : Z * Z) => <[rec.2 := (rec.1, negb (orientation_of mo rec.1).2)]> t)
        t1 (map_to_list rn).

(** [unfold(max_length, node_translation)]: the unfolded graph and the
    translation table.  With [max_length = 0] the graph is returned right
    after the orientation is induced, and the table is left as it was. *)
Definition unfold (fuel : nat) (g : VG) (max_length : Z)
    (node_translation : gmap Z (Z * bool)) : option (res (VG * gmap Z (Z * bool))) :=
  match induce_orientation fuel g with
  | None => None
  | Some (Err e) => Some (Err e)
  | Some (Ok oriented) =>
      if max_length =? 0 then Some (Ok (dfs_unfolded oriented, node_translation))
      else
        match fold_res (search_init (dfs_orientation oriented))
                       (mkSearch (dfs_unfolded oriented) ∅ [] [] [])
                       (dfs_reversing oriented) with
        | Err e => Some (Err e)
        | Ok st0 =>
            match search_loop fuel g (dfs_orientation oriented) max_length st0 with
            | None => None
            | Some (Err e) => Some (Err e)
            | Some (Ok st) =>
                Some (Ok (s_unfolded st,
                          translate_back (dfs_orientation oriented) (s_reversed_nodes st)
                                         node_translation))
            end
        end
  end.

(** * Specification-side predicates

    The definitions of this part follow the words of the specification;
    the theorems compare them with the functions above. *)

(** ** Perfect path neighbours, as the specification words them *)

Module NeighborSpec.

Section conditions.
Variables (g : VG) (u v : NodeTraversal).

(** The mappings of the named path that lie on a node. *)
Definition on_node (name : string) (n : NodeTraversal) : list mapping_t :=
  Paths.mappings_on (node_id n.1) (Paths.get_path (paths g) name).

(** (a) "they carry exactly the same set of path names". *)
Definition same_path_names : Prop :=
  forall name : string, on_node name u <> [] <-> on_node name v <> [].

(** A mapping on [u] and a mapping on [v] are "consecutive in rank and
    consistently oriented": a mapping that runs with the traversal [u] is
    followed, one rank later, by a mapping that runs with [v]; one that runs
    against [u] is preceded, one rank earlier, by one that runs against
    [v]. *)
Definition consecutive_and_oriented (m f : mapping_t) : Prop :=
  m_rank f = m_rank m + (if eqb (m_is_reverse m) u.2 then 1 else -1)
  /\ eqb (m_is_reverse m) u.2 = eqb (m_is_reverse f) v.2.

(** (b) "for every such path the mappings on u and v are consecutive in
    rank and consistently oriented": the mappings on the two nodes pair
    off. *)
Definition paired_on (name : string) : Prop :=
  exists pairing : list (mapping_t * mapping_t),
    pairing.*1 ≡ₚ on_node name u
    /\ pairing.*2 ≡ₚ on_node name v
    /\ Forall (fun p => consecutive_and_oriented p.1 p.2) pairing.

Definition consecutive_on_every_path : Prop :=
  forall name : string, paired_on name.

(** (c) "the mappings fully cover each node with single match edits". *)
Definition mappings_cover_nodes : Prop :=
  forall (name : string) (m : mapping_t),
    m ∈ on_node name u ++ on_node name v ->
    mapping_is_total_match g m = Ok true.

End conditions.

End NeighborSpec.

(** The invariants of the path collection that the data model states:
    path names are unique, and no two mappings of a path share a rank. *)
Definition paths_well_formed (ps : Paths.t) : Prop :=
  NoDup ps.*1 /\ Forall (fun p : string * list mapping_t => NoDup (m_rank <$> p.2)) ps.

(** ** The edge index invariant, as the specification words it *)

(** The two sides an edge record attaches to. *)
Definition side_a (e : Edge) : NodeSide := (edge_from e, negb (edge_from_start e)).
Definition side_b (e : Edge) : NodeSide := (edge_to e, edge_to_end e).

(** The adjacency list kept for a side. *)
Definition adjacency (g : VG) (s : NodeSide) : list (Z * bool) :=
  if s.2 then edges_end g s.1 else edges_start g s.1.

(** The entry that the list of side [a] holds for an edge to side [b]:
    "(other node id, relative-orientation bit)". *)
Definition entry_for (a b : NodeSide) : Z * bool := (b.1, eqb a.2 b.2).

(** "For every edge e between sides (a, b): both adjacency lists (on a's
    node, on b's node) contain the counterpart entry, and exactly one
    canonical record exists." *)
Definition edge_indexed (g : VG) (e : Edge) : Prop :=
  entry_for (side_a e) (side_b e) ∈ adjacency g (side_a e)
  /\ entry_for (side_b e) (side_a e) ∈ adjacency g (side_b e)
  /\ edge_by_sides g !! pair_from_edge e = Some e
  /\ length (filter (fun e' => pair_from_edge e' = pair_from_edge e) (graph_edge g)) = 1%nat.

Definition every_edge_indexed (g : VG) : Prop :=
  forall e : Edge, e ∈ graph_edge g -> edge_indexed g e.

(** ** Consistency of the store

    The tables of the class agree with the two repeated fields: this is
    what the class maintains between calls, and what the theorems about the
    mutations assume of the graph they start from. *)

(** Every edge record is found under its canonical side pair and at its
    slot, the table of side pairs holds nothing else, and the adjacency
    lists hold the entries of every edge. *)
Definition edges_wf (g : VG) : Prop :=
  NoDup (pair_from_edge <$> graph_edge g)
  /\ (forall (i : nat) (e : Edge), graph_edge g !! i = Some e ->
        edge_by_sides g !! pair_from_edge e = Some e
        /\ edge_index g !! pair_from_edge e = Some i)
  /\ (forall (k : NodeSide * NodeSide) (e : Edge), edge_by_sides g !! k = Some e ->
        e ∈ graph_edge g /\ pair_from_edge e = k)
  /\ (forall e : Edge, e ∈ graph_edge g ->
        entry_for (side_a e) (side_b e) ∈ adjacency g (side_a e)
        /\ entry_for (side_b e) (side_a e) ∈ adjacency g (side_b e)).

(** Node ids are unique, every node record is found under its id and at
    its slot, and the table of ids holds nothing else. *)
Definition nodes_wf (g : VG) : Prop :=
  NoDup (node_id <$> graph_node g)
  /\ (forall (i : nat) (n : Node), graph_node g !! i = Some n ->
        node_by_id g !! node_id n = Some n
        /\ node_index g !! node_id n = Some i)
  /\ (forall (id : Z) (n : Node), node_by_id g !! id = Some n ->
        n ∈ graph_node g /\ node_id n = id).

(** ** Dividing a node, as the specification words it *)

(** "The substring pieces in order": the piece up to the first offset, the
    pieces between consecutive offsets, and the piece after the last
    offset. *)
Fixpoint pieces (s : list ascii) (last_pos : Z) (offsets : list Z) : list (list ascii) :=
  match offsets with
  | [] => [drop (Z.to_nat last_pos) s]
  | pos :: rest =>
      take (Z.to_nat (pos - last_pos)) (drop (Z.to_nat last_pos) s)
        :: pieces s pos rest
  end.

(** "Offsets must be strictly in (0, length) and strictly increasing." *)
Fixpoint offsets_valid (last_pos len : Z) (offsets : list Z) : Prop :=
  match offsets with
  | [] => True
  | pos :: rest => last_pos < pos < len /\ offsets_valid pos len rest
  end.

(** ** Path sequences *)

(** The sequence a path spells: the sequences of the nodes of its mappings
    in list order, each read in the orientation of its mapping. *)
Definition path_sequence (g : VG) (ms : list mapping_t) : list ascii :=
  mbind (fun m : mapping_t =>
           match node_by_id g !! m_node_id m with
           | Some n => if m_is_reverse m then reverse_complement (node_sequence n)
                       else node_sequence n
           | None => []
           end) ms.




(** A run of forward traversals, as [concat_nodes] takes it. *)
Definition forward_run (parts : list Node) : list NodeTraversal :=
  (fun n => (n, false)) <$> parts.


(** ** Unfolding, as the specification words it *)

(** Consecutive traversals are joined by an edge of the graph. *)
Fixpoint joined (g : VG) (w : list NodeTraversal) : Prop :=
  match w with
  | a :: (b :: _) as rest => is_Some (get_edge_travs g a b) /\ joined g rest
  | _ => True
  end.

(** A walk: a non-empty run of traversals of nodes of the graph, each joined
    to the next. *)
Definition is_walk (g : VG) (w : list NodeTraversal) : Prop :=
  w <> [] /\ Forall (fun t : NodeTraversal => t.1 ∈ graph_node g) w /\ joined g w.

(** The sequence a walk spells. *)
Definition walk_sequence (w : list NodeTraversal) : list ascii :=
  w ≫= oriented_sequence.

Definition on_reverse_strand (w : list NodeTraversal) : Prop :=
  Forall (fun t : NodeTraversal => t.2 = true) w.

Definition on_forward_strand (w : list NodeTraversal) : Prop :=
  Forall (fun t : NodeTraversal => t.2 = false) w.

(** "Every walk of length at most L on the reverse strand of the original
    graph corresponds to a forward walk in the unfolded graph with identical
    sequence." *)
Definition reverse_walks_unfolded (g unfolded : VG) (max_length : Z) : Prop :=
  forall w, is_walk g w -> on_reverse_strand w ->
    Z.of_nat (length (walk_sequence w)) <= max_length ->
    exists w', is_walk unfolded w' /\ on_forward_strand w'
               /\ walk_sequence w' = walk_sequence w.

(** ** Example graphs used by the concrete checks below *)

Definition three_nodes : list Node :=
  [mkNode 1 (dna "A"); mkNode 2 (dna "C"); mkNode 3 (dna "G")].


(** Two nodes on one path; the mapping on the first node covers one of its
    two bases only. *)
Definition half_covered_graph : VG :=
  mkVG [mkNode 1 (dna "AC"); mkNode 2 (dna "GT")] []
       {[ 1 := mkNode 1 (dna "AC"); 2 := mkNode 2 (dna "GT") ]}
       {[ 1 := 0%nat; 2 := 1%nat ]} ∅ ∅ ∅ ∅ 3
       [("P"%string, [mkMapping 1 false 1 1; mkMapping 2 false 2 2])].

(** A graph with the single node 1, made by [create_node]. *)
Definition one_node_graph : VG :=
  match create_node empty_graph (dna "ACGT") with
  | Ok (g, _) => g
  | Err _ => empty_graph
  end.

(** The same graph after a node with the explicit id 10 was added. *)
Definition two_node_graph : VG :=
  match create_node_with_id one_node_graph (dna "C") 10 with
  | Ok (g, _) => g
  | Err _ => empty_graph
  end.

(** Two nodes; node 1 carries a self-loop on its end side and a loop from
    its end to its start, and is joined to node 2. *)
Definition loops_graph : VG :=
  match create_node empty_graph (dna "ACGT") with
  | Ok (g1, _) =>
      match create_node g1 (dna "GG") with
      | Ok (g2, _) =>
          let g3 := (create_edge g2 1 1 false true).1 in
          let g4 := (create_edge g3 1 1 false false).1 in
          (create_edge g4 1 2 false false).1
      | Err _ => empty_graph
      end
  | Err _ => empty_graph
  end.

(** The reverse handle of node 1. *)
Definition node_1_reverse : Z := Handle.get_handle 1 true.

(** The reverse handle of node 2, whose sequence GG is not its own reverse
    complement, and [loops_graph] after node 2 was re-oriented. *)
Definition node_2_reverse : Z := Handle.get_handle 2 true.

Definition loops_graph_node_2_reoriented : VG :=
  match apply_orientation loops_graph node_2_reverse with
  | Ok (g, _) => g
  | Err _ => empty_graph
  end.

(** The graph of the literal scenario: node 1 with sequence AAAACCCC and
    path P mapping the whole node as a match of rank 1. *)
Definition scenario_node : Node := mkNode 1 (dna "AAAACCCC").

Definition scenario_graph : VG :=
  match create_node empty_graph (dna "AAAACCCC") with
  | Ok (g, _) => with_paths g [("P"%string, [mkMapping 1 false 8 1])]
  | Err _ => empty_graph
  end.

(** Two nodes A and C joined end to start: a graph without inversions. *)
Definition chain_graph : VG :=
  match create_node empty_graph (dna "A") with
  | Ok (g1, _) =>
      match create_node g1 (dna "C") with
      | Ok (g2, _) => (create_edge g2 1 2 false false).1
      | Err _ => empty_graph
      end
  | Err _ => empty_graph
  end.

(** The chain with an inverting self-loop on the end of node 2. *)
Definition hairpin_graph : VG := (create_edge chain_graph 2 2 false true).1.

(** A graph in which the reverse strand is entered at two places, behind
    the nodes 5 and 6, both of which lead back to node 3: through node 4
    from node 5 (two bases), and directly from node 6 (ten bases).  Beyond
    node 3 lie the nodes 2 and 1. *)
Definition detour_graph : VG :=
  let add_node (seq : string) (g : VG) : VG :=
    match create_node g (dna seq) with
    | Ok (g', _) => g'
    | Err _ => g
    end in
  let add_edge (from to : Z) (to_end : bool) (g : VG) : VG :=
    (create_edge g from to false to_end).1 in
  add_edge 6 6 true
    (add_edge 5 5 true
       (add_edge 3 6 false
          (add_edge 4 5 false
             (add_edge 3 4 false
                (add_edge 2 3 false
                   (add_edge 1 2 false
                      (add_node "AAAAAAAAAA"
                         (add_node "A"
                            (add_node "A"
                               (add_node "A"
                                  (add_node "A"
                                     (add_node "C" empty_graph)))))))))))).

(** Three nodes in a row, the middle one without sequence. *)
Definition null_node_graph : VG :=
  let add_node (seq : string) (g : VG) : VG :=
    match create_node g (dna seq) with
    | Ok (g', _) => g'
    | Err _ => g
    end in
  (create_edge
     (create_edge (add_node "C" (add_node "" (add_node "A" empty_graph)))
                  1 2 false false).1
     2 3 false false).1.

(** The chain with a loop on node 2, written from its start to its end. *)
Definition reversed_edge_graph : VG := (create_edge chain_graph 2 2 true true).1.


(** * Auxiliary definitions for the proofs *)

(** Dropping the slot [i] of a repeated field: the last element is swapped
    into the slot and the last slot is released. *)
Definition release_slot {A : Type} (l : list A) (i : nat) : list A :=
  removelast (if bool_decide ((length l - 1)%nat = i) then l
              else swap_elements l i (length l - 1)).

(** The entries that indexing an edge appends to the adjacency list of the
    side [s]: the entry for the far side on the list of the near side, and
    the counterpart unless the edge is a self-loop on a single side. *)
Definition new_entries (e : Edge) (s : NodeSide) : list (Z * bool) :=
  (if decide (s = side_a e) then [entry_for (side_a e) (side_b e)] else [])
  ++ (if decide (side_a e <> side_b e /\ s = side_b e)
      then [entry_for (side_b e) (side_a e)] else []).

(** Two graphs agree on everything but the edge store. *)
Definition same_nodes (g g' : VG) : Prop :=
  graph_node g' = graph_node g /\ node_by_id g' = node_by_id g
  /\ node_index g' = node_index g /\ current_id g' = current_id g
  /\ paths g' = paths g.

(** Two graphs agree on the edge store. *)
Definition same_edges (g g' : VG) : Prop :=
  graph_edge g' = graph_edge g /\ edge_by_sides g' = edge_by_sides g
  /\ edge_index g' = edge_index g /\ edges_on_start g' = edges_on_start g
  /\ edges_on_end g' = edges_on_end g.

(** The id counter is positive and, once it has left its initial value 1,
    lies above every id in use. *)
Definition counter_ok (g : VG) : Prop :=
  0 < current_id g
  /\ (current_id g = 1 \/ forall n, n ∈ graph_node g -> node_id n < current_id g).

(** The id that [create_node] without an id hands out: the counter, which
    is first set to one more than the largest id when it still has its
    initial value 1. *)
Definition next_id (g : VG) : Z :=
  if current_id g =? 1 then max_node_id g + 1 else current_id g.

(** An edge attaches to the node [id]. *)
Definition incident (id : Z) (e : Edge) : Prop :=
  edge_from e = id \/ edge_to e = id.

(** The pairs that [destroy_node] collects from the two adjacency lists of
    the node. *)
Definition edges_to_destroy (g : VG) (id : Z) : list (NodeSide * NodeSide) :=
  set_of_list sides_ltb
    ((pair_from_start_edge id <$> edges_start g id)
     ++ (pair_from_end_edge id <$> edges_end g id)).


(** The store after the edges of the node are gone and its two adjacency
    lists are erased. *)
Definition without_edges_of (g : VG) (id : Z) : VG :=
  let g1 := foldl (fun g e => destroy_edge g e.1 e.2) g (edges_to_destroy g id) in
  let g2 := with_edges_on_start g1 (delete id (edges_on_start g1)) in
  with_edges_on_end g2 (delete id (edges_on_end g2)).

(** The second half of [destroy_node]: the node leaves its slot, the id
    table and the slot table. *)
Definition release_node (g3 : VG) (id : Z) : VG :=
  let lni := (length (graph_node g3) - 1)%nat in
  let tni := default 0%nat (node_index g3 !! id) in
  let g4 :=
    if bool_decide (lni = tni) then g3
    else
      match graph_node g3 !! lni with
      | None => g3
      | Some last =>
          let g31 := with_graph_node g3 (swap_elements (graph_node g3) tni lni) in
          let g32 := with_node_by_id g31 (<[node_id last := last]> (node_by_id g31)) in
          let g33 := with_node_index g32 (delete (node_id last) (node_index g32)) in
          with_node_index g33 (<[node_id last := tni]> (node_index g33))
      end in
  let g5 := with_node_by_id g4 (delete id (node_by_id g4)) in
  let g6 := with_node_index g5 (delete id (node_index g5)) in
  with_graph_node g6 (removelast (graph_node g6)).

(** ** Executable checks of the consistency predicates *)

Fixpoint slots_ok {A : Type} (check : nat -> A -> bool) (i : nat) (l : list A) : bool :=
  match l with
  | [] => true
  | x :: l' => check i x && slots_ok check (S i) l'
  end.

Definition nodes_wf_check (g : VG) : bool :=
  bool_decide (NoDup (node_id <$> graph_node g))
  && slots_ok (fun i n =>
                 bool_decide (node_by_id g !! node_id n = Some n
                              /\ node_index g !! node_id n = Some i))
              0 (graph_node g)
  && forallb (fun p : Z * Node => bool_decide (p.2 ∈ graph_node g /\ node_id p.2 = p.1))
             (map_to_list (node_by_id g)).

Definition edges_wf_check (g : VG) : bool :=
  bool_decide (NoDup (pair_from_edge <$> graph_edge g))
  && slots_ok (fun i e =>
                 bool_decide (edge_by_sides g !! pair_from_edge e = Some e
                              /\ edge_index g !! pair_from_edge e = Some i))
              0 (graph_edge g)
  && forallb (fun p : NodeSide * NodeSide * Edge =>
                bool_decide (p.2 ∈ graph_edge g /\ pair_from_edge p.2 = p.1))
             (map_to_list (edge_by_sides g))
  && forallb (fun e =>
                bool_decide (entry_for (side_a e) (side_b e) ∈ adjacency g (side_a e)
                             /\ entry_for (side_b e) (side_a e) ∈ adjacency g (side_b e)))
             (graph_edge g).

Definition counter_ok_check (g : VG) : bool :=
  (0 <? current_id g)
  && ((current_id g =? 1)
      || forallb (fun n => node_id n <? current_id g) (graph_node g)).

(** No adjacency entry is kept for the node [id]. *)
Definition no_edges_at (g : VG) (id : Z) : Prop :=
  edges_start g id = [] /\ edges_end g id = [].







(** Offsets that do not decrease and stay within the closed interval
    [0, length]: what the check of [divide_node] lets through, in order. *)
Fixpoint offsets_in_range (last_pos len : Z) (offsets : list Z) : Prop :=
  match offsets with
  | [] => True
  | pos :: rest => last_pos <= pos <= len /\ offsets_in_range pos len rest
  end.


(** ** More of the handle interface (vg.cpp, lines 102-157, 299-335) *)

(** [get_length]: the length of the stored sequence, without the reverse
    complement; a missing node throws. *)
Definition get_length (g : VG) (handle : Z) : res Z :=
  match node_by_id g !! Handle.get_id handle with
  | Some node => Ok (seq_size node)
  | None => Err (NoNode (Handle.get_id handle))
  end.

Section follow.
Context {S : Type}.

(** The loop of [follow_edges] over the entries found, with its early
    [return false]. *)
Fixpoint follow_loop (iteratee : @Iteration.visitor S) (is_reverse : bool)
    (found : list (Z * bool)) (s : S) : bool * S :=
  match found with
  | [] => (true, s)
  | id_and_flip :: rest =>
      let new_reverse := xorb is_reverse id_and_flip.2 in
      let '(go_on, s') := iteratee (Handle.get_handle id_and_flip.1 new_reverse) s in
      if go_on then follow_loop iteratee is_reverse rest s' else (false, s')
  end.

(** [follow_edges]: the answer is [false] when the iteratee stopped the
    iteration. *)
Definition follow_edges (g : VG) (handle : Z) (go_left : bool)
    (iteratee : @Iteration.visitor S) (s : S) : bool * S :=
  let is_reverse := Handle.get_is_reverse handle in
  let edge_set := if xorb go_left is_reverse then edges_on_start g else edges_on_end g in
  match edge_set !! Handle.get_id handle with
  | Some found => follow_loop iteratee is_reverse found s
  | None => (true, s)
  end.
End follow.

(** [create_handle] (lines 184-192): the new node, as a forward handle. *)
Definition create_handle (g : VG) (sequence : list ascii) : res (VG * Z) :=
  '(g', node) ← create_node g sequence;
  Ok (g', Handle.get_handle (node_id node) false).

Definition create_handle_with_id (g : VG) (sequence : list ascii) (id : Z)
    : res (VG * Z) :=
  '(g', node) ← create_node_with_id g sequence id;
  Ok (g', Handle.get_handle id false).

(** The conversion of a [size_t] to [int]: the low 32 bits, read in two's
    complement. *)
Definition to_int (z : Z) : Z := (z + 2 ^ 31) mod 2 ^ 32 - 2 ^ 31.

(** [divide_handle] (lines 299-335): the offsets of a reverse handle are
    measured from the other end and taken in the opposite order; the parts
    come back in the orientation of the handle, in its reading order. *)
Definition divide_handle (g : VG) (handle : Z) (offsets : list Z) : res (VG * list Z) :=
  node ← get_node g (Handle.get_id handle);
  let is_reverse := Handle.get_is_reverse handle in
  int_offsets ←
    (if is_reverse then
       node_size ← get_length g handle;
       Ok ((fun offset => to_int (Handle.to_size_t (node_size - offset)))
             <$> reverse offsets)
     else Ok (to_int <$> offsets));
  '(g', parts) ← divide_node g node int_offsets;
  let to_return := (fun n : Node => Handle.get_handle (node_id n) is_reverse) <$> parts in
  Ok (g', if is_reverse then reverse to_return else to_return).

(** The lengths of the pieces that the offsets cut out of the stretch from
    [last_pos] to [len]. *)
Fixpoint piece_lengths (last_pos : Z) (offsets : list Z) (len : Z) : list Z :=
  match offsets with
  | [] => [len - last_pos]
  | pos :: rest => (pos - last_pos) :: piece_lengths pos rest len
  end.

(** The offsets of a reverse handle, measured from the other end. *)
Definition mirror_offsets (len : Z) (offsets : list Z) : list Z :=
  (fun offset => len - offset) <$> reverse offsets.

(** ** Node ids and slots (vg.cpp, lines 2496-2505, 3644-3650) *)

Definition min_node_id (g : VG) : Z :=
  foldl (fun min_id n => if node_id n <? min_id then node_id n else min_id)
        (max_node_id g) (graph_node g).

(** [swap_nodes]: the two slots are read with [operator[]], which yields 0
    for a missing key. *)
Definition swap_nodes (g : VG) (a b : Node) : VG :=
  let aidx := default 0%nat (node_index g !! node_id a) in
  let bidx := default 0%nat (node_index g !! node_id b) in
  let g1 := with_graph_node g (swap_elements (graph_node g) aidx bidx) in
  let g2 := with_node_index g1 (<[node_id a := bidx]> (node_index g1)) in
  with_node_index g2 (<[node_id b := aidx]> (node_index g2)).

(** The exchange of two positions, as a map on positions. *)
Definition transpose (i j k : nat) : nat :=
  if decide (k = i) then j else if decide (k = j) then i else k.

(** ** Removing edges by kind (vg.cpp, lines 4130-4141, 7511-7533) *)

(** An edge that attaches to exactly one start and one end the wrong way
    round: one of its two flags is set, not both. *)
Definition is_inverting (e : Edge) : bool :=
  negb (edge_from_start e && edge_to_end e) && (edge_from_start e || edge_to_end e).

Definition has_inverting_edges (g : VG) : bool := existsb is_inverting (graph_edge g).

(** The shape shared by [remove_inverting_edges] and [remove_orphan_edges]:
    [for_each_edge] collects the side pairs of the edges that satisfy the
    test into a [std::set], then every pair is destroyed. *)
Definition remove_edges_where (test : Edge -> bool) (g : VG) : VG :=
  let edges := set_of_list sides_ltb (pair_from_edge <$> filter (fun e => test e) (graph_edge g)) in
  foldl (fun g e => destroy_edge g e.1 e.2) g edges.

Definition remove_inverting_edges (g : VG) : VG := remove_edges_where is_inverting g.

Definition is_orphan (g : VG) (e : Edge) : bool :=
  negb (has_node g (edge_from e)) || negb (has_node g (edge_to e)).

Definition remove_orphan_edges (g : VG) : VG := remove_edges_where (is_orphan g) g.

(** ** Removing nodes (vg.cpp, lines 4057-4128) *)

Definition remove_null_nodes (g : VG) : res VG :=
  let to_remove :=
    node_id <$> filter (fun n => node_sequence n = []) (graph_node g) in
  fold_res destroy_node g to_remove.

(** [remove_node_forwarding_edges]: every node on the start of the node is
    joined to every node on its end, keeping the relative orientations; then
    the mappings on the node and the node itself go. *)
Definition remove_node_forwarding_edges (g : VG) (node : Node) : VG :=
  let start_entries := edges_start g (node_id node) in
  let end_entries := edges_end g (node_id node) in
  let edges_to_create :=
    set_of_list id_flag_pair_ltb
      (start_entries ≫= fun start_pair =>
         (fun end_pair => (start_pair, end_pair)) <$> end_entries) in
  let g1 := foldl (fun g (e : (Z * bool) * (Z * bool)) =>
                     (create_edge g e.1.1 e.2.1 e.1.2 e.2.2).1) g edges_to_create in
  let ps := if Paths.has_node_mapping (paths g1) (node_id node)
            then remove_mappings_of (paths g1) (node_id node)
            else paths g1 in
  destroy_node_ptr (with_paths g1 ps) node.

(** ** Building the tables from the lists (vg.cpp, lines 2084-2191) *)

(** One turn of the loop of [build_node_indexes]: the node at slot [i]. *)
Definition index_node (g : VG) (slot : nat * Node) : VG :=
  let g1 := with_node_index g (<[node_id slot.2 := slot.1]> (node_index g)) in
  with_node_by_id g1 (<[node_id slot.2 := slot.2]> (node_by_id g1)).

Definition build_node_indexes (g : VG) : VG :=
  foldl index_node g (imap pair (graph_node g)).

(** One turn of the loop of [build_edge_indexes]: the edge at slot [i]. *)
Definition index_edge (g : VG) (slot : nat * Edge) : VG :=
  let g1 := with_edge_index g (<[pair_from_edge slot.2 := slot.1]> (edge_index g)) in
  index_edge_by_node_sides g1 slot.2.

Definition build_edge_indexes (g : VG) : VG :=
  foldl index_edge g (imap pair (graph_edge g)).

Definition build_indexes (g : VG) : VG := build_edge_indexes (build_node_indexes g).

Definition clear_node_indexes (g : VG) : VG :=
  with_node_by_id (with_node_index g ∅) ∅.

Definition clear_edge_indexes (g : VG) : VG :=
  with_edges_on_end
    (with_edges_on_start (with_edge_index (with_edge_by_sides g ∅) ∅) ∅) ∅.

Definition clear_indexes (g : VG) : VG := clear_edge_indexes (clear_node_indexes g).

(** [rebuild_indexes]; the node mapping of the paths is a derived table in
    this development, so rebuilding it changes nothing. *)
Definition rebuild_indexes (g : VG) : VG := build_indexes (clear_indexes g).

(** ** The reverse complement of a graph (vg.cpp, lines 3448-3474) *)

Definition reverse_node (n : Node) : Node :=
  mkNode (node_id n) (reverse_complement (node_sequence n)).

Definition reverse_edge (e : Edge) : Edge :=
  mkEdge (edge_to e) (edge_from e) (edge_to_end e) (edge_from_start e).

Definition reverse_complement_graph (g : VG) (node_translation : gmap Z (Z * bool))
    : VG * gmap Z (Z * bool) :=
  let max_id := foldl (fun m n => Z.max m (node_id n)) 0 (graph_node g) in
  let rev_comp :=
    mkVG (reverse_node <$> graph_node g) (reverse_edge <$> graph_edge g)
         ∅ ∅ ∅ ∅ ∅ ∅ (max_id + 1) [] in
  (build_indexes rev_comp,
   foldl (fun t n => <[node_id n := (node_id n, true)]> t) node_translation (graph_node g)).

(** ** Adjacency lists and edges *)

(** The adjacency lists hold the entries of the edges and nothing else,
    each as often as the edges say. *)
Definition adjacency_exact (g : VG) : Prop :=
  forall s : NodeSide, adjacency g s ≡ₚ graph_edge g ≫= fun e => new_entries e s.

(** ** The edges of a node (vg.cpp, lines 609-636, 7535-7545) *)

(** The side pair that an adjacency entry of the side [s] stands for. *)
Definition pair_from_entry (s : NodeSide) (x : Z * bool) : NodeSide * NodeSide :=
  if s.2 then pair_from_end_edge s.1 x else pair_from_start_edge s.1 x.

(** An edge that touches both the start and the end of its node. *)
Definition on_both_sides (e : Edge) : Prop :=
  edge_from e = edge_to e /\ edge_from_start e = edge_to_end e.

(** [edges_of_node]: the edge records of the entries on the start, then of
    those on the end; an edge on both sides is taken with the start only.
    [None] stands for the [exit(1)] on an entry without an edge record. *)
Definition edges_of_node (g : VG) (id : Z) : option (list Edge) :=
  on_start ← mapM (fun off_start => edge_by_sides g !! pair_from_start_edge id off_start)
                  (edges_start g id);
  on_end ← mapM (fun off_end => edge_by_sides g !! pair_from_end_edge id off_end)
                (edges_end g id);
  Some (on_start ++ filter (fun e => ~ on_both_sides e) on_end).

Definition is_self_looping (g : VG) (id : Z) : option bool :=
  edges ← edges_of_node g id;
  Some (existsb (fun e => (edge_from e =? id) && (edge_to e =? id)) edges).

Definition has_inverting_edge (g : VG) (id : Z) : option bool :=
  edges ← edges_of_node g id;
  Some (existsb (fun e => (edge_from_start e || edge_to_end e)
                          && negb (edge_from_start e && edge_to_end e)) edges).

(** ** One node for each strand (vg.cpp, lines 7170-7241) *)

(** The state of the first loop of [split_strands]: the nodes made so far,
    the id counter of the new graph, the two maps from old ids to the ids of
    the copies, and the translation. *)
Record split_state := mkSplit {
  sp_nodes : list Node;
  sp_next : Z;
  sp_forward : gmap Z Z;
  sp_reverse : gmap Z Z;
  sp_translation : gmap Z (Z * bool) }.

Definition split_node (st : split_state) (node : Node) : split_state :=
  let fwd_id := sp_next st in
  let rev_id := sp_next st + 1 in
  mkSplit
    (sp_nodes st ++ [mkNode fwd_id (node_sequence node);
                     mkNode rev_id (reverse_complement (node_sequence node))])
    (sp_next st + 2)
    (<[node_id node := fwd_id]> (sp_forward st))
    (<[node_id node := rev_id]> (sp_reverse st))
    (<[rev_id := (node_id node, true)]>
       (<[fwd_id := (node_id node, false)]> (sp_translation st))).

(** The two edges made for one edge; the maps are read with [operator[]],
    which yields 0 for an id that is not a node. *)
Definition split_edge (forward_node reverse_node : gmap Z Z) (edge : Edge) : list Edge :=
  let fwd id := default 0 (forward_node !! id) in
  let rev id := default 0 (reverse_node !! id) in
  if negb (edge_from_start edge) && negb (edge_to_end edge) then
    [mkEdge (fwd (edge_from edge)) (fwd (edge_to edge)) false false;
     mkEdge (rev (edge_to edge)) (rev (edge_from edge)) false false]
  else if edge_from_start edge && edge_to_end edge then
    [mkEdge (rev (edge_from edge)) (rev (edge_to edge)) false false;
     mkEdge (fwd (edge_to edge)) (fwd (edge_from edge)) false false]
  else if edge_from_start edge then
    [mkEdge (rev (edge_from edge)) (fwd (edge_to edge)) false false;
     mkEdge (rev (edge_to edge)) (fwd (edge_from edge)) false false]
  else
    [mkEdge (fwd (edge_from edge)) (rev (edge_to edge)) false false;
     mkEdge (fwd (edge_to edge)) (rev (edge_from edge)) false false].

Definition split_strands (g : VG) (node_translation : gmap Z (Z * bool))
    : VG * gmap Z (Z * bool) :=
  let st := foldl split_node (mkSplit [] 1 ∅ ∅ node_translation) (graph_node g) in
  let edges := graph_edge g ≫= split_edge (sp_forward st) (sp_reverse st) in
  (build_indexes (mkVG (sp_nodes st) edges ∅ ∅ ∅ ∅ ∅ ∅ (sp_next st) []),
   sp_translation st).

(** The id that [split_strands] gives to the copy of the node at slot [i]
    for one strand. *)
Definition strand_copy (i : nat) (reverse : bool) : Z :=
  2 * Z.of_nat i + (if reverse then 2 else 1).

(** ** Head and tail nodes (vg.cpp, lines 591-597 and 7106-7168) *)

Definition start_degree (g : VG) (node : Node) : nat :=
  length (edges_start g (node_id node)).

Definition end_degree (g : VG) (node : Node) : nat :=
  length (edges_end g (node_id node)).

(** [is_head_node] and [is_tail_node] on a [Node] pointer. *)
Definition is_head_node_ptr (g : VG) (node : Node) : bool :=
  Nat.eqb (start_degree g node) 0.

Definition is_tail_node_ptr (g : VG) (node : Node) : bool :=
  Nat.eqb (end_degree g node) 0.

Definition is_head_node (g : VG) (id : Z) : res bool :=
  node ← get_node g id; Ok (is_head_node_ptr g node).

Definition is_tail_node (g : VG) (id : Z) : res bool :=
  node ← get_node g id; Ok (is_tail_node_ptr g node).

Definition head_nodes (g : VG) : list Node :=
  filter (fun n => is_head_node_ptr g n) (graph_node g).

Definition tail_nodes (g : VG) : list Node :=
  filter (fun n => is_tail_node_ptr g n) (graph_node g).

(** [wrap_with_null_nodes]: the tail nodes are collected after the head node
    has been made and joined to the head nodes. *)
Definition wrap_with_null_nodes (g : VG) : res VG :=
  let heads := head_nodes g in
  '(g1, head) ← create_node g [];
  let g2 := foldl (fun g h => (create_edge g (node_id head) (node_id h) false false).1)
                  g1 heads in
  let tails := tail_nodes g2 in
  '(g3, tail) ← create_node g2 [];
  Ok (foldl (fun g t => (create_edge g (node_id t) (node_id tail) false false).1)
            g3 tails).

(** Every edge joins two nodes of the graph. *)
Definition edges_closed (g : VG) : Prop :=
  forall e, e ∈ graph_edge g ->
            has_node g (edge_from e) = true /\ has_node g (edge_to e) = true.

(** ** Strands (vg.cpp, lines 3430-3438) *)

Definition is_single_stranded (g : VG) : bool :=
  forallb (fun edge => eqb (edge_from_start edge) (edge_to_end edge)) (graph_edge g).

(** ** The sides joined to a side (vg.cpp, lines 788-817) *)

(** [Err] is the exception of [get_node]; [Ok None] stands for the
    [exit(1)] of [edges_of_node]. *)
Definition sides_to (g : VG) (side : NodeSide) : res (option (list NodeSide)) :=
  node ← get_node g side.1;
  Ok (match edges_of_node g (node_id node) with
      | None => None
      | Some edges =>
          Some (set_of_list side_ltb
                  ((fun edge => (edge_from edge, negb (edge_from_start edge)))
                     <$> filter (fun edge => edge_to edge = side.1
                                             /\ edge_to_end edge = side.2) edges))
      end).

Definition sides_from (g : VG) (side : NodeSide) : res (option (list NodeSide)) :=
  node ← get_node g side.1;
  Ok (match edges_of_node g (node_id node) with
      | None => None
      | Some edges =>
          Some (set_of_list side_ltb
                  ((fun edge => (edge_to edge, edge_to_end edge))
                     <$> filter (fun edge => edge_from edge = side.1
                                             /\ edge_from_start edge <> side.2) edges))
      end).

Definition sides_of (g : VG) (side : NodeSide) : res (option (list NodeSide)) :=
  v1 ← sides_to g side;
  match v1 with
  | None => Ok None
  | Some v1 =>
      v2 ← sides_from g side;
      match v2 with
      | None => Ok None
      | Some v2 => Ok (Some (foldl (fun s x => set_insert side_ltb x s) v1 v2))
      end
  end.

(** ** Edges reversed at both ends (vg.cpp, lines 1495-1508) *)

(** The edge that the body of [flip_doubly_reversed_edges] leaves in place of
    an edge: an edge from a start to an end becomes the edge from the end of
    [to] to the start of [from]. *)
Definition flip_edge (e : Edge) : Edge :=
  if edge_from_start e && edge_to_end e
  then mkEdge (edge_to e) (edge_from e) false false
  else e.

(** One turn of the loop of [for_each_edge]: the edge at slot [i] is changed
    in place. *)
Definition flip_edge_at (g : VG) (i : nat) : VG :=
  match graph_edge g !! i with
  | None => g
  | Some e =>
      if edge_from_start e && edge_to_end e then
        let g1 := unindex_edge_by_node_sides g e in
        let e' := mkEdge (edge_to e) (edge_from e) false false in
        let g2 := with_graph_edge g1 (<[i := e']> (graph_edge g1)) in
        index_edge_by_node_sides g2 e'
      else g
  end.

Definition flip_doubly_reversed_edges (g : VG) : VG :=
  foldl flip_edge_at g (seq 0 (length (graph_edge g))).

(** ** Joining the head nodes to a node (vg.cpp, lines 6354-6359 and 6397-6410) *)

Definition connect_node_to_nodes (g : VG) (node : Node) (nodes : list Node)
    (from_start : bool) : VG :=
  foldl (fun g n => (create_edge g (node_id node) (node_id n) from_start false).1)
        g nodes.

(** The loop that takes the given node out of the list of heads: the first
    match is erased.  The source compares pointers into the node list; the
    nodes of a list with distinct ids are told apart by their records. *)
Fixpoint erase_first (node : Node) (l : list Node) : list Node :=
  match l with
  | [] => []
  | x :: l' => if decide (x = node) then l' else x :: erase_first node l'
  end.

Definition join_heads (g : VG) (node : Node) (from_start : bool) : VG :=
  let heads := erase_first node (head_nodes g) in
  connect_node_to_nodes g node heads from_start.

(** * Properties *)

#[local] Set Warnings "-clear-no-such-hyp".

(** ** Handles *)

Lemma testbit_HIGH_BIT (i : Z) : Z.testbit Handle.HIGH_BIT i = bool_decide (i = 63).
Proof.
  unfold Handle.HIGH_BIT.
  destruct (Z.neg_nonneg_cases i) as [Hneg | Hpos].
  - rewrite Z.testbit_neg_r by lia. symmetry. apply bool_decide_eq_false. lia.
  - rewrite Z.shiftl_spec by lia.
    destruct (decide (i = 63)) as [-> | Hne].
    + reflexivity.
    + rewrite bool_decide_eq_false_2 by assumption.
      destruct (Z.neg_nonneg_cases (i - 63)).
      * apply Z.testbit_neg_r. lia.
      * replace 1 with (2 ^ 0) by reflexivity.
        rewrite Z.pow2_bits_eqb by lia.
        apply Z.eqb_neq. lia.
Qed.

Lemma small_bit_63 (z : Z) : 0 <= z < 2 ^ 63 -> Z.testbit z 63 = false.
Proof.
  intros Hz. destruct (decide (z = 0)) as [-> | Hnz].
  - apply Z.testbit_0_l.
  - apply Z.bits_above_log2; [lia |].
    apply Z.log2_lt_pow2; lia.
Qed.

Lemma to_size_t_small (z : Z) : 0 <= z < 2 ^ 63 -> Handle.to_size_t z = z.
Proof. intros Hz. unfold Handle.to_size_t. apply Z.mod_small. lia. Qed.

Lemma land_LOW_BITS_small (z : Z) : 0 <= z < 2 ^ 63 -> Z.land z Handle.LOW_BITS = z.
Proof.
  intros Hz. unfold Handle.LOW_BITS. rewrite Z.land_ones by lia.
  apply Z.mod_small. lia.
Qed.

Lemma get_id_get_handle (id : Z) (rev : bool) :
  0 <= id < 2 ^ 63 -> Handle.get_id (Handle.get_handle id rev) = id.
Proof.
  intros Hid. unfold Handle.get_id, Handle.get_handle.
  rewrite to_size_t_small by assumption.
  destruct rev; [| by apply land_LOW_BITS_small].
  rewrite Z.land_lor_distr_l, land_LOW_BITS_small by assumption.
  replace (Z.land Handle.HIGH_BIT Handle.LOW_BITS) with 0 by reflexivity.
  apply Z.lor_0_r.
Qed.

Lemma get_is_reverse_get_handle (id : Z) (rev : bool) :
  0 <= id < 2 ^ 63 -> Handle.get_is_reverse (Handle.get_handle id rev) = rev.
Proof.
  intros Hid. unfold Handle.get_is_reverse, Handle.get_handle.
  rewrite to_size_t_small by assumption.
  assert (Hlow : Z.land id Handle.HIGH_BIT = 0).
  { apply Z.bits_inj'. intros i _.
    rewrite Z.land_spec, testbit_HIGH_BIT, Z.bits_0.
    case_bool_decide as Hi; [subst i | apply andb_false_r].
    by rewrite small_bit_63. }
  destruct rev.
  - rewrite Z.land_lor_distr_l, Hlow, Z.land_diag. reflexivity.
  - rewrite Hlow. reflexivity.
Qed.

Lemma flip_flip (h : Z) : Handle.flip (Handle.flip h) = h.
Proof.
  unfold Handle.flip. rewrite Z.lxor_assoc, Z.lxor_nilpotent. apply Z.lxor_0_r.
Qed.

(** C9. The handle encoding round-trips: for every node id (a non-negative
    signed 64-bit value) and every orientation bit, [Handle.get_id] and
    [Handle.get_is_reverse] recover the two components of [Handle.get_handle id rev], and
    [Handle.flip] is an involution on handles. *)
Theorem handle_round_trip (id : Z) (rev : bool) (h : Z) :
  0 <= id < 2 ^ 63 ->
  Handle.get_id (Handle.get_handle id rev) = id
  /\ Handle.get_is_reverse (Handle.get_handle id rev) = rev
  /\ Handle.flip (Handle.flip h) = h.
Proof.
  intros Hid. split; [| split].
  - by apply get_id_get_handle.
  - by apply get_is_reverse_get_handle.
  - apply flip_flip.
Qed.

Lemma handle_round_trip_witness :
  0 <= 5 < 2 ^ 63
  /\ Handle.get_id (Handle.get_handle 5 true) = 5
  /\ Handle.get_is_reverse (Handle.get_handle 5 true) = true
  /\ Handle.flip (Handle.flip (Handle.get_handle 5 true)) = Handle.get_handle 5 true.
Proof.
  split; [lia |]. apply (handle_round_trip 5 true (Handle.get_handle 5 true)). lia.
Defined.


(** ** Node iteration *)

Lemma serial_recording_cons (answer : Z -> bool) (n : Node) (rest : list Node) (log : list Z) :
  Iteration.serial_loop (Iteration.recording answer) (n :: rest) log
  = if answer (Handle.get_handle (node_id n) false)
    then Iteration.serial_loop (Iteration.recording answer) rest (log ++ [Handle.get_handle (node_id n) false])
    else log ++ [Handle.get_handle (node_id n) false].
Proof. reflexivity. Qed.

Lemma serial_recording_app (answer : Z -> bool) (pre post : list Node) (log : list Z) :
  Forall (fun n => answer (Handle.get_handle (node_id n) false) = true) pre ->
  Iteration.serial_loop (Iteration.recording answer) (pre ++ post) log
  = Iteration.serial_loop (Iteration.recording answer) post (log ++ Iteration.handles_of pre).
Proof.
  revert log. induction pre as [| n pre IH]; intros log Hpre.
  - simpl. by rewrite app_nil_r.
  - inversion Hpre as [| ? ? Hn Hrest]; subst.
    rewrite <- app_comm_cons, serial_recording_cons, Hn, IH by assumption.
    simpl. by rewrite <- app_assoc.
Qed.

Lemma parallel_recording_log (answer : Z -> bool) (nodes : list Node)
    (schedule : list nat) (log : list Z) :
  Forall (fun i => (i < length nodes)%nat) schedule ->
  Iteration.parallel_loop (Iteration.recording answer) nodes schedule log
  = log ++ omap (fun i => (fun n => Handle.get_handle (node_id n) false) <$> nodes !! i) schedule.
Proof.
  unfold Iteration.parallel_loop. revert log.
  induction schedule as [| i sch IH]; intros log Hs; simpl.
  - by rewrite app_nil_r.
  - inversion Hs as [| ? ? Hi Hrest]; subst.
    destruct (lookup_lt_is_Some_2 nodes i Hi) as [n Hn].
    rewrite Hn. simpl. rewrite IH by assumption. by rewrite <- app_assoc.
Qed.

Lemma omap_agree {A B : Type} (f g : A -> option B) (l : list A) :
  (forall x, x ∈ l -> f x = g x) -> omap f l = omap g l.
Proof.
  induction l as [| x l IH]; intros Hfg; [reflexivity |].
  csimpl. rewrite (Hfg x) by constructor.
  rewrite IH; [reflexivity |]. intros y Hy. apply Hfg. by constructor.
Qed.

Lemma omap_lookup_seq {A B : Type} (f : A -> B) (l : list A) :
  omap (fun i => f <$> l !! i) (seq 0 (length l)) = f <$> l.
Proof.
  induction l as [| x l IH] using rev_ind; [reflexivity |].
  replace (length (l ++ [x])) with (S (length l))
    by (rewrite length_app; simpl; lia).
  rewrite seq_S, omap_app, fmap_app. simpl.
  rewrite lookup_app_r, Nat.sub_diag by lia. simpl. f_equal.
  rewrite <- IH. apply omap_agree.
  intros i Hi. apply elem_of_seq in Hi.
  by rewrite lookup_app_l by lia.
Qed.

(** C7 (as the code has it). Serial iteration stops at the first node whose
    Iteration.visitor answers [false]: the nodes before it and that node are visited,
    none after it.  Parallel iteration drops the answer of the Iteration.visitor:
    under every schedule that runs each index once, every node is visited,
    whatever the Iteration.visitor answers. *)
Theorem for_each_handle_cancellation (answer : Z -> bool)
    (pre post : list Node) (n : Node) (schedule : list nat) :
  Forall (fun m => answer (Handle.get_handle (node_id m) false) = true) pre ->
  answer (Handle.get_handle (node_id n) false) = false ->
  schedule ≡ₚ seq 0 (length (pre ++ n :: post)) ->
  Iteration.for_each_handle (Iteration.recording answer) false schedule (pre ++ n :: post) []
  = Iteration.handles_of (pre ++ [n])
  /\ Iteration.for_each_handle (Iteration.recording answer) true schedule (pre ++ n :: post) []
     ≡ₚ Iteration.handles_of (pre ++ n :: post).
Proof.
  intros Hpre Hn Hsched. split.
  - unfold Iteration.for_each_handle.
    rewrite serial_recording_app, serial_recording_cons, Hn by assumption.
    unfold Iteration.handles_of. by rewrite fmap_app.
  - unfold Iteration.for_each_handle.
    rewrite parallel_recording_log.
    + simpl. rewrite Hsched. by rewrite omap_lookup_seq.
    + apply Forall_forall. intros i Hi. rewrite Hsched in Hi.
      apply elem_of_seq in Hi. lia.
Qed.

Lemma for_each_handle_cancellation_witness :
  Iteration.for_each_handle (Iteration.recording (fun h => negb (h =? 2))) false [2; 0; 1]%nat three_nodes []
  = [1; 2]
  /\ Iteration.for_each_handle (Iteration.recording (fun h => negb (h =? 2))) true [2; 0; 1]%nat three_nodes []
     ≡ₚ [1; 2; 3].
Proof.
  apply (for_each_handle_cancellation (fun h => negb (h =? 2))
           [mkNode 1 (dna "A")] [mkNode 3 (dna "G")] (mkNode 2 (dna "C")) [2; 0; 1]%nat).
  - repeat constructor.
  - reflexivity.
  - simpl. by rewrite (Permutation_cons_append [0; 1]%nat 2%nat).
Defined.

(** C7, the claim as written fails in parallel mode: a Iteration.visitor that answers
    [false] at the very first node it is given does not stop the parallel
    loop; all three nodes are visited. *)
Lemma parallel_iteration_does_not_stop :
  let answer := fun _ : Z => false in
  Iteration.for_each_handle (Iteration.recording answer) true [0; 1; 2]%nat three_nodes [] = [1; 2; 3]
  /\ ~ (exists h, h ∈ Iteration.handles_of three_nodes
               /\ h ∉ Iteration.for_each_handle (Iteration.recording answer) true [0; 1; 2]%nat three_nodes []).
Proof.
  split; [reflexivity |].
  intros [h [Hin Hout]]. apply Hout. exact Hin.
Qed.


(** ** Perfect path neighbours *)

Section rank_map_facts.
Context {A : Type}.
Implicit Types (m : list (Z * A)) (k : Z) (v : A).

Lemma rmap_find_Some k m v : Paths.rmap_find k m = Some v -> (k, v) ∈ m.
Proof.
  induction m as [| [k' v'] m IH]; simpl; [discriminate |].
  destruct (Z.eqb_spec k k') as [-> | Hne].
  - intros [= ->]. by left.
  - intros Hf. right. by apply IH.
Qed.

Lemma rmap_find_None k m : Paths.rmap_find k m = None -> k ∉ m.*1.
Proof.
  induction m as [| [k' v'] m IH]; simpl.
  - intros _. apply not_elem_of_nil.
  - destruct (Z.eqb_spec k k') as [-> | Hne]; [discriminate |].
    intros Hf. apply not_elem_of_cons. split; [assumption | by apply IH].
Qed.

Lemma rmap_find_NoDup k v m :
  NoDup m.*1 -> (k, v) ∈ m -> Paths.rmap_find k m = Some v.
Proof.
  induction m as [| [k' v'] m IH]; simpl; intros Hnd Hin.
  - by apply elem_of_nil in Hin.
  - apply NoDup_cons in Hnd as [Hk' Hnd].
    apply elem_of_cons in Hin as [[= -> ->] | Hin].
    + by rewrite Z.eqb_refl.
    + destruct (Z.eqb_spec k k') as [-> | Hne]; [| by apply IH].
      exfalso. apply Hk'. apply list_elem_of_fmap. by exists (k', v).
Qed.

Lemma rmap_erase_perm k v m :
  Paths.rmap_find k m = Some v -> m ≡ₚ (k, v) :: Paths.rmap_erase k m.
Proof.
  induction m as [| [k' v'] m IH]; simpl; [discriminate |].
  destruct (Z.eqb_spec k k') as [-> | Hne].
  - by intros [= ->].
  - intros Hf. rewrite (IH Hf) at 1. apply Permutation_swap.
Qed.

Lemma rmap_insert_perm k v m :
  k ∉ m.*1 -> Paths.rmap_insert k v m ≡ₚ (k, v) :: m.
Proof.
  induction m as [| [k' v'] m IH]; simpl; intros Hk; [reflexivity |].
  apply not_elem_of_cons in Hk as [Hne Hk].
  destruct (k <? k'); [reflexivity |].
  destruct (Z.eqb_spec k k') as [-> | _]; [done |].
  rewrite (IH Hk). apply Permutation_swap.
Qed.
End rank_map_facts.

(** Every entry of a rank map is stored under the rank of its mapping. *)
Definition keyed (r : list (Z * mapping_t)) : Prop :=
  Forall (fun p => p.1 = m_rank p.2) r.

Lemma by_rank_acc_perm (ms : list mapping_t) (acc : list (Z * mapping_t)) :
  NoDup (acc.*1 ++ (m_rank <$> ms)) ->
  foldl (fun r m => Paths.rmap_insert (m_rank m) m r) acc ms
  ≡ₚ acc ++ ((fun m => (m_rank m, m)) <$> ms).
Proof.
  revert acc. induction ms as [| m ms IH]; intros acc Hnd; simpl.
  - by rewrite app_nil_r.
  - assert (Hm : m_rank m ∉ acc.*1).
    { apply NoDup_app in Hnd as (_ & Hdisj & _).
      intros Hin. apply (Hdisj _ Hin). by left. }
    rewrite IH.
    + rewrite (rmap_insert_perm _ _ _ Hm). simpl.
      by rewrite Permutation_middle.
    + rewrite (fmap_Permutation fst _ _ (rmap_insert_perm _ _ _ Hm)). simpl.
      by rewrite Permutation_middle.
Qed.

Lemma by_rank_perm (ms : list mapping_t) :
  NoDup (m_rank <$> ms) ->
  Paths.by_rank ms ≡ₚ (fun m => (m_rank m, m)) <$> ms.
Proof. intros Hnd. unfold Paths.by_rank. by rewrite by_rank_acc_perm. Qed.

Lemma by_rank_values (ms : list mapping_t) :
  NoDup (m_rank <$> ms) -> (Paths.by_rank ms).*2 ≡ₚ ms.
Proof.
  intros Hnd. rewrite (by_rank_perm ms Hnd), <- list_fmap_compose.
  by rewrite list_fmap_id.
Qed.

Lemma by_rank_keys (ms : list mapping_t) :
  NoDup (m_rank <$> ms) -> NoDup (Paths.by_rank ms).*1.
Proof.
  intros Hnd. rewrite (by_rank_perm ms Hnd), <- list_fmap_compose. exact Hnd.
Qed.

Lemma by_rank_keyed (ms : list mapping_t) :
  NoDup (m_rank <$> ms) -> keyed (Paths.by_rank ms).
Proof.
  intros Hnd. unfold keyed. rewrite (by_rank_perm ms Hnd).
  apply Forall_fmap, Forall_forall. by intros m _.
Qed.

Section verify_ranked_facts.
Variables (u v : NodeTraversal).

Lemma keyed_erase (k : Z) (f : mapping_t) (r : list (Z * mapping_t)) :
  keyed r -> Paths.rmap_find k r = Some f ->
  keyed (Paths.rmap_erase k r) /\ k = m_rank f.
Proof.
  intros Hkeyed Hfind. unfold keyed in *.
  rewrite (rmap_erase_perm _ _ _ Hfind) in Hkeyed.
  apply Forall_cons in Hkeyed as [Hk Hrest]. by split.
Qed.

Lemma verify_ranked_sound (r1 r2 rest : list (Z * mapping_t)) :
  keyed r1 -> keyed r2 ->
  verify_ranked u.2 v.2 r1 r2 = Some rest ->
  exists pairing : list (mapping_t * mapping_t),
    pairing.*1 = r1.*2
    /\ pairing.*2 ++ rest.*2 ≡ₚ r2.*2
    /\ Forall (fun p => NeighborSpec.consecutive_and_oriented u v p.1 p.2) pairing.
Proof.
  revert r2. induction r1 as [| [rank m] r1 IH]; intros r2 Hk1 Hk2; csimpl.
  - intros [= ->]. exists []. by repeat split.
  - apply Forall_cons in Hk1 as [Hrank Hk1]. csimpl in Hrank. subst rank.
    destruct (Paths.rmap_find _ r2) as [f |] eqn:Hfind; [| discriminate].
    destruct (negb _) eqn:Horient; [discriminate |].
    apply negb_false_iff, eqb_prop in Horient.
    destruct (keyed_erase _ _ _ Hk2 Hfind) as [Hk2' Hf].
    intros Hrec. destruct (IH _ Hk1 Hk2' Hrec) as (pairing & H1 & H2 & H3).
    exists ((m, f) :: pairing). split; [| split].
    + csimpl. by rewrite H1.
    + csimpl. rewrite H2.
      by rewrite (fmap_Permutation snd _ _ (rmap_erase_perm _ _ _ Hfind)).
    + constructor; [| assumption]. split; [by symmetry | assumption].
Qed.

Lemma verify_ranked_complete (r1 r2 : list (Z * mapping_t))
    (pairing : list (mapping_t * mapping_t)) :
  keyed r1 -> keyed r2 -> NoDup r2.*1 ->
  pairing.*1 ≡ₚ r1.*2 -> pairing.*2 ≡ₚ r2.*2 ->
  Forall (fun p => NeighborSpec.consecutive_and_oriented u v p.1 p.2) pairing ->
  verify_ranked u.2 v.2 r1 r2 = Some [].
Proof.
  revert r2 pairing.
  induction r1 as [| [rank m] r1 IH]; intros r2 pairing Hk1 Hk2 Hnd H1 H2 Hall; csimpl.
  - csimpl in H1. apply Permutation_nil_r in H1. apply fmap_nil_inv in H1. subst pairing.
    csimpl in H2. symmetry in H2. apply Permutation_nil_r in H2.
    apply fmap_nil_inv in H2. by subst r2.
  - apply Forall_cons in Hk1 as [Hrank Hk1]. csimpl in Hrank. subst rank.
    assert (Hm : m ∈ pairing.*1) by (rewrite H1; by left).
    apply list_elem_of_fmap in Hm as ([m' f] & Heq & Hin). csimpl in Heq. subst m'.
    apply elem_of_Permutation in Hin as [pairing' Hperm].
    rewrite Hperm in H1, H2, Hall. csimpl in H1; csimpl in H2.
    apply Permutation_cons_inv in H1.
    apply Forall_cons in Hall as [[Hrankf Horient] Hall]. csimpl in Hrankf; csimpl in Horient.
    assert (Hf : (m_rank f, f) ∈ r2).
    { assert (Hfin : f ∈ r2.*2) by (rewrite <- H2; by left).
      apply list_elem_of_fmap in Hfin as ([k f'] & Heq & Hin). csimpl in Heq. subst f'.
      unfold keyed in Hk2. rewrite Forall_forall in Hk2.
      specialize (Hk2 _ Hin). csimpl in Hk2. by subst k. }
    rewrite Hrankf in Hf.
    rewrite (rmap_find_NoDup _ _ _ Hnd Hf).
    assert (Hchk : negb (eqb (eqb (m_is_reverse m) u.2) (eqb (m_is_reverse f) v.2)) = false)
      by (rewrite Horient; by rewrite eqb_reflx).
    rewrite Hchk.
    pose proof (rmap_find_NoDup _ _ _ Hnd Hf) as Hfind.
    destruct (keyed_erase _ _ _ Hk2 Hfind) as [Hk2' _].
    apply (IH _ pairing' Hk1 Hk2'); [| exact H1 | | exact Hall].
    + rewrite (fmap_Permutation fst _ _ (rmap_erase_perm _ _ _ Hfind)) in Hnd.
      csimpl in Hnd. apply NoDup_cons in Hnd as [_ Hnd]. exact Hnd.
    + rewrite (fmap_Permutation snd _ _ (rmap_erase_perm _ _ _ Hfind)) in H2.
      csimpl in H2. apply Permutation_cons_inv in H2. exact H2.
Qed.
End verify_ranked_facts.

(** The two tables [r1] and [r2] of the function list the same path names
    in the same order. *)
Definition table (f : string -> list (Z * mapping_t)) (names : list string)
    : list (string * list (Z * mapping_t)) :=
  (fun n => (n, f n)) <$> names.

Lemma find_name_middle {B : Type} (n : string) (x : B) (done rest : list (string * B)) :
  n ∉ done.*1 ->
  List.find (fun p => bool_decide (p.1 = n)) (done ++ (n, x) :: rest) = Some (n, x).
Proof.
  induction done as [| [n' x'] done IH]; csimpl; intros Hn.
  - by rewrite bool_decide_eq_true_2.
  - apply not_elem_of_cons in Hn as [Hne Hn].
    rewrite bool_decide_eq_false_2 by congruence. by apply IH.
Qed.

Lemma update_name_absent {B : Type} (n : string) (x' : B) (l : list (string * B)) :
  n ∉ l.*1 ->
  (fun p : string * B => if decide (p.1 = n) then (p.1, x') else p) <$> l = l.
Proof.
  induction l as [| [n' x] l IH]; csimpl; intros Hn; [reflexivity |].
  apply not_elem_of_cons in Hn as [Hne Hn].
  rewrite decide_False by congruence. by rewrite IH.
Qed.

Lemma update_name_middle {B : Type} (n : string) (x x' : B) (done rest : list (string * B)) :
  n ∉ done.*1 -> n ∉ rest.*1 ->
  (fun p : string * B => if decide (p.1 = n) then (p.1, x') else p)
    <$> (done ++ (n, x) :: rest)
  = done ++ (n, x') :: rest.
Proof.
  intros Hdone Hrest. rewrite fmap_app, fmap_cons. simpl.
  rewrite decide_True by reflexivity.
  by rewrite !update_name_absent.
Qed.

Section verify_adjacency_facts.
Variables (u v : NodeTraversal).
Variables (f g : string -> list (Z * mapping_t)).

Lemma table_names (h : string -> list (Z * mapping_t)) (names : list string) :
  (table h names).*1 = names.
Proof.
  unfold table. rewrite <- list_fmap_compose. apply list_fmap_id.
Qed.

Lemma verify_adjacency_aligned (names : list string)
    (done : list (string * list (Z * mapping_t))) :
  NoDup names -> (forall n, n ∈ names -> n ∉ done.*1) ->
  match verify_adjacency u.2 v.2 (table f names) (done ++ table g names) with
  | Some r2' =>
      exists h, r2' = done ++ table h names
                /\ forall n, n ∈ names -> verify_ranked u.2 v.2 (f n) (g n) = Some (h n)
  | None => exists n, n ∈ names /\ verify_ranked u.2 v.2 (f n) (g n) = None
  end.
Proof.
  revert done. induction names as [| n names IH]; intros done Hnd Hdone; csimpl.
  - exists (fun _ => []). split; [reflexivity |]. intros n Hn. by apply elem_of_nil in Hn.
  - apply NoDup_cons in Hnd as [Hn Hnd].
    rewrite find_name_middle by (apply Hdone; by left). csimpl.
    destruct (verify_ranked u.2 v.2 (f n) (g n)) as [x |] eqn:Hvr.
    + rewrite update_name_middle;
        [| apply Hdone; by left | by rewrite table_names].
      specialize (IH (done ++ [(n, x)]) Hnd).
      rewrite <- app_assoc in IH. simpl in IH.
      destruct (verify_adjacency _ _ _ _) as [r2' |].
      * destruct IH as (h & -> & Hh).
        { intros n' Hn'. rewrite fmap_app. csimpl.
          rewrite elem_of_app, list_elem_of_singleton.
          intros [Hin | ->]; [| done].
          apply (Hdone n'); [by right | assumption]. }
        exists (fun n' => if decide (n' = n) then x else h n'). split.
        -- rewrite <- app_assoc. csimpl. rewrite decide_True by reflexivity.
           do 2 f_equal. unfold table. apply list_fmap_ext.
           intros i n' Hn'. apply list_elem_of_lookup_2 in Hn'.
           rewrite decide_False; [reflexivity |]. by intros ->.
        -- intros n' [-> | Hn']%elem_of_cons.
           ++ by rewrite decide_True.
           ++ rewrite decide_False by (by intros ->). by apply Hh.
      * destruct IH as (n' & Hn' & Hnone).
        { intros n' Hn'. rewrite fmap_app. csimpl.
          rewrite elem_of_app, list_elem_of_singleton.
          intros [Hin | ->]; [| done].
          apply (Hdone n'); [by right | assumption]. }
        exists n'. split; [by right | assumption].
    + exists n. split; [by left | assumption].
Qed.
End verify_adjacency_facts.

Section path_tables.
Variable ps : Paths.t.
Hypothesis names_unique : NoDup ps.*1.

Lemma get_path_elem (n : string) (ms : list mapping_t) :
  (n, ms) ∈ ps -> Paths.get_path ps n = ms.
Proof.
  unfold Paths.get_path. clear -names_unique. revert names_unique.
  induction ps as [| [n' ms'] l IH]; csimpl; intros Hnd Hin.
  - by apply elem_of_nil in Hin.
  - apply NoDup_cons in Hnd as [Hn' Hnd].
    apply elem_of_cons in Hin as [[= -> ->] | Hin].
    + by rewrite bool_decide_eq_true_2.
    + rewrite bool_decide_eq_false_2; [by apply IH |].
      intros ->. apply Hn'. apply list_elem_of_fmap. by exists (n, ms).
Qed.

Lemma get_path_absent (n : string) : n ∉ ps.*1 -> Paths.get_path ps n = [].
Proof.
  unfold Paths.get_path. clear names_unique.
  induction ps as [| [n' ms'] l IH]; csimpl; intros Hn; [reflexivity |].
  apply not_elem_of_cons in Hn as [Hne Hn].
  rewrite bool_decide_eq_false_2 by congruence. by apply IH.
Qed.

(** The names of the paths that have a mapping on the node, in path order. *)
Definition names_on (id : Z) : list string :=
  filter (fun n => Paths.mappings_on id (Paths.get_path ps n) <> []) ps.*1.

Lemma node_mapping_table_sub (id : Z) (l : list (string * list mapping_t)) :
  (forall p, p ∈ l -> Paths.get_path ps p.1 = p.2) ->
  omap (fun p : string * list mapping_t =>
          match Paths.mappings_on id p.2 with
          | [] => None
          | x => Some (p.1, x)
          end) l
  = (fun n => (n, Paths.mappings_on id (Paths.get_path ps n)))
      <$> filter (fun n => Paths.mappings_on id (Paths.get_path ps n) <> []) l.*1.
Proof.
  induction l as [| [n ms] l IH]; intros Hl; [reflexivity |].
  csimpl. rewrite filter_cons. simpl.
  pose proof (Hl (n, ms) ltac:(by left)) as Hn. simpl in Hn. rewrite Hn.
  rewrite IH by (intros p Hp; apply Hl; by right).
  destruct (Paths.mappings_on id ms) as [| m x] eqn:Hon.
  - case_decide as Hd; [by exfalso; apply Hd | reflexivity].
  - case_decide as Hd; [| done].
    rewrite fmap_cons, Hn, Hon. reflexivity.
Qed.

Lemma node_mapping_table (id : Z) :
  Paths.get_node_mapping_by_path_name ps id
  = (fun n => (n, Paths.mappings_on id (Paths.get_path ps n))) <$> names_on id.
Proof.
  unfold Paths.get_node_mapping_by_path_name, names_on.
  apply node_mapping_table_sub. intros [n ms] Hin. by apply get_path_elem.
Qed.

Lemma names_on_NoDup (id : Z) : NoDup (names_on id).
Proof. unfold names_on. by apply NoDup_filter. Qed.

Lemma elem_of_names_on (id : Z) (n : string) :
  n ∈ names_on id <-> Paths.mappings_on id (Paths.get_path ps n) <> [].
Proof.
  unfold names_on. rewrite list_elem_of_filter. split; [by intros [H _] |].
  intros Hne. split; [assumption |].
  destruct (decide (n ∈ ps.*1)) as [Hin | Hout]; [assumption |].
  exfalso. apply Hne. by rewrite get_path_absent.
Qed.

Lemma of_node_names (id : Z) (n : string) :
  n ∈ Paths.of_node ps id <-> Paths.mappings_on id (Paths.get_path ps n) <> [].
Proof.
  unfold Paths.of_node. rewrite elem_of_list_to_set, node_mapping_table.
  rewrite <- list_fmap_compose, list_fmap_id. apply elem_of_names_on.
Qed.

Lemma find_node_mapping (id : Z) (n : string) :
  default [] (snd <$> List.find (fun q : string * list mapping_t => bool_decide (q.1 = n))
                        (Paths.get_node_mapping_by_path_name ps id))
  = Paths.mappings_on id (Paths.get_path ps n).
Proof.
  rewrite node_mapping_table.
  destruct (decide (n ∈ names_on id)) as [Hin | Hout].
  - apply list_elem_of_split in Hin as (l1 & l2 & Heq).
    pose proof (names_on_NoDup id) as Hnd. rewrite Heq in Hnd |- *.
    apply NoDup_app in Hnd as (_ & Hdisj & _).
    rewrite fmap_app, fmap_cons.
    rewrite find_name_middle; [reflexivity |].
    rewrite <- list_fmap_compose, list_fmap_id.
    intros Hin. apply (Hdisj _ Hin). by left.
  - assert (Hnil : Paths.mappings_on id (Paths.get_path ps n) = []).
    { destruct (Paths.mappings_on id (Paths.get_path ps n)) eqn:Hm; [reflexivity |].
      exfalso. apply Hout, elem_of_names_on. by rewrite Hm. }
    rewrite Hnil. clear Hnil. revert Hout.
    induction (names_on id) as [| n' l IH]; csimpl; intros Hout; [reflexivity |].
    apply not_elem_of_cons in Hout as [Hne Hout].
    rewrite bool_decide_eq_false_2 by congruence. by apply IH.
Qed.

Lemma ranks_unique_on (id : Z) (n : string) :
  Forall (fun p : string * list mapping_t => NoDup (m_rank <$> p.2)) ps ->
  NoDup (m_rank <$> Paths.mappings_on id (Paths.get_path ps n)).
Proof.
  intros Hranks.
  assert (Hnd : NoDup (m_rank <$> Paths.get_path ps n)).
  { destruct (decide (n ∈ ps.*1)) as [Hin | Hout].
    - apply list_elem_of_fmap in Hin as ([n' ms] & Heq & Hin).
      simpl in Heq. subst n. rewrite (get_path_elem _ _ Hin).
      rewrite Forall_forall in Hranks. apply (Hranks _ Hin).
    - rewrite get_path_absent by assumption. constructor. }
  unfold Paths.mappings_on.
  eapply sublist_NoDup; [exact Hnd |].
  apply fmap_sublist, sublist_filter.
Qed.
End path_tables.

Section neighbors_theorem.
Variables (g : VG) (u v : NodeTraversal).
Hypothesis wf : paths_well_formed (paths g).

Let M (n : string) (t : NodeTraversal) : list mapping_t :=
  NeighborSpec.on_node g n t.

Lemma of_node_eq_same_names :
  Paths.of_node (paths g) (node_id u.1) = Paths.of_node (paths g) (node_id v.1)
  <-> NeighborSpec.same_path_names g u v.
Proof.
  destruct wf as [Hnames _]. unfold NeighborSpec.same_path_names, NeighborSpec.on_node.
  split.
  - intros Heq n. by rewrite <- !(of_node_names _ Hnames), Heq.
  - intros Hsame. apply set_eq. intros n.
    rewrite !(of_node_names _ Hnames). apply Hsame.
Qed.

Lemma neighbors_tables :
  nodes_are_perfect_path_neighbors g u v
  = if bool_decide (Paths.of_node (paths g) (node_id u.1)
                    ≠ Paths.of_node (paths g) (node_id v.1)) then false
    else
      match verify_adjacency u.2 v.2
              (table (fun n => Paths.by_rank (M n u)) (names_on (paths g) (node_id u.1)))
              (table (fun n => Paths.by_rank (M n v)) (names_on (paths g) (node_id u.1))) with
      | None => false
      | Some r2' =>
          forallb (fun p : string * list (Z * mapping_t) =>
                     match p.2 with [] => true | _ => false end) r2'
      end.
Proof.
  destruct wf as [Hnames _].
  unfold nodes_are_perfect_path_neighbors.
  case_bool_decide; [reflexivity |]. cbv zeta.
  assert (Hr1 :
    (fun p : string * list mapping_t => (p.1, Paths.by_rank p.2))
      <$> Paths.get_node_mapping_by_path_name (paths g) (node_id u.1)
    = table (fun n => Paths.by_rank (M n u)) (names_on (paths g) (node_id u.1))).
  { rewrite (node_mapping_table _ Hnames), <- list_fmap_compose. reflexivity. }
  assert (Hr2 :
    (fun p : string * list mapping_t =>
       (p.1, Paths.by_rank
               (default [] (snd <$> List.find (fun q => bool_decide (q.1 = p.1))
                                      (Paths.get_node_mapping_by_path_name
                                         (paths g) (node_id v.1))))))
      <$> Paths.get_node_mapping_by_path_name (paths g) (node_id u.1)
    = table (fun n => Paths.by_rank (M n v)) (names_on (paths g) (node_id u.1))).
  { rewrite (node_mapping_table _ Hnames (node_id u.1)), <- list_fmap_compose.
    apply list_fmap_ext. intros i n _. simpl.
    by rewrite (find_node_mapping _ Hnames). }
  by rewrite Hr1, Hr2.
Qed.

Lemma forallb_table_empty (h : string -> list (Z * mapping_t)) (names : list string) :
  forallb (fun p : string * list (Z * mapping_t) =>
             match p.2 with [] => true | _ => false end) (table h names) = true
  <-> forall n, n ∈ names -> h n = [].
Proof.
  unfold table. rewrite forallb_forall. setoid_rewrite <- list_elem_of_In.
  split.
  - intros Hall n Hn.
    assert (Hin : (n, h n) ∈ (fun n => (n, h n)) <$> names)
      by (apply list_elem_of_fmap; by exists n).
    specialize (Hall _ Hin). simpl in Hall. by destruct (h n).
  - intros Hall p Hp. apply list_elem_of_fmap in Hp as (n & -> & Hn).
    simpl. by rewrite (Hall n Hn).
Qed.

(** C1 (as the code has it). On a path collection with unique path names
    and no repeated rank within a path,
    [nodes_are_perfect_path_neighbors (u, v)] answers [true] exactly when
    (a) the nodes of [u] and [v] carry the same set of path names and (b) on
    every path the mappings on [u] and on [v] pair off into pairs that are
    consecutive in rank and consistently oriented with the two traversals.
    The full-cover condition (c) is not part of the test. *)
Theorem perfect_path_neighbors_iff :
  nodes_are_perfect_path_neighbors g u v = true
  <-> NeighborSpec.same_path_names g u v
      /\ NeighborSpec.consecutive_on_every_path g u v.
Proof.
  pose proof wf as [Hnames Hranks].
  rewrite neighbors_tables.
  pose proof (verify_adjacency_aligned u v
                (fun n => Paths.by_rank (M n u)) (fun n => Paths.by_rank (M n v))
                (names_on (paths g) (node_id u.1)) []
                (names_on_NoDup _ Hnames _)) as Haligned.
  simpl in Haligned.
  assert (Hk : forall n t, keyed (Paths.by_rank (M n t)))
    by (intros n t; apply by_rank_keyed, (ranks_unique_on _ Hnames), Hranks).
  assert (Hv : forall n t, (Paths.by_rank (M n t)).*2 ≡ₚ M n t)
    by (intros n t; apply by_rank_values, (ranks_unique_on _ Hnames), Hranks).
  assert (Hnd : forall n t, NoDup (Paths.by_rank (M n t)).*1)
    by (intros n t; apply by_rank_keys, (ranks_unique_on _ Hnames), Hranks).
  case_bool_decide as Hof.
  - split; [discriminate |]. intros [Hsame _].
    exfalso. apply Hof. by apply of_node_eq_same_names.
  - apply of_node_eq_same_names in Hof.
    split.
    + intros Htrue. split; [assumption |].
      destruct (verify_adjacency _ _ _ _) as [r2' |]; [| discriminate].
      destruct Haligned as (h & -> & Hh); [intros n _; apply not_elem_of_nil |].
      simpl in Htrue. rewrite forallb_table_empty in Htrue.
      intros n. unfold NeighborSpec.paired_on. fold (M n u). fold (M n v).
      destruct (decide (n ∈ names_on (paths g) (node_id u.1))) as [Hin | Hout].
      * specialize (Hh n Hin). rewrite (Htrue n Hin) in Hh.
        destruct (verify_ranked_sound u v _ _ _ (Hk n u) (Hk n v) Hh)
          as (pairing & H1 & H2 & H3).
        exists pairing. split; [| split]; [| | assumption].
        -- by rewrite H1, Hv.
        -- simpl in H2. rewrite app_nil_r in H2. by rewrite H2, Hv.
      * assert (Hu : M n u = []).
        { destruct (M n u) eqn:Hm; [reflexivity |].
          exfalso. apply Hout, elem_of_names_on.
          unfold M, NeighborSpec.on_node in Hm. by rewrite Hm. }
        assert (Hvn : M n v = []).
        { destruct (M n v) eqn:Hm; [reflexivity |].
          exfalso. unfold M in Hu.
          assert (Hne : NeighborSpec.on_node g n v <> [])
            by (unfold M in Hm; by rewrite Hm).
          apply Hof in Hne. by apply Hne. }
        exists []. rewrite Hu, Hvn. by repeat split.
    + intros [_ Hpaired].
      destruct (verify_adjacency _ _ _ _) as [r2' |].
      * destruct Haligned as (h & -> & Hh); [intros n _; apply not_elem_of_nil |].
        simpl. apply forallb_table_empty. intros n Hn.
        destruct (Hpaired n) as (pairing & H1 & H2 & H3).
        fold (M n u) in H1. fold (M n v) in H2.
        rewrite <- Hv in H1, H2.
        pose proof (verify_ranked_complete u v _ _ pairing
                      (Hk n u) (Hk n v) (Hnd n v) H1 H2 H3) as Hc.
        rewrite (Hh n Hn) in Hc. by injection Hc.
      * destruct Haligned as (n & Hn & Hnone); [intros n _; apply not_elem_of_nil |].
        destruct (Hpaired n) as (pairing & H1 & H2 & H3).
        fold (M n u) in H1. fold (M n v) in H2.
        rewrite <- Hv in H1, H2.
        pose proof (verify_ranked_complete u v _ _ pairing
                      (Hk n u) (Hk n v) (Hnd n v) H1 H2 H3) as Hc.
        rewrite Hnone in Hc. discriminate.
Qed.
End neighbors_theorem.

Lemma half_covered_paths_well_formed : paths_well_formed (paths half_covered_graph).
Proof.
  split.
  - apply (bool_decide_unpack _). vm_compute. exact I.
  - repeat constructor; apply (bool_decide_unpack _); vm_compute; exact I.
Defined.

Lemma perfect_path_neighbors_iff_witness :
  paths_well_formed (paths half_covered_graph)
  /\ (nodes_are_perfect_path_neighbors half_covered_graph
        (mkNode 1 (dna "AC"), false) (mkNode 2 (dna "GT"), false) = true
      <-> NeighborSpec.same_path_names half_covered_graph
            (mkNode 1 (dna "AC"), false) (mkNode 2 (dna "GT"), false)
          /\ NeighborSpec.consecutive_on_every_path half_covered_graph
               (mkNode 1 (dna "AC"), false) (mkNode 2 (dna "GT"), false)).
Proof.
  split; [exact half_covered_paths_well_formed |].
  apply (perfect_path_neighbors_iff half_covered_graph
           (mkNode 1 (dna "AC"), false) (mkNode 2 (dna "GT"), false)).
  exact half_covered_paths_well_formed.
Defined.

(** C1, the claim as written fails: the function answers [true] for two
    nodes of one path with consecutive ranks although the mapping on the
    first node covers one of its two bases only, so the three conditions
    (a), (b) and (c) do not all hold. *)
Lemma perfect_path_neighbors_ignores_cover :
  ~ (nodes_are_perfect_path_neighbors half_covered_graph
       (mkNode 1 (dna "AC"), false) (mkNode 2 (dna "GT"), false) = true
     <-> NeighborSpec.same_path_names half_covered_graph
           (mkNode 1 (dna "AC"), false) (mkNode 2 (dna "GT"), false)
         /\ NeighborSpec.consecutive_on_every_path half_covered_graph
              (mkNode 1 (dna "AC"), false) (mkNode 2 (dna "GT"), false)
         /\ NeighborSpec.mappings_cover_nodes half_covered_graph
              (mkNode 1 (dna "AC"), false) (mkNode 2 (dna "GT"), false)).
Proof.
  intros [Hto _].
  assert (Htrue : nodes_are_perfect_path_neighbors half_covered_graph
                    (mkNode 1 (dna "AC"), false) (mkNode 2 (dna "GT"), false) = true)
    by (vm_compute; reflexivity).
  destruct (Hto Htrue) as (_ & _ & Hcover).
  specialize (Hcover "P"%string (mkMapping 1 false 1 1)).
  assert (Hin : mkMapping 1 false 1 1
                ∈ NeighborSpec.on_node half_covered_graph "P" (mkNode 1 (dna "AC"), false)
                  ++ NeighborSpec.on_node half_covered_graph "P" (mkNode 2 (dna "GT"), false)).
  { apply (bool_decide_unpack _). vm_compute. exact I. }
  specialize (Hcover Hin). vm_compute in Hcover. discriminate Hcover.
Qed.

(** ** Creating nodes *)

Lemma max_node_id_nonneg (g : VG) : 0 <= max_node_id g.
Proof.
  unfold max_node_id.
  assert (H : forall (l : list Node) (a : Z), 0 <= a ->
            0 <= foldl (fun max_id n => if max_id <? node_id n then node_id n else max_id) a l).
  { induction l as [| n l IH]; intros a Ha; simpl; [assumption |].
    apply IH. destruct (Z.ltb_spec a (node_id n)); lia. }
  by apply H.
Qed.

(** C4 (as the code has it). Without an id, [create_node] gives the new
    node the value of the graph's id counter and increments the counter;
    the counter is set to [max_id + 1] beforehand only while it still has
    its initial value 1.  With a supplied id, [create_node] fails when the
    id is 0 and otherwise appends a node with exactly that id and points
    the id index to it, whether or not a node with that id exists. *)
Theorem create_node_assigns_ids (g : VG) (seq : list ascii) (id : Z) :
  next_id g <> 0 -> id <> 0 ->
  (exists g', create_node g seq = Ok (g', mkNode (next_id g) seq)
              /\ graph_node g' = graph_node g ++ [mkNode (next_id g) seq]
              /\ node_by_id g' !! next_id g = Some (mkNode (next_id g) seq)
              /\ current_id g' = next_id g + 1)
  /\ (current_id g = 1 -> next_id g = max_node_id g + 1)
  /\ create_node_with_id g seq 0 = Err (AssertFailed "id != 0")
  /\ (exists g', create_node_with_id g seq id = Ok (g', mkNode id seq)
                 /\ graph_node g' = graph_node g ++ [mkNode id seq]
                 /\ node_by_id g' !! id = Some (mkNode id seq)).
Proof.
  intros Hnext Hid. repeat split.
  - unfold create_node. fold (next_id g).
    assert (Hcur : current_id (if current_id g =? 1
                               then with_current_id g (max_node_id g + 1) else g)
                   = next_id g).
    { unfold next_id. by destruct (current_id g =? 1). }
    rewrite Hcur. unfold create_node_with_id.
    rewrite (proj2 (Z.eqb_neq _ _) Hnext).
    eexists. split; [reflexivity |]. simpl. repeat split.
    + by destruct (current_id g =? 1).
    + apply lookup_insert_eq.
  - intros Hone. unfold next_id. by rewrite Hone.
  - unfold create_node_with_id. rewrite (proj2 (Z.eqb_neq _ _) Hid).
    eexists. split; [reflexivity |]. simpl. split; [reflexivity |].
    apply lookup_insert_eq.
Qed.

Lemma create_node_assigns_ids_witness :
  next_id one_node_graph <> 0 /\ 1 <> 0
  /\ (exists g', create_node one_node_graph (dna "GG")
                 = Ok (g', mkNode (next_id one_node_graph) (dna "GG"))
                 /\ graph_node g' = graph_node one_node_graph
                                    ++ [mkNode (next_id one_node_graph) (dna "GG")]
                 /\ node_by_id g' !! next_id one_node_graph
                    = Some (mkNode (next_id one_node_graph) (dna "GG"))
                 /\ current_id g' = next_id one_node_graph + 1)
  /\ (current_id one_node_graph = 1 -> next_id one_node_graph = max_node_id one_node_graph + 1)
  /\ create_node_with_id one_node_graph (dna "GG") 0 = Err (AssertFailed "id != 0")
  /\ (exists g', create_node_with_id one_node_graph (dna "GG") 1
                 = Ok (g', mkNode 1 (dna "GG"))
                 /\ graph_node g' = graph_node one_node_graph ++ [mkNode 1 (dna "GG")]
                 /\ node_by_id g' !! 1 = Some (mkNode 1 (dna "GG"))).
Proof.
  assert (Hnext : next_id one_node_graph <> 0) by (vm_compute; discriminate).
  assert (Hid : 1 <> 0) by lia.
  split; [exact Hnext |]. split; [exact Hid |].
  exact (create_node_assigns_ids one_node_graph (dna "GG") 1 Hnext Hid).
Defined.

(** C4, the claim as written fails twice.  A supplied id that is already
    in use is accepted: the graph then holds two nodes with id 1.  And after
    a node with the explicit id 10 was added, the next node made without an
    id gets the counter value 2, not [max_id + 1 = 11]. *)
Lemma create_node_accepts_existing_id_and_counts_on :
  has_node one_node_graph 1 = true
  /\ (exists g', create_node_with_id one_node_graph (dna "GG") 1 = Ok (g', mkNode 1 (dna "GG"))
                 /\ node_id <$> graph_node g' = [1; 1])
  /\ max_node_id two_node_graph = 10
  /\ (exists g', create_node two_node_graph (dna "G") = Ok (g', mkNode 2 (dna "G")))
  /\ 2 <> max_node_id two_node_graph + 1.
Proof.
  split; [reflexivity |]. split.
  - eexists. split; reflexivity.
  - split; [reflexivity |]. split; [eexists; reflexivity |]. vm_compute. discriminate.
Qed.

(** ** The order of sides and canonical pairs *)

Lemma side_ltb_irrefl (a : Z * bool) : side_ltb a a = false.
Proof.
  destruct a as [z b]. unfold side_ltb. simpl.
  rewrite Z.ltb_irrefl, Z.eqb_refl. by destruct b.
Qed.

Lemma side_ltb_asym (a b : Z * bool) : side_ltb a b = true -> side_ltb b a = false.
Proof.
  destruct a as [x p], b as [y q]. unfold side_ltb. simpl.
  destruct (Z.ltb_spec x y), (Z.ltb_spec y x), (Z.eqb_spec x y), (Z.eqb_spec y x);
    destruct p, q; simpl; try reflexivity; try discriminate; lia.
Qed.

Lemma side_ltb_total (a b : Z * bool) :
  side_ltb a b = false -> side_ltb b a = false -> a = b.
Proof.
  destruct a as [x p], b as [y q]. unfold side_ltb. simpl.
  destruct (Z.ltb_spec x y), (Z.ltb_spec y x), (Z.eqb_spec x y), (Z.eqb_spec y x);
    destruct p, q; simpl; try discriminate; intros _ _; try (f_equal; lia); lia.
Qed.

Lemma minmax_comm (a b : NodeSide) : minmax a b = minmax b a.
Proof.
  unfold minmax.
  destruct (side_ltb b a) eqn:Hba, (side_ltb a b) eqn:Hab; try reflexivity.
  - apply side_ltb_asym in Hba. congruence.
  - by rewrite (side_ltb_total _ _ Hab Hba).
Qed.

Lemma minmax_canonical (a b : NodeSide) :
  minmax (minmax a b).1 (minmax a b).2 = minmax a b.
Proof.
  unfold minmax at 2 3 4. destruct (side_ltb b a) eqn:Hba; simpl.
  - unfold minmax. by rewrite (side_ltb_asym _ _ Hba).
  - unfold minmax. by rewrite Hba.
Qed.

Lemma minmax_sides (a b x y : NodeSide) :
  minmax a b = minmax x y -> (a = x /\ b = y) \/ (a = y /\ b = x).
Proof.
  unfold minmax.
  destruct (side_ltb b a), (side_ltb y x); intros [= -> ->]; auto.
Qed.

Lemma pair_from_edge_sides (e : Edge) : pair_from_edge e = minmax (side_a e) (side_b e).
Proof. reflexivity. Qed.

Lemma entry_for_inj (s x y : NodeSide) : entry_for s x = entry_for s y -> x = y.
Proof.
  destruct s as [n p], x as [i b], y as [j c]. unfold entry_for. simpl.
  intros [= -> Hb]. f_equal. by destruct p, b, c.
Qed.

(** ** Vectors of adjacency entries *)

Lemma last_removelast_perm {A : Type} (l : list A) (d : A) :
  l <> [] -> List.last l d :: removelast l ≡ₚ l.
Proof.
  intros Hne. rewrite (app_removelast_last d Hne) at 3.
  apply Permutation_cons_append.
Qed.

Lemma swap_remove_perm {A : Type} `{EqDecision A} (l : list A) (x : A) :
  x ∈ l -> l ≡ₚ x :: swap_remove l x.
Proof.
  induction l as [| a l IH]; simpl; intros Hin.
  - by apply elem_of_nil in Hin.
  - destruct (decide (a = x)) as [-> | Hne].
    + destruct l as [| b l']; [reflexivity |].
      by rewrite (last_removelast_perm (b :: l') b).
    + apply elem_of_cons in Hin as [-> | Hin]; [done |].
      rewrite (IH Hin) at 1. apply Permutation_swap.
Qed.

Lemma swap_remove_absent {A : Type} `{EqDecision A} (l : list A) (x : A) :
  x ∉ l -> swap_remove l x = l.
Proof.
  induction l as [| a l IH]; simpl; intros Hout; [reflexivity |].
  apply not_elem_of_cons in Hout as [Hne Hout].
  rewrite decide_False by congruence. by rewrite IH.
Qed.

Lemma swap_remove_keeps {A : Type} `{EqDecision A} (l : list A) (x y : A) :
  y ∈ l -> y <> x -> y ∈ swap_remove l x.
Proof.
  intros Hy Hne. destruct (decide (x ∈ l)) as [Hx | Hx].
  - rewrite (swap_remove_perm l x Hx) in Hy.
    apply elem_of_cons in Hy as [-> | Hy]; [done | assumption].
  - by rewrite swap_remove_absent.
Qed.


Lemma removelast_lookup {A : Type} (l : list A) (j : nat) :
  removelast l !! j = if decide (j < length l - 1)%nat then l !! j else None.
Proof.
  rewrite removelast_firstn_len.
  replace (Init.Nat.pred (length l)) with (length l - 1)%nat by lia.
  case_decide.
  - by apply lookup_take_lt.
  - apply lookup_take_ge. lia.
Qed.

Lemma length_removelast {A : Type} (l : list A) :
  length (removelast l) = (length l - 1)%nat.
Proof.
  rewrite removelast_firstn_len, length_take. lia.
Qed.

Lemma length_swap_elements {A : Type} (l : list A) (i j : nat) :
  length (swap_elements l i j) = length l.
Proof.
  unfold swap_elements. destruct (l !! i), (l !! j); try reflexivity.
  by rewrite !length_insert.
Qed.

Lemma swap_elements_lookup {A : Type} (l : list A) (i j k : nat) :
  (i < length l)%nat -> (j < length l)%nat ->
  swap_elements l i j !! k
  = if decide (k = i) then l !! j else if decide (k = j) then l !! i else l !! k.
Proof.
  intros Hi Hj. unfold swap_elements.
  destruct (lookup_lt_is_Some_2 l i Hi) as [a Ha].
  destruct (lookup_lt_is_Some_2 l j Hj) as [b Hb].
  rewrite Ha, Hb.
  destruct (decide (k = i)) as [-> | Hki].
  - rewrite list_lookup_insert_eq by (rewrite length_insert; lia). done.
  - rewrite list_lookup_insert_ne by congruence.
    destruct (decide (k = j)) as [-> | Hkj].
    + by rewrite list_lookup_insert_eq by lia.
    + by rewrite list_lookup_insert_ne by congruence.
Qed.

Lemma release_slot_lookup {A : Type} (l : list A) (i j : nat) :
  (i < length l)%nat ->
  release_slot l i !! j
  = if decide (j < length l - 1)%nat
    then (if decide (j = i) then l !! (length l - 1)%nat else l !! j)
    else None.
Proof.
  intros Hi. unfold release_slot. rewrite removelast_lookup.
  case_bool_decide as Hlast.
  - case_decide; [| reflexivity]. rewrite decide_False by lia. reflexivity.
  - rewrite length_swap_elements. case_decide as Hj; [| reflexivity].
    rewrite swap_elements_lookup by lia.
    destruct (decide (j = i)); [reflexivity |].
    rewrite decide_False by lia. reflexivity.
Qed.

Lemma release_slot_perm {A : Type} (l : list A) (i : nat) (x : A) :
  l !! i = Some x -> l ≡ₚ x :: release_slot l i.
Proof.
  intros Hx.
  pose proof (lookup_lt_Some _ _ _ Hx) as Hi.
  destruct (list_elem_of_split_length l i x Hx) as (l1 & l2 & -> & ->).
  unfold release_slot.
  destruct l2 as [| y l2] using rev_ind.
  - rewrite bool_decide_eq_true_2 by (rewrite length_app; simpl; lia).
    rewrite removelast_last. symmetry. apply Permutation_cons_append.
  - clear IHl2.
    rewrite bool_decide_eq_false_2
      by (rewrite !length_app; simpl; rewrite length_app; simpl; lia).
    assert (Hswap : swap_elements (l1 ++ x :: l2 ++ [y]) (length l1)
                      (length (l1 ++ x :: l2 ++ [y]) - 1)
                    = (l1 ++ y :: l2) ++ [x]).
    { apply list_eq. intros k.
      rewrite swap_elements_lookup
        by (rewrite ?length_app; simpl; rewrite ?length_app; simpl; lia).
      replace (length (l1 ++ x :: l2 ++ [y]) - 1)%nat with (length l1 + S (length l2))%nat
        by (rewrite !length_app; simpl; rewrite length_app; simpl; lia).
      destruct (decide (k = length l1)) as [-> | Hk1].
      - rewrite lookup_app_r by lia.
        replace (length l1 + S (length l2) - length l1)%nat with (S (length l2)) by lia.
        simpl. rewrite lookup_app_r, Nat.sub_diag by lia. simpl.
        rewrite <- app_assoc. rewrite lookup_app_r, Nat.sub_diag by lia. done.
      - destruct (decide (k = (length l1 + S (length l2))%nat)) as [-> | Hk2].
        + rewrite lookup_app_r, Nat.sub_diag by lia. simpl.
          rewrite lookup_app_r by (rewrite length_app; simpl; lia).
          rewrite length_app. simpl.
          replace (length l1 + S (length l2) - (length l1 + S (length l2)))%nat
            with 0%nat by lia. done.
        + rewrite <- app_assoc.
          destruct (decide (k < length l1)%nat).
          * by rewrite !lookup_app_l by lia.
          * rewrite !(lookup_app_r l1) by lia.
            destruct (k - length l1)%nat as [| k'] eqn:Hk; [lia |]. simpl.
            destruct (decide (k' < length l2)%nat).
            -- by rewrite !lookup_app_l by lia.
            -- rewrite !lookup_ge_None_2; [done | |]; rewrite length_app; simpl; lia. }
    rewrite Hswap, removelast_last.
    rewrite <- Permutation_middle. apply perm_skip.
    apply Permutation_app_head. symmetry. apply Permutation_cons_append.
Qed.

(** ** Adjacency lists under indexing and unindexing *)

Ltac split_decide :=
  repeat match goal with
         | |- context [decide ?P] => destruct (decide P)
         end.

Lemma push_back_at_lookup (k id : Z) (x : Z * bool) (m : gmap Z (list (Z * bool))) :
  default [] (push_back_at k x m !! id)
  = default [] (m !! id) ++ (if decide (k = id) then [x] else []).
Proof.
  unfold push_back_at. destruct (decide (k = id)) as [-> | Hne].
  - by rewrite lookup_insert_eq.
  - rewrite lookup_insert_ne by assumption. by rewrite app_nil_r.
Qed.

Lemma swap_remove_at_lookup (k id : Z) (x : Z * bool) (m : gmap Z (list (Z * bool))) :
  default [] (swap_remove_at k x m !! id)
  = if decide (k = id) then swap_remove (default [] (m !! id)) x
    else default [] (m !! id).
Proof.
  unfold swap_remove_at. destruct (decide (k = id)) as [-> | Hne].
  - destruct (swap_remove (default [] (m !! id)) x) eqn:Hsr.
    + by rewrite lookup_delete_eq.
    + by rewrite lookup_insert_eq.
  - destruct (swap_remove (default [] (m !! k)) x).
    + by rewrite lookup_delete_ne.
    + by rewrite lookup_insert_ne.
Qed.

Lemma self_loop_on_one_side (e : Edge) :
  negb (edge_from e =? edge_to e) || eqb (edge_from_start e) (edge_to_end e) = true
  <-> side_a e <> side_b e.
Proof.
  destruct e as [f t fs te]. unfold side_a, side_b. simpl.
  destruct (Z.eqb_spec f t) as [-> | Hne]; simpl.
  - destruct fs, te; simpl; split; try done; intros H; try congruence;
      exfalso; by apply H.
  - split; [intros _; congruence | done].
Qed.

Lemma adjacency_index (g : VG) (e : Edge) (s : NodeSide) :
  adjacency (index_edge_by_node_sides g e) s = adjacency g s ++ new_entries e s.
Proof.
  unfold new_entries.
  pose proof (self_loop_on_one_side e) as Hloop.
  unfold index_edge_by_node_sides.
  destruct (negb (edge_from e =? edge_to e) || eqb (edge_from_start e) (edge_to_end e)).
  - assert (Hab : side_a e <> side_b e) by (by apply Hloop). clear Hloop.
    destruct e as [f t fs te], s as [id b].
    unfold adjacency, edges_start, edges_end, side_a, side_b, entry_for in *.
    destruct fs, te, b; simpl in *;
      rewrite ?push_back_at_lookup;
      split_decide; simplify_eq; rewrite ?app_nil_r, <- ?app_assoc;
      try reflexivity; try (exfalso; naive_solver).
  - assert (Hab : side_a e = side_b e).
    { destruct (decide (side_a e = side_b e)) as [? | Hne]; [assumption |].
      apply Hloop in Hne. discriminate. }
    clear Hloop.
    destruct e as [f t fs te], s as [id b].
    unfold adjacency, edges_start, edges_end, side_a, side_b, entry_for in *.
    destruct fs, te, b; simpl in *;
      rewrite ?push_back_at_lookup;
      split_decide; simplify_eq; rewrite ?app_nil_r, <- ?app_assoc;
      try reflexivity; try (exfalso; naive_solver).
Qed.

Lemma adjacency_unindex (g : VG) (e : Edge) (s : NodeSide) :
  has_edge g e = true ->
  adjacency (unindex_edge_by_node_sides g e) s
  = foldl swap_remove (adjacency g s) (new_entries e s).
Proof.
  intros Hhas. unfold new_entries.
  pose proof (self_loop_on_one_side e) as Hloop.
  unfold unindex_edge_by_node_sides. rewrite Hhas. simpl.
  destruct (negb (edge_from e =? edge_to e) || eqb (edge_from_start e) (edge_to_end e)).
  - assert (Hab : side_a e <> side_b e) by (by apply Hloop). clear Hloop.
    destruct e as [f t fs te], s as [id b].
    unfold adjacency, edges_start, edges_end, side_a, side_b, entry_for in *.
    destruct fs, te, b; simpl in *;
      rewrite ?swap_remove_at_lookup;
      split_decide; simplify_eq; simpl; rewrite ?swap_remove_at_lookup;
      split_decide; simplify_eq;
      try reflexivity; try (exfalso; naive_solver).
  - assert (Hab : side_a e = side_b e).
    { destruct (decide (side_a e = side_b e)) as [? | Hne]; [assumption |].
      apply Hloop in Hne. discriminate. }
    clear Hloop.
    destruct e as [f t fs te], s as [id b].
    unfold adjacency, edges_start, edges_end, side_a, side_b, entry_for in *.
    destruct fs, te, b; simpl in *;
      rewrite ?swap_remove_at_lookup;
      split_decide; simplify_eq; simpl;
      try reflexivity; try (exfalso; naive_solver).
Qed.

(** ** Creating edges *)

Lemma same_nodes_refl (g : VG) : same_nodes g g.
Proof. by repeat split. Qed.

Lemma same_nodes_trans (g1 g2 g3 : VG) :
  same_nodes g1 g2 -> same_nodes g2 g3 -> same_nodes g1 g3.
Proof.
  intros (A1 & A2 & A3 & A4 & A5) (B1 & B2 & B3 & B4 & B5).
  repeat split; congruence.
Qed.

Lemma index_edge_fields (g : VG) (e : Edge) :
  same_nodes g (index_edge_by_node_sides g e)
  /\ graph_edge (index_edge_by_node_sides g e) = graph_edge g
  /\ edge_index (index_edge_by_node_sides g e) = edge_index g
  /\ edge_by_sides (index_edge_by_node_sides g e)
     = <[pair_from_edge e := e]> (edge_by_sides g).
Proof.
  unfold index_edge_by_node_sides, same_nodes.
  destruct (edge_from_start e), (edge_to_end e),
    (negb (edge_from e =? edge_to e)); simpl; by repeat split.
Qed.

Lemma unindex_edge_fields (g : VG) (e : Edge) :
  has_edge g e = true ->
  same_nodes g (unindex_edge_by_node_sides g e)
  /\ graph_edge (unindex_edge_by_node_sides g e) = graph_edge g
  /\ edge_index (unindex_edge_by_node_sides g e) = edge_index g
  /\ edge_by_sides (unindex_edge_by_node_sides g e)
     = delete (pair_from_edge e) (edge_by_sides g).
Proof.
  intros Hhas. unfold unindex_edge_by_node_sides, same_nodes. rewrite Hhas. simpl.
  destruct (edge_from_start e), (edge_to_end e),
    (negb (edge_from e =? edge_to e)); simpl; by repeat split.
Qed.

Lemma has_edge_true (g : VG) (e : Edge) :
  has_edge g e = true <-> is_Some (edge_by_sides g !! pair_from_edge e).
Proof. unfold has_edge. apply bool_decide_eq_true. Qed.

Lemma has_edge_false (g : VG) (e : Edge) :
  has_edge g e = false <-> edge_by_sides g !! pair_from_edge e = None.
Proof.
  unfold has_edge. rewrite bool_decide_eq_false. symmetry. apply eq_None_not_Some.
Qed.

Lemma create_edge_spec (g : VG) (f t : Z) (fs te : bool) :
  same_nodes g (create_edge g f t fs te).1
  /\ match edge_by_sides g !! pair_from_edge (mkEdge f t fs te) with
     | Some e0 => (create_edge g f t fs te).1 = g /\ (create_edge g f t fs te).2 = e0
     | None =>
         (create_edge g f t fs te).2 = mkEdge f t fs te
         /\ graph_edge (create_edge g f t fs te).1 = graph_edge g ++ [mkEdge f t fs te]
         /\ edge_by_sides (create_edge g f t fs te).1
            = <[pair_from_edge (mkEdge f t fs te) := mkEdge f t fs te]> (edge_by_sides g)
         /\ edge_index (create_edge g f t fs te).1
            = <[pair_from_edge (mkEdge f t fs te) := length (graph_edge g)]> (edge_index g)
         /\ forall s, adjacency (create_edge g f t fs te).1 s
                      = adjacency g s ++ new_entries (mkEdge f t fs te) s
     end.
Proof.
  unfold create_edge, get_edge.
  change (minmax (f, negb fs) (t, te)) with (pair_from_edge (mkEdge f t fs te)).
  destruct (edge_by_sides g !! pair_from_edge (mkEdge f t fs te)) as [e0 |] eqn:Hlook.
  - simpl. split; [apply same_nodes_refl | by split].
  - set (e := mkEdge f t fs te) in *.
    set (g1 := with_graph_edge g (graph_edge g ++ [e])).
    assert (Hno : has_edge g1 e = false) by (by apply has_edge_false).
    unfold set_edge. rewrite Hno.
    destruct (index_edge_fields g1 e) as ((N1 & N2 & N3 & N4 & N5) & F1 & F2 & F3).
    simpl. split; [| split; [reflexivity | split; [| split; [| split]]]].
    + unfold same_nodes. simpl. rewrite N1, N2, N3, N4, N5. by repeat split.
    + by rewrite F1.
    + by rewrite F3.
    + rewrite F1, F2. simpl. f_equal. rewrite length_app. simpl. lia.
    + intros s.
      change (adjacency (index_edge_by_node_sides g1 e) s = adjacency g s ++ new_entries e s).
      by rewrite adjacency_index.
Qed.

Lemma new_entries_own (e : Edge) :
  entry_for (side_a e) (side_b e) ∈ new_entries e (side_a e)
  /\ entry_for (side_b e) (side_a e) ∈ new_entries e (side_b e).
Proof.
  unfold new_entries. split.
  - rewrite decide_True by reflexivity. apply elem_of_app. left. by left.
  - destruct (decide (side_a e = side_b e)) as [Heq | Hne].
    + rewrite <- Heq. rewrite decide_True by reflexivity.
      apply elem_of_app. left. by left.
    + apply elem_of_app. right. rewrite decide_True by done. by left.
Qed.

Lemma edges_wf_key_fresh (g : VG) (e e' : Edge) :
  edges_wf g -> edge_by_sides g !! pair_from_edge e = None ->
  e' ∈ graph_edge g -> pair_from_edge e' <> pair_from_edge e.
Proof.
  intros (_ & E2 & _) Hnone Hin Heq.
  apply list_elem_of_lookup in Hin as [i Hi].
  destruct (E2 _ _ Hi) as [Hlook _]. congruence.
Qed.

Lemma create_edge_wf (g : VG) (f t : Z) (fs te : bool) :
  edges_wf g -> edges_wf (create_edge g f t fs te).1.
Proof.
  intros Hwf.
  destruct (create_edge_spec g f t fs te) as [_ Hspec].
  destruct (edge_by_sides g !! pair_from_edge (mkEdge f t fs te)) as [e0 |] eqn:Hlook.
  - destruct Hspec as [-> _]. exact Hwf.
  - set (e := mkEdge f t fs te) in *.
    destruct Hspec as (_ & HL & HS & HI & HA).
    pose proof (edges_wf_key_fresh g e) as Hfresh.
    pose proof Hwf as (E1 & E2 & E3 & A).
    split; [| split; [| split]].
    + rewrite HL, fmap_app. apply NoDup_app. split; [assumption |]. split.
      * intros k Hk. csimpl. rewrite list_elem_of_singleton. intros ->.
        apply list_elem_of_fmap in Hk as (e' & Heq & Hin).
        by apply (Hfresh e' Hwf Hlook Hin).
      * csimpl. apply NoDup_singleton.
    + intros i e'. rewrite HL, HS, HI. intros Hi.
      apply lookup_app_Some in Hi as [Hi | [Hlen Hi]].
      * assert (Hne : pair_from_edge e <> pair_from_edge e').
        { intros Heq. apply (Hfresh e' Hwf Hlook); [| by symmetry].
          by apply list_elem_of_lookup_2 in Hi. }
        rewrite !lookup_insert_ne by assumption. by apply E2.
      * apply list_lookup_singleton_Some in Hi as [Hi ->].
        rewrite !lookup_insert_eq. split; [reflexivity |]. f_equal. lia.
    + intros k e'. rewrite HL, HS. intros Hk.
      apply lookup_insert_Some in Hk as [[<- <-] | [Hne Hk]].
      * split; [| reflexivity]. apply elem_of_app. right. by left.
      * destruct (E3 _ _ Hk) as [Hin Hkey]. split; [| assumption].
        apply elem_of_app. by left.
    + intros e'. rewrite HL, !HA. intros Hin.
      apply elem_of_app in Hin as [Hin | Hin].
      * destruct (A _ Hin) as [A1 A2]. split; apply elem_of_app; by left.
      * apply list_elem_of_singleton in Hin as ->.
        destruct (new_entries_own e) as [N1 N2].
        split; apply elem_of_app; by right.
Qed.

(** ** Destroying edges *)

Lemma edges_wf_keys_inj (g : VG) (i j : nat) (e e' : Edge) :
  edges_wf g -> graph_edge g !! i = Some e -> graph_edge g !! j = Some e' ->
  pair_from_edge e = pair_from_edge e' -> i = j /\ e = e'.
Proof.
  intros (E1 & _) Hi Hj Heq.
  assert (Hij : i = j).
  { eapply NoDup_lookup; [exact E1 | |].
    - rewrite list_lookup_fmap, Hi. reflexivity.
    - rewrite list_lookup_fmap, Hj. simpl. by rewrite Heq. }
  subst j. split; [reflexivity | congruence].
Qed.

Lemma destroy_edge_ptr_spec (g : VG) (i : nat) (e : Edge) :
  edges_wf g -> graph_edge g !! i = Some e ->
  same_nodes g (destroy_edge_ptr g (Some e))
  /\ graph_edge (destroy_edge_ptr g (Some e)) = release_slot (graph_edge g) i
  /\ edge_by_sides (destroy_edge_ptr g (Some e))
     = delete (pair_from_edge e) (edge_by_sides g)
  /\ edge_index (destroy_edge_ptr g (Some e))
     = (if bool_decide ((length (graph_edge g) - 1)%nat = i)
        then delete (pair_from_edge e) (edge_index g)
        else match graph_edge g !! (length (graph_edge g) - 1)%nat with
             | Some last =>
                 <[pair_from_edge last := i]>
                   (delete (pair_from_edge last)
                      (delete (pair_from_edge e) (edge_index g)))
             | None => delete (pair_from_edge e) (edge_index g)
             end)
  /\ forall s, adjacency (destroy_edge_ptr g (Some e)) s
               = foldl swap_remove (adjacency g s) (new_entries e s).
Proof.
  intros Hwf Hi.
  pose proof Hwf as (E1 & E2 & E3 & A).
  destruct (E2 _ _ Hi) as [Hside Hidx].
  assert (Hhas : has_edge g e = true) by (apply has_edge_true; by rewrite Hside).
  destruct (unindex_edge_fields g e Hhas) as ((N1 & N2 & N3 & N4 & N5) & F1 & F2 & F3).
  pose proof (adjacency_unindex g e) as HA.
  unfold destroy_edge_ptr. rewrite Hhas. simpl.
  set (g1 := unindex_edge_by_node_sides g e) in *.
  rewrite F1, F2, Hidx. simpl.
  case_bool_decide as Hlast.
  - simpl. unfold release_slot. rewrite bool_decide_eq_true_2 by assumption.
    rewrite ?F1, ?F2, ?F3.
    split; [unfold same_nodes; simpl; by rewrite N1, N2, N3, N4, N5 |].
    repeat split. intros s. by rewrite <- HA.
  - destruct (graph_edge g !! (length (graph_edge g) - 1)%nat) as [last |] eqn:Hl.
    + assert (Hkey : pair_from_edge last <> pair_from_edge e).
      { intros Heq. destruct (edges_wf_keys_inj g _ _ _ _ Hwf Hl Hi Heq). lia. }
      assert (Hhas' : forall gx, edge_by_sides gx = edge_by_sides g1 ->
                                 has_edge gx last = true).
      { intros gx Hgx. apply has_edge_true. rewrite Hgx, F3.
        rewrite lookup_delete_ne by congruence.
        destruct (E2 _ _ Hl) as [-> _]. done. }
      unfold set_edge. rewrite Hhas' by reflexivity. simpl.
      unfold release_slot. rewrite bool_decide_eq_false_2 by assumption.
      rewrite ?F1, ?F2, ?F3.
      split; [unfold same_nodes; simpl; by rewrite N1, N2, N3, N4, N5 |].
      repeat split. intros s. by rewrite <- HA.
    + exfalso. apply lookup_lt_Some in Hi.
      apply lookup_ge_None in Hl. lia.
Qed.

Lemma foldl_swap_remove_keeps {A : Type} `{EqDecision A} (l xs : list A) (y : A) :
  y ∈ l -> y ∉ xs -> y ∈ foldl swap_remove l xs.
Proof.
  revert l. induction xs as [| x xs IH]; intros l Hy Hout; simpl; [assumption |].
  apply not_elem_of_cons in Hout as [Hne Hout].
  apply IH; [| assumption]. by apply swap_remove_keeps.
Qed.


Lemma entry_not_removed (e : Edge) (x y : NodeSide) :
  minmax x y <> pair_from_edge e -> entry_for x y ∉ new_entries e x.
Proof.
  intros Hne Hin. unfold new_entries in Hin.
  apply elem_of_app in Hin as [Hin | Hin].
  - destruct (decide (x = side_a e)) as [-> | _]; [| by apply elem_of_nil in Hin].
    apply list_elem_of_singleton, entry_for_inj in Hin. subst y.
    by apply Hne.
  - destruct (decide (side_a e <> side_b e /\ x = side_b e)) as [[_ ->] | _];
      [| by apply elem_of_nil in Hin].
    apply list_elem_of_singleton, entry_for_inj in Hin. subst y.
    apply Hne. rewrite pair_from_edge_sides. apply minmax_comm.
Qed.

Lemma destroy_edge_ptr_wf (g : VG) (i : nat) (e : Edge) :
  edges_wf g -> graph_edge g !! i = Some e ->
  edges_wf (destroy_edge_ptr g (Some e)).
Proof.
  intros Hwf Hi.
  destruct (destroy_edge_ptr_spec g i e Hwf Hi) as (_ & HL & HS & HI & HA).
  pose proof Hwf as (E1 & E2 & E3 & A).
  pose proof (release_slot_perm _ _ _ Hi) as Hperm.
  pose proof (lookup_lt_Some _ _ _ Hi) as Hlen.
  assert (Hold : forall e', e' ∈ release_slot (graph_edge g) i ->
                   e' ∈ graph_edge g /\ pair_from_edge e' <> pair_from_edge e).
  { intros e' Hin. split; [rewrite Hperm; by right |].
    rewrite Hperm in E1. csimpl in E1. apply NoDup_cons in E1 as [Hnotin _].
    intros Heq. apply Hnotin. rewrite <- Heq. apply list_elem_of_fmap. by exists e'. }
  split; [| split; [| split]].
  - rewrite HL. rewrite Hperm in E1. csimpl in E1. by apply NoDup_cons in E1 as [_ E1].
  - intros j e'. rewrite HL, HS, HI. intros Hj.
    destruct (Hold e' (list_elem_of_lookup_2 _ _ _ Hj)) as [Hin Hne].
    rewrite lookup_delete_ne by congruence.
    rewrite release_slot_lookup in Hj by assumption.
    destruct (decide (j < length (graph_edge g) - 1)%nat) as [Hjl |]; [| discriminate].
    case_bool_decide as Hlast.
    + rewrite decide_False in Hj by lia.
      rewrite lookup_delete_ne by congruence. by apply E2.
    + destruct (decide (j = i)) as [-> | Hji].
      * rewrite Hj. rewrite lookup_insert_eq. split; [| reflexivity].
        by apply (E2 _ _ Hj).
      * destruct (graph_edge g !! (length (graph_edge g) - 1)%nat) as [last |] eqn:Hl.
        -- assert (Hkl : pair_from_edge last <> pair_from_edge e').
           { intros Heq. destruct (edges_wf_keys_inj g _ _ _ _ Hwf Hl Hj Heq). lia. }
           rewrite lookup_insert_ne, !lookup_delete_ne by congruence. by apply E2.
        -- rewrite lookup_delete_ne by congruence. by apply E2.
  - intros k e'. rewrite HL, HS. intros Hk.
    apply lookup_delete_Some in Hk as [Hne Hk].
    destruct (E3 _ _ Hk) as [Hin Hkey]. split; [| assumption].
    rewrite Hperm in Hin. apply elem_of_cons in Hin as [-> | Hin]; [| assumption].
    congruence.
  - intros e'. rewrite HL, !HA. intros Hin.
    destruct (Hold e' Hin) as [Hin' Hne].
    destruct (A _ Hin') as [A1 A2].
    split; (apply foldl_swap_remove_keeps; [assumption |]);
      apply entry_not_removed.
    + by rewrite <- pair_from_edge_sides.
    + rewrite minmax_comm. by rewrite <- pair_from_edge_sides.
Qed.

Lemma destroy_edge_wf (g : VG) (s1 s2 : NodeSide) :
  edges_wf g -> edges_wf (destroy_edge g s1 s2).
Proof.
  intros Hwf. unfold destroy_edge, get_edge.
  destruct (edge_by_sides g !! minmax s1 s2) as [e |] eqn:Hlook; [| exact Hwf].
  pose proof Hwf as (_ & _ & E3 & _).
  destruct (E3 _ _ Hlook) as [Hin _].
  apply list_elem_of_lookup in Hin as [i Hi].
  by apply (destroy_edge_ptr_wf g i e).
Qed.

Lemma destroy_edge_same_nodes (g : VG) (s1 s2 : NodeSide) :
  edges_wf g -> same_nodes g (destroy_edge g s1 s2).
Proof.
  intros Hwf. unfold destroy_edge, get_edge.
  destruct (edge_by_sides g !! minmax s1 s2) as [e |] eqn:Hlook;
    [| apply same_nodes_refl].
  pose proof Hwf as (_ & _ & E3 & _).
  destruct (E3 _ _ Hlook) as [Hin _].
  apply list_elem_of_lookup in Hin as [i Hi].
  by destruct (destroy_edge_ptr_spec g i e Hwf Hi) as [Hsame _].
Qed.

Lemma destroy_edge_edges (g : VG) (s1 s2 : NodeSide) (e' : Edge) :
  edges_wf g ->
  e' ∈ graph_edge (destroy_edge g s1 s2)
  <-> e' ∈ graph_edge g /\ pair_from_edge e' <> minmax s1 s2.
Proof.
  intros Hwf. pose proof Hwf as (E1 & E2 & E3 & _).
  unfold destroy_edge, get_edge.
  destruct (edge_by_sides g !! minmax s1 s2) as [e |] eqn:Hlook.
  - destruct (E3 _ _ Hlook) as [Hin Hkey].
    apply list_elem_of_lookup in Hin as [i Hi].
    destruct (destroy_edge_ptr_spec g i e Hwf Hi) as (_ & -> & _).
    pose proof (release_slot_perm _ _ _ Hi) as Hperm.
    rewrite Hperm in E1. csimpl in E1. apply NoDup_cons in E1 as [Hnotin _].
    rewrite <- Hkey. split.
    + intros Hin. split; [rewrite Hperm; by right |].
      intros Heq. apply Hnotin. rewrite <- Heq. apply list_elem_of_fmap. by exists e'.
    + intros [Hin Hne]. rewrite Hperm in Hin.
      apply elem_of_cons in Hin as [-> | Hin]; [done | assumption].
  - split; [| by intros [H _]].
    intros Hin. split; [assumption |]. intros Heq.
    apply list_elem_of_lookup in Hin as [i Hi].
    destruct (E2 _ _ Hi) as [Hl _]. congruence.
Qed.


(** ** Ordered sets of pairs *)

Section set_of_list_facts.
Context {A : Type} (ltb : A -> A -> bool).
Hypothesis ltb_total : forall a b, ltb a b = false -> ltb b a = false -> a = b.

Lemma elem_of_set_insert (x y : A) (s : list A) :
  x ∈ set_insert ltb y s <-> x = y \/ x ∈ s.
Proof.
  induction s as [| z s IH]; simpl.
  - rewrite list_elem_of_singleton, elem_of_nil. tauto.
  - destruct (ltb y z) eqn:Hyz.
    + rewrite !elem_of_cons. tauto.
    + destruct (ltb z y) eqn:Hzy.
      * rewrite !elem_of_cons, IH. tauto.
      * rewrite (ltb_total _ _ Hyz Hzy). rewrite !elem_of_cons. tauto.
Qed.

Lemma elem_of_set_of_list (x : A) (l : list A) :
  x ∈ set_of_list ltb l <-> x ∈ l.
Proof.
  unfold set_of_list.
  assert (H : forall acc, x ∈ foldl (fun s y => set_insert ltb y s) acc l
                          <-> x ∈ acc \/ x ∈ l).
  { induction l as [| y l IH]; intros acc; simpl.
    - rewrite elem_of_nil. tauto.
    - rewrite IH, elem_of_set_insert, elem_of_cons. tauto. }
  rewrite H, elem_of_nil. tauto.
Qed.
End set_of_list_facts.

Lemma pair_ltb_total {A B : Type} (lta : A -> A -> bool) (ltb : B -> B -> bool) :
  (forall a b, lta a b = false -> lta b a = false -> a = b) ->
  (forall a b, ltb a b = false -> ltb b a = false -> a = b) ->
  forall p q : A * B, pair_ltb lta ltb p q = false -> pair_ltb lta ltb q p = false -> p = q.
Proof.
  intros Ha Hb [a b] [c d]. unfold pair_ltb. simpl.
  destruct (lta a c) eqn:Hac, (lta c a) eqn:Hca; simpl; try discriminate.
  intros H1 H2. f_equal; [by apply Ha | by apply Hb].
Qed.

Lemma sides_ltb_total (p q : NodeSide * NodeSide) :
  sides_ltb p q = false -> sides_ltb q p = false -> p = q.
Proof. apply pair_ltb_total; apply side_ltb_total. Qed.

(** ** Destroying the edges of a node *)

Lemma fold_destroy_edges (ps : list (NodeSide * NodeSide)) (g : VG) :
  edges_wf g ->
  edges_wf (foldl (fun g e => destroy_edge g e.1 e.2) g ps)
  /\ same_nodes g (foldl (fun g e => destroy_edge g e.1 e.2) g ps)
  /\ (forall e', e' ∈ graph_edge (foldl (fun g e => destroy_edge g e.1 e.2) g ps)
                 <-> e' ∈ graph_edge g
                     /\ forall p, p ∈ ps -> pair_from_edge e' <> minmax p.1 p.2).
Proof.
  revert g. induction ps as [| p ps IH]; intros g Hwf; simpl.
  - split; [assumption |]. split; [apply same_nodes_refl |].
    intros e'. split; [| by intros [H _]].
    intros Hin. split; [assumption |]. intros p Hp. by apply elem_of_nil in Hp.
  - destruct (IH _ (destroy_edge_wf g p.1 p.2 Hwf)) as (Hwf' & Hsame & Hedges).
    split; [assumption |]. split.
    + eapply same_nodes_trans; [| exact Hsame]. by apply destroy_edge_same_nodes.
    + intros e'. rewrite Hedges, destroy_edge_edges by assumption.
      split.
      * intros [[Hin Hne] Hall]. split; [assumption |].
        intros q [-> | Hq]%elem_of_cons; [assumption | by apply Hall].
      * intros [Hin Hall]. split; [split; [assumption |] |].
        -- apply Hall. by left.
        -- intros q Hq. apply Hall. by right.
Qed.

Lemma pair_of_start_entry (id : Z) (y : NodeSide) :
  pair_from_start_edge id (entry_for (id, false) y) = minmax (id, false) y.
Proof.
  destruct y as [n b]. unfold pair_from_start_edge, entry_for. by destruct b.
Qed.

Lemma pair_of_end_entry (id : Z) (y : NodeSide) :
  pair_from_end_edge id (entry_for (id, true) y) = minmax (id, true) y.
Proof. destruct y as [n b]. unfold pair_from_end_edge, entry_for. by destruct b. Qed.

Lemma incident_sides (id : Z) (e : Edge) :
  incident id e <-> (side_a e).1 = id \/ (side_b e).1 = id.
Proof. reflexivity. Qed.

Lemma minmax_incident (id : Z) (b : bool) (y : NodeSide) (e : Edge) :
  pair_from_edge e = minmax (id, b) y -> incident id e.
Proof.
  rewrite pair_from_edge_sides. intros Heq.
  apply minmax_sides in Heq as [[Ha _] | [_ Hb]]; apply incident_sides.
  - left. by rewrite Ha.
  - right. by rewrite Hb.
Qed.

Lemma edges_to_destroy_incident (g : VG) (id : Z) (e : Edge) (p : NodeSide * NodeSide) :
  p ∈ edges_to_destroy g id -> pair_from_edge e = minmax p.1 p.2 -> incident id e.
Proof.
  unfold edges_to_destroy.
  rewrite (elem_of_set_of_list _ sides_ltb_total), elem_of_app.
  intros [Hp | Hp]; apply list_elem_of_fmap in Hp as ([n r] & -> & _).
  - unfold pair_from_start_edge. rewrite minmax_canonical. apply minmax_incident.
  - unfold pair_from_end_edge. rewrite minmax_canonical. apply minmax_incident.
Qed.

Lemma edges_to_destroy_complete (g : VG) (id : Z) (e : Edge) :
  edges_wf g -> e ∈ graph_edge g -> incident id e ->
  exists p, p ∈ edges_to_destroy g id /\ pair_from_edge e = minmax p.1 p.2.
Proof.
  intros (_ & _ & _ & A) Hin Hinc.
  destruct (A _ Hin) as [A1 A2].
  assert (Hgen : forall x y : NodeSide,
            x.1 = id -> entry_for x y ∈ adjacency g x ->
            minmax x y ∈ edges_to_destroy g id).
  { intros [n b] y Hn Hentry. simpl in Hn. subst n.
    unfold edges_to_destroy.
    rewrite (elem_of_set_of_list _ sides_ltb_total), elem_of_app.
    unfold adjacency in Hentry. simpl in Hentry. destruct b.
    - right. rewrite <- pair_of_end_entry. apply list_elem_of_fmap.
      by exists (entry_for (id, true) y).
    - left. rewrite <- pair_of_start_entry. apply list_elem_of_fmap.
      by exists (entry_for (id, false) y). }
  apply incident_sides in Hinc as [Ha | Hb].
  - exists (minmax (side_a e) (side_b e)). split; [by apply Hgen |].
    by rewrite minmax_canonical.
  - exists (minmax (side_b e) (side_a e)). split; [by apply Hgen |].
    rewrite minmax_canonical. rewrite pair_from_edge_sides. apply minmax_comm.
Qed.

(** ** Destroying a node *)

Lemma has_node_true (g : VG) (id : Z) :
  has_node g id = true <-> is_Some (node_by_id g !! id).
Proof. unfold has_node. apply bool_decide_eq_true. Qed.

Lemma nodes_wf_ids_inj (g : VG) (i j : nat) (n n' : Node) :
  nodes_wf g -> graph_node g !! i = Some n -> graph_node g !! j = Some n' ->
  node_id n = node_id n' -> i = j /\ n = n'.
Proof.
  intros (N1 & _) Hi Hj Heq.
  assert (Hij : i = j).
  { eapply NoDup_lookup; [exact N1 | |].
    - rewrite list_lookup_fmap, Hi. reflexivity.
    - rewrite list_lookup_fmap, Hj. simpl. by rewrite Heq. }
  subst j. split; [reflexivity | congruence].
Qed.

Lemma without_edges_of_spec (g : VG) (id : Z) :
  edges_wf g ->
  edges_wf (without_edges_of g id)
  /\ same_nodes g (without_edges_of g id)
  /\ (forall e, e ∈ graph_edge (without_edges_of g id)
                <-> e ∈ graph_edge g /\ ~ incident id e).
Proof.
  intros Hwf. unfold without_edges_of.
  destruct (fold_destroy_edges (edges_to_destroy g id) g Hwf) as (Hwf1 & Hsame & Hedges).
  set (g1 := foldl (fun g e => destroy_edge g e.1 e.2) g (edges_to_destroy g id)) in *.
  assert (Hrem : forall e, e ∈ graph_edge g1 <-> e ∈ graph_edge g /\ ~ incident id e).
  { intros e. rewrite Hedges. split.
    - intros [Hin Hall]. split; [assumption |]. intros Hinc.
      destruct (edges_to_destroy_complete g id e Hwf Hin Hinc) as (p & Hp & Heq).
      by apply (Hall p Hp).
    - intros [Hin Hninc]. split; [assumption |]. intros p Hp Heq.
      apply Hninc. by apply (edges_to_destroy_incident g id e p). }
  split; [| split].
  - destruct Hwf1 as (E1 & E2 & E3 & A). split; [| split; [| split]]; simpl.
    + exact E1.
    + exact E2.
    + exact E3.
    + intros e Hin. destruct (A _ Hin) as [A1 A2].
      apply Hrem in Hin as [_ Hninc].
      assert (Hadj : forall s : NodeSide, s.1 <> id ->
                adjacency (with_edges_on_end
                             (with_edges_on_start g1 (delete id (edges_on_start g1)))
                             (delete id (edges_on_end g1))) s
                = adjacency g1 s).
      { intros [n b] Hn. simpl in Hn. unfold adjacency, edges_start, edges_end. simpl.
        by rewrite !lookup_delete_ne by congruence. }
      rewrite !Hadj; [by split | |]; intros Heq; apply Hninc, incident_sides; auto.
  - destruct Hsame as (S1 & S2 & S3 & S4 & S5). by repeat split.
  - exact Hrem.
Qed.

Lemma destroy_node_ptr_unfold (g : VG) (node : Node) :
  destroy_node_ptr g node
  = if negb (has_node g (node_id node)) then g
    else release_node (without_edges_of g (node_id node)) (node_id node).
Proof. reflexivity. Qed.

Lemma same_edges_refl (g : VG) : same_edges g g.
Proof. by repeat split. Qed.

Lemma same_edges_trans (g1 g2 g3 : VG) :
  same_edges g1 g2 -> same_edges g2 g3 -> same_edges g1 g3.
Proof.
  intros (A1 & A2 & A3 & A4 & A5) (B1 & B2 & B3 & B4 & B5).
  repeat split; congruence.
Qed.

Lemma same_edges_wf (g g' : VG) : same_edges g g' -> edges_wf g -> edges_wf g'.
Proof.
  intros (A1 & A2 & A3 & A4 & A5) Hwf.
  unfold edges_wf, adjacency, edges_start, edges_end in *.
  rewrite A1, A2, A3, A4, A5. exact Hwf.
Qed.

Lemma same_nodes_wf (g g' : VG) : same_nodes g g' -> nodes_wf g -> nodes_wf g'.
Proof.
  intros (A1 & A2 & A3 & A4 & A5) Hwf.
  unfold nodes_wf in *. rewrite A1, A2, A3. exact Hwf.
Qed.

Lemma release_node_spec (g : VG) (i : nat) (n : Node) :
  nodes_wf g -> graph_node g !! i = Some n ->
  same_edges g (release_node g (node_id n))
  /\ graph_node (release_node g (node_id n)) = release_slot (graph_node g) i
  /\ node_by_id (release_node g (node_id n)) = delete (node_id n) (node_by_id g)
  /\ node_index (release_node g (node_id n))
     = (if bool_decide ((length (graph_node g) - 1)%nat = i)
        then delete (node_id n) (node_index g)
        else match graph_node g !! (length (graph_node g) - 1)%nat with
             | Some last =>
                 delete (node_id n)
                   (<[node_id last := i]> (delete (node_id last) (node_index g)))
             | None => delete (node_id n) (node_index g)
             end)
  /\ current_id (release_node g (node_id n)) = current_id g
  /\ paths (release_node g (node_id n)) = paths g.
Proof.
  intros Hwf Hi. pose proof Hwf as (N1 & N2 & N3).
  destruct (N2 _ _ Hi) as [Hid Hidx].
  unfold release_node. rewrite Hidx. simpl.
  case_bool_decide as Hlast.
  - simpl. unfold release_slot. rewrite bool_decide_eq_true_2 by assumption.
    by repeat split.
  - destruct (graph_node g !! (length (graph_node g) - 1)%nat) as [last |] eqn:Hl.
    + simpl. unfold release_slot. rewrite bool_decide_eq_false_2 by assumption.
      destruct (N2 _ _ Hl) as [Hlid _].
      rewrite (insert_id _ _ _ Hlid). by repeat split.
    + exfalso. apply lookup_lt_Some in Hi. apply lookup_ge_None in Hl. lia.
Qed.

Lemma release_node_wf (g : VG) (i : nat) (n : Node) :
  nodes_wf g -> graph_node g !! i = Some n ->
  nodes_wf (release_node g (node_id n)).
Proof.
  intros Hwf Hi.
  destruct (release_node_spec g i n Hwf Hi) as (_ & HL & HB & HI & _).
  pose proof Hwf as (N1 & N2 & N3).
  pose proof (release_slot_perm _ _ _ Hi) as Hperm.
  pose proof (lookup_lt_Some _ _ _ Hi) as Hlen.
  assert (Hold : forall n', n' ∈ release_slot (graph_node g) i ->
                   n' ∈ graph_node g /\ node_id n' <> node_id n).
  { intros n' Hin. split; [rewrite Hperm; by right |].
    rewrite Hperm in N1. csimpl in N1. apply NoDup_cons in N1 as [Hnotin _].
    intros Heq. apply Hnotin. rewrite <- Heq. apply list_elem_of_fmap. by exists n'. }
  split; [| split].
  - rewrite HL. rewrite Hperm in N1. csimpl in N1. by apply NoDup_cons in N1 as [_ N1].
  - intros j n'. rewrite HL, HB, HI. intros Hj.
    destruct (Hold n' (list_elem_of_lookup_2 _ _ _ Hj)) as [Hin Hne].
    rewrite lookup_delete_ne by congruence.
    rewrite release_slot_lookup in Hj by assumption.
    destruct (decide (j < length (graph_node g) - 1)%nat) as [Hjl |]; [| discriminate].
    case_bool_decide as Hlast.
    + rewrite decide_False in Hj by lia.
      rewrite lookup_delete_ne by congruence. by apply N2.
    + destruct (decide (j = i)) as [-> | Hji].
      * rewrite Hj. rewrite lookup_delete_ne by congruence.
        rewrite lookup_insert_eq. split; [| reflexivity].
        by apply (N2 _ _ Hj).
      * destruct (graph_node g !! (length (graph_node g) - 1)%nat) as [last |] eqn:Hl.
        -- assert (Hkl : node_id last <> node_id n').
           { intros Heq. destruct (nodes_wf_ids_inj g _ _ _ _ Hwf Hl Hj Heq). lia. }
           rewrite lookup_delete_ne by congruence.
           rewrite lookup_insert_ne, lookup_delete_ne by congruence. by apply N2.
        -- rewrite lookup_delete_ne by congruence. by apply N2.
  - intros k n'. rewrite HL, HB. intros Hk.
    apply lookup_delete_Some in Hk as [Hne Hk].
    destruct (N3 _ _ Hk) as [Hin Hkey]. split; [| assumption].
    rewrite Hperm in Hin. apply elem_of_cons in Hin as [-> | Hin]; [| assumption].
    congruence.
Qed.

(** ** The executable checks are sound *)

Lemma slots_ok_lookup {A : Type} (check : nat -> A -> bool) (l : list A) (i0 j : nat) (x : A) :
  slots_ok check i0 l = true -> l !! j = Some x -> check (i0 + j)%nat x = true.
Proof.
  revert i0 j. induction l as [| y l IH]; intros i0 j Hok Hj; [discriminate |].
  simpl in Hok. apply andb_true_iff in Hok as [Hy Hrest].
  destruct j as [| j]; simpl in Hj.
  - injection Hj as ->. by rewrite Nat.add_0_r.
  - replace (i0 + S j)%nat with (S i0 + j)%nat by lia. by apply IH.
Qed.

Lemma nodes_wf_check_sound (g : VG) : nodes_wf_check g = true -> nodes_wf g.
Proof.
  unfold nodes_wf_check. rewrite !andb_true_iff. intros [[H1 H2] H3].
  split; [| split].
  - by apply bool_decide_eq_true in H1.
  - intros i n Hi. pose proof (slots_ok_lookup _ _ 0 i n H2 Hi) as Hc.
    by apply bool_decide_eq_true in Hc.
  - intros id n Hlook. rewrite forallb_forall in H3.
    specialize (H3 (id, n)). apply bool_decide_eq_true in H3; [exact H3 |].
    apply list_elem_of_In. by apply elem_of_map_to_list.
Qed.

Lemma edges_wf_check_sound (g : VG) : edges_wf_check g = true -> edges_wf g.
Proof.
  unfold edges_wf_check. rewrite !andb_true_iff. intros [[[H1 H2] H3] H4].
  split; [| split; [| split]].
  - by apply bool_decide_eq_true in H1.
  - intros i e Hi. pose proof (slots_ok_lookup _ _ 0 i e H2 Hi) as Hc.
    by apply bool_decide_eq_true in Hc.
  - intros k e Hlook. rewrite forallb_forall in H3.
    specialize (H3 (k, e)). apply bool_decide_eq_true in H3; [exact H3 |].
    apply list_elem_of_In. by apply elem_of_map_to_list.
  - intros e Hin. rewrite forallb_forall in H4.
    specialize (H4 e). apply bool_decide_eq_true in H4; [exact H4 |].
    by apply list_elem_of_In.
Qed.

Lemma counter_ok_check_sound (g : VG) : counter_ok_check g = true -> counter_ok g.
Proof.
  unfold counter_ok_check. rewrite andb_true_iff, orb_true_iff.
  intros [Hpos Hc]. split; [by apply Z.ltb_lt |].
  destruct Hc as [Hone | Hall]; [left; by apply Z.eqb_eq | right].
  intros n Hn. rewrite forallb_forall in Hall.
  apply Z.ltb_lt, Hall. by apply list_elem_of_In.
Qed.

(** ** Destroying a node: the whole operation *)

Lemma destroy_node_ptr_spec (g : VG) (node : Node) (i : nat) (n : Node) :
  nodes_wf g -> edges_wf g ->
  graph_node g !! i = Some n -> node_id node = node_id n ->
  nodes_wf (destroy_node_ptr g node)
  /\ edges_wf (destroy_node_ptr g node)
  /\ graph_node (destroy_node_ptr g node) = release_slot (graph_node g) i
  /\ node_by_id (destroy_node_ptr g node) = delete (node_id n) (node_by_id g)
  /\ (forall e, e ∈ graph_edge (destroy_node_ptr g node)
                <-> e ∈ graph_edge g /\ ~ incident (node_id n) e)
  /\ current_id (destroy_node_ptr g node) = current_id g
  /\ paths (destroy_node_ptr g node) = paths g.
Proof.
  intros Hn He Hi Hid. pose proof Hn as (_ & N2 & _).
  destruct (N2 _ _ Hi) as [Hlook _].
  rewrite destroy_node_ptr_unfold, Hid.
  assert (Hhas : has_node g (node_id n) = true)
    by (apply has_node_true; by rewrite Hlook).
  rewrite Hhas. cbn [negb].
  destruct (without_edges_of_spec g (node_id n) He) as (He' & Hsame & Hedges).
  pose proof (same_nodes_wf _ _ Hsame Hn) as Hn'.
  destruct Hsame as (S1 & S2 & S3 & S4 & S5).
  assert (Hi' : graph_node (without_edges_of g (node_id n)) !! i = Some n)
    by (by rewrite S1).
  destruct (release_node_spec _ i n Hn' Hi') as (Hse & HL & HB & HI & HC & HP).
  split; [by apply (release_node_wf _ i n) |].
  split; [by apply (same_edges_wf _ _ Hse) |].
  split; [by rewrite HL, S1 |].
  split; [by rewrite HB, S2 |].
  split; [| split; congruence].
  intros e. destruct Hse as (-> & _). apply Hedges.
Qed.

Lemma destroy_node_ptr_absent (g : VG) (node : Node) :
  has_node g (node_id node) = false -> destroy_node_ptr g node = g.
Proof. intros Hno. by rewrite destroy_node_ptr_unfold, Hno. Qed.

(** C3 (as the code has it). For every node id present in a consistent
    graph, [destroy_node id] removes that node and every edge attached to
    either of its sides, keeps every other node and edge, and leaves the
    path collection as it is: the mappings on the node stay in their
    paths. *)
Theorem destroy_node_removes_node_and_edges (g : VG) (id : Z) :
  nodes_wf g -> edges_wf g -> has_node g id = true ->
  exists (g' : VG) (n : Node),
    destroy_node g id = Ok g'
    /\ node_by_id g !! id = Some n
    /\ has_node g' id = false
    /\ graph_node g ≡ₚ n :: graph_node g'
    /\ (forall e, e ∈ graph_edge g' <-> e ∈ graph_edge g /\ ~ incident id e)
    /\ paths g' = paths g.
Proof.
  intros Hn He Hhas. apply has_node_true in Hhas as [n Hlook].
  pose proof Hn as (_ & _ & N3).
  destruct (N3 _ _ Hlook) as [Hin Hid].
  apply list_elem_of_lookup in Hin as [i Hi].
  destruct (destroy_node_ptr_spec g n i n Hn He Hi eq_refl)
    as (_ & _ & HL & HB & HE & _ & HP).
  exists (destroy_node_ptr g n), n.
  unfold destroy_node, get_node. rewrite Hlook. simpl.
  split; [reflexivity |]. split; [reflexivity |]. subst id.
  split; [| split; [| split]].
  - unfold has_node. apply bool_decide_eq_false. rewrite HB, lookup_delete_eq.
    by intros [? ?].
  - rewrite HL. by apply release_slot_perm.
  - exact HE.
  - exact HP.
Qed.

Lemma half_covered_graph_wf :
  nodes_wf half_covered_graph /\ edges_wf half_covered_graph.
Proof.
  split.
  - apply nodes_wf_check_sound. vm_compute. reflexivity.
  - apply edges_wf_check_sound. vm_compute. reflexivity.
Defined.

Lemma destroy_node_removes_node_and_edges_witness :
  nodes_wf half_covered_graph /\ edges_wf half_covered_graph
  /\ has_node half_covered_graph 1 = true
  /\ exists (g' : VG) (n : Node),
       destroy_node half_covered_graph 1 = Ok g'
       /\ node_by_id half_covered_graph !! 1 = Some n
       /\ has_node g' 1 = false
       /\ graph_node half_covered_graph ≡ₚ n :: graph_node g'
       /\ (forall e, e ∈ graph_edge g'
                     <-> e ∈ graph_edge half_covered_graph /\ ~ incident 1 e)
       /\ paths g' = paths half_covered_graph.
Proof.
  split; [exact (proj1 half_covered_graph_wf) |].
  split; [exact (proj2 half_covered_graph_wf) |].
  split; [reflexivity |].
  apply (destroy_node_removes_node_and_edges half_covered_graph 1).
  - exact (proj1 half_covered_graph_wf).
  - exact (proj2 half_covered_graph_wf).
  - reflexivity.
Defined.

(** C3, the claim as written fails: after [destroy_node 1] the node is gone
    from the graph, yet path P still holds its mapping on node 1. *)
Lemma destroy_node_keeps_mappings :
  exists g' : VG,
    destroy_node half_covered_graph 1 = Ok g'
    /\ has_node g' 1 = false
    /\ mkMapping 1 false 1 1 ∈ Paths.get_path (paths g') "P"
    /\ Paths.has_node_mapping (paths g') 1 = true.
Proof.
  eexists. split; [reflexivity |]. split; [reflexivity |].
  split; [| reflexivity]. apply (bool_decide_unpack _). vm_compute. exact I.
Qed.

(** ** The edge index invariant through the mutations *)

Lemma filter_none {A : Type} (P : A -> Prop) `{forall x, Decision (P x)} (l : list A) :
  (forall y, y ∈ l -> ~ P y) -> filter P l = [].
Proof.
  induction l as [| y l IH]; intros Hall; [reflexivity |].
  rewrite filter_cons, decide_False by (apply Hall; by left).
  apply IH. intros z Hz. apply Hall. by right.
Qed.

Lemma filter_key_unique {A B : Type} `{EqDecision B} (f : A -> B) (l : list A) (x : A) :
  NoDup (f <$> l) -> x ∈ l ->
  length (filter (fun y => f y = f x) l) = 1%nat.
Proof.
  induction l as [| y l IH]; csimpl; intros Hnd Hin.
  - by apply elem_of_nil in Hin.
  - apply NoDup_cons in Hnd as [Hy Hnd]. rewrite filter_cons.
    destruct (decide (f y = f x)) as [Heq | Hne].
    + simpl. f_equal. rewrite filter_none; [reflexivity |].
      intros z Hz Hzx. apply Hy. rewrite Heq, <- Hzx.
      apply list_elem_of_fmap. by exists z.
    + apply elem_of_cons in Hin as [-> | Hin]; [done |]. by apply IH.
Qed.

Lemma edges_wf_indexed (g : VG) : edges_wf g -> every_edge_indexed g.
Proof.
  intros (E1 & E2 & E3 & A) e Hin.
  destruct (A _ Hin) as [A1 A2].
  split; [assumption |]. split; [assumption |]. split.
  - apply list_elem_of_lookup in Hin as [i Hi]. by apply (E2 _ _ Hi).
  - by apply filter_key_unique.
Qed.

Lemma edges_wf_empty : edges_wf empty_graph.
Proof.
  split; [| split; [| split]]; simpl.
  - constructor.
  - intros i e Hi. by rewrite lookup_nil in Hi.
  - intros k e Hk. by rewrite lookup_empty in Hk.
  - intros e He. by apply elem_of_nil in He.
Qed.

Lemma create_node_with_id_fields (g g' : VG) (seq : list ascii) (id : Z) (n : Node) :
  create_node_with_id g seq id = Ok (g', n) ->
  id <> 0 /\ n = mkNode id seq /\ same_edges g g'
  /\ graph_node g' = graph_node g ++ [n]
  /\ node_by_id g' = <[id := n]> (node_by_id g)
  /\ node_index g' = <[id := length (graph_node g)]> (node_index g)
  /\ current_id g' = current_id g /\ paths g' = paths g.
Proof.
  unfold create_node_with_id. destruct (Z.eqb_spec id 0) as [-> | Hne]; [discriminate |].
  intros [= <- <-]. simpl. repeat split; try done.
  f_equal. rewrite length_app. simpl. lia.
Qed.

Lemma create_node_fields (g g' : VG) (seq : list ascii) (n : Node) :
  create_node g seq = Ok (g', n) ->
  next_id g <> 0 /\ n = mkNode (next_id g) seq /\ same_edges g g'
  /\ graph_node g' = graph_node g ++ [n]
  /\ node_by_id g' = <[next_id g := n]> (node_by_id g)
  /\ node_index g' = <[next_id g := length (graph_node g)]> (node_index g)
  /\ current_id g' = next_id g + 1 /\ paths g' = paths g.
Proof.
  unfold create_node. intros Hc.
  assert (Hcur : current_id (if current_id g =? 1
                             then with_current_id g (max_node_id g + 1) else g)
                 = next_id g).
  { unfold next_id. by destruct (current_id g =? 1). }
  rewrite Hcur in Hc.
  apply create_node_with_id_fields in Hc
    as (H0 & Hn & Hse & HL & HB & HI & HC & HP).
  split; [assumption |]. split; [assumption |].
  unfold same_edges in *.
  destruct (current_id g =? 1); simpl in *;
    destruct Hse as (? & ? & ? & ? & ?); by repeat split.
Qed.

Lemma release_node_same_edges (g : VG) (id : Z) : same_edges g (release_node g id).
Proof.
  unfold release_node. case_bool_decide; [by repeat split |].
  destruct (graph_node g !! _); by repeat split.
Qed.

Lemma destroy_node_ptr_edges_wf (g : VG) (node : Node) :
  edges_wf g -> edges_wf (destroy_node_ptr g node).
Proof.
  intros Hwf. rewrite destroy_node_ptr_unfold.
  destruct (has_node g (node_id node)); [| exact Hwf]. cbn [negb].
  destruct (without_edges_of_spec g (node_id node) Hwf) as (Hwf' & _).
  eapply same_edges_wf; [apply release_node_same_edges | exact Hwf'].
Qed.

Lemma with_paths_edges_wf (g : VG) (ps : Paths.t) :
  edges_wf g -> edges_wf (with_paths g ps).
Proof. apply same_edges_wf. by repeat split. Qed.

Lemma fold_create_edge_wf {A : Type} (f : A -> Z * Z * bool * bool) (l : list A) (g : VG) :
  edges_wf g ->
  edges_wf (foldl (fun g x => (create_edge g (f x).1.1.1 (f x).1.1.2 (f x).1.2 (f x).2).1) g l).
Proof.
  revert g. induction l as [| x l IH]; intros g Hwf; simpl; [assumption |].
  apply IH. by apply create_edge_wf.
Qed.

Lemma create_parts_same_edges (positions : list Z) (g g' : VG) (node : Node)
    (last_pos : Z) (parts : list Node) :
  create_parts g node last_pos positions = Ok (g', parts) -> same_edges g g'.
Proof.
  revert g last_pos parts. induction positions as [| pos rest IH];
    intros g last_pos parts; simpl.
  - destruct (create_node g _) as [[g1 n] |] eqn:Hc; [| discriminate].
    simpl. intros [= <- <-]. by apply create_node_fields in Hc as (_ & _ & Hse & _).
  - destruct (create_node g _) as [[g1 n] |] eqn:Hc; [| discriminate]. simpl.
    destruct (create_parts g1 node pos rest) as [[g2 ps] |] eqn:Hp; [| discriminate].
    simpl. intros [= <- <-].
    apply create_node_fields in Hc as (_ & _ & Hse & _).
    eapply same_edges_trans; [exact Hse | by apply (IH _ _ _ Hp)].
Qed.

Lemma connect_parts_wf (parts : list Node) (g : VG) :
  edges_wf g -> edges_wf (connect_parts g parts).
Proof.
  revert g. induction parts as [| a parts IH]; intros g Hwf; simpl; [assumption |].
  destruct parts as [| b parts]; [assumption |].
  apply IH. by apply create_edge_wf.
Qed.

Lemma divide_node_edges_wf (g g' : VG) (node : Node) (positions : list Z)
    (parts : list Node) :
  edges_wf g -> divide_node g node positions = Ok (g', parts) -> edges_wf g'.
Proof.
  intros Hwf. unfold divide_node.
  destruct (check_positions node positions); [| discriminate]. simpl.
  destruct (create_parts g node 0 positions) as [[g1 ps] |] eqn:Hp; [| discriminate].
  simpl. intros [= <- <-].
  apply destroy_node_ptr_edges_wf, with_paths_edges_wf, connect_parts_wf.
  apply (fold_create_edge_wf
           (fun e : Z * bool * (Z * bool) => (e.1.1, e.2.1, e.1.2, e.2.2))).
  eapply same_edges_wf; [by apply (create_parts_same_edges _ _ _ _ _ _ Hp) | exact Hwf].
Qed.

Lemma connect_prev_wf (prevs : list NodeTraversal) (g g' : VG) (node : Node)
    (front back : NodeTraversal) :
  edges_wf g -> connect_prev g node front back prevs = Ok g' -> edges_wf g'.
Proof.
  revert g. induction prevs as [| prev rest IH]; intros g Hwf; simpl.
  - by intros [= <-].
  - destruct (node_id prev.1 =? node_id back.1).
    + destruct (assert _ _); [| discriminate]. simpl.
      apply IH. by apply create_edge_wf.
    + destruct (node_id prev.1 =? node_id front.1).
      * destruct (assert _ _); [| discriminate]. simpl.
        apply IH. by apply create_edge_wf.
      * simpl. apply IH. by apply create_edge_wf.
Qed.

Lemma connect_next_wf (nexts : list NodeTraversal) (g g' : VG) (node : Node)
    (front back : NodeTraversal) :
  edges_wf g -> connect_next g node front back nexts = Ok g' -> edges_wf g'.
Proof.
  revert g. induction nexts as [| next rest IH]; intros g Hwf; simpl.
  - by intros [= <-].
  - destruct (node_id next.1 =? node_id back.1).
    + destruct (assert _ _); [| discriminate]. simpl.
      apply IH. by apply create_edge_wf.
    + destruct (node_id next.1 =? node_id front.1).
      * simpl. by apply IH.
      * simpl. apply IH. by apply create_edge_wf.
Qed.

Lemma fold_destroy_node_ptr_edges_wf (nodes : list NodeTraversal) (g : VG) :
  edges_wf g ->
  edges_wf (foldl (fun g (n : NodeTraversal) => destroy_node_ptr g n.1) g nodes).
Proof.
  revert g. induction nodes as [| n nodes IH]; intros g Hwf; simpl; [assumption |].
  apply IH. by apply destroy_node_ptr_edges_wf.
Qed.

Lemma concat_nodes_edges_wf (g g' : VG) (nodes : list NodeTraversal) (n : Node) :
  edges_wf g -> concat_nodes g nodes = Ok (g', n) -> edges_wf g'.
Proof.
  intros Hwf. unfold concat_nodes.
  destruct nodes as [| front rest]; [discriminate |].
  destruct (assert _ _); [| discriminate]. simpl.
  destruct (concat_mappings_for_nodes g (front :: rest)) as [new_mappings |];
    [| discriminate]. simpl.
  destruct (create_node g _) as [[g1 node] |] eqn:Hc; [| discriminate]. simpl.
  apply create_node_fields in Hc as (_ & _ & Hse & _).
  pose proof (same_edges_wf _ _ Hse Hwf) as Hwf1.
  match goal with
  | |- context [with_paths g1 ?ps] =>
      pose proof (with_paths_edges_wf g1 ps Hwf1) as Hwf2;
      set (g2 := with_paths g1 ps) in *
  end.
  destruct (nodes_prev g2 front) as [prevs |]; [| discriminate]. simpl.
  destruct (connect_prev g2 node front _ prevs) as [g3 |] eqn:Hprev; [| discriminate].
  simpl. pose proof (connect_prev_wf _ _ _ _ _ _ Hwf2 Hprev) as Hwf3.
  destruct (nodes_next g3 _) as [nexts |]; [| discriminate]. simpl.
  destruct (connect_next g3 node front _ nexts) as [g4 |] eqn:Hnext; [| discriminate].
  simpl. pose proof (connect_next_wf _ _ _ _ _ _ Hwf3 Hnext) as Hwf4.
  intros [= <- <-].
  exact (fold_destroy_node_ptr_edges_wf (front :: rest) g4 Hwf4).
Qed.

(** C6. On a store whose edge tables are consistent (as they are in the
    empty graph), every edge has its entry on the adjacency list of each of
    its two sides and exactly one record under its canonical side pair, and
    the store is again consistent after [create_edge], [destroy_edge],
    [create_node], [destroy_node], [divide_node] and [concat_nodes]; the
    empty graph is consistent.  This covers self-loops on one side and
    between the two sides of a node. *)
Theorem edge_index_invariant (g : VG) :
  edges_wf g ->
  every_edge_indexed g
  /\ (forall from to from_start to_end,
        edges_wf (create_edge g from to from_start to_end).1)
  /\ (forall side1 side2, edges_wf (destroy_edge g side1 side2))
  /\ (forall seq g' n, create_node g seq = Ok (g', n) -> edges_wf g')
  /\ (forall seq id g' n, create_node_with_id g seq id = Ok (g', n) -> edges_wf g')
  /\ (forall id g', destroy_node g id = Ok g' -> edges_wf g')
  /\ (forall node positions g' parts,
        divide_node g node positions = Ok (g', parts) -> edges_wf g')
  /\ (forall nodes g' n, concat_nodes g nodes = Ok (g', n) -> edges_wf g')
  /\ edges_wf empty_graph.
Proof.
  intros Hwf. split; [by apply edges_wf_indexed |].
  split; [intros; by apply create_edge_wf |].
  split; [intros; by apply destroy_edge_wf |].
  split.
  { intros seq g' n Hc. apply create_node_fields in Hc as (_ & _ & Hse & _).
    by apply (same_edges_wf _ _ Hse). }
  split.
  { intros seq id g' n Hc. apply create_node_with_id_fields in Hc as (_ & _ & Hse & _).
    by apply (same_edges_wf _ _ Hse). }
  split.
  { intros id g'. unfold destroy_node.
    destruct (get_node g id) as [node |]; [| discriminate]. simpl.
    intros [= <-]. by apply destroy_node_ptr_edges_wf. }
  split.
  { intros node positions g' parts. by apply divide_node_edges_wf. }
  split; [| exact edges_wf_empty].
  intros nodes g' n. by apply concat_nodes_edges_wf.
Qed.

Lemma loops_graph_edges_wf : edges_wf loops_graph.
Proof. apply edges_wf_check_sound. vm_compute. reflexivity. Defined.

Lemma edge_index_invariant_witness :
  edges_wf loops_graph
  /\ every_edge_indexed loops_graph
  /\ (forall from to from_start to_end,
        edges_wf (create_edge loops_graph from to from_start to_end).1)
  /\ (forall side1 side2, edges_wf (destroy_edge loops_graph side1 side2))
  /\ (forall seq g' n, create_node loops_graph seq = Ok (g', n) -> edges_wf g')
  /\ (forall seq id g' n,
        create_node_with_id loops_graph seq id = Ok (g', n) -> edges_wf g')
  /\ (forall id g', destroy_node loops_graph id = Ok g' -> edges_wf g')
  /\ (forall node positions g' parts,
        divide_node loops_graph node positions = Ok (g', parts) -> edges_wf g')
  /\ (forall nodes g' n, concat_nodes loops_graph nodes = Ok (g', n) -> edges_wf g')
  /\ edges_wf empty_graph.
Proof.
  split; [exact loops_graph_edges_wf |].
  exact (edge_index_invariant loops_graph loops_graph_edges_wf).
Defined.

(** ** Re-orienting a node *)

Lemma unindex_edge_same_nodes (g : VG) (e : Edge) :
  same_nodes g (unindex_edge_by_node_sides g e).
Proof.
  destruct (has_edge g e) eqn:Hhas.
  - by destruct (unindex_edge_fields g e Hhas) as [H _].
  - unfold unindex_edge_by_node_sides. rewrite Hhas. apply same_nodes_refl.
Qed.

Lemma set_edge_same_nodes (g : VG) (e : Edge) : same_nodes g (set_edge g e).
Proof.
  unfold set_edge. destruct (has_edge g e); [apply same_nodes_refl |].
  by destruct (index_edge_fields g e) as [H _].
Qed.

Lemma destroy_edge_ptr_same_nodes (g : VG) (e : option Edge) :
  same_nodes g (destroy_edge_ptr g e).
Proof.
  unfold destroy_edge_ptr. destruct e as [e |]; [| apply same_nodes_refl].
  destruct (has_edge g e); [| apply same_nodes_refl]. cbn [negb].
  pose proof (unindex_edge_same_nodes g e) as (N1 & N2 & N3 & N4 & N5).
  set (g1 := unindex_edge_by_node_sides g e) in *.
  case_bool_decide.
  - unfold same_nodes. simpl. by rewrite N1, N2, N3, N4, N5.
  - destruct (graph_edge _ !! _) as [last |].
    + match goal with
      | |- context [set_edge ?gx last] =>
          pose proof (set_edge_same_nodes gx last) as (M1 & M2 & M3 & M4 & M5)
      end.
      unfold same_nodes. cbn [graph_node node_by_id node_index current_id paths
                                with_graph_edge].
      rewrite M1, M2, M3, M4, M5. simpl. by rewrite N1, N2, N3, N4, N5.
    + unfold same_nodes. simpl. by rewrite N1, N2, N3, N4, N5.
Qed.

Lemma destroy_edge_handles_same_nodes (g : VG) (l r : Z) :
  same_nodes g (destroy_edge_handles g l r).
Proof.
  unfold destroy_edge_handles. destruct (get_edge g _ _); [| apply same_nodes_refl].
  apply destroy_edge_ptr_same_nodes.
Qed.

Lemma fold_same_nodes {A : Type} (f : VG -> A -> VG) (l : list A) (g : VG) :
  (forall g x, same_nodes g (f g x)) -> same_nodes g (foldl f g l).
Proof.
  intros Hf. revert g. induction l as [| x l IH]; intros g; simpl.
  - apply same_nodes_refl.
  - eapply same_nodes_trans; [apply Hf | apply IH].
Qed.

Lemma create_edge_handles_same_nodes (g g' : VG) (l r : Z) :
  create_edge_handles g l r = Ok g' -> same_nodes g g'.
Proof.
  unfold create_edge_handles.
  destruct (get_node g (Handle.get_id l)) as [from |]; [| discriminate].
  destruct (get_node g (Handle.get_id r)) as [to |]; [| discriminate].
  unfold mbind, res_bind. intros [= <-].
  by destruct (create_edge_spec g (node_id from) (node_id to)
                 (Handle.get_is_reverse l) (Handle.get_is_reverse r)) as [H _].
Qed.

Lemma reconnect_left_same_nodes (ls : list Z) (g g' : VG) (h rh nh : Z) :
  reconnect_left g h rh nh ls = Ok g' -> same_nodes g g'.
Proof.
  revert g. induction ls as [| l ls IH]; intros g; simpl.
  - intros [= <-]. apply same_nodes_refl.
  - destruct (create_edge_handles g _ nh) as [g1 |] eqn:Hc; [| discriminate]. simpl.
    intros Hrec. eapply same_nodes_trans; [| by apply IH].
    by apply create_edge_handles_same_nodes in Hc.
Qed.

Lemma reconnect_right_same_nodes (rs : list Z) (g g' : VG) (h rh nh : Z) :
  reconnect_right g h rh nh rs = Ok g' -> same_nodes g g'.
Proof.
  revert g. induction rs as [| r rs IH]; intros g; simpl.
  - intros [= <-]. apply same_nodes_refl.
  - destruct (create_edge_handles g nh _) as [g1 |] eqn:Hc; [| discriminate]. simpl.
    intros Hrec. eapply same_nodes_trans; [| by apply IH].
    by apply create_edge_handles_same_nodes in Hc.
Qed.

Lemma destroy_node_ptr_paths (g : VG) (node : Node) :
  paths (destroy_node_ptr g node) = paths g.
Proof.
  rewrite destroy_node_ptr_unfold.
  destruct (has_node g (node_id node)); [| reflexivity]. cbn [negb].
  assert (Hw : paths (without_edges_of g (node_id node)) = paths g).
  { unfold without_edges_of. simpl.
    by destruct (fold_same_nodes (fun g e => destroy_edge g e.1 e.2)
                   (edges_to_destroy g (node_id node)) g
                   (fun g e => destroy_edge_ptr_same_nodes g _))
      as (_ & _ & _ & _ & ->). }
  rewrite <- Hw. unfold release_node.
  case_bool_decide; [reflexivity |].
  by destruct (graph_node _ !! _).
Qed.

(** ** Creating nodes on a consistent store *)

Lemma max_node_id_bound (g : VG) (n : Node) :
  n ∈ graph_node g -> node_id n <= max_node_id g.
Proof.
  unfold max_node_id.
  assert (H : forall (l : list Node) (a : Z),
            a <= foldl (fun max_id n => if max_id <? node_id n then node_id n else max_id) a l
            /\ forall n, n ∈ l ->
                 node_id n <= foldl (fun max_id n => if max_id <? node_id n
                                                     then node_id n else max_id) a l).
  { induction l as [| m l IH]; intros a; simpl.
    - split; [lia |]. intros n' Hn'. by apply elem_of_nil in Hn'.
    - destruct (IH (if a <? node_id m then node_id m else a)) as [Hle Hall].
      split.
      + destruct (Z.ltb_spec a (node_id m)); lia.
      + intros n' [-> | Hn']%elem_of_cons; [| by apply Hall].
        destruct (Z.ltb_spec a (node_id m)); lia. }
  apply H.
Qed.

Lemma next_id_fresh (g : VG) :
  counter_ok g ->
  0 < next_id g /\ forall n, n ∈ graph_node g -> node_id n < next_id g.
Proof.
  intros [Hpos Hc]. unfold next_id.
  destruct (Z.eqb_spec (current_id g) 1) as [Hone | Hne].
  - pose proof (max_node_id_nonneg g). split; [lia |].
    intros n Hn. pose proof (max_node_id_bound g n Hn). lia.
  - destruct Hc as [? | Hc]; [done |]. by split.
Qed.

Lemma create_node_ok (g : VG) (seq : list ascii) :
  counter_ok g -> nodes_wf g ->
  exists g', create_node g seq = Ok (g', mkNode (next_id g) seq)
             /\ counter_ok g' /\ nodes_wf g'
             /\ same_edges g g'
             /\ graph_node g' = graph_node g ++ [mkNode (next_id g) seq]
             /\ paths g' = paths g
             /\ (forall n, n ∈ graph_node g -> node_id n < next_id g).
Proof.
  intros Hc Hwf. destruct (next_id_fresh g Hc) as [Hpos Hfresh].
  destruct (create_node g seq) as [[g' n] |] eqn:Hcreate.
  - apply create_node_fields in Hcreate as (_ & -> & Hse & HL & HB & HI & HC & HP).
    exists g'. split; [reflexivity |].
    split; [| split; [| split; [exact Hse | split; [exact HL | split; [exact HP | exact Hfresh]]]]].
    + split; [lia |]. right. rewrite HL, HC. intros n [Hn | Hn]%elem_of_app.
      * specialize (Hfresh n Hn). lia.
      * apply list_elem_of_singleton in Hn as ->. simpl. lia.
    + destruct Hwf as (N1 & N2 & N3). split; [| split].
      * rewrite HL, fmap_app. apply NoDup_app. split; [assumption |]. split.
        -- intros id Hid. csimpl. rewrite list_elem_of_singleton. intros ->.
           apply list_elem_of_fmap in Hid as (n & Heq & Hn).
           specialize (Hfresh n Hn). lia.
        -- csimpl. apply NoDup_singleton.
      * intros i n. rewrite HL, HB, HI. intros Hi.
        apply lookup_app_Some in Hi as [Hi | [Hlen Hi]].
        -- assert (Hne : next_id g <> node_id n).
           { pose proof (Hfresh n (list_elem_of_lookup_2 _ _ _ Hi)). lia. }
           rewrite !lookup_insert_ne by assumption. by apply N2.
        -- apply list_lookup_singleton_Some in Hi as [Hi <-]. simpl.
           rewrite !lookup_insert_eq. split; [reflexivity |]. f_equal. lia.
      * intros id n. rewrite HL, HB. intros Hid.
        apply lookup_insert_Some in Hid as [[<- <-] | [Hne Hid]].
        -- split; [| reflexivity]. apply elem_of_app. right. by left.
        -- destruct (N3 _ _ Hid) as [Hin Hkey]. split; [| assumption].
           apply elem_of_app. by left.
  - exfalso. unfold create_node in Hcreate.
    assert (Hcur : current_id (if current_id g =? 1
                               then with_current_id g (max_node_id g + 1) else g)
                   = next_id g).
    { unfold next_id. by destruct (current_id g =? 1). }
    rewrite Hcur in Hcreate. unfold create_node_with_id in Hcreate.
    destruct (Z.eqb_spec (next_id g) 0); [lia | discriminate].
Qed.

(** ** The pieces of a divided node *)

Lemma create_parts_ok (positions : list Z) (g : VG) (node : Node) (last_pos : Z) :
  counter_ok g -> nodes_wf g ->
  offsets_valid last_pos (seq_size node) positions ->
  exists g1 parts,
    create_parts g node last_pos positions = Ok (g1, parts)
    /\ node_sequence <$> parts = pieces (node_sequence node) last_pos positions
    /\ graph_node g1 = graph_node g ++ parts
    /\ counter_ok g1 /\ nodes_wf g1 /\ same_edges g g1 /\ paths g1 = paths g
    /\ (forall p n, p ∈ parts -> n ∈ graph_node g -> node_id n < node_id p).
Proof.
  revert g last_pos. induction positions as [| pos rest IH];
    intros g last_pos Hc Hwf Hvalid; simpl.
  - destruct (create_node_ok g (drop (Z.to_nat last_pos) (node_sequence node)) Hc Hwf)
      as (g1 & -> & Hc1 & Hwf1 & Hse & HL & HP & Hfresh).
    simpl. eexists _, _. split; [reflexivity |].
    split; [reflexivity |]. split; [exact HL |].
    split; [exact Hc1 |]. split; [exact Hwf1 |]. split; [exact Hse |].
    split; [exact HP |].
    intros p n Hp Hn. apply list_elem_of_singleton in Hp as ->. simpl. by apply Hfresh.
  - destruct Hvalid as [Hpos Hvalid].
    destruct (create_node_ok g (substr (node_sequence node) last_pos (pos - last_pos)) Hc Hwf)
      as (g1 & -> & Hc1 & Hwf1 & Hse & HL & HP & Hfresh).
    simpl.
    destruct (IH g1 pos Hc1 Hwf1 Hvalid)
      as (g2 & parts & -> & Hseq & HL2 & Hc2 & Hwf2 & Hse2 & HP2 & Hfresh2).
    simpl. eexists _, _. split; [reflexivity |].
    split; [| split; [| split; [exact Hc2 | split; [exact Hwf2 | split; [| split]]]]].
    + csimpl. rewrite Hseq. f_equal. unfold substr.
      destruct (Z.ltb_spec (pos - last_pos) 0); [lia | reflexivity].
    + rewrite HL2, HL, <- app_assoc. reflexivity.
    + eapply same_edges_trans; eassumption.
    + congruence.
    + intros p n Hp Hn. apply elem_of_cons in Hp as [-> | Hp].
      * simpl. by apply Hfresh.
      * apply (Hfresh2 p n Hp). rewrite HL. apply elem_of_app. by left.
Qed.

Lemma pieces_length (s : list ascii) (last_pos : Z) (offsets : list Z) :
  length (pieces s last_pos offsets) = S (length offsets).
Proof.
  revert last_pos. induction offsets as [| pos rest IH]; intros last_pos; simpl;
    [reflexivity |]. by rewrite IH.
Qed.

Lemma pieces_concat (s : list ascii) (last_pos : Z) (offsets : list Z) :
  0 <= last_pos -> offsets_valid last_pos (Z.of_nat (length s)) offsets ->
  mjoin (pieces s last_pos offsets) = drop (Z.to_nat last_pos) s.
Proof.
  revert last_pos. induction offsets as [| pos rest IH]; intros last_pos H0 Hvalid; simpl.
  - apply app_nil_r.
  - destruct Hvalid as [Hpos Hvalid]. rewrite IH by (assumption || lia).
    rewrite <- (take_drop (Z.to_nat (pos - last_pos)) (drop (Z.to_nat last_pos) s)) at 2.
    f_equal. rewrite drop_drop. f_equal. lia.
Qed.

Lemma pieces_nonempty (s : list ascii) (last_pos : Z) (offsets : list Z) :
  0 <= last_pos < Z.of_nat (length s) ->
  offsets_valid last_pos (Z.of_nat (length s)) offsets ->
  Forall (fun piece => piece <> []) (pieces s last_pos offsets).
Proof.
  revert last_pos. induction offsets as [| pos rest IH]; intros last_pos H0 Hvalid; simpl.
  - constructor; [| constructor].
    intros Hnil. apply (f_equal length) in Hnil. rewrite length_drop in Hnil.
    simpl in Hnil. lia.
  - destruct Hvalid as [Hpos Hvalid]. constructor; [| apply IH; [lia | assumption]].
    intros Hnil. apply (f_equal length) in Hnil.
    rewrite length_take, length_drop in Hnil. simpl in Hnil. lia.
Qed.

Lemma check_positions_ok (node : Node) (positions : list Z) :
  (forall pos, pos ∈ positions -> 0 <= pos <= seq_size node) ->
  check_positions node positions = Ok tt.
Proof.
  intros Hall. unfold check_positions.
  destruct (List.find _ positions) as [pos |] eqn:Hfind; [| reflexivity].
  apply List.find_some in Hfind as [Hin Hbad].
  apply list_elem_of_In, Hall in Hin.
  apply orb_true_iff in Hbad as [Hbad | Hbad].
  - apply Z.ltb_lt in Hbad. lia.
  - apply Z.ltb_lt in Hbad. lia.
Qed.

Lemma check_positions_bad (node : Node) (positions : list Z) (pos : Z) :
  pos ∈ positions -> pos < 0 \/ seq_size node < pos ->
  exists bad, bad ∈ positions /\ (bad < 0 \/ seq_size node < bad)
              /\ check_positions node positions
                 = Err (DivideOutOfRange (node_id node) bad (seq_size node)).
Proof.
  intros Hin Hbad. unfold check_positions.
  destruct (List.find _ positions) as [bad |] eqn:Hfind.
  - apply List.find_some in Hfind as [Hbin Hb]. exists bad.
    split; [by apply list_elem_of_In |]. split; [| reflexivity].
    apply orb_true_iff in Hb as [Hb | Hb]; apply Z.ltb_lt in Hb; lia.
  - exfalso. apply list_elem_of_In in Hin.
    pose proof (List.find_none _ _ Hfind pos Hin) as Hno. simpl in Hno.
    apply orb_false_iff in Hno as [H1 H2].
    apply Z.ltb_ge in H1. apply Z.ltb_ge in H2. lia.
Qed.

(** ** Dividing a node: the whole operation *)

Lemma fold_create_edge_same_nodes {A : Type} (f : A -> Z * Z * bool * bool)
    (l : list A) (g : VG) :
  same_nodes g
    (foldl (fun g x => (create_edge g (f x).1.1.1 (f x).1.1.2 (f x).1.2 (f x).2).1) g l).
Proof.
  apply (fold_same_nodes
           (fun g x => (create_edge g (f x).1.1.1 (f x).1.1.2 (f x).1.2 (f x).2).1)).
  intros g0 x. by destruct (create_edge_spec g0 (f x).1.1.1 (f x).1.1.2 (f x).1.2 (f x).2).
Qed.

Lemma connect_parts_same_nodes (parts : list Node) (g : VG) :
  same_nodes g (connect_parts g parts).
Proof.
  revert g. induction parts as [| a parts IH]; intros g; simpl; [apply same_nodes_refl |].
  destruct parts as [| b parts]; [apply same_nodes_refl |].
  eapply same_nodes_trans; [| apply IH].
  by destruct (create_edge_spec g (node_id a) (node_id b) false false).
Qed.

Lemma divide_node_ok (g : VG) (node : Node) (positions : list Z) :
  counter_ok g -> nodes_wf g -> edges_wf g ->
  node ∈ graph_node g -> node_sequence node <> [] ->
  offsets_valid 0 (seq_size node) positions ->
  exists g' parts,
    divide_node g node positions = Ok (g', parts)
    /\ length parts = S (length positions)
    /\ node_sequence <$> parts = pieces (node_sequence node) 0 positions
    /\ Forall (fun part => node_sequence part <> []) parts
    /\ mjoin (node_sequence <$> parts) = node_sequence node
    /\ has_node g' (node_id node) = false
    /\ (forall part, part ∈ parts -> node_by_id g' !! node_id part = Some part)
    /\ graph_node g ++ parts ≡ₚ node :: graph_node g'
    /\ nodes_wf g' /\ edges_wf g'.
Proof.
  intros Hc Hn He Hin Hseq Hvalid.
  assert (Hrange : forall pos, pos ∈ positions -> 0 <= pos <= seq_size node).
  { assert (Hgen : forall l last, 0 <= last -> offsets_valid last (seq_size node) l ->
                     forall pos, pos ∈ l -> 0 <= pos <= seq_size node).
    { induction l as [| p l IH]; intros last Hlast Hv pos Hpos.
      - by apply elem_of_nil in Hpos.
      - destruct Hv as [Hp Hv]. apply elem_of_cons in Hpos as [-> | Hpos]; [lia |].
        apply (IH p); [lia | assumption | assumption]. }
    by apply (Hgen positions 0). }
  unfold divide_node. rewrite (check_positions_ok node positions Hrange). simpl.
  destruct (create_parts_ok positions g node 0 Hc Hn Hvalid)
    as (g1 & parts & -> & Hpieces & HL & Hc1 & Hn1 & Hse & HP & Hfresh).
  simpl.
  set (g2 := foldl _ g1 _).
  assert (Hs2 : same_nodes g1 g2).
  { apply (fold_create_edge_same_nodes
             (fun e : Z * bool * (Z * bool) => (e.1.1, e.2.1, e.1.2, e.2.2))). }
  assert (He2 : edges_wf g2).
  { apply (fold_create_edge_wf
             (fun e : Z * bool * (Z * bool) => (e.1.1, e.2.1, e.1.2, e.2.2))).
    by apply (same_edges_wf _ _ Hse). }
  pose proof (connect_parts_same_nodes parts g2) as Hs3.
  pose proof (connect_parts_wf parts g2 He2) as He3.
  set (g3 := connect_parts g2 parts) in *.
  set (g4 := with_paths g3 _).
  assert (Hn3 : nodes_wf g3).
  { apply (same_nodes_wf g2); [assumption |].
    by apply (same_nodes_wf g1). }
  assert (Hn4 : nodes_wf g4) by exact Hn3.
  assert (He4 : edges_wf g4) by (by apply with_paths_edges_wf).
  assert (HL4 : graph_node g4 = graph_node g ++ parts).
  { destruct Hs2 as (A1 & _), Hs3 as (B1 & _). simpl. congruence. }
  apply list_elem_of_lookup in Hin as [i Hi].
  assert (Hi4 : graph_node g4 !! i = Some node).
  { rewrite HL4. by apply lookup_app_l_Some. }
  destruct (destroy_node_ptr_spec g4 node i node Hn4 He4 Hi4 eq_refl)
    as (Hn' & He' & HL' & HB' & _ & _ & _).
  eexists _, _. split; [reflexivity |].
  assert (Hlen : 0 <= 0 < Z.of_nat (length (node_sequence node))).
  { destruct (node_sequence node); [done | simpl; lia]. }
  split; [| split; [exact Hpieces | split; [| split; [| split; [| split; [| split]]]]]].
  - rewrite <- (length_fmap node_sequence), Hpieces. apply pieces_length.
  - apply Forall_forall. intros part Hpart.
    pose proof (pieces_nonempty (node_sequence node) 0 positions Hlen Hvalid) as Hne.
    rewrite Forall_forall in Hne. apply Hne. rewrite <- Hpieces.
    apply list_elem_of_fmap. by exists part.
  - rewrite Hpieces. by rewrite pieces_concat by (done || lia).
  - unfold has_node. apply bool_decide_eq_false. rewrite HB', lookup_delete_eq.
    by intros [? ?].
  - intros part Hpart. rewrite HB'.
    assert (Hne : node_id node <> node_id part).
    { pose proof (Hfresh part node Hpart (list_elem_of_lookup_2 _ _ _ Hi)). lia. }
    rewrite lookup_delete_ne by assumption.
    assert (Hin4 : part ∈ graph_node g4) by (rewrite HL4; apply elem_of_app; by right).
    apply list_elem_of_lookup in Hin4 as [j Hj].
    destruct Hn4 as (_ & N2 & _). by apply (N2 _ _ Hj).
  - rewrite HL', <- HL4. by apply release_slot_perm.
  - split; assumption.
Qed.

Lemma scenario_graph_ok :
  counter_ok scenario_graph /\ nodes_wf scenario_graph /\ edges_wf scenario_graph.
Proof.
  split; [| split].
  - apply counter_ok_check_sound. vm_compute. reflexivity.
  - apply nodes_wf_check_sound. vm_compute. reflexivity.
  - apply edges_wf_check_sound. vm_compute. reflexivity.
Defined.

(** ** Destroying several nodes *)

Lemma fold_destroy_nodes (ns : list Node) (g : VG) :
  nodes_wf g -> edges_wf g ->
  NoDup (node_id <$> ns) -> (forall n, n ∈ ns -> n ∈ graph_node g) ->
  nodes_wf (foldl destroy_node_ptr g ns)
  /\ edges_wf (foldl destroy_node_ptr g ns)
  /\ graph_node g ≡ₚ ns ++ graph_node (foldl destroy_node_ptr g ns)
  /\ (forall e, e ∈ graph_edge (foldl destroy_node_ptr g ns)
                <-> e ∈ graph_edge g /\ forall n, n ∈ ns -> ~ incident (node_id n) e)
  /\ (forall id, (forall n, n ∈ ns -> node_id n <> id) ->
        node_by_id (foldl destroy_node_ptr g ns) !! id = node_by_id g !! id)
  /\ current_id (foldl destroy_node_ptr g ns) = current_id g
  /\ paths (foldl destroy_node_ptr g ns) = paths g.
Proof.
  revert g. induction ns as [| n ns IH]; intros g Hn He Hnd Hin; simpl.
  - split; [assumption |]. split; [assumption |]. split; [reflexivity |].
    split; [| by repeat split].
    intros e. split; [| by intros [H _]].
    intros He'. split; [assumption |]. intros n Hn'. by apply elem_of_nil in Hn'.
  - csimpl in Hnd. apply NoDup_cons in Hnd as [Hn_notin Hnd].
    assert (Hng : n ∈ graph_node g) by (apply Hin; by left).
    apply list_elem_of_lookup in Hng as [i Hi].
    destruct (destroy_node_ptr_spec g n i n Hn He Hi eq_refl)
      as (Hn1 & He1 & HL1 & HB1 & HE1 & HC1 & HP1).
    pose proof (release_slot_perm _ _ _ Hi) as Hperm. rewrite <- HL1 in Hperm.
    assert (Hin1 : forall m, m ∈ ns -> m ∈ graph_node (destroy_node_ptr g n)).
    { intros m Hm. assert (Hmg : m ∈ graph_node g) by (apply Hin; by right).
      rewrite Hperm in Hmg. apply elem_of_cons in Hmg as [-> | Hmg]; [| assumption].
      exfalso. apply Hn_notin. apply list_elem_of_fmap. by exists n. }
    destruct (IH _ Hn1 He1 Hnd Hin1) as (Hn2 & He2 & HL2 & HE2 & HB2 & HC2 & HP2).
    split; [assumption |]. split; [assumption |]. split; [| split; [| split; [| split]]].
    + rewrite Hperm. by rewrite <- HL2.
    + intros e. rewrite HE2, HE1. split.
      * intros [[Hg Hninc] Hall]. split; [assumption |].
        intros m [-> | Hm]%elem_of_cons; [assumption | by apply Hall].
      * intros [Hg Hall]. split; [split; [assumption |] |].
        -- apply Hall. by left.
        -- intros m Hm. apply Hall. by right.
    + intros id Hid. rewrite HB2 by (intros m Hm; apply Hid; by right).
      rewrite HB1. apply lookup_delete_ne. apply Hid. by left.
    + congruence.
    + congruence.
Qed.

(** ** The chain edges between the pieces *)



Lemma create_edge_edges (g : VG) (f t : Z) (fs te : bool) (e : Edge) :
  e ∈ graph_edge (create_edge g f t fs te).1
  <-> e ∈ graph_edge g
      \/ (e = mkEdge f t fs te
          /\ edge_by_sides g !! pair_from_edge (mkEdge f t fs te) = None).
Proof.
  destruct (create_edge_spec g f t fs te) as [_ Hspec].
  destruct (edge_by_sides g !! _) as [e0 |].
  - destruct Hspec as [-> _]. split; [by left | by intros [? | [_ ?]]].
  - destruct Hspec as (_ & -> & _). rewrite elem_of_app, list_elem_of_singleton.
    split.
    + intros [? | ->]; [by left | by right].
    + intros [? | [-> _]]; [by left | by right].
Qed.



Lemma connect_parts_keeps (parts : list Node) (g : VG) (e : Edge) :
  e ∈ graph_edge g -> e ∈ graph_edge (connect_parts g parts).
Proof.
  revert g. induction parts as [| a parts IH]; intros g He; [assumption |].
  destruct parts as [| b parts]; [assumption |].
  change (connect_parts g (a :: b :: parts))
    with (connect_parts (create_edge g (node_id a) (node_id b) false false).1 (b :: parts)).
  apply IH. apply create_edge_edges. by left.
Qed.

(** ** Editing one path of the collection *)

Lemma get_path_middle (n : string) (ms : list mapping_t) (done rest : Paths.t) :
  n ∉ done.*1 -> Paths.get_path (done ++ (n, ms) :: rest) n = ms.
Proof. intros Hn. unfold Paths.get_path. by rewrite find_name_middle. Qed.

Lemma alter_path_middle (f : list mapping_t -> list mapping_t) (n : string)
    (ms : list mapping_t) (done rest : Paths.t) :
  n ∉ done.*1 ->
  Paths.alter_path f n (done ++ (n, ms) :: rest) = done ++ (n, f ms) :: rest.
Proof.
  induction done as [| [n' ms'] done IH]; csimpl; intros Hn.
  - by rewrite decide_True.
  - apply not_elem_of_cons in Hn as [Hne Hn].
    rewrite decide_False by congruence. by rewrite IH.
Qed.

Lemma remove_mapping_middle (n : string) (pre post : list mapping_t) (m : mapping_t)
    (done rest : Paths.t) :
  n ∉ done.*1 -> m ∉ pre ->
  Paths.remove_mapping (done ++ (n, pre ++ m :: post) :: rest) n m
  = (done ++ (n, pre ++ post) :: rest, length pre).
Proof.
  intros Hn Hm. unfold Paths.remove_mapping. rewrite get_path_middle by assumption.
  assert (Hfind : list_find (fun x => x = m) (pre ++ m :: post) = Some (length pre, m)).
  { apply list_find_Some. split; [by rewrite list_lookup_middle |].
    split; [reflexivity |].
    intros j y Hj Hlt. rewrite lookup_app_l in Hj by lia. intros ->.
    apply Hm. eapply list_elem_of_lookup_2; eassumption. }
  rewrite Hfind, alter_path_middle by assumption.
  by rewrite delete_middle.
Qed.



(** ** Replacing the mappings on one node, path by path *)

Section replace_on_node.
Variable id : Z.
Variable repl : mapping_t -> list mapping_t.
Variable op : Paths.t -> string -> mapping_t -> Paths.t.
Hypothesis repl_off : forall m, Forall (fun x => m_node_id x <> id) (repl m).
Hypothesis op_middle :
  forall n pre m post done rest, n ∉ done.*1 -> m ∉ pre ->
    op (done ++ (n, pre ++ m :: post) :: rest) n m = done ++ (n, pre ++ repl m ++ post) :: rest.

Lemma replace_fold_path (n : string) (done rest : Paths.t) (ms pre : list mapping_t) :
  n ∉ done.*1 -> Forall (fun x => m_node_id x <> id) pre ->
  foldl (fun ps (nm : string * mapping_t) => op ps nm.1 nm.2)
        (done ++ (n, pre ++ ms) :: rest)
        ((fun m => (n, m)) <$> Paths.mappings_on id ms)
  = done ++ (n, pre ++ (ms ≫= fun m => if decide (m_node_id m = id)
                                       then repl m else [m])) :: rest.
Proof.
  intros Hn. revert pre. induction ms as [| x ms IH]; intros pre Hpre; [reflexivity |].
  unfold Paths.mappings_on in *. rewrite filter_cons. csimpl.
  destruct (decide (m_node_id x = id)) as [Hx | Hx].
  - csimpl. rewrite op_middle; [| assumption |].
    + rewrite (app_assoc pre), IH, <- app_assoc; [reflexivity |].
      apply Forall_app. split; [assumption | apply repl_off].
    + intros Hin. rewrite Forall_forall in Hpre. by apply (Hpre _ Hin).
  - rewrite (cons_middle x pre ms), (app_assoc pre), IH, <- app_assoc; [reflexivity |].
    apply Forall_app. split; [assumption |]. by apply Forall_singleton.
Qed.

Lemma node_mapping_pairs (ps : Paths.t) :
  Paths.get_node_mapping_by_path_name ps id
    ≫= (fun pm : string * list mapping_t => (fun m => (pm.1, m)) <$> pm.2)
  = ps ≫= (fun p : string * list mapping_t =>
             (fun m => (p.1, m)) <$> Paths.mappings_on id p.2).
Proof.
  unfold Paths.get_node_mapping_by_path_name.
  induction ps as [| [n ms] ps IH]; [reflexivity |].
  csimpl. rewrite <- IH. by destruct (Paths.mappings_on id ms).
Qed.

Lemma replace_fold_paths (rest done : Paths.t) :
  NoDup (done ++ rest).*1 ->
  foldl (fun ps (nm : string * mapping_t) => op ps nm.1 nm.2) (done ++ rest)
        (rest ≫= (fun p : string * list mapping_t =>
                    (fun m => (p.1, m)) <$> Paths.mappings_on id p.2))
  = done ++ ((fun p : string * list mapping_t =>
                (p.1, p.2 ≫= fun m => if decide (m_node_id m = id) then repl m else [m]))
               <$> rest).
Proof.
  revert done. induction rest as [| [n ms] rest IH]; intros done Hnd; [reflexivity |].
  csimpl. rewrite foldl_app.
  assert (Hn : n ∉ done.*1).
  { rewrite fmap_app in Hnd. apply NoDup_app in Hnd as (_ & Hdisj & _).
    intros Hin. apply (Hdisj _ Hin). csimpl. by left. }
  pose proof (replace_fold_path n done rest ms [] Hn (Forall_nil_2 _)) as Hone.
  simpl in Hone. rewrite Hone.
  rewrite (cons_middle _ done), app_assoc, IH, <- app_assoc; [reflexivity |].
  rewrite <- app_assoc. rewrite !fmap_app in *. exact Hnd.
Qed.

Lemma replace_all (ps : Paths.t) :
  NoDup ps.*1 ->
  foldl (fun ps (nm : string * mapping_t) => op ps nm.1 nm.2) ps
        (Paths.get_node_mapping_by_path_name ps id
           ≫= (fun pm : string * list mapping_t => (fun m => (pm.1, m)) <$> pm.2))
  = (fun p : string * list mapping_t =>
       (p.1, p.2 ≫= fun m => if decide (m_node_id m = id) then repl m else [m]))
      <$> ps.
Proof.
  intros Hnd. rewrite node_mapping_pairs. exact (replace_fold_paths ps [] Hnd).
Qed.
End replace_on_node.

(** ** The cuts of a mapping *)



Section placed_facts.
Variables (node : Node) (positions : list Z) (parts : list Node).
Hypothesis parts_length : length parts = S (length positions).



End placed_facts.


Lemma filter_all {A : Type} (P : A -> Prop) `{forall x, Decision (P x)} (l : list A) :
  (forall y, y ∈ l -> P y) -> filter P l = l.
Proof.
  induction l as [| y l IH]; intros Hall; [reflexivity |].
  rewrite filter_cons, decide_True by (apply Hall; by left).
  f_equal. apply IH. intros z Hz. apply Hall. by right.
Qed.

(** ** The rank table of renamed mappings *)



(** ** The paths after a division *)


(** ** The paths after a concatenation *)

Lemma bind_drop_filter (id : Z) (ms : list mapping_t) :
  ms ≫= (fun m => if decide (m_node_id m = id) then [] else [m])
  = filter (fun m => m_node_id m <> id) ms.
Proof.
  induction ms as [| m ms IH]; [reflexivity |].
  csimpl. rewrite filter_cons, IH.
  destruct (decide (m_node_id m = id)) as [Heq | Hne].
  - by rewrite decide_False by (intros H; by apply H).
  - by rewrite decide_True by assumption.
Qed.

Lemma remove_mappings_of_spec (ps : Paths.t) (id : Z) :
  NoDup ps.*1 ->
  remove_mappings_of ps id
  = (fun p : string * list mapping_t =>
       (p.1, filter (fun m => m_node_id m <> id) p.2)) <$> ps.
Proof.
  intros Hnd. unfold remove_mappings_of.
  rewrite (replace_all id (fun _ => []) (fun ps n m => (Paths.remove_mapping ps n m).1)).
  - apply list_fmap_ext. intros i [n ms] _. simpl. by rewrite bind_drop_filter.
  - intros m. constructor.
  - intros. by rewrite remove_mapping_middle.
  - assumption.
Qed.





(** ** A path after division and concatenation *)

Section rejoin.
Variables (node : Node) (positions : list Z) (parts : list Node).
Hypothesis parts_length : length parts = S (length positions).
Hypothesis parts_distinct : NoDup (node_id <$> parts).
Hypothesis parts_fresh : forall p, p ∈ parts -> node_id p <> node_id node.





End rejoin.

(** ** Adjacency lists under the destruction of a node *)



Lemma no_entries (l : list (Z * bool)) : (forall x, x ∉ l) -> l = [].
Proof. destruct l as [| y l]; [done |]. intros H. exfalso. apply (H y). by left. Qed.

(** ** Concatenating a run that no edge enters or leaves *)

Lemma forward_run_sequence (parts : list Node) :
  forward_run parts
    ≫= (fun n : NodeTraversal =>
          if n.2 then reverse_complement (node_sequence n.1) else node_sequence n.1)
  = mjoin (node_sequence <$> parts).
Proof. induction parts as [| p parts IH]; [reflexivity |]. csimpl. by rewrite IH. Qed.

Lemma forward_run_length (parts : list Node) (acc : Z) :
  foldl (fun acc (t : NodeTraversal) => acc + seq_size t.1) acc (forward_run parts)
  = acc + Z.of_nat (length (mjoin (node_sequence <$> parts))).
Proof.
  revert acc. induction parts as [| p parts IH]; intros acc; csimpl; [lia |].
  rewrite IH, length_app. unfold seq_size. lia.
Qed.

Lemma forward_run_destroy (parts : list Node) (g : VG) :
  foldl (fun g (n : NodeTraversal) => destroy_node_ptr g n.1) g (forward_run parts)
  = foldl destroy_node_ptr g parts.
Proof. revert g. induction parts as [| p parts IH]; intros g; [reflexivity |]. apply IH. Qed.

Lemma last_forward_run (parts : list Node) (front : Node) :
  List.last (forward_run parts) (front, false) = (List.last parts front, false).
Proof.
  induction parts as [| p parts IH]; [reflexivity |].
  destruct parts as [| q parts]; [reflexivity |]. exact IH.
Qed.

Lemma last_elem_of (parts : list Node) (p d : Node) :
  List.last (p :: parts) d ∈ p :: parts.
Proof.
  revert p. induction parts as [| q parts IH]; intros p; [by left |].
  right. apply IH.
Qed.

Lemma front_back_distinct (p q : Node) (parts : list Node) :
  NoDup (node_id <$> p :: q :: parts) ->
  node_id p <> node_id (List.last (p :: q :: parts) p).
Proof.
  intros Hnd. csimpl in Hnd. apply NoDup_cons in Hnd as [Hp _].
  change (List.last (p :: q :: parts) p) with (List.last (q :: parts) p).
  intros Heq. apply Hp. rewrite Heq.
  change (node_id q :: (node_id <$> parts)) with (node_id <$> q :: parts).
  apply list_elem_of_fmap. eexists. split; [reflexivity | apply last_elem_of].
Qed.

Lemma bind_Ok {A B : Type} (x : A) (k : A -> res B) : Ok x ≫= k = k x.
Proof. reflexivity. Qed.

Lemma concat_isolated_run (g : VG) (front q : Node) (rest : list Node) :
  let parts := front :: q :: rest in
  let merged := mkNode (next_id g) (mjoin (node_sequence <$> parts)) in
  counter_ok g -> nodes_wf g -> edges_wf g ->
  NoDup (node_id <$> parts) -> (forall p, p ∈ parts -> p ∈ graph_node g) ->
  mjoin (node_sequence <$> parts) <> [] ->
  edges_start g (node_id front) = [] ->
  edges_end g (node_id (List.last parts front)) = [] ->
  exists g',
    concat_nodes g (forward_run parts) = Ok (g', merged)
    /\ nodes_wf g' /\ edges_wf g'
    /\ graph_node g ++ [merged] ≡ₚ parts ++ graph_node g'
    /\ (forall e, e ∈ graph_edge g'
                  <-> e ∈ graph_edge g /\ forall p, p ∈ parts -> ~ incident (node_id p) e)
    /\ (forall id, id <> next_id g -> (forall p, p ∈ parts -> node_id p <> id) ->
          node_by_id g' !! id = node_by_id g !! id)
    /\ node_by_id g' !! next_id g = Some merged
    /\ (forall n, n ∈ graph_node g -> node_id n < next_id g)
    /\ paths g'
       = append_new_mappings
           (foldl (fun ps (n : NodeTraversal) => remove_mappings_of ps (node_id n.1))
                  (paths g) (forward_run parts))
           (next_id g)
           ((fun nr : string * list (Z * mapping_t) =>
               (nr.1,
                (fun rm : Z * mapping_t =>
                   set_length (Z.of_nat (length (mjoin (node_sequence <$> parts)))) rm.2)
                  <$> nr.2))
              <$> Paths.get_node_mapping_copies_by_rank (paths g) (node_id front)).
Proof.
  intros parts merged Hc Hn He Hnd Hin Hseq Hstart Hend.
  unfold concat_nodes.
  change (forward_run parts) with ((front, false) :: forward_run (q :: rest)) at 1.
  cbv beta iota zeta.
  change ((front, false) :: forward_run (q :: rest)) with (forward_run parts).
  rewrite last_forward_run. cbn [fst snd].
  rewrite bool_decide_eq_false_2
    by (intros [Heq _]; by apply (front_back_distinct front q rest Hnd)).
  cbn [negb assert]. rewrite bind_Ok.
  assert (Hlen : 0 < Z.of_nat (length (mjoin (node_sequence <$> parts)))).
  { destruct (mjoin (node_sequence <$> parts)); [done | simpl; lia]. }
  assert (Hnew : concat_mappings_for_nodes g (forward_run parts)
                 = Ok ((fun nr : string * list (Z * mapping_t) =>
                          (nr.1,
                           (fun rm : Z * mapping_t =>
                              set_length
                                (Z.of_nat (length (mjoin (node_sequence <$> parts)))) rm.2)
                             <$> nr.2))
                         <$> Paths.get_node_mapping_copies_by_rank (paths g)
                               (node_id front))).
  { unfold concat_mappings_for_nodes. rewrite forward_run_length, Z.add_0_l.
    destruct (Z.ltb_spec 0 (Z.of_nat (length (mjoin (node_sequence <$> parts)))));
      [reflexivity | lia]. }
  rewrite Hnew, bind_Ok, forward_run_sequence.
  destruct (create_node_ok g (mjoin (node_sequence <$> parts)) Hc Hn)
    as (g1 & Hcreate & Hc1 & Hn1 & Hse & HL1 & HP1 & Hfresh).
  rewrite Hcreate, bind_Ok. fold merged. cbn [node_id].
  set (ps2 := append_new_mappings _ _ _).
  set (g2 := with_paths g1 ps2).
  assert (He2 : edges_wf g2).
  { apply with_paths_edges_wf. by apply (same_edges_wf g). }
  assert (Hn2 : nodes_wf g2) by exact Hn1.
  destruct Hse as (S1 & S2 & S3 & S4 & S5).
  assert (Hprev : nodes_prev g2 (front, false) = Ok []).
  { unfold nodes_prev. cbn [fst snd].
    replace (edges_start g2 (node_id front)) with (@nil (Z * bool)); [reflexivity |].
    rewrite <- Hstart. unfold edges_start. simpl. by rewrite S4. }
  assert (Hnext : nodes_next g2 (List.last parts front, false) = Ok []).
  { unfold nodes_next. cbn [fst snd].
    replace (edges_end g2 (node_id (List.last parts front))) with (@nil (Z * bool));
      [reflexivity |].
    rewrite <- Hend. unfold edges_end. simpl. by rewrite S5. }
  rewrite Hprev, bind_Ok. cbn [connect_prev]. rewrite bind_Ok.
  rewrite Hnext, bind_Ok. cbn [connect_next]. rewrite bind_Ok.
  rewrite forward_run_destroy.
  assert (Hin2 : forall p, p ∈ parts -> p ∈ graph_node g2).
  { intros p Hp. change (graph_node g2) with (graph_node g1).
    rewrite HL1. apply elem_of_app. left. by apply Hin. }
  destruct (fold_destroy_nodes parts g2 Hn2 He2 Hnd Hin2)
    as (Hn3 & He3 & HL3 & HE3 & HB3 & HC3 & HP3).
  eexists. split; [reflexivity |].
  split; [exact Hn3 |]. split; [exact He3 |].
  assert (HB1 : node_by_id g1 = <[next_id g := merged]> (node_by_id g)).
  { by apply create_node_fields in Hcreate as (_ & _ & _ & _ & ? & _). }
  split; [| split; [| split; [| split; [| split; [exact Hfresh |]]]]].
  - rewrite <- HL3. change (graph_node g2) with (graph_node g1). by rewrite HL1.
  - intros e. rewrite HE3. change (graph_edge g2) with (graph_edge g1). by rewrite S1.
  - intros id Hid Hparts. rewrite HB3 by assumption.
    change (node_by_id g2) with (node_by_id g1). rewrite HB1.
    by apply lookup_insert_ne.
  - rewrite HB3.
    + change (node_by_id g2) with (node_by_id g1). rewrite HB1. apply lookup_insert_eq.
    + intros p Hp. specialize (Hfresh p (Hin p Hp)). lia.
  - rewrite HP3. change (paths g2) with ps2. unfold ps2. by rewrite HP1.
Qed.

(** ** Dividing a node that no edge attaches to *)

Lemma has_node_fresh (g : VG) (id : Z) :
  nodes_wf g -> (forall n, n ∈ graph_node g -> node_id n < id) -> has_node g id = false.
Proof.
  intros (_ & _ & N3) Hfresh. unfold has_node. apply bool_decide_eq_false.
  intros [n Hlook]. destruct (N3 _ _ Hlook) as [Hin Hid].
  specialize (Hfresh n Hin). lia.
Qed.





(** ** Division followed by concatenation *)



Lemma nodes_wf_lookup (g : VG) (n : Node) :
  nodes_wf g -> n ∈ graph_node g -> node_by_id g !! node_id n = Some n.
Proof.
  intros (_ & N2 & _) [i Hi]%list_elem_of_lookup. by apply (N2 _ _ Hi).
Qed.

Lemma has_node_elem (g : VG) (id : Z) :
  nodes_wf g -> has_node g id = true ->
  exists n, n ∈ graph_node g /\ node_id n = id.
Proof.
  intros (_ & _ & N3) [n Hlook]%has_node_true. exists n. by apply N3.
Qed.

Lemma path_sequence_app (g : VG) (l1 l2 : list mapping_t) :
  path_sequence g (l1 ++ l2) = path_sequence g l1 ++ path_sequence g l2.
Proof. unfold path_sequence. apply bind_app. Qed.

Lemma path_sequence_ext (g g' : VG) (l : list mapping_t) :
  (forall m, m ∈ l -> node_by_id g' !! m_node_id m = node_by_id g !! m_node_id m) ->
  path_sequence g' l = path_sequence g l.
Proof.
  unfold path_sequence. induction l as [| m l IH]; intros Hl; [reflexivity |].
  csimpl. rewrite (Hl m) by (by left). f_equal. apply IH.
  intros m' Hm'. apply Hl. by right.
Qed.


(** ** Walks and the letters they spell *)

Lemma forward_walk_letters (u : VG) (w : list NodeTraversal) (c : ascii) :
  is_walk u w -> on_forward_strand w -> c ∈ walk_sequence w ->
  exists n, n ∈ graph_node u /\ c ∈ node_sequence n.
Proof.
  intros (_ & Hnodes & _) Hfwd Hc. unfold walk_sequence in Hc.
  apply list_elem_of_bind in Hc as (t & Hc & Ht).
  unfold on_forward_strand in Hfwd. rewrite Forall_forall in Hnodes, Hfwd.
  exists t.1. split; [by apply Hnodes |].
  unfold oriented_sequence in Hc. by rewrite (Hfwd t Ht) in Hc.
Qed.

Lemma no_forward_walk_spells (u : VG) (s : list ascii) (c : ascii) :
  c ∈ s -> Forall (fun n => c ∉ node_sequence n) (graph_node u) ->
  ~ exists w, is_walk u w /\ on_forward_strand w /\ walk_sequence w = s.
Proof.
  intros Hc Hnone (w & Hw & Hfwd & Hs). rewrite <- Hs in Hc.
  destruct (forward_walk_letters u w c Hw Hfwd Hc) as (n & Hn & Hcn).
  rewrite Forall_forall in Hnone. by apply (Hnone n Hn).
Qed.

Lemma unfold_chain_graph :
  exists unfolded translation,
    unfold 10 chain_graph 5 ∅ = Some (Ok (unfolded, translation))
    /\ graph_node unfolded = [mkNode 1 (dna "A"); mkNode 2 (dna "C")]
    /\ graph_edge unfolded = [mkEdge 1 2 false false].
Proof. eexists _, _. split; [vm_compute; reflexivity |]. split; reflexivity. Qed.

(** A graph without inversions records no reversing edge, so [unfold]
    returns the oriented copy alone, whatever the length allowed.  The walk
    over node 2 and then node 1 on the reverse strand of [chain_graph] spells
    GT, two bases, and no forward walk of the unfolded graph spells it. *)
Lemma unfold_skips_reverse_strand_without_inversion :
  exists unfolded translation,
    unfold 10 chain_graph 5 ∅ = Some (Ok (unfolded, translation))
    /\ graph_node unfolded = [mkNode 1 (dna "A"); mkNode 2 (dna "C")]
    /\ graph_edge unfolded = [mkEdge 1 2 false false]
    /\ is_walk chain_graph [(mkNode 2 (dna "C"), true); (mkNode 1 (dna "A"), true)]
    /\ on_reverse_strand [(mkNode 2 (dna "C"), true); (mkNode 1 (dna "A"), true)]
    /\ walk_sequence [(mkNode 2 (dna "C"), true); (mkNode 1 (dna "A"), true)] = dna "GT"
    /\ ~ reverse_walks_unfolded chain_graph unfolded 5.
Proof.
  destruct unfold_chain_graph as (u & t & Hu & Hnodes & Hedges).
  exists u, t. split; [exact Hu |].
  split; [exact Hnodes |]. split; [exact Hedges |].
  assert (Hwalk : is_walk chain_graph
                    [(mkNode 2 (dna "C"), true); (mkNode 1 (dna "A"), true)]).
  { split; [discriminate |]. split.
    - apply (bool_decide_unpack _). vm_compute. exact I.
    - split; [| exact I]. apply (bool_decide_unpack _). vm_compute. exact I. }
  assert (Hrev : on_reverse_strand
                   [(mkNode 2 (dna "C"), true); (mkNode 1 (dna "A"), true)]).
  { apply (bool_decide_unpack _). vm_compute. exact I. }
  split; [exact Hwalk |]. split; [exact Hrev |]. split; [reflexivity |].
  intros Hclaim. destruct (Hclaim _ Hwalk Hrev) as (w' & Hw' & Hfwd & Hseq).
  { vm_compute. discriminate. }
  apply (no_forward_walk_spells u (dna "GT") "G"%char);
    [| | exists w'; exact (conj Hw' (conj Hfwd Hseq))].
  - apply (bool_decide_unpack _). vm_compute. exact I.
  - rewrite Hnodes. apply (bool_decide_unpack _). vm_compute. exact I.
Qed.

Lemma orient_detour_graph :
  exists oriented,
    induce_orientation 20 detour_graph = Some (Ok oriented)
    /\ dfs_reversing oriented
       = [((mkNode 6 (dna "AAAAAAAAAA"), false), (mkNode 6 (dna "AAAAAAAAAA"), true));
          ((mkNode 5 (dna "A"), false), (mkNode 5 (dna "A"), true))].
Proof. eexists. split; [vm_compute; reflexivity | reflexivity]. Qed.

Lemma unfold_detour_graph_6 :
  exists unfolded translation,
    unfold 20 detour_graph 6 ∅ = Some (Ok (unfolded, translation))
    /\ is_walk unfolded
         [(mkNode 8 (dna "T"), false); (mkNode 9 (dna "T"), false);
          (mkNode 10 (dna "T"), false); (mkNode 11 (dna "T"), false);
          (mkNode 12 (dna "G"), false)].
Proof.
  eexists _, _. split; [vm_compute; reflexivity |].
  split; [discriminate |]. split.
  - apply (bool_decide_unpack _). vm_compute. exact I.
  - repeat split; apply (bool_decide_unpack _); vm_compute; exact I.
Qed.

Lemma unfold_detour_graph_12 :
  exists unfolded translation,
    unfold 20 detour_graph 12 ∅ = Some (Ok (unfolded, translation))
    /\ Forall (fun n => "G"%char ∉ node_sequence n) (graph_node unfolded).
Proof.
  eexists _, _. split; [vm_compute; reflexivity |].
  apply (bool_decide_unpack _). vm_compute. exact I.
Qed.

(** The reverse strand of [detour_graph] is entered behind node 5 and behind
    node 6.  Node 3 is first queued from node 6, at distance 10, although it
    lies at distance 2 behind node 5; with 12 bases allowed the search
    therefore stops at node 2, and the walk over the nodes 5, 4, 3, 2, 1 on
    the reverse strand, five bases long, has no counterpart.  With 6 bases
    allowed node 6 is not searched through, and the same walk is copied. *)
Lemma unfold_misses_walk_behind_detour :
  let n1 := mkNode 1 (dna "C") in
  let n2 := mkNode 2 (dna "A") in
  let n3 := mkNode 3 (dna "A") in
  let n4 := mkNode 4 (dna "A") in
  let n5 := mkNode 5 (dna "A") in
  let w := [(n5, true); (n4, true); (n3, true); (n2, true); (n1, true)] in
  exists oriented u12 t12 u6 t6,
    induce_orientation 20 detour_graph = Some (Ok oriented)
    /\ ((n5, false), (n5, true)) ∈ dfs_reversing oriented
    /\ is_walk detour_graph w /\ on_reverse_strand w /\ walk_sequence w = dna "TTTTG"
    /\ unfold 20 detour_graph 6 ∅ = Some (Ok (u6, t6))
    /\ (exists w', is_walk u6 w' /\ on_forward_strand w'
                   /\ walk_sequence w' = walk_sequence w)
    /\ unfold 20 detour_graph 12 ∅ = Some (Ok (u12, t12))
    /\ ~ (exists w', is_walk u12 w' /\ on_forward_strand w'
                     /\ walk_sequence w' = walk_sequence w).
Proof.
  intros n1 n2 n3 n4 n5 w.
  destruct orient_detour_graph as (oriented & Ho & Hrev).
  destruct unfold_detour_graph_6 as (u6 & t6 & Hu6 & Hw6).
  destruct unfold_detour_graph_12 as (u12 & t12 & Hu12 & Hn12).
  exists oriented, u12, t12, u6, t6. split; [exact Ho |].
  split; [rewrite Hrev; right; left |].
  split.
  { split; [discriminate |]. split.
    - apply (bool_decide_unpack _). vm_compute. exact I.
    - repeat split; apply (bool_decide_unpack _); vm_compute; exact I. }
  split; [apply (bool_decide_unpack _); vm_compute; exact I |].
  split; [reflexivity |]. split; [exact Hu6 |].
  split.
  { eexists. split; [exact Hw6 |].
    split; [apply (bool_decide_unpack _); vm_compute; exact I | reflexivity]. }
  split; [exact Hu12 |].
  apply (no_forward_walk_spells u12 _ "G"%char).
  - apply (bool_decide_unpack _). vm_compute. exact I.
  - exact Hn12.
Qed.

(** * Further properties of the edge store *)

(** ** An edge and its description from the other end *)

Lemma create_edge_found (g : VG) (from to : Z) (from_start to_end : bool) :
  edge_by_sides (create_edge g from to from_start to_end).1
    !! minmax (from, negb from_start) (to, to_end)
  = Some (create_edge g from to from_start to_end).2.
Proof.
  destruct (create_edge_spec g from to from_start to_end) as [_ Hspec].
  change (pair_from_edge (mkEdge from to from_start to_end))
    with (minmax (from, negb from_start) (to, to_end)) in Hspec.
  destruct (edge_by_sides g !! minmax (from, negb from_start) (to, to_end))
    as [e0 |] eqn:Hlook.
  - destruct Hspec as [-> ->]. exact Hlook.
  - destruct Hspec as (-> & _ & -> & _). apply lookup_insert_eq.
Qed.

(** X1. [create_edge] never makes a second record for the same pair of
    sides: once an edge was created, asking for it again, or for the same
    edge described from its other end, returns the record already there and
    leaves the graph as it is. *)
Theorem create_edge_same_edge (g : VG) (from to : Z) (from_start to_end : bool) :
  create_edge (create_edge g from to from_start to_end).1 from to from_start to_end
  = create_edge g from to from_start to_end
  /\ create_edge (create_edge g from to from_start to_end).1
                 to from (negb to_end) (negb from_start)
     = create_edge g from to from_start to_end.
Proof.
  pose proof (create_edge_found g from to from_start to_end) as Hfound.
  set (r := create_edge g from to from_start to_end) in *.
  split.
  - unfold create_edge at 1, get_edge. rewrite Hfound. by destruct r.
  - unfold create_edge at 1, get_edge. rewrite negb_involutive, minmax_comm, Hfound.
    by destruct r.
Qed.

(** ** Creating an edge and destroying it again *)

Lemma swap_remove_app_last {A : Type} `{EqDecision A} (l : list A) (x : A) :
  swap_remove (l ++ [x]) x = l.
Proof.
  induction l as [| a l IH]; simpl.
  - by rewrite decide_True.
  - destruct (decide (a = x)) as [-> | Hne]; [| by rewrite IH].
    destruct (l ++ [x]) as [| y rest] eqn:Happ; [by destruct l |].
    assert (Hne : y :: rest <> []) by done.
    rewrite <- Happ. rewrite last_last, removelast_last. reflexivity.
Qed.

Lemma new_entries_short (e : Edge) (s : NodeSide) :
  new_entries e s = [] \/ exists x, new_entries e s = [x].
Proof.
  unfold new_entries.
  destruct (decide (s = side_a e)) as [-> | Ha].
  - rewrite decide_False by (intros [Hne Heq]; by apply Hne). right. by eexists.
  - destruct (decide (side_a e <> side_b e /\ s = side_b e)); [right; by eexists | by left].
Qed.

(** X2. Creating an edge between two sides that no edge joins, and then
    destroying the edge between these sides, gives back the edge list, the
    table of edges by sides and every adjacency list exactly as they were, and
    leaves the nodes alone. *)
Theorem create_then_destroy_edge (g : VG) (from to : Z) (from_start to_end : bool) :
  edges_wf g ->
  get_edge g (from, negb from_start) (to, to_end) = None ->
  let g1 := (create_edge g from to from_start to_end).1 in
  let g2 := destroy_edge g1 (from, negb from_start) (to, to_end) in
  has_edge g1 (mkEdge from to from_start to_end) = true
  /\ same_nodes g g2
  /\ graph_edge g2 = graph_edge g
  /\ edge_by_sides g2 = edge_by_sides g
  /\ (forall s, adjacency g2 s = adjacency g s)
  /\ edges_wf g2.
Proof.
  intros Hwf Hnone g1 g2. set (e := mkEdge from to from_start to_end).
  unfold get_edge in Hnone.
  change (minmax (from, negb from_start) (to, to_end)) with (pair_from_edge e) in Hnone.
  destruct (create_edge_spec g from to from_start to_end) as [Hsame Hspec].
  fold e g1 in Hsame, Hspec. rewrite Hnone in Hspec.
  destruct Hspec as (_ & HL & HS & HI & HA).
  pose proof (create_edge_wf g from to from_start to_end Hwf) as Hwf1. fold g1 in Hwf1.
  assert (Hlook : edge_by_sides g1 !! pair_from_edge e = Some e)
    by (rewrite HS; apply lookup_insert_eq).
  assert (Hi : graph_edge g1 !! length (graph_edge g) = Some e).
  { rewrite HL. by rewrite list_lookup_middle. }
  assert (Hg2 : g2 = destroy_edge_ptr g1 (Some e)).
  { unfold g2, destroy_edge, get_edge.
    change (minmax (from, negb from_start) (to, to_end)) with (pair_from_edge e).
    by rewrite Hlook. }
  destruct (destroy_edge_ptr_spec g1 _ e Hwf1 Hi) as (Hsame2 & HL2 & HS2 & _ & HA2).
  split; [apply has_edge_true; by rewrite Hlook |].
  split; [rewrite Hg2; by apply (same_nodes_trans g g1) |].
  split.
  { rewrite Hg2, HL2, HL. unfold release_slot.
    rewrite bool_decide_eq_true_2 by (rewrite length_app; simpl; lia).
    apply removelast_last. }
  split; [rewrite Hg2, HS2, HS; by apply delete_insert_id |].
  split.
  { intros s. rewrite Hg2, HA2, HA.
    destruct (new_entries_short e s) as [-> | [x ->]]; simpl.
    - by rewrite app_nil_r.
    - apply swap_remove_app_last. }
  rewrite Hg2. apply (destroy_edge_ptr_wf g1 _ e Hwf1 Hi).
Qed.

Lemma create_then_destroy_edge_witness :
  edges_wf loops_graph
  /\ get_edge loops_graph (2, negb false) (1, false) = None
  /\ (has_edge (create_edge loops_graph 2 1 false false).1 (mkEdge 2 1 false false) = true
      /\ same_nodes loops_graph
           (destroy_edge (create_edge loops_graph 2 1 false false).1 (2, negb false) (1, false))
      /\ graph_edge (destroy_edge (create_edge loops_graph 2 1 false false).1
                                  (2, negb false) (1, false))
         = graph_edge loops_graph
      /\ edge_by_sides (destroy_edge (create_edge loops_graph 2 1 false false).1
                                     (2, negb false) (1, false))
         = edge_by_sides loops_graph
      /\ (forall s, adjacency (destroy_edge (create_edge loops_graph 2 1 false false).1
                                            (2, negb false) (1, false)) s
                    = adjacency loops_graph s)
      /\ edges_wf (destroy_edge (create_edge loops_graph 2 1 false false).1
                                (2, negb false) (1, false))).
Proof.
  assert (Hnone : get_edge loops_graph (2, negb false) (1, false) = None)
    by (vm_compute; reflexivity).
  split; [exact loops_graph_edges_wf |]. split; [exact Hnone |].
  exact (create_then_destroy_edge loops_graph 2 1 false false loops_graph_edges_wf Hnone).
Defined.

(** ** Neighbours *)

Lemma mapM_res_elem {A B : Type} (f : A -> res B) (l : list A) (l' : list B) (x : A) :
  mapM f l = Ok l' -> x ∈ l -> exists y, f x = Ok y /\ y ∈ l'.
Proof.
  revert l'. induction l as [| a l IH]; intros l' Hmap Hx; [by apply elem_of_nil in Hx |].
  simpl in Hmap. unfold mbind, res_bind in Hmap.
  destruct (f a) as [b |] eqn:Hfa; [| discriminate].
  destruct (mapM f l) as [k |] eqn:Hk; [| discriminate].
  injection Hmap as <-.
  apply elem_of_cons in Hx as [-> | Hx].
  - exists b. split; [assumption | by left].
  - destruct (IH k eq_refl Hx) as (y & Hy & Hin). exists y. split; [assumption | by right].
Qed.

Lemma created_edge_entries (g : VG) (from to : Z) (from_start to_end : bool) :
  edges_wf g ->
  entry_for (from, negb from_start) (to, to_end)
    ∈ adjacency (create_edge g from to from_start to_end).1 (from, negb from_start)
  /\ entry_for (to, to_end) (from, negb from_start)
       ∈ adjacency (create_edge g from to from_start to_end).1 (to, to_end).
Proof.
  intros Hwf. pose proof (create_edge_wf g from to from_start to_end Hwf) as Hwf1.
  pose proof (create_edge_found g from to from_start to_end) as Hfound.
  set (r := create_edge g from to from_start to_end) in *.
  destruct Hwf1 as (_ & _ & E3 & E4).
  destruct (E3 _ _ Hfound) as [Hin Hkey].
  destruct (E4 _ Hin) as [Ha Hb].
  rewrite pair_from_edge_sides in Hkey.
  apply minmax_sides in Hkey as [[Hsa Hsb] | [Hsa Hsb]].
  - rewrite Hsa, Hsb in Ha, Hb. by split.
  - rewrite Hsa, Hsb in Ha, Hb. by split.
Qed.

(** X3. After [create_edge(left, right)] on a consistent edge store the two
    traversals are neighbours: whenever [nodes_next(left)] returns, it lists
    [right], and whenever [nodes_prev(right)] returns, it lists [left]. *)
Theorem create_edge_makes_neighbours (g : VG) (left_trav right_trav : NodeTraversal) :
  edges_wf g ->
  node_by_id g !! node_id left_trav.1 = Some left_trav.1 ->
  node_by_id g !! node_id right_trav.1 = Some right_trav.1 ->
  let g' := (create_edge g (node_id left_trav.1) (node_id right_trav.1)
                         left_trav.2 right_trav.2).1 in
  (forall nexts, nodes_next g' left_trav = Ok nexts -> right_trav ∈ nexts)
  /\ (forall prevs, nodes_prev g' right_trav = Ok prevs -> left_trav ∈ prevs).
Proof.
  intros Hwf Hl Hr g'. destruct left_trav as [nl bl], right_trav as [nr br].
  simpl in *.
  destruct (created_edge_entries g (node_id nl) (node_id nr) bl br Hwf) as [Ha Hb].
  fold g' in Ha, Hb.
  assert (Hnodes : node_by_id g' = node_by_id g).
  { by destruct (create_edge_spec g (node_id nl) (node_id nr) bl br) as [(_ & ? & _) _]. }
  split.
  - intros nexts Hnext. unfold nodes_next in Hnext. simpl in Hnext.
    assert (Hin : entry_for (node_id nl, negb bl) (node_id nr, br)
                  ∈ (if bl then edges_start g' (node_id nl) else edges_end g' (node_id nl))).
    { unfold adjacency in Ha. simpl in Ha. by destruct bl. }
    destruct (mapM_res_elem _ _ _ _ Hnext Hin) as (y & Hy & Hyin).
    unfold entry_for, get_node in Hy. simpl in Hy. rewrite Hnodes, Hr in Hy.
    simpl in Hy. injection Hy as <-.
    by destruct bl, br.
  - intros prevs Hprev. unfold nodes_prev in Hprev. simpl in Hprev.
    assert (Hin : entry_for (node_id nr, br) (node_id nl, negb bl)
                  ∈ (if br then edges_end g' (node_id nr) else edges_start g' (node_id nr))).
    { unfold adjacency in Hb. simpl in Hb. by destruct br. }
    destruct (mapM_res_elem _ _ _ _ Hprev Hin) as (y & Hy & Hyin).
    unfold entry_for, get_node in Hy. simpl in Hy. rewrite Hnodes, Hl in Hy.
    simpl in Hy. injection Hy as <-.
    by destruct bl, br.
Qed.

Lemma chain_graph_edges_wf : edges_wf chain_graph.
Proof. apply edges_wf_check_sound. vm_compute. reflexivity. Defined.

Lemma create_edge_makes_neighbours_witness :
  let left_trav : NodeTraversal := (mkNode 2 (dna "C"), false) in
  let right_trav : NodeTraversal := (mkNode 1 (dna "A"), false) in
  (edges_wf chain_graph
   /\ node_by_id chain_graph !! node_id left_trav.1 = Some left_trav.1
   /\ node_by_id chain_graph !! node_id right_trav.1 = Some right_trav.1)
  /\ (forall nexts,
        nodes_next (create_edge chain_graph (node_id left_trav.1) (node_id right_trav.1)
                                left_trav.2 right_trav.2).1 left_trav = Ok nexts ->
        right_trav ∈ nexts)
  /\ (forall prevs,
        nodes_prev (create_edge chain_graph (node_id left_trav.1) (node_id right_trav.1)
                                left_trav.2 right_trav.2).1 right_trav = Ok prevs ->
        left_trav ∈ prevs).
Proof.
  intros left_trav right_trav.
  assert (Hl : node_by_id chain_graph !! node_id left_trav.1 = Some left_trav.1)
    by (vm_compute; reflexivity).
  assert (Hr : node_by_id chain_graph !! node_id right_trav.1 = Some right_trav.1)
    by (vm_compute; reflexivity).
  split; [exact (conj chain_graph_edges_wf (conj Hl Hr)) |].
  exact (create_edge_makes_neighbours chain_graph left_trav right_trav
           chain_graph_edges_wf Hl Hr).
Defined.

Lemma mapM_res_cons {A B : Type} (f : A -> res B) (a : A) (l : list A) :
  mapM (M := res) f (a :: l)
  = match f a with
    | Ok y => match mapM (M := res) f l with
              | Ok k => Ok (y :: k)
              | Err e => Err e
              end
    | Err e => Err e
    end.
Proof. reflexivity. Qed.

Lemma mapM_res_ext {A B C : Type} (f : A -> res B) (h : A -> res C) (k : B -> C)
    (l : list A) :
  (forall x, h x = match f x with Ok y => Ok (k y) | Err e => Err e end) ->
  mapM (M := res) h l
  = match mapM (M := res) f l with
    | Ok l' => Ok (fmap (M := list) k l')
    | Err e => Err e
    end.
Proof.
  intros Hfh. induction l as [| a l IH]; [reflexivity |].
  rewrite !mapM_res_cons, Hfh, IH.
  destruct (f a); [| reflexivity]. by destruct (mapM f l).
Qed.

(** X4. Looking right from the reverse of a traversal is looking left from
    the traversal itself: [nodes_next] of the reversed traversal returns the
    reverses of what [nodes_prev] returns, in the same order, and fails on
    the same missing node; likewise with the two roles exchanged. *)
Theorem nodes_next_of_reverse (g : VG) (t : NodeTraversal) :
  nodes_next g (trav_reverse t)
  = match nodes_prev g t with
    | Ok prevs => Ok (trav_reverse <$> prevs)
    | Err e => Err e
    end
  /\ nodes_prev g (trav_reverse t)
     = match nodes_next g t with
       | Ok nexts => Ok (trav_reverse <$> nexts)
       | Err e => Err e
       end.
Proof.
  destruct t as [n b]. unfold nodes_next, nodes_prev, trav_reverse. simpl.
  split.
  - replace (if negb b then edges_start g (node_id n) else edges_end g (node_id n))
      with (if b then edges_end g (node_id n) else edges_start g (node_id n))
      by (by destruct b).
    apply mapM_res_ext. intros x. unfold mbind, res_bind.
    destruct (get_node g x.1); [| reflexivity]. simpl.
    by destruct x.2, b.
  - replace (if negb b then edges_end g (node_id n) else edges_start g (node_id n))
      with (if b then edges_start g (node_id n) else edges_end g (node_id n))
      by (by destruct b).
    apply mapM_res_ext. intros x. unfold mbind, res_bind.
    destruct (get_node g x.1); [| reflexivity]. simpl.
    by destruct x.2, b.
Qed.

(** * Further properties of the node store *)

(** ** The range of the node ids *)

Lemma fold_min_spec (l : list Node) (a : Z) :
  let m := foldl (fun min_id n => if node_id n <? min_id then node_id n else min_id) a l in
  m <= a /\ (forall n, n ∈ l -> m <= node_id n)
  /\ (m = a \/ exists n, n ∈ l /\ node_id n = m).
Proof.
  revert a. induction l as [| x l IH]; intros a; simpl.
  - split; [lia |]. split; [by intros n ?%elem_of_nil | by left].
  - destruct (IH (if node_id x <? a then node_id x else a)) as (Hle & Hall & Hatt).
    destruct (Z.ltb_spec (node_id x) a) as [Hlt | Hge].
    + split; [lia |]. split.
      * intros n [-> | Hn]%elem_of_cons; [assumption | by apply Hall].
      * right. destruct Hatt as [-> | (n & Hn & Hid)].
        -- exists x. split; [by left | reflexivity].
        -- exists n. split; [by right | assumption].
    + split; [assumption |]. split.
      * intros n [-> | Hn]%elem_of_cons; [lia | by apply Hall].
      * destruct Hatt as [-> | (n & Hn & Hid)]; [by left |].
        right. exists n. split; [by right | assumption].
Qed.

Lemma fold_max_attained (l : list Node) (a : Z) :
  let m := foldl (fun max_id n => if max_id <? node_id n then node_id n else max_id) a l in
  m = a \/ exists n, n ∈ l /\ node_id n = m.
Proof.
  revert a. induction l as [| x l IH]; intros a; simpl; [by left |].
  destruct (IH (if a <? node_id x then node_id x else a)) as [-> | (n & Hn & Hid)].
  - destruct (a <? node_id x); [| by left].
    right. exists x. split; [by left | reflexivity].
  - right. exists n. split; [by right | assumption].
Qed.

(** X6. Every node id lies between [min_node_id] and [max_node_id].  The
    maximum starts from 0, so it is 0 on a graph whose ids are all negative or
    that has no node, and the id of some node otherwise; the minimum starts
    from the maximum, so on a graph with at least one node it is the id of
    some node. *)
Theorem node_id_range (g : VG) :
  (forall n, n ∈ graph_node g -> min_node_id g <= node_id n <= max_node_id g)
  /\ 0 <= max_node_id g
  /\ (max_node_id g = 0 \/ exists n, n ∈ graph_node g /\ node_id n = max_node_id g)
  /\ (graph_node g = [] -> min_node_id g = 0 /\ max_node_id g = 0)
  /\ (graph_node g <> [] -> exists n, n ∈ graph_node g /\ node_id n = min_node_id g).
Proof.
  destruct (fold_min_spec (graph_node g) (max_node_id g)) as (Hle & Hall & Hatt).
  fold (min_node_id g) in Hle, Hall, Hatt.
  split; [| split; [apply max_node_id_nonneg | split; [| split]]].
  - intros n Hn. split; [by apply Hall | by apply max_node_id_bound].
  - apply (fold_max_attained (graph_node g) 0).
  - intros Hnil. unfold min_node_id, max_node_id. by rewrite Hnil.
  - intros Hne. destruct Hatt as [Heq | Hatt]; [| exact Hatt].
    destruct (graph_node g) as [| x l] eqn:Hl; [done |].
    assert (Hx : x ∈ graph_node g) by (rewrite Hl; by left).
    pose proof (Hall x ltac:(by left)) as H1.
    pose proof (max_node_id_bound g x Hx) as H2.
    exists x. split; [by left | lia].
Qed.

(** ** Exchanging two slots *)

Lemma transpose_involutive (i j k : nat) : transpose i j (transpose i j k) = k.
Proof. unfold transpose. repeat case_decide; congruence. Qed.

Lemma transpose_lt (i j k n : nat) :
  (i < n)%nat -> (j < n)%nat -> (transpose i j k < n)%nat <-> (k < n)%nat.
Proof. unfold transpose. repeat case_decide; lia. Qed.

Lemma swap_elements_transpose {A : Type} (l : list A) (i j k : nat) :
  (i < length l)%nat -> (j < length l)%nat ->
  swap_elements l i j !! k = l !! transpose i j k.
Proof.
  intros Hi Hj. rewrite swap_elements_lookup by assumption.
  unfold transpose. by repeat case_decide.
Qed.

Lemma swap_elements_length {A : Type} (l : list A) (i j : nat) :
  length (swap_elements l i j) = length l.
Proof.
  unfold swap_elements. destruct (l !! i), (l !! j); try reflexivity.
  by rewrite !length_insert.
Qed.

Lemma swap_elements_twice {A : Type} (l : list A) (i j : nat) :
  (i < length l)%nat -> (j < length l)%nat ->
  swap_elements (swap_elements l i j) j i = l.
Proof.
  intros Hi Hj. apply list_eq. intros k.
  rewrite !swap_elements_transpose by (rewrite ?swap_elements_length; assumption).
  f_equal. unfold transpose. repeat case_decide; congruence.
Qed.

Lemma swap_elements_elem {A : Type} (l : list A) (i j : nat) (x : A) :
  (i < length l)%nat -> (j < length l)%nat ->
  x ∈ swap_elements l i j <-> x ∈ l.
Proof.
  intros Hi Hj. rewrite !list_elem_of_lookup. split; intros [k Hk].
  - exists (transpose i j k). by rewrite <- swap_elements_transpose.
  - exists (transpose i j k).
    by rewrite swap_elements_transpose, transpose_involutive.
Qed.

Lemma swap_elements_fmap {A B : Type} (f : A -> B) (l : list A) (i j : nat) :
  f <$> swap_elements l i j = swap_elements (f <$> l) i j.
Proof.
  unfold swap_elements. rewrite !list_lookup_fmap.
  destruct (l !! i), (l !! j); simpl; try reflexivity.
  by rewrite !list_fmap_insert.
Qed.

Lemma swap_elements_NoDup {A : Type} (l : list A) (i j : nat) :
  (i < length l)%nat -> (j < length l)%nat -> NoDup l -> NoDup (swap_elements l i j).
Proof.
  intros Hi Hj Hnd. apply NoDup_alt. intros k1 k2 x H1 H2.
  rewrite swap_elements_transpose in H1, H2 by assumption.
  pose proof (NoDup_lookup _ _ _ _ Hnd H1 H2) as Heq.
  rewrite <- (transpose_involutive i j k1), <- (transpose_involutive i j k2).
  by rewrite Heq.
Qed.

Section swap_nodes_facts.
Variables (g : VG) (a b : Node) (ia ib : nat).
Hypothesis wf : nodes_wf g.
Hypothesis slot_a : graph_node g !! ia = Some a.
Hypothesis slot_b : graph_node g !! ib = Some b.

Lemma swap_nodes_fields :
  graph_node (swap_nodes g a b) = swap_elements (graph_node g) ia ib
  /\ node_index (swap_nodes g a b)
     = <[node_id b := ia]> (<[node_id a := ib]> (node_index g))
  /\ node_by_id (swap_nodes g a b) = node_by_id g
  /\ same_edges g (swap_nodes g a b)
  /\ current_id (swap_nodes g a b) = current_id g
  /\ paths (swap_nodes g a b) = paths g.
Proof.
  destruct wf as (_ & N2 & _).
  destruct (N2 _ _ slot_a) as [_ Ha]. destruct (N2 _ _ slot_b) as [_ Hb].
  unfold swap_nodes. rewrite Ha, Hb. simpl. by repeat split.
Qed.

Lemma swap_nodes_wf : nodes_wf (swap_nodes g a b).
Proof.
  destruct swap_nodes_fields as (HL & HI & HB & _).
  pose proof (lookup_lt_Some _ _ _ slot_a) as Hia.
  pose proof (lookup_lt_Some _ _ _ slot_b) as Hib.
  pose proof wf as (N1 & N2 & N3).
  split; [| split].
  - rewrite HL, swap_elements_fmap.
    apply swap_elements_NoDup; rewrite ?length_fmap; assumption.
  - intros k n. rewrite HL, HB, HI, swap_elements_transpose by assumption.
    intros Hk. destruct (N2 _ _ Hk) as [Hby Hidx]. split; [assumption |].
    destruct (decide (node_id n = node_id b)) as [Hnb | Hnb].
    + rewrite <- Hnb, lookup_insert_eq. f_equal.
      destruct (nodes_wf_ids_inj g _ _ _ _ wf Hk slot_b Hnb) as [Heq _].
      rewrite <- (transpose_involutive ia ib k), Heq.
      unfold transpose. repeat case_decide; congruence.
    + rewrite lookup_insert_ne by congruence.
      destruct (decide (node_id n = node_id a)) as [Hna | Hna].
      * rewrite <- Hna, lookup_insert_eq. f_equal.
        destruct (nodes_wf_ids_inj g _ _ _ _ wf Hk slot_a Hna) as [Heq _].
        rewrite <- (transpose_involutive ia ib k), Heq.
        unfold transpose. repeat case_decide; congruence.
      * rewrite lookup_insert_ne by congruence. rewrite Hidx. f_equal.
        assert (Hta : transpose ia ib k <> ia).
        { intros Heq. rewrite Heq, slot_a in Hk. by injection Hk as <-. }
        assert (Htb : transpose ia ib k <> ib).
        { intros Heq. rewrite Heq, slot_b in Hk. by injection Hk as <-. }
        unfold transpose in *. repeat case_decide; congruence.
  - intros id n. rewrite HB, HL. intros Hid. destruct (N3 _ _ Hid) as [Hin Hnid].
    split; [| assumption]. by apply swap_elements_elem.
Qed.
End swap_nodes_facts.

(** X7. On a consistent node store [swap_nodes] exchanges the slots of two
    nodes of the graph and nothing else: the node list is permuted, every
    node is still found under its id and at its slot, the edges, the id
    counter and the paths are untouched, and a second exchange of the same
    two nodes restores the node list and the slot table. *)
Theorem swap_nodes_exchanges_slots (g : VG) (a b : Node) :
  nodes_wf g -> a ∈ graph_node g -> b ∈ graph_node g ->
  nodes_wf (swap_nodes g a b)
  /\ graph_node (swap_nodes g a b) ≡ₚ graph_node g
  /\ node_index (swap_nodes g a b) !! node_id a = node_index g !! node_id b
  /\ node_index (swap_nodes g a b) !! node_id b = node_index g !! node_id a
  /\ same_edges g (swap_nodes g a b)
  /\ current_id (swap_nodes g a b) = current_id g
  /\ paths (swap_nodes g a b) = paths g
  /\ graph_node (swap_nodes (swap_nodes g a b) a b) = graph_node g
  /\ node_index (swap_nodes (swap_nodes g a b) a b) = node_index g.
Proof.
  intros Hwf [ia Ha]%list_elem_of_lookup [ib Hb]%list_elem_of_lookup.
  pose proof (lookup_lt_Some _ _ _ Ha) as Hia.
  pose proof (lookup_lt_Some _ _ _ Hb) as Hib.
  destruct (swap_nodes_fields g a b ia ib Hwf Ha Hb) as (HL & HI & HB & HE & HC & HP).
  pose proof (swap_nodes_wf g a b ia ib Hwf Ha Hb) as Hwf'.
  pose proof Hwf as (N1 & N2 & _).
  destruct (N2 _ _ Ha) as [_ Hidx_a]. destruct (N2 _ _ Hb) as [_ Hidx_b].
  assert (Ha' : graph_node (swap_nodes g a b) !! ib = Some a).
  { rewrite HL, swap_elements_transpose by assumption.
    unfold transpose. repeat case_decide; congruence. }
  assert (Hb' : graph_node (swap_nodes g a b) !! ia = Some b).
  { rewrite HL, swap_elements_transpose by assumption.
    unfold transpose. repeat case_decide; congruence. }
  destruct (swap_nodes_fields (swap_nodes g a b) a b ib ia Hwf' Ha' Hb')
    as (HL2 & HI2 & _).
  split; [exact Hwf' |]. split.
  { rewrite HL. apply NoDup_Permutation.
    - apply swap_elements_NoDup; try assumption. by apply NoDup_fmap_1 in N1.
    - by apply NoDup_fmap_1 in N1.
    - intros x. by apply swap_elements_elem. }
  split.
  { rewrite HI, Hidx_b. destruct (decide (node_id b = node_id a)) as [Heq | Hne].
    - rewrite Heq, lookup_insert_eq.
      by destruct (nodes_wf_ids_inj g _ _ _ _ Hwf Hb Ha Heq) as [-> _].
    - rewrite lookup_insert_ne by assumption. apply lookup_insert_eq. }
  split; [rewrite HI, Hidx_a; apply lookup_insert_eq |].
  split; [exact HE |]. split; [exact HC |]. split; [exact HP |].
  split.
  - rewrite HL2, HL. by apply swap_elements_twice.
  - rewrite HI2, HI. apply map_eq. intros k.
    destruct (decide (k = node_id b)) as [-> | Hkb].
    + by rewrite lookup_insert_eq.
    + rewrite lookup_insert_ne by congruence.
      destruct (decide (k = node_id a)) as [-> | Hka].
      * by rewrite lookup_insert_eq.
      * by rewrite !lookup_insert_ne by congruence.
Qed.

Lemma chain_graph_nodes_wf : nodes_wf chain_graph.
Proof. apply nodes_wf_check_sound. vm_compute. reflexivity. Defined.

Lemma swap_nodes_exchanges_slots_witness :
  let a := mkNode 1 (dna "A") in
  let b := mkNode 2 (dna "C") in
  (nodes_wf chain_graph /\ a ∈ graph_node chain_graph /\ b ∈ graph_node chain_graph)
  /\ (nodes_wf (swap_nodes chain_graph a b)
      /\ graph_node (swap_nodes chain_graph a b) ≡ₚ graph_node chain_graph
      /\ node_index (swap_nodes chain_graph a b) !! node_id a
         = node_index chain_graph !! node_id b
      /\ node_index (swap_nodes chain_graph a b) !! node_id b
         = node_index chain_graph !! node_id a
      /\ same_edges chain_graph (swap_nodes chain_graph a b)
      /\ current_id (swap_nodes chain_graph a b) = current_id chain_graph
      /\ paths (swap_nodes chain_graph a b) = paths chain_graph
      /\ graph_node (swap_nodes (swap_nodes chain_graph a b) a b) = graph_node chain_graph
      /\ node_index (swap_nodes (swap_nodes chain_graph a b) a b) = node_index chain_graph).
Proof.
  intros a b.
  assert (Ha : a ∈ graph_node chain_graph)
    by (apply (bool_decide_unpack _); vm_compute; exact I).
  assert (Hb : b ∈ graph_node chain_graph)
    by (apply (bool_decide_unpack _); vm_compute; exact I).
  split; [exact (conj chain_graph_nodes_wf (conj Ha Hb)) |].
  exact (swap_nodes_exchanges_slots chain_graph a b chain_graph_nodes_wf Ha Hb).
Defined.

(** ** The node tables under the mutations *)

Lemma create_node_with_id_wf (g : VG) (seq : list ascii) (id : Z) :
  nodes_wf g -> id <> 0 -> has_node g id = false ->
  exists g', create_node_with_id g seq id = Ok (g', mkNode id seq)
             /\ nodes_wf g' /\ same_edges g g'
             /\ graph_node g' = graph_node g ++ [mkNode id seq]
             /\ node_by_id g' !! id = Some (mkNode id seq).
Proof.
  intros Hwf Hid Hfresh.
  assert (Hnone : node_by_id g !! id = None).
  { unfold has_node in Hfresh. apply bool_decide_eq_false in Hfresh.
    by apply eq_None_not_Some. }
  destruct (create_node_with_id g seq id) as [[g' n] |] eqn:Hcreate.
  - apply create_node_with_id_fields in Hcreate as (_ & -> & Hse & HL & HB & HI & _).
    exists g'. split; [reflexivity |].
    split; [| split; [exact Hse | split; [exact HL | rewrite HB; apply lookup_insert_eq]]].
    destruct Hwf as (N1 & N2 & N3).
    assert (Hother : forall n, n ∈ graph_node g -> node_id n <> id).
    { intros n [i Hi]%list_elem_of_lookup Heq. destruct (N2 _ _ Hi) as [Hlook _].
      rewrite Heq in Hlook. congruence. }
    split; [| split].
    + rewrite HL, fmap_app. apply NoDup_app. split; [assumption |]. split.
      * intros x Hx. csimpl. rewrite list_elem_of_singleton. intros ->.
        apply list_elem_of_fmap in Hx as (n & Heq & Hn). by apply (Hother n Hn).
      * csimpl. apply NoDup_singleton.
    + intros i n. rewrite HL, HB, HI. intros Hi.
      apply lookup_app_Some in Hi as [Hi | [Hlen Hi]].
      * assert (Hne : id <> node_id n)
          by (intros Heq; by apply (Hother n (list_elem_of_lookup_2 _ _ _ Hi))).
        rewrite !lookup_insert_ne by assumption. by apply N2.
      * apply list_lookup_singleton_Some in Hi as [Hi <-]. simpl.
        rewrite !lookup_insert_eq. split; [reflexivity |]. f_equal. lia.
    + intros k n. rewrite HL, HB. intros Hk.
      apply lookup_insert_Some in Hk as [[<- <-] | [Hne Hk]].
      * split; [| reflexivity]. apply elem_of_app. right. by left.
      * destruct (N3 _ _ Hk) as [Hin Hkey]. split; [| assumption].
        apply elem_of_app. by left.
  - exfalso. unfold create_node_with_id in Hcreate.
    destruct (Z.eqb_spec id 0); [done | discriminate].
Qed.

Lemma destroy_node_ptr_nodes_wf (g : VG) (node : Node) :
  nodes_wf g -> edges_wf g -> nodes_wf (destroy_node_ptr g node).
Proof.
  intros Hn He. destruct (has_node g (node_id node)) eqn:Hhas.
  - apply has_node_elem in Hhas as (n & [i Hi]%list_elem_of_lookup & Hid); [| assumption].
    by destruct (destroy_node_ptr_spec g node i n Hn He Hi (eq_sym Hid)) as [? _].
  - rewrite destroy_node_ptr_unfold, Hhas. exact Hn.
Qed.

(** X5. The node tables stay consistent: in a graph whose nodes have distinct
    ids and are each found under their id and at their slot, a node is found
    under an id exactly when it is in the node list with that id, and the
    same holds again after [create_node] (which also picks an id that no
    node has, when the id counter lies above the ids in use), after
    [create_node] with a supplied id that no node has, and after creating
    or destroying an edge or destroying a node. *)
Theorem node_tables_invariant (g : VG) :
  nodes_wf g ->
  (forall id n, node_by_id g !! id = Some n <-> n ∈ graph_node g /\ node_id n = id)
  /\ nodes_wf empty_graph
  /\ (counter_ok g -> forall seq,
        exists g' n, create_node g seq = Ok (g', n)
                     /\ nodes_wf g' /\ counter_ok g'
                     /\ has_node g (node_id n) = false
                     /\ get_node g' (node_id n) = Ok n
                     /\ graph_node g' = graph_node g ++ [n])
  /\ (forall seq id, id <> 0 -> has_node g id = false ->
        exists g', create_node_with_id g seq id = Ok (g', mkNode id seq)
                   /\ nodes_wf g'
                   /\ get_node g' id = Ok (mkNode id seq))
  /\ (forall from to from_start to_end,
        nodes_wf (create_edge g from to from_start to_end).1)
  /\ (edges_wf g -> forall side1 side2, nodes_wf (destroy_edge g side1 side2))
  /\ (edges_wf g -> forall node, nodes_wf (destroy_node_ptr g node)).
Proof.
  intros Hwf. split; [| split; [| split; [| split; [| split; [| split]]]]].
  - intros id n. split.
    + destruct Hwf as (_ & _ & N3). apply N3.
    + intros [Hin <-]. by apply nodes_wf_lookup.
  - split; [constructor |]. split.
    + intros i n Hi. simpl in Hi. by rewrite lookup_nil in Hi.
    + intros id n Hlook. simpl in Hlook. by rewrite lookup_empty in Hlook.
  - intros Hc seq.
    destruct (create_node_ok g seq Hc Hwf) as (g' & Hcreate & Hc' & Hwf' & _ & HL & _ & Hfresh).
    exists g', (mkNode (next_id g) seq). split; [exact Hcreate |].
    split; [exact Hwf' |]. split; [exact Hc' |]. split; [| split; [| exact HL]].
    + apply has_node_fresh; assumption.
    + unfold get_node. rewrite (nodes_wf_lookup g' (mkNode (next_id g) seq) Hwf');
        [reflexivity |].
      rewrite HL. apply elem_of_app. right. by left.
  - intros seq id Hid Hfresh.
    destruct (create_node_with_id_wf g seq id Hwf Hid Hfresh)
      as (g' & Hcreate & Hwf' & _ & _ & Hlook).
    exists g'. split; [exact Hcreate |]. split; [exact Hwf' |].
    unfold get_node. by rewrite Hlook.
  - intros from to from_start to_end.
    destruct (create_edge_spec g from to from_start to_end) as [Hsame _].
    by apply (same_nodes_wf g).
  - intros He side1 side2. apply (same_nodes_wf g); [| assumption].
    by apply destroy_edge_same_nodes.
  - intros He node. by apply destroy_node_ptr_nodes_wf.
Qed.

Lemma node_tables_invariant_witness :
  nodes_wf chain_graph
  /\ (forall id n, node_by_id chain_graph !! id = Some n
                   <-> n ∈ graph_node chain_graph /\ node_id n = id).
Proof.
  split; [exact chain_graph_nodes_wf |].
  exact (proj1 (node_tables_invariant chain_graph chain_graph_nodes_wf)).
Defined.

(** * Further properties of the handle interface *)

(** ** Flipping a handle *)

Lemma get_is_reverse_testbit (h : Z) : Handle.get_is_reverse h = Z.testbit h 63.
Proof.
  unfold Handle.get_is_reverse.
  destruct (Z.testbit h 63) eqn:Hbit.
  - apply negb_true_iff, Z.eqb_neq. intros Hzero.
    apply (f_equal (fun z => Z.testbit z 63)) in Hzero.
    rewrite Z.land_spec, testbit_HIGH_BIT, Hbit, Z.bits_0 in Hzero.
    by rewrite bool_decide_eq_true_2 in Hzero.
  - apply negb_false_iff, Z.eqb_eq. apply Z.bits_inj'. intros i _.
    rewrite Z.land_spec, testbit_HIGH_BIT, Z.bits_0.
    case_bool_decide as Hi; [subst i; by rewrite Hbit | apply andb_false_r].
Qed.

Lemma get_is_reverse_flip (h : Z) :
  Handle.get_is_reverse (Handle.flip h) = negb (Handle.get_is_reverse h).
Proof.
  rewrite !get_is_reverse_testbit. unfold Handle.flip.
  rewrite Z.lxor_spec, testbit_HIGH_BIT, bool_decide_eq_true_2 by reflexivity.
  apply xorb_true_r.
Qed.

Lemma get_id_flip (h : Z) : Handle.get_id (Handle.flip h) = Handle.get_id h.
Proof.
  unfold Handle.get_id, Handle.flip, Handle.LOW_BITS. apply Z.bits_inj'. intros i Hi.
  rewrite !Z.land_spec, Z.lxor_spec, testbit_HIGH_BIT.
  destruct (decide (i = 63)) as [-> | Hne].
  - rewrite Z.ones_spec_high by lia. by rewrite !andb_false_r.
  - rewrite bool_decide_eq_false_2 by assumption. by rewrite xorb_false_r.
Qed.

Lemma flip_get_handle (id : Z) (rev : bool) :
  0 <= id < 2 ^ 63 ->
  Handle.flip (Handle.get_handle id rev) = Handle.get_handle id (negb rev).
Proof.
  intros Hid. unfold Handle.flip, Handle.get_handle.
  rewrite to_size_t_small by assumption.
  apply Z.bits_inj'. intros i Hi.
  destruct rev; simpl; rewrite ?Z.lxor_spec, ?Z.lor_spec, testbit_HIGH_BIT.
  - case_bool_decide as H63.
    + subst i. rewrite small_bit_63 by assumption. reflexivity.
    + rewrite orb_false_r. apply xorb_false_r.
  - case_bool_decide as H63.
    + subst i. rewrite small_bit_63 by assumption. reflexivity.
    + rewrite orb_false_r. apply xorb_false_r.
Qed.

(** ** Following edges *)

Lemma follow_loop_recording_cons (answer : Z -> bool) (is_reverse : bool)
    (x : Z * bool) (found : list (Z * bool)) (log : list Z) :
  follow_loop (Iteration.recording answer) is_reverse (x :: found) log
  = if answer (Handle.get_handle x.1 (xorb is_reverse x.2))
    then follow_loop (Iteration.recording answer) is_reverse found
           (log ++ [Handle.get_handle x.1 (xorb is_reverse x.2)])
    else (false, log ++ [Handle.get_handle x.1 (xorb is_reverse x.2)]).
Proof. reflexivity. Qed.

Lemma follow_loop_recording (answer : Z -> bool) (is_reverse : bool)
    (found : list (Z * bool)) (log : list Z) :
  let handles :=
    (fun x : Z * bool => Handle.get_handle x.1 (xorb is_reverse x.2)) <$> found in
  (Forall (fun h => answer h = true) handles ->
   follow_loop (Iteration.recording answer) is_reverse found log = (true, log ++ handles))
  /\ (forall pre h post,
        handles = pre ++ h :: post ->
        Forall (fun h => answer h = true) pre -> answer h = false ->
        follow_loop (Iteration.recording answer) is_reverse found log
        = (false, log ++ pre ++ [h])).
Proof.
  simpl. revert log. induction found as [| x found IH]; intros log.
  - split.
    + intros _. simpl. by rewrite app_nil_r.
    + intros pre h post Heq. by destruct pre.
  - destruct (IH (log ++ [Handle.get_handle x.1 (xorb is_reverse x.2)])) as [IH1 IH2].
    split.
    + intros Hall. rewrite fmap_cons in Hall. apply Forall_cons in Hall as [Hx Hall].
      rewrite follow_loop_recording_cons, Hx, IH1 by assumption.
      rewrite fmap_cons. by rewrite <- app_assoc.
    + intros pre h post Heq Hpre Hh. rewrite follow_loop_recording_cons.
      rewrite fmap_cons in Heq.
      destruct pre as [| p pre]; simpl in Heq.
      * injection Heq as <- _. rewrite Hh. reflexivity.
      * injection Heq as <- Heq. apply Forall_cons in Hpre as [Hp Hpre]. rewrite Hp.
        rewrite (IH2 pre h post Heq Hpre Hh). by rewrite <- app_assoc.
Qed.

(** X8. [follow_edges] hands the neighbours to the iteratee in the order of
    the adjacency list and stops at the first one for which the iteratee
    answers [false]: it then returns [false] and the later neighbours are not
    visited; when the iteratee never answers [false], every neighbour is
    visited and the answer is [true] (also when the node has no edge on that
    side, or is unknown). *)
Theorem follow_edges_stops_on_false (g : VG) (handle : Z) (go_left : bool)
    (answer : Z -> bool) :
  let handles := follow_edges_collect g handle go_left in
  (Forall (fun h => answer h = true) handles ->
   follow_edges g handle go_left (Iteration.recording answer) [] = (true, handles))
  /\ (forall pre h post,
        handles = pre ++ h :: post ->
        Forall (fun h => answer h = true) pre -> answer h = false ->
        follow_edges g handle go_left (Iteration.recording answer) []
        = (false, pre ++ [h])).
Proof.
  unfold follow_edges, follow_edges_collect.
  destruct ((if xorb go_left (Handle.get_is_reverse handle)
             then edges_on_start g else edges_on_end g) !! Handle.get_id handle)
    as [found |].
  - exact (follow_loop_recording answer (Handle.get_is_reverse handle) found []).
  - simpl. split; [reflexivity |]. intros pre h post Heq. by destruct pre.
Qed.

Lemma follow_edges_stops_on_false_witness :
  follow_edges loops_graph 1 false (Iteration.recording (fun h => negb (h =? 1))) []
  = (false, [Handle.get_handle 1 true; 1]).
Proof.
  apply (proj2 (follow_edges_stops_on_false loops_graph 1 false (fun h => negb (h =? 1)))
           [Handle.get_handle 1 true] 1 [2]).
  - vm_compute. reflexivity.
  - repeat constructor.
  - reflexivity.
Defined.

(** X9. Going one way from a handle is going the other way from the flipped
    handle: [follow_edges] to the right of [flip h] visits the flips of the
    handles it visits to the left of [h], in the same order (node ids being
    non-negative 63-bit values). *)
Theorem follow_edges_of_flip (g : VG) (handle : Z) (go_left : bool) :
  (forall x, x ∈ edges_start g (Handle.get_id handle)
                   ++ edges_end g (Handle.get_id handle) -> 0 <= x.1 < 2 ^ 63) ->
  follow_edges_collect g (Handle.flip handle) (negb go_left)
  = Handle.flip <$> follow_edges_collect g handle go_left.
Proof.
  intros Hids. unfold follow_edges_collect.
  rewrite get_is_reverse_flip, get_id_flip.
  replace (xorb (negb go_left) (negb (Handle.get_is_reverse handle)))
    with (xorb go_left (Handle.get_is_reverse handle))
    by (by destruct go_left, (Handle.get_is_reverse handle)).
  set (edge_set := if xorb go_left (Handle.get_is_reverse handle)
                   then edges_on_start g else edges_on_end g).
  destruct (edge_set !! Handle.get_id handle) as [found |] eqn:Hfound; [| reflexivity].
  assert (Hsub : forall x, x ∈ found -> 0 <= x.1 < 2 ^ 63).
  { intros x Hx. apply Hids. unfold edges_start, edges_end, edge_set in *.
    apply elem_of_app.
    destruct (xorb go_left (Handle.get_is_reverse handle)); rewrite Hfound; simpl; auto. }
  rewrite <- list_fmap_compose. apply list_fmap_ext. intros i x Hx%list_elem_of_lookup_2.
  simpl. rewrite flip_get_handle by (by apply Hsub).
  f_equal. by destruct (Handle.get_is_reverse handle), x.2.
Qed.

Lemma follow_edges_of_flip_witness :
  (forall x, x ∈ edges_start loops_graph (Handle.get_id 1)
                   ++ edges_end loops_graph (Handle.get_id 1) -> 0 <= x.1 < 2 ^ 63)
  /\ follow_edges_collect loops_graph (Handle.flip 1) (negb true)
     = Handle.flip <$> follow_edges_collect loops_graph 1 true.
Proof.
  assert (Hids : forall x, x ∈ edges_start loops_graph (Handle.get_id 1)
                                 ++ edges_end loops_graph (Handle.get_id 1) ->
                           0 <= x.1 < 2 ^ 63).
  { apply Forall_forall. apply (bool_decide_unpack _). vm_compute. exact I. }
  split; [exact Hids |].
  exact (follow_edges_of_flip loops_graph 1 true Hids).
Defined.

(** ** Lengths and sequences *)

Lemma reverse_complement_length (s : list ascii) :
  length (reverse_complement s) = length s.
Proof. unfold reverse_complement. by rewrite length_fmap, length_reverse. Qed.

(** X10. [get_length] agrees with [get_sequence]: for a handle of either
    orientation it is the length of the sequence that [get_sequence]
    returns, it does not change when the handle is flipped, and both calls
    fail for the same missing node id.  Of the sequences of a handle and of
    the flipped handle, the one read in reverse is the reverse complement of
    the other. *)
Theorem get_length_of_get_sequence (g : VG) (handle : Z) :
  match get_sequence g handle with
  | Ok s => get_length g handle = Ok (Z.of_nat (length s))
            /\ exists s', get_sequence g (Handle.flip handle) = Ok s'
                          /\ length s' = length s
                          /\ (if Handle.get_is_reverse handle
                              then s = reverse_complement s'
                              else s' = reverse_complement s)
  | Err e => get_length g handle = Err e
             /\ e = NoNode (Handle.get_id handle)
             /\ get_sequence g (Handle.flip handle) = Err e
  end
  /\ get_length g (Handle.flip handle) = get_length g handle.
Proof.
  unfold get_sequence, get_length. rewrite get_id_flip.
  fold (Handle.get_is_reverse handle). fold (Handle.get_is_reverse (Handle.flip handle)).
  rewrite get_is_reverse_flip.
  destruct (node_by_id g !! Handle.get_id handle) as [node |]; [| by repeat split].
  split; [| reflexivity]. unfold seq_size.
  destruct (Handle.get_is_reverse handle); simpl.
  - rewrite reverse_complement_length. split; [reflexivity |].
    by exists (node_sequence node).
  - split; [reflexivity |].
    exists (reverse_complement (node_sequence node)).
    by rewrite reverse_complement_length.
Qed.

(** * Removing edges and nodes by kind *)

Lemma filter_existsb_false {A : Type} (test : A -> bool) (l : list A) :
  existsb test l = false -> filter (fun x => test x) l = [].
Proof.
  induction l as [| x l IH]; simpl; [done |].
  intros [Hx Hl]%orb_false_iff. rewrite filter_cons, Hx. simpl. by apply IH.
Qed.

Lemma existsb_false_elem {A : Type} (test : A -> bool) (l : list A) :
  existsb test l = false <-> forall x, x ∈ l -> test x = false.
Proof.
  induction l as [| x l IH]; simpl.
  - split; [| done]. intros _ x Hx. by apply elem_of_nil in Hx.
  - rewrite orb_false_iff, IH. split.
    + intros [Hx Hl] y [-> | Hy]%elem_of_cons; [assumption | by apply Hl].
    + intros Hall. split; [apply Hall; by left |]. intros y Hy. apply Hall. by right.
Qed.

(** The loop shared by the two removals: the edges that pass the test go,
    the others stay, and the nodes are not touched. *)
Lemma remove_edges_where_spec (test : Edge -> bool) (g : VG) :
  edges_wf g ->
  edges_wf (remove_edges_where test g)
  /\ same_nodes g (remove_edges_where test g)
  /\ (forall e, e ∈ graph_edge (remove_edges_where test g)
                <-> e ∈ graph_edge g /\ test e = false)
  /\ graph_edge (remove_edges_where test g)
     ≡ₚ filter (fun e => test e = false) (graph_edge g).
Proof.
  intros Hwf. unfold remove_edges_where.
  set (ps := set_of_list sides_ltb
               (pair_from_edge <$> filter (fun e => test e) (graph_edge g))).
  destruct (fold_destroy_edges ps g Hwf) as (Hwf' & Hsame & Hedges).
  assert (Hmem : forall e,
             e ∈ graph_edge (foldl (fun g e => destroy_edge g e.1 e.2) g ps)
             <-> e ∈ graph_edge g /\ test e = false).
  { intros e. rewrite Hedges. split.
    - intros [Hin Hall]. split; [assumption |].
      destruct (test e) eqn:Ht; [| reflexivity]. exfalso.
      apply (Hall (pair_from_edge e)).
      + unfold ps. rewrite (elem_of_set_of_list _ sides_ltb_total).
        apply list_elem_of_fmap.
        exists e. split; [reflexivity |]. apply list_elem_of_filter.
        split; [by rewrite Ht | assumption].
      + rewrite pair_from_edge_sides. symmetry. apply minmax_canonical.
    - intros [Hin Ht]. split; [assumption |]. intros p Hp Heq.
      unfold ps in Hp. rewrite (elem_of_set_of_list _ sides_ltb_total) in Hp.
      apply list_elem_of_fmap in Hp as (e0 & -> & He0).
      apply list_elem_of_filter in He0 as [Ht0 Hin0].
      rewrite (pair_from_edge_sides e0), minmax_canonical, <- pair_from_edge_sides in Heq.
      apply list_elem_of_lookup in Hin as [i Hi].
      apply list_elem_of_lookup in Hin0 as [j Hj].
      destruct (edges_wf_keys_inj g i j e e0 Hwf Hi Hj Heq) as [_ ->].
      by rewrite Ht in Ht0. }
  split; [assumption |]. split; [assumption |]. split; [assumption |].
  apply NoDup_Permutation.
  - destruct Hwf' as [E1 _]. by apply NoDup_fmap_1 in E1.
  - apply NoDup_filter. destruct Hwf as [E1 _]. by apply NoDup_fmap_1 in E1.
  - intros e. rewrite Hmem, list_elem_of_filter. tauto.
Qed.

(** X11. On a consistent edge store [remove_inverting_edges] leaves no
    inverting edge: [has_inverting_edges] answers [false] afterwards.  The
    edges left are exactly the edges that were not inverting, the nodes, the
    id counter and the paths are untouched, the edge tables stay consistent,
    and a graph without inverting edges is returned as it is. *)
Theorem remove_inverting_edges_clears (g : VG) :
  edges_wf g ->
  has_inverting_edges (remove_inverting_edges g) = false
  /\ graph_edge (remove_inverting_edges g)
     ≡ₚ filter (fun e => is_inverting e = false) (graph_edge g)
  /\ edges_wf (remove_inverting_edges g)
  /\ same_nodes g (remove_inverting_edges g)
  /\ (has_inverting_edges g = false -> remove_inverting_edges g = g).
Proof.
  intros Hwf.
  destruct (remove_edges_where_spec is_inverting g Hwf) as (Hwf' & Hsame & Hmem & Hperm).
  fold (remove_inverting_edges g) in Hwf', Hsame, Hmem, Hperm.
  split; [| split; [exact Hperm | split; [exact Hwf' | split; [exact Hsame |]]]].
  - unfold has_inverting_edges. apply existsb_false_elem.
    intros e He. by apply Hmem in He as [_ Ht].
  - intros Hnone. unfold remove_inverting_edges, remove_edges_where.
    unfold has_inverting_edges in Hnone.
    by rewrite (filter_existsb_false _ _ Hnone).
Qed.

Lemma hairpin_graph_edges_wf : edges_wf hairpin_graph.
Proof. apply edges_wf_check_sound. vm_compute. reflexivity. Defined.

Lemma remove_inverting_edges_clears_witness :
  edges_wf hairpin_graph
  /\ has_inverting_edges hairpin_graph = true
  /\ has_inverting_edges (remove_inverting_edges hairpin_graph) = false.
Proof.
  split; [exact hairpin_graph_edges_wf |]. split; [vm_compute; reflexivity |].
  exact (proj1 (remove_inverting_edges_clears hairpin_graph hairpin_graph_edges_wf)).
Defined.

(** X12. On a consistent edge store [remove_orphan_edges] leaves exactly the
    edges whose two end nodes are both in the graph: every edge left has its
    [from] and its [to] node, no edge with both nodes is lost, and the nodes,
    the id counter and the paths are untouched. *)
Theorem remove_orphan_edges_clears (g : VG) :
  edges_wf g ->
  (forall e, e ∈ graph_edge (remove_orphan_edges g)
             <-> e ∈ graph_edge g
                 /\ has_node g (edge_from e) = true /\ has_node g (edge_to e) = true)
  /\ (forall e, e ∈ graph_edge (remove_orphan_edges g) ->
        has_node (remove_orphan_edges g) (edge_from e) = true
        /\ has_node (remove_orphan_edges g) (edge_to e) = true)
  /\ edges_wf (remove_orphan_edges g)
  /\ same_nodes g (remove_orphan_edges g).
Proof.
  intros Hwf.
  destruct (remove_edges_where_spec (is_orphan g) g Hwf) as (Hwf' & Hsame & Hmem & _).
  fold (remove_orphan_edges g) in Hwf', Hsame, Hmem.
  assert (Horphan : forall e, is_orphan g e = false
                              <-> has_node g (edge_from e) = true
                                  /\ has_node g (edge_to e) = true).
  { intros e. unfold is_orphan.
    destruct (has_node g (edge_from e)), (has_node g (edge_to e)); simpl; intuition congruence. }
  assert (Hkeep : forall e, e ∈ graph_edge (remove_orphan_edges g)
             <-> e ∈ graph_edge g
                 /\ has_node g (edge_from e) = true /\ has_node g (edge_to e) = true).
  { intros e. by rewrite Hmem, Horphan. }
  split; [exact Hkeep |]. split; [| split; [exact Hwf' | exact Hsame]].
  intros e He. apply Hkeep in He as (_ & Hf & Ht).
  destruct Hsame as (_ & HB & _). unfold has_node in *. by rewrite HB.
Qed.

Lemma remove_orphan_edges_clears_witness :
  let g := (create_edge chain_graph 2 7 false false).1 in
  edges_wf g
  /\ mkEdge 2 7 false false ∈ graph_edge g
  /\ forall e, e ∈ graph_edge (remove_orphan_edges g)
               <-> e ∈ graph_edge g
                   /\ has_node g (edge_from e) = true /\ has_node g (edge_to e) = true.
Proof.
  intros g.
  assert (Hwf : edges_wf g) by (apply edges_wf_check_sound; vm_compute; reflexivity).
  split; [exact Hwf |].
  split; [apply (bool_decide_unpack _); vm_compute; exact I |].
  exact (proj1 (remove_orphan_edges_clears g Hwf)).
Defined.

(** ** Removing the nodes without sequence *)

Lemma fold_res_destroy_node (ns : list Node) (g : VG) :
  nodes_wf g -> edges_wf g ->
  NoDup (node_id <$> ns) -> (forall n, n ∈ ns -> n ∈ graph_node g) ->
  fold_res destroy_node g (node_id <$> ns) = Ok (foldl destroy_node_ptr g ns).
Proof.
  revert g. induction ns as [| n ns IH]; intros g Hn He Hnd Hin; [reflexivity |].
  csimpl in Hnd. apply NoDup_cons in Hnd as [Hn_notin Hnd].
  assert (Hng : n ∈ graph_node g) by (apply Hin; by left).
  assert (Hd : destroy_node g (node_id n) = Ok (destroy_node_ptr g n)).
  { unfold destroy_node, get_node. by rewrite (nodes_wf_lookup g n Hn Hng). }
  rewrite fmap_cons. cbn [fold_res foldl]. rewrite Hd. cbn [mbind res_bind].
  apply list_elem_of_lookup in Hng as [i Hi].
  destruct (destroy_node_ptr_spec g n i n Hn He Hi eq_refl)
    as (Hn1 & He1 & HL1 & _).
  pose proof (release_slot_perm _ _ _ Hi) as Hperm. rewrite <- HL1 in Hperm.
  apply IH; try assumption.
  intros m Hm. assert (Hmg : m ∈ graph_node g) by (apply Hin; by right).
  rewrite Hperm in Hmg. apply elem_of_cons in Hmg as [-> | Hmg]; [| assumption].
  exfalso. apply Hn_notin. apply list_elem_of_fmap. by exists n.
Qed.

Lemma NoDup_fmap_filter_ids (P : Node -> Prop) `{!forall n, Decision (P n)}
    (l : list Node) :
  NoDup (node_id <$> l) -> NoDup (node_id <$> filter P l).
Proof.
  induction l as [| x l IH]; [intros _; constructor |].
  csimpl. intros [Hx Hl]%NoDup_cons. rewrite filter_cons.
  destruct (decide (P x)); [| by apply IH].
  csimpl. apply NoDup_cons. split; [| by apply IH].
  intros (y & Hy & Hin)%list_elem_of_fmap. apply Hx.
  apply list_elem_of_fmap. exists y. split; [assumption |].
  by apply list_elem_of_filter in Hin as [_ ?].
Qed.

(** X13. On a consistent store [remove_null_nodes] returns and removes
    exactly the nodes whose sequence is empty, together with every edge that
    attaches to one of them; the other nodes and edges stay, the tables stay
    consistent, and the id counter and the paths are left as they are (so
    mappings on a removed node stay in their paths). *)
Theorem remove_null_nodes_spec (g : VG) :
  nodes_wf g -> edges_wf g ->
  exists g',
    remove_null_nodes g = Ok g'
    /\ graph_node g' ≡ₚ filter (fun n => node_sequence n <> []) (graph_node g)
    /\ (forall e, e ∈ graph_edge g'
                  <-> e ∈ graph_edge g
                      /\ forall n, n ∈ graph_node g -> node_sequence n = [] ->
                                   ~ incident (node_id n) e)
    /\ nodes_wf g' /\ edges_wf g'
    /\ current_id g' = current_id g /\ paths g' = paths g.
Proof.
  intros Hn He.
  set (ns := filter (fun n => node_sequence n = []) (graph_node g)).
  assert (Hsub : forall n, n ∈ ns -> n ∈ graph_node g).
  { intros n Hin. by apply list_elem_of_filter in Hin as [_ ?]. }
  assert (Hnd : NoDup (node_id <$> ns)).
  { apply NoDup_fmap_filter_ids. by destruct Hn as (N1 & _). }
  exists (foldl destroy_node_ptr g ns).
  destruct (fold_destroy_nodes ns g Hn He Hnd Hsub)
    as (Hn' & He' & HL & HE & _ & HC & HP).
  split; [exact (fold_res_destroy_node ns g Hn He Hnd Hsub) |].
  split.
  { apply (Permutation_app_inv_l ns). rewrite <- HL.
    symmetry. apply filter_app_complement. }
  split; [| exact (conj Hn' (conj He' (conj HC HP)))].
  intros e. rewrite HE. split.
  - intros [Hin Hall]. split; [assumption |]. intros n Hng Hseq. apply Hall.
    apply list_elem_of_filter. by split.
  - intros [Hin Hall]. split; [assumption |].
    intros n [Hseq Hng]%list_elem_of_filter. by apply Hall.
Qed.

Lemma null_node_graph_ok : nodes_wf null_node_graph /\ edges_wf null_node_graph.
Proof.
  split.
  - apply nodes_wf_check_sound. vm_compute. reflexivity.
  - apply edges_wf_check_sound. vm_compute. reflexivity.
Defined.

Lemma remove_null_nodes_spec_witness :
  (nodes_wf null_node_graph /\ edges_wf null_node_graph)
  /\ exists g',
       remove_null_nodes null_node_graph = Ok g'
       /\ graph_node g'
          ≡ₚ filter (fun n => node_sequence n <> []) (graph_node null_node_graph)
       /\ (forall e, e ∈ graph_edge g'
                     <-> e ∈ graph_edge null_node_graph
                         /\ forall n, n ∈ graph_node null_node_graph ->
                                      node_sequence n = [] -> ~ incident (node_id n) e)
       /\ nodes_wf g' /\ edges_wf g'
       /\ current_id g' = current_id null_node_graph
       /\ paths g' = paths null_node_graph.
Proof.
  split; [exact null_node_graph_ok |].
  exact (remove_null_nodes_spec null_node_graph
           (proj1 null_node_graph_ok) (proj2 null_node_graph_ok)).
Defined.

(** * Building the tables from the two lists *)

Lemma imap_pair_snoc {A : Type} (l : list A) (x : A) :
  imap pair (l ++ [x]) = imap pair l ++ [(length l, x)].
Proof. rewrite imap_app. simpl. by rewrite Nat.add_0_r. Qed.

(** The node tables after the loop of [build_node_indexes] over a list of
    nodes with distinct ids. *)
Lemma fold_index_node (l : list Node) (g : VG) :
  NoDup (node_id <$> l) ->
  (forall i n, l !! i = Some n ->
     node_by_id (foldl index_node g (imap pair l)) !! node_id n = Some n
     /\ node_index (foldl index_node g (imap pair l)) !! node_id n = Some i)
  /\ (forall id, id ∉ node_id <$> l ->
        node_by_id (foldl index_node g (imap pair l)) !! id = node_by_id g !! id
        /\ node_index (foldl index_node g (imap pair l)) !! id = node_index g !! id)
  /\ graph_node (foldl index_node g (imap pair l)) = graph_node g
  /\ same_edges g (foldl index_node g (imap pair l))
  /\ current_id (foldl index_node g (imap pair l)) = current_id g
  /\ paths (foldl index_node g (imap pair l)) = paths g.
Proof.
  induction l as [| x l IH] using rev_ind; intros Hnd.
  - simpl. split; [intros i n Hi; by rewrite lookup_nil in Hi |].
    split; [done |]. split; [done |]. split; [apply same_edges_refl | done].
  - rewrite fmap_app in Hnd. apply NoDup_app in Hnd as (Hnd & Hfresh & _).
    destruct (IH Hnd) as (Hin & Hout & HL & HE & HC & HP).
    rewrite imap_pair_snoc, foldl_app. simpl.
    set (r := foldl index_node g (imap pair l)) in *.
    assert (Hx : node_id x ∉ node_id <$> l).
    { intros Hx. apply (Hfresh _ Hx). csimpl. by left. }
    split; [| split; [| split; [| split]]].
    + intros i n Hi. apply lookup_app_Some in Hi as [Hi | [Hlen Hi]].
      * assert (Hne : node_id x <> node_id n).
        { intros Heq. apply Hx. rewrite Heq. apply list_elem_of_fmap.
          exists n. split; [reflexivity |]. by apply list_elem_of_lookup_2 in Hi. }
        unfold index_node. simpl. rewrite !lookup_insert_ne by assumption.
        by apply Hin.
      * apply list_lookup_singleton_Some in Hi as [Hk <-].
        unfold index_node. simpl. rewrite !lookup_insert_eq.
        split; [reflexivity |]. f_equal. lia.
    + intros id Hid. rewrite fmap_app, elem_of_app in Hid.
      assert (Hne : node_id x <> id).
      { intros Heq. apply Hid. right. csimpl. rewrite Heq. by left. }
      unfold index_node. simpl. rewrite !lookup_insert_ne by assumption.
      apply Hout. tauto.
    + exact HL.
    + exact HE.
    + split; assumption.
Qed.

(** The edge tables after the loop of [build_edge_indexes] over a list of
    edges with distinct side pairs: every adjacency list has grown by the
    entries of the edges, in the order of the list. *)
Lemma fold_index_edge (l : list Edge) (g : VG) :
  NoDup (pair_from_edge <$> l) ->
  (forall i e, l !! i = Some e ->
     edge_by_sides (foldl index_edge g (imap pair l)) !! pair_from_edge e = Some e
     /\ edge_index (foldl index_edge g (imap pair l)) !! pair_from_edge e = Some i)
  /\ (forall k, k ∉ pair_from_edge <$> l ->
        edge_by_sides (foldl index_edge g (imap pair l)) !! k = edge_by_sides g !! k
        /\ edge_index (foldl index_edge g (imap pair l)) !! k = edge_index g !! k)
  /\ (forall s, adjacency (foldl index_edge g (imap pair l)) s
                = adjacency g s ++ (l ≫= fun e => new_entries e s))
  /\ graph_edge (foldl index_edge g (imap pair l)) = graph_edge g
  /\ same_nodes g (foldl index_edge g (imap pair l)).
Proof.
  induction l as [| x l IH] using rev_ind; intros Hnd.
  - simpl. split; [intros i n Hi; by rewrite lookup_nil in Hi |].
    split; [done |]. split; [intros s; by rewrite app_nil_r |].
    split; [done | apply same_nodes_refl].
  - rewrite fmap_app in Hnd. apply NoDup_app in Hnd as (Hnd & Hfresh & _).
    destruct (IH Hnd) as (Hin & Hout & HA & HL & HS).
    rewrite imap_pair_snoc, foldl_app. simpl.
    set (r := foldl index_edge g (imap pair l)) in *.
    set (r1 := with_edge_index r (<[pair_from_edge x := length l]> (edge_index r))).
    destruct (index_edge_fields r1 x) as (Hsame & HL1 & HI1 & HB1).
    change (index_edge r (length l, x)) with (index_edge_by_node_sides r1 x).
    assert (Hx : pair_from_edge x ∉ pair_from_edge <$> l).
    { intros Hx. apply (Hfresh _ Hx). csimpl. by left. }
    split; [| split; [| split; [| split]]].
    + intros i e Hi. rewrite HI1, HB1.
      apply lookup_app_Some in Hi as [Hi | [Hlen Hi]].
      * assert (Hne : pair_from_edge x <> pair_from_edge e).
        { intros Heq. apply Hx. rewrite Heq. apply list_elem_of_fmap.
          exists e. split; [reflexivity |]. by apply list_elem_of_lookup_2 in Hi. }
        simpl. rewrite !lookup_insert_ne by assumption. by apply Hin.
      * apply list_lookup_singleton_Some in Hi as [Hk <-].
        simpl. rewrite !lookup_insert_eq.
        split; [reflexivity |]. f_equal. lia.
    + intros k Hk. rewrite fmap_app, elem_of_app in Hk.
      assert (Hne : pair_from_edge x <> k).
      { intros Heq. apply Hk. right. csimpl. rewrite Heq. by left. }
      rewrite HI1, HB1. simpl. rewrite !lookup_insert_ne by assumption.
      apply Hout. tauto.
    + intros s. rewrite adjacency_index.
      change (adjacency r1 s) with (adjacency r s).
      rewrite HA, bind_app, <- app_assoc. csimpl. by rewrite app_nil_r.
    + by rewrite HL1.
    + eapply same_nodes_trans; [exact HS |].
      eapply same_nodes_trans; [| exact Hsame].
      unfold same_nodes. by repeat split.
Qed.

Lemma clear_indexes_fields (g : VG) :
  graph_node (clear_indexes g) = graph_node g
  /\ graph_edge (clear_indexes g) = graph_edge g
  /\ node_by_id (clear_indexes g) = ∅ /\ node_index (clear_indexes g) = ∅
  /\ edge_by_sides (clear_indexes g) = ∅ /\ edge_index (clear_indexes g) = ∅
  /\ (forall s, adjacency (clear_indexes g) s = [])
  /\ current_id (clear_indexes g) = current_id g
  /\ paths (clear_indexes g) = paths g.
Proof.
  repeat split. intros [id side]. unfold adjacency, edges_start, edges_end. simpl.
  destruct side; by rewrite lookup_empty.
Qed.

(** The tables that [rebuild_indexes] makes. *)
Lemma rebuild_indexes_tables (g : VG) :
  NoDup (node_id <$> graph_node g) -> NoDup (pair_from_edge <$> graph_edge g) ->
  graph_node (rebuild_indexes g) = graph_node g
  /\ graph_edge (rebuild_indexes g) = graph_edge g
  /\ current_id (rebuild_indexes g) = current_id g
  /\ paths (rebuild_indexes g) = paths g
  /\ nodes_wf (rebuild_indexes g)
  /\ edges_wf (rebuild_indexes g)
  /\ (forall s, adjacency (rebuild_indexes g) s
                = graph_edge g ≫= fun e => new_entries e s).
Proof.
  intros Hnodes Hedges.
  destruct (clear_indexes_fields g) as (CL & CE & CB & CI & CS & CX & CA & CC & CP).
  unfold rebuild_indexes, build_indexes.
  set (g0 := clear_indexes g) in *.
  unfold build_node_indexes. rewrite CL.
  destruct (fold_index_node (graph_node g) g0 Hnodes) as (Nin & Nout & NL & NE & NC & NP).
  set (g1 := foldl index_node g0 (imap pair (graph_node g))) in *.
  destruct NE as (NE1 & NE2 & NE3 & NE4 & NE5).
  unfold build_edge_indexes. rewrite NE1, CE.
  destruct (fold_index_edge (graph_edge g) g1 Hedges) as (Ein & Eout & EA & EL & ES).
  set (g2 := foldl index_edge g1 (imap pair (graph_edge g))) in *.
  destruct ES as (ES1 & ES2 & ES3 & ES4 & ES5).
  assert (HA : forall s, adjacency g2 s = graph_edge g ≫= fun e => new_entries e s).
  { intros s. rewrite EA.
    assert (H1 : adjacency g1 s = adjacency g0 s).
    { unfold adjacency, edges_start, edges_end. by rewrite NE4, NE5. }
    by rewrite H1, CA. }
  split; [by rewrite ES1, NL |]. split; [by rewrite EL, NE1 |].
  split; [by rewrite ES4, NC |]. split; [by rewrite ES5, NP |].
  split; [| split; [| exact HA]].
  - split; [by rewrite ES1, NL, CL |]. split.
    + intros i n. rewrite ES1, NL, CL, ES2, ES3. apply Nin.
    + intros id n Hlook. rewrite ES1, NL, CL. rewrite ES2 in Hlook.
      destruct (decide (id ∈ node_id <$> graph_node g)) as [Hid | Hid].
      * apply list_elem_of_fmap in Hid as (n' & -> & [i Hi]%list_elem_of_lookup).
        destruct (Nin _ _ Hi) as [Hn' _]. rewrite Hn' in Hlook. injection Hlook as <-.
        split; [by apply list_elem_of_lookup_2 in Hi | reflexivity].
      * destruct (Nout _ Hid) as [Hn' _]. by rewrite Hn', CB, lookup_empty in Hlook.
  - split; [by rewrite EL, NE1, CE |]. split; [| split].
    + intros i e. rewrite EL, NE1, CE. apply Ein.
    + intros k e Hlook. rewrite EL, NE1, CE.
      destruct (decide (k ∈ pair_from_edge <$> graph_edge g)) as [Hk | Hk].
      * apply list_elem_of_fmap in Hk as (e' & -> & [i Hi]%list_elem_of_lookup).
        destruct (Ein _ _ Hi) as [He' _]. rewrite He' in Hlook. injection Hlook as <-.
        split; [by apply list_elem_of_lookup_2 in Hi | reflexivity].
      * destruct (Eout _ Hk) as [He' _]. by rewrite He', NE2, CS, lookup_empty in Hlook.
    + intros e. rewrite EL, NE1, CE. intros He. rewrite !HA.
      destruct (new_entries_own e) as [Ha Hb].
      split; apply list_elem_of_bind; exists e; by split.
Qed.

(** X14. [rebuild_indexes] on a graph whose nodes have distinct ids and whose
    edges have distinct side pairs: the node and edge lists, the id counter
    and the paths are kept, the tables that come out are consistent with the
    lists, and the adjacency list of every side holds the entries of the
    edges on that side in the order of the edge list, and nothing else.  If
    the tables were consistent before, the table of nodes by id and the table
    of edges by sides come out as they were. *)
Theorem rebuild_indexes_restores (g : VG) :
  NoDup (node_id <$> graph_node g) -> NoDup (pair_from_edge <$> graph_edge g) ->
  graph_node (rebuild_indexes g) = graph_node g
  /\ graph_edge (rebuild_indexes g) = graph_edge g
  /\ current_id (rebuild_indexes g) = current_id g
  /\ paths (rebuild_indexes g) = paths g
  /\ nodes_wf (rebuild_indexes g)
  /\ edges_wf (rebuild_indexes g)
  /\ (forall s, adjacency (rebuild_indexes g) s
                = graph_edge g ≫= fun e => new_entries e s)
  /\ (nodes_wf g -> node_by_id (rebuild_indexes g) = node_by_id g)
  /\ (edges_wf g -> edge_by_sides (rebuild_indexes g) = edge_by_sides g).
Proof.
  intros Hnodes Hedges.
  destruct (rebuild_indexes_tables g Hnodes Hedges)
    as (HL & HE & HC & HP & Hn & He & HA).
  do 7 (split; [assumption |]). split.
  - intros (_ & N2 & N3). destruct Hn as (_ & N2' & N3').
    apply map_eq. intros id.
    destruct (node_by_id (rebuild_indexes g) !! id) as [n |] eqn:Hlook.
    + destruct (N3' _ _ Hlook) as [Hin <-]. rewrite HL in Hin.
      apply list_elem_of_lookup in Hin as [i Hi]. symmetry. by apply (N2 i).
    + destruct (node_by_id g !! id) as [n |] eqn:Hg; [| reflexivity].
      destruct (N3 _ _ Hg) as [[i Hi]%list_elem_of_lookup <-].
      rewrite <- HL in Hi. destruct (N2' _ _ Hi) as [Hn' _]. congruence.
  - intros (_ & E2 & E3 & _). destruct He as (_ & E2' & E3' & _).
    apply map_eq. intros k.
    destruct (edge_by_sides (rebuild_indexes g) !! k) as [e |] eqn:Hlook.
    + destruct (E3' _ _ Hlook) as [Hin <-]. rewrite HE in Hin.
      apply list_elem_of_lookup in Hin as [i Hi]. symmetry. by apply (E2 i).
    + destruct (edge_by_sides g !! k) as [e |] eqn:Hg; [| reflexivity].
      destruct (E3 _ _ Hg) as [[i Hi]%list_elem_of_lookup <-].
      rewrite <- HE in Hi. destruct (E2' _ _ Hi) as [He' _]. congruence.
Qed.

Lemma rebuild_indexes_restores_witness :
  (NoDup (node_id <$> graph_node loops_graph)
   /\ NoDup (pair_from_edge <$> graph_edge loops_graph))
  /\ nodes_wf (rebuild_indexes loops_graph)
  /\ edges_wf (rebuild_indexes loops_graph)
  /\ forall s, adjacency (rebuild_indexes loops_graph) s
               = graph_edge loops_graph ≫= fun e => new_entries e s.
Proof.
  assert (Hn : NoDup (node_id <$> graph_node loops_graph))
    by (apply (bool_decide_unpack _); vm_compute; exact I).
  assert (He : NoDup (pair_from_edge <$> graph_edge loops_graph))
    by (apply (bool_decide_unpack _); vm_compute; exact I).
  split; [exact (conj Hn He) |].
  pose proof (rebuild_indexes_restores loops_graph Hn He)
    as (_ & _ & _ & _ & Hnw & Hew & HA & _).
  exact (conj Hnw (conj Hew HA)).
Defined.

(** * The reverse complement of a graph *)

Lemma new_entries_reverse_edge (e : Edge) (id : Z) (side : bool) :
  new_entries (reverse_edge e) (id, side) = new_entries e (id, negb side).
Proof.
  destruct e as [f t fs te].
  unfold new_entries, reverse_edge, side_a, side_b, entry_for. simpl.
  destruct fs, te, side; simpl;
    repeat case_decide; simplify_eq; try reflexivity;
    exfalso; naive_solver.
Qed.

Lemma bind_reverse_edges (l : list Edge) (id : Z) (side : bool) :
  (reverse_edge <$> l) ≫= (fun e => new_entries e (id, side))
  = l ≫= (fun e => new_entries e (id, negb side)).
Proof.
  induction l as [| e l IH]; [reflexivity |].
  csimpl. by rewrite new_entries_reverse_edge, IH.
Qed.

Lemma pair_from_reverse_edge (e e' : Edge) :
  pair_from_edge (reverse_edge e) = pair_from_edge (reverse_edge e') ->
  pair_from_edge e = pair_from_edge e'.
Proof.
  rewrite !pair_from_edge_sides. intros H.
  destruct e as [f t fs te], e' as [f' t' fs' te'].
  unfold side_a, side_b, reverse_edge in *. simpl in *.
  apply minmax_sides in H as [[H1 H2] | [H1 H2]].
  - injection H1 as -> Hte. injection H2 as -> ->.
    by destruct te, te'.
  - injection H1 as Ht Hte. injection H2 as Hf Hfs. subst t f.
    destruct fs, te, fs', te'; try discriminate; apply minmax_comm.
Qed.

Lemma fold_translation (l : list Node) (t : gmap Z (Z * bool)) (id : Z) :
  foldl (fun t n => <[node_id n := (node_id n, true)]> t) t l !! id
  = if decide (id ∈ node_id <$> l) then Some (id, true) else t !! id.
Proof.
  induction l as [| x l IH] using rev_ind; [reflexivity |].
  rewrite foldl_app, fmap_app. simpl.
  destruct (decide (node_id x = id)) as [<- | Hne].
  - rewrite lookup_insert_eq. rewrite decide_True; [reflexivity |].
    apply elem_of_app. right. csimpl. by left.
  - rewrite lookup_insert_ne by assumption. rewrite IH.
    destruct (decide (id ∈ node_id <$> l)) as [Hin | Hout].
    + rewrite decide_True; [reflexivity |]. apply elem_of_app. by left.
    + rewrite decide_False; [reflexivity |].
      rewrite elem_of_app. intros [Hin | Hin]; [done |].
      csimpl in Hin. apply list_elem_of_singleton in Hin. congruence.
Qed.

Lemma fold_max_node_id (l : list Node) (a : Z) :
  foldl (fun m n => Z.max m (node_id n)) a l
  = foldl (fun max_id n => if max_id <? node_id n then node_id n else max_id) a l.
Proof.
  revert a. induction l as [| x l IH]; intros a; [reflexivity |]. simpl.
  rewrite IH. f_equal. destruct (Z.ltb_spec a (node_id x)); lia.
Qed.

(** X15. The reverse complement of a graph whose nodes have distinct ids and
    whose edges have distinct side pairs: it has the same node ids, each with
    the reverse complement of its sequence, and every edge turned round; its
    tables are consistent and its id counter lies above every id; it has no
    paths.  What attaches to the start of a node in the reverse complement is
    what attaches to the end of that node in the graph (after its tables are
    rebuilt), in the same order, and the other way round.  Every node of the
    graph is translated to itself, reversed; the other keys of the
    translation are kept. *)
Theorem reverse_complement_graph_mirrors (g : VG) (t : gmap Z (Z * bool)) :
  NoDup (node_id <$> graph_node g) -> NoDup (pair_from_edge <$> graph_edge g) ->
  let rc := (reverse_complement_graph g t).1 in
  let translation := (reverse_complement_graph g t).2 in
  graph_node rc = reverse_node <$> graph_node g
  /\ graph_edge rc = reverse_edge <$> graph_edge g
  /\ nodes_wf rc /\ edges_wf rc /\ counter_ok rc
  /\ current_id rc = max_node_id g + 1
  /\ paths rc = []
  /\ (forall n, n ∈ graph_node g ->
        get_node rc (node_id n)
        = Ok (mkNode (node_id n) (reverse_complement (node_sequence n))))
  /\ (forall id side,
        adjacency rc (id, side) = adjacency (rebuild_indexes g) (id, negb side))
  /\ (forall id, translation !! id
                 = if decide (id ∈ node_id <$> graph_node g)
                   then Some (id, true) else t !! id).
Proof.
  intros Hnodes Hedges rc translation.
  set (rev_comp :=
         mkVG (reverse_node <$> graph_node g) (reverse_edge <$> graph_edge g)
              ∅ ∅ ∅ ∅ ∅ ∅
              (foldl (fun m n => Z.max m (node_id n)) 0 (graph_node g) + 1) []).
  assert (Hrc : rc = rebuild_indexes rev_comp) by reflexivity.
  assert (Hids : node_id <$> graph_node rev_comp = node_id <$> graph_node g).
  { simpl. rewrite <- list_fmap_compose. by apply list_fmap_ext. }
  assert (Hn' : NoDup (node_id <$> graph_node rev_comp)) by (by rewrite Hids).
  assert (He' : NoDup (pair_from_edge <$> graph_edge rev_comp)).
  { simpl. rewrite <- list_fmap_compose.
    apply NoDup_fmap_2_strong; [| by apply NoDup_fmap_1 in Hedges].
    intros e e' Hin Hin' Heq. simpl in Heq. apply pair_from_reverse_edge in Heq.
    apply list_elem_of_lookup in Hin as [i Hi].
    apply list_elem_of_lookup in Hin' as [j Hj].
    assert (Hij : i = j).
    { eapply NoDup_lookup; [exact Hedges | |].
      - rewrite list_lookup_fmap, Hi. reflexivity.
      - rewrite list_lookup_fmap, Hj. simpl. by rewrite Heq. }
    subst j. congruence. }
  destruct (rebuild_indexes_tables rev_comp Hn' He')
    as (HL & HE & HC & HP & Hnw & Hew & HA).
  destruct (rebuild_indexes_tables g Hnodes Hedges) as (_ & _ & _ & _ & _ & _ & HAg).
  rewrite Hrc.
  assert (Hcur : current_id (rebuild_indexes rev_comp) = max_node_id g + 1).
  { rewrite HC. simpl. by rewrite fold_max_node_id. }
  split; [exact HL |]. split; [exact HE |]. split; [exact Hnw |]. split; [exact Hew |].
  split; [| split; [exact Hcur | split; [exact HP | split; [| split]]]].
  - split; [rewrite Hcur; pose proof (max_node_id_nonneg g); lia |].
    right. intros n Hn. rewrite HL in Hn. simpl in Hn.
    apply list_elem_of_fmap in Hn as (n0 & -> & Hn0). simpl.
    rewrite Hcur. pose proof (max_node_id_bound g n0 Hn0). lia.
  - intros n Hn. unfold get_node.
    change (node_id n) with (node_id (reverse_node n)).
    rewrite (nodes_wf_lookup _ (reverse_node n) Hnw); [reflexivity |].
    rewrite HL. simpl. apply list_elem_of_fmap. by exists n.
  - intros id side. rewrite HA, HAg. simpl.
    apply bind_reverse_edges.
  - intros id. apply fold_translation.
Qed.

Lemma reverse_complement_graph_mirrors_witness :
  (NoDup (node_id <$> graph_node loops_graph)
   /\ NoDup (pair_from_edge <$> graph_edge loops_graph))
  /\ (forall id side,
        adjacency (reverse_complement_graph loops_graph ∅).1 (id, side)
        = adjacency (rebuild_indexes loops_graph) (id, negb side)).
Proof.
  assert (Hn : NoDup (node_id <$> graph_node loops_graph))
    by (apply (bool_decide_unpack _); vm_compute; exact I).
  assert (He : NoDup (pair_from_edge <$> graph_edge loops_graph))
    by (apply (bool_decide_unpack _); vm_compute; exact I).
  split; [exact (conj Hn He) |].
  pose proof (reverse_complement_graph_mirrors loops_graph ∅ Hn He)
    as (_ & _ & _ & _ & _ & _ & _ & _ & HA & _).
  exact HA.
Defined.

(** * Dividing a handle *)

Lemma to_int_small (z : Z) : 0 <= z < 2 ^ 31 -> to_int z = z.
Proof. intros Hz. unfold to_int. rewrite Z.mod_small by lia. lia. Qed.

(** ** Offsets and their mirror images *)

Lemma offsets_valid_bounds (offsets : list Z) (lo hi : Z) :
  offsets_valid lo hi offsets -> forall o, o ∈ offsets -> lo < o < hi.
Proof.
  revert lo. induction offsets as [| p r IH]; intros lo Hv o Ho.
  - by apply elem_of_nil in Ho.
  - destruct Hv as [Hp Hv]. apply elem_of_cons in Ho as [-> | Ho]; [assumption |].
    specialize (IH p Hv o Ho). lia.
Qed.

Lemma offsets_valid_snoc (offsets : list Z) (lo hi x : Z) :
  offsets_valid lo x offsets -> lo < x < hi -> offsets_valid lo hi (offsets ++ [x]).
Proof.
  revert lo. induction offsets as [| p r IH]; intros lo Hv Hx; simpl.
  - by split.
  - destruct Hv as [Hp Hv]. split; [lia |]. apply IH; [assumption | lia].
Qed.

Lemma mirror_offsets_cons (len p : Z) (r : list Z) :
  mirror_offsets len (p :: r) = mirror_offsets len r ++ [len - p].
Proof. unfold mirror_offsets. by rewrite reverse_cons, fmap_app. Qed.

Lemma mirror_offsets_valid (len : Z) (offsets : list Z) (lo hi : Z) :
  offsets_valid lo hi offsets ->
  offsets_valid (len - hi) (len - lo) (mirror_offsets len offsets).
Proof.
  revert lo. induction offsets as [| p r IH]; intros lo Hv; [exact I |].
  destruct Hv as [Hp Hv]. rewrite mirror_offsets_cons.
  apply offsets_valid_snoc; [by apply IH | lia].
Qed.

Lemma piece_lengths_snoc (offsets : list Z) (lo x hi : Z) :
  piece_lengths lo (offsets ++ [x]) hi = piece_lengths lo offsets x ++ [hi - x].
Proof.
  revert lo. induction offsets as [| p r IH]; intros lo; simpl; [reflexivity |].
  by rewrite IH.
Qed.

Lemma piece_lengths_mirror (len : Z) (offsets : list Z) (lo hi : Z) :
  reverse (piece_lengths (len - hi) (mirror_offsets len offsets) (len - lo))
  = piece_lengths lo offsets hi.
Proof.
  revert lo. induction offsets as [| p r IH]; intros lo.
  - unfold mirror_offsets. simpl. rewrite reverse_singleton. f_equal. lia.
  - rewrite mirror_offsets_cons, piece_lengths_snoc, reverse_app, reverse_singleton.
    simpl. rewrite IH. f_equal. lia.
Qed.

Lemma pieces_lengths (s : list ascii) (offsets : list Z) (last_pos : Z) :
  0 <= last_pos -> offsets_valid last_pos (Z.of_nat (length s)) offsets ->
  last_pos <= Z.of_nat (length s) ->
  (fun piece => Z.of_nat (length piece)) <$> pieces s last_pos offsets
  = piece_lengths last_pos offsets (Z.of_nat (length s)).
Proof.
  revert last_pos. induction offsets as [| p r IH]; intros last_pos H0 Hv Hlen; simpl.
  - rewrite length_drop. f_equal. lia.
  - destruct Hv as [Hp Hv]. rewrite IH by (assumption || lia).
    f_equal. rewrite length_take, length_drop. lia.
Qed.

Lemma pieces_determined {A : Type} (ps qs : list (list A)) :
  (fun piece => Z.of_nat (length piece)) <$> ps
  = (fun piece => Z.of_nat (length piece)) <$> qs ->
  mjoin ps = mjoin qs -> ps = qs.
Proof.
  revert qs. induction ps as [| p ps IH]; intros [| q qs] Hlen Hjoin;
    try discriminate; [reflexivity |].
  csimpl in Hlen. injection Hlen as Hpq Hlen.
  simpl in Hjoin. apply app_inj_1 in Hjoin as [-> Hjoin]; [| lia].
  f_equal. by apply IH.
Qed.

Lemma reverse_complement_app (a b : list ascii) :
  reverse_complement (a ++ b) = reverse_complement b ++ reverse_complement a.
Proof. unfold reverse_complement. by rewrite reverse_app, fmap_app. Qed.

Lemma reverse_complement_join (l : list (list ascii)) :
  mjoin (reverse_complement <$> reverse l) = reverse_complement (mjoin l).
Proof.
  induction l as [| a l IH]; [reflexivity |].
  rewrite reverse_cons, fmap_app, join_app. simpl.
  rewrite reverse_complement_app, IH. by rewrite app_nil_r.
Qed.

Lemma reverse_complement_lengths (l : list (list ascii)) :
  (fun piece => Z.of_nat (length piece)) <$> (reverse_complement <$> l)
  = (fun piece => Z.of_nat (length piece)) <$> l.
Proof.
  induction l as [| a l IH]; [reflexivity |].
  csimpl. by rewrite reverse_complement_length, IH.
Qed.

(** The pieces of the reverse complement are the reverse complements of the
    pieces cut at the mirrored offsets, in the opposite order. *)
Lemma pieces_reverse_complement (s : list ascii) (offsets : list Z) :
  offsets_valid 0 (Z.of_nat (length s)) offsets ->
  reverse_complement
    <$> reverse (pieces s 0 (mirror_offsets (Z.of_nat (length s)) offsets))
  = pieces (reverse_complement s) 0 offsets.
Proof.
  intros Hv. set (len := Z.of_nat (length s)).
  pose proof (mirror_offsets_valid len offsets 0 len Hv) as Hm.
  replace (len - len) with 0 in Hm by lia. replace (len - 0) with len in Hm by lia.
  apply pieces_determined.
  - rewrite reverse_complement_lengths.
    rewrite fmap_reverse, pieces_lengths by (assumption || lia).
    rewrite pieces_lengths; rewrite ?reverse_complement_length; try (assumption || lia).
    fold len. pose proof (piece_lengths_mirror len offsets 0 len) as H.
    replace (len - len) with 0 in H by lia. by replace (len - 0) with len in H by lia.
  - rewrite reverse_complement_join.
    rewrite !pieces_concat; rewrite ?reverse_complement_length; try (assumption || lia).
    reflexivity.
Qed.

(** ** The ids of the parts *)

Lemma create_node_next_id (g g' : VG) (seq : list ascii) (n : Node) :
  counter_ok g -> create_node g seq = Ok (g', n) -> next_id g' = next_id g + 1.
Proof.
  intros Hc Hcreate. destruct (next_id_fresh g Hc) as [Hpos _].
  apply create_node_fields in Hcreate as (_ & _ & _ & _ & _ & _ & HC & _).
  unfold next_id at 1. rewrite HC.
  destruct (Z.eqb_spec (next_id g + 1) 1); [lia | reflexivity].
Qed.

Lemma create_parts_ids (positions : list Z) (g g1 : VG) (node : Node) (last_pos : Z)
    (parts : list Node) :
  counter_ok g -> nodes_wf g ->
  create_parts g node last_pos positions = Ok (g1, parts) ->
  Forall (fun p => next_id g <= node_id p
                   < next_id g + Z.of_nat (S (length positions))) parts.
Proof.
  revert g g1 last_pos parts. induction positions as [| pos rest IH];
    intros g g1 last_pos parts Hc Hwf Hparts; simpl in Hparts.
  - destruct (create_node_ok g (drop (Z.to_nat last_pos) (node_sequence node)) Hc Hwf)
      as (g' & Hcreate & _).
    rewrite Hcreate in Hparts. simpl in Hparts. injection Hparts as _ <-.
    constructor; [simpl; lia | constructor].
  - destruct (create_node_ok g (substr (node_sequence node) last_pos (pos - last_pos)) Hc Hwf)
      as (g' & Hcreate & Hc' & Hwf' & _).
    rewrite Hcreate in Hparts. simpl in Hparts.
    destruct (create_parts g' node pos rest) as [[g2 parts'] |] eqn:Hrest;
      [| discriminate].
    simpl in Hparts. injection Hparts as _ <-.
    pose proof (create_node_next_id _ _ _ _ Hc Hcreate) as Hnext.
    constructor; [simpl; lia |].
    eapply Forall_impl; [exact (IH _ _ _ _ Hc' Hwf' Hrest) |].
    intros p Hp. simpl in Hp. rewrite Hnext in Hp. simpl length. lia.
Qed.

Lemma divide_node_parts_ids (g g' : VG) (node : Node) (positions : list Z)
    (parts : list Node) :
  counter_ok g -> nodes_wf g ->
  divide_node g node positions = Ok (g', parts) ->
  Forall (fun p => next_id g <= node_id p
                   < next_id g + Z.of_nat (S (length positions))) parts.
Proof.
  intros Hc Hwf Hdiv. unfold divide_node in Hdiv.
  destruct (check_positions node positions); [| discriminate]. simpl in Hdiv.
  destruct (create_parts g node 0 positions) as [[g1 parts1] |] eqn:Hparts;
    [| discriminate].
  simpl in Hdiv. injection Hdiv as _ <-.
  by apply (create_parts_ids positions g g1 node 0).
Qed.

Lemma mapM_res_fmap {A B C : Type} (f : B -> res C) (h : A -> B) (k : A -> C)
    (l : list A) :
  (forall x, x ∈ l -> f (h x) = Ok (k x)) ->
  mapM (M := res) f (fmap (M := list) h l) = Ok (fmap (M := list) k l).
Proof.
  induction l as [| a l IH]; intros Hf; [reflexivity |].
  rewrite !fmap_cons, mapM_res_cons, Hf by (by left). rewrite IH; [reflexivity |].
  intros x Hx. apply Hf. by right.
Qed.

(** X16. [divide_handle] cuts the sequence of the handle where the offsets
    say, measured along the handle: on a consistent graph, for a handle on a
    node with a non-empty sequence shorter than 2^31 and offsets that
    increase strictly inside the sequence, it returns one handle more than
    there are offsets, all in the orientation of the handle, and their
    sequences are, in order, the pieces of the sequence of the handle.  The
    divided node is gone afterwards and the tables are consistent.  (The ids
    handed out stay below 2^63.) *)
Theorem divide_handle_pieces (g : VG) (handle : Z) (offsets : list Z) (s : list ascii) :
  counter_ok g -> nodes_wf g -> edges_wf g ->
  get_sequence g handle = Ok s -> s <> [] -> Z.of_nat (length s) < 2 ^ 31 ->
  offsets_valid 0 (Z.of_nat (length s)) offsets ->
  next_id g + Z.of_nat (length offsets) < 2 ^ 63 ->
  exists g' handles,
    divide_handle g handle offsets = Ok (g', handles)
    /\ length handles = S (length offsets)
    /\ Forall (fun h => Handle.get_is_reverse h = Handle.get_is_reverse handle) handles
    /\ mapM (get_sequence g') handles = Ok (pieces s 0 offsets)
    /\ has_node g' (Handle.get_id handle) = false
    /\ nodes_wf g' /\ edges_wf g'.
Proof.
  intros Hc Hn He Hseq Hne Hshort Hv Hids.
  unfold get_sequence in Hseq. fold (Handle.get_is_reverse handle) in Hseq.
  destruct (node_by_id g !! Handle.get_id handle) as [node |] eqn:Hlook; [| discriminate].
  injection Hseq as Hs.
  pose proof Hn as (_ & _ & N3). destruct (N3 _ _ Hlook) as [Hin Hid].
  set (rev := Handle.get_is_reverse handle) in *.
  set (len := Z.of_nat (length (node_sequence node))).
  assert (Hlen : Z.of_nat (length s) = len).
  { rewrite <- Hs. unfold len. destruct rev; [by rewrite reverse_complement_length | done]. }
  rewrite Hlen in Hv, Hshort.
  assert (Hnode_ne : node_sequence node <> []).
  { intros Hnil. apply Hne. rewrite <- Hs, Hnil. by destruct rev. }
  set (int_offsets := if rev then mirror_offsets len offsets else offsets).
  assert (Hint : (if rev then
                    node_size ← get_length g handle;
                    Ok ((fun offset => to_int (Handle.to_size_t (node_size - offset)))
                          <$> reverse offsets)
                  else Ok (to_int <$> offsets)) = Ok int_offsets).
  { pose proof (offsets_valid_bounds offsets 0 len Hv) as Hb.
    unfold int_offsets. destruct rev.
    - unfold get_length. rewrite Hlook. simpl. f_equal. unfold mirror_offsets.
      apply list_fmap_ext. intros i o Ho%list_elem_of_lookup_2.
      rewrite elem_of_reverse in Ho. specialize (Hb o Ho). unfold seq_size. fold len.
      rewrite to_size_t_small by lia. apply to_int_small. lia.
    - f_equal. rewrite <- (list_fmap_id offsets) at 2.
      apply list_fmap_ext. intros i o Ho%list_elem_of_lookup_2.
      specialize (Hb o Ho). unfold id. apply to_int_small. lia. }
  assert (Hvalid : offsets_valid 0 (seq_size node) int_offsets).
  { unfold int_offsets, seq_size. fold len. destruct rev; [| exact Hv].
    pose proof (mirror_offsets_valid len offsets 0 len Hv) as Hm.
    replace (len - len) with 0 in Hm by lia. by replace (len - 0) with len in Hm by lia. }
  assert (Hcount : length int_offsets = length offsets).
  { unfold int_offsets, mirror_offsets. destruct rev; [| reflexivity].
    by rewrite length_fmap, length_reverse. }
  destruct (divide_node_ok g node int_offsets Hc Hn He Hin Hnode_ne Hvalid)
    as (g' & parts & Hdiv & Hparts & Hpieces & _ & _ & Hgone & Hfound & _ & Hn' & He').
  pose proof (divide_node_parts_ids _ _ _ _ _ Hc Hn Hdiv) as Hpart_ids.
  destruct (next_id_fresh g Hc) as [Hpos _].
  assert (Hget : forall p, p ∈ parts ->
             get_sequence g' (Handle.get_handle (node_id p) rev)
             = Ok (if rev then reverse_complement (node_sequence p) else node_sequence p)).
  { intros p Hp. rewrite Forall_forall in Hpart_ids. specialize (Hpart_ids p Hp).
    assert (Hrange : 0 <= node_id p < 2 ^ 63) by lia.
    unfold get_sequence. fold (Handle.get_is_reverse (Handle.get_handle (node_id p) rev)).
    rewrite get_id_get_handle, get_is_reverse_get_handle by assumption.
    by rewrite (Hfound p Hp). }
  set (to_return := (fun n : Node => Handle.get_handle (node_id n) rev) <$> parts).
  exists g', (if rev then reverse to_return else to_return).
  split.
  { unfold divide_handle, get_node. rewrite Hlook. cbn [mbind res_bind].
    fold rev. rewrite Hint. cbn [mbind res_bind]. rewrite Hdiv. reflexivity. }
  split.
  { unfold to_return. destruct rev; rewrite ?length_reverse, length_fmap; lia. }
  split.
  { assert (Hall : Forall (fun h => Handle.get_is_reverse h = rev) to_return).
    { unfold to_return. apply Forall_fmap. apply Forall_forall. intros p Hp. simpl.
      rewrite Forall_forall in Hpart_ids. specialize (Hpart_ids p Hp).
      apply get_is_reverse_get_handle. lia. }
    destruct rev; [by apply Forall_reverse | exact Hall]. }
  split.
  { unfold to_return. destruct rev.
    - rewrite <- fmap_reverse.
      rewrite (mapM_res_fmap _ _ (fun p => reverse_complement (node_sequence p)));
        [| intros p Hp; rewrite elem_of_reverse in Hp; by apply Hget].
      f_equal. rewrite <- Hs.
      rewrite <- pieces_reverse_complement by exact Hv.
      fold len. unfold int_offsets in Hpieces. rewrite <- Hpieces.
      by rewrite !fmap_reverse, <- list_fmap_compose.
    - rewrite (mapM_res_fmap _ _ node_sequence); [| intros p Hp; by apply Hget].
      f_equal. by rewrite <- Hs, Hpieces. }
  split; [by rewrite Hid in Hgone |]. by split.
Qed.

Lemma divide_handle_pieces_witness :
  let handle := Handle.get_handle 1 true in
  get_sequence scenario_graph handle = Ok (dna "GGGGTTTT")
  /\ exists g' handles,
       divide_handle scenario_graph handle [3] = Ok (g', handles)
       /\ length handles = 2%nat
       /\ Forall (fun h => Handle.get_is_reverse h = Handle.get_is_reverse handle) handles
       /\ mapM (get_sequence g') handles = Ok [dna "GGG"; dna "GTTTT"]
       /\ has_node g' (Handle.get_id handle) = false
       /\ nodes_wf g' /\ edges_wf g'.
Proof.
  intros handle.
  assert (Hseq : get_sequence scenario_graph handle = Ok (dna "GGGGTTTT"))
    by (vm_compute; reflexivity).
  split; [exact Hseq |].
  destruct scenario_graph_ok as (Hc & Hn & He).
  apply (divide_handle_pieces scenario_graph handle [3] (dna "GGGGTTTT") Hc Hn He Hseq).
  - discriminate.
  - vm_compute. reflexivity.
  - simpl. split; [lia | exact I].
  - vm_compute. reflexivity.
Defined.

(** * Handles as 64-bit words, and edges between handles *)

Lemma get_id_range (h : Z) : 0 <= Handle.get_id h < 2 ^ 63.
Proof.
  unfold Handle.get_id, Handle.LOW_BITS. rewrite Z.land_ones by lia.
  apply Z.mod_pos_bound. lia.
Qed.

Lemma land_HIGH_BIT_small (id : Z) : 0 <= id < 2 ^ 63 -> Z.land id Handle.HIGH_BIT = 0.
Proof.
  intros Hid. apply Z.bits_inj'. intros i Hi.
  rewrite Z.land_spec, testbit_HIGH_BIT, Z.bits_0.
  destruct (decide (i = 63)) as [-> | Hne].
  - by rewrite small_bit_63.
  - rewrite bool_decide_eq_false_2 by assumption. apply andb_false_r.
Qed.

Lemma get_handle_value (id : Z) (rev : bool) :
  0 <= id < 2 ^ 63 ->
  Handle.get_handle id rev = id + (if rev then 2 ^ 63 else 0).
Proof.
  intros Hid. unfold Handle.get_handle. rewrite to_size_t_small by assumption.
  destruct rev; [| lia].
  rewrite <- Z.lxor_lor by (by apply land_HIGH_BIT_small).
  rewrite <- Z.add_nocarry_lxor by (by apply land_HIGH_BIT_small).
  reflexivity.
Qed.

Lemma handle_value (h : Z) :
  0 <= h < 2 ^ 64 ->
  h = Handle.get_id h + (if Handle.get_is_reverse h then 2 ^ 63 else 0).
Proof.
  intros Hh. rewrite get_is_reverse_testbit.
  unfold Handle.get_id, Handle.LOW_BITS. rewrite Z.land_ones by lia.
  destruct (Z.lt_ge_cases h (2 ^ 63)) as [Hlow | Hhigh].
  - rewrite small_bit_63 by lia. rewrite Z.mod_small by lia. lia.
  - assert (Hdiv : h / 2 ^ 63 = 1).
    { symmetry. apply (Z.div_unique h (2 ^ 63) 1 (h - 2 ^ 63)); lia. }
    assert (Hbit : Z.testbit h 63 = true).
    { apply Z.testbit_true; [lia |]. by rewrite Hdiv. }
    rewrite Hbit. pose proof (Z.div_mod h (2 ^ 63) ltac:(lia)) as Hdm.
    rewrite Hdiv in Hdm. lia.
Qed.

(** X17. Every 64-bit word is the handle of the id and the orientation read
    from it: packing what [get_id] and [get_is_reverse] return gives the word
    back.  The id read from a word is its value without the top bit, a number
    from 0 to 2^63 - 1, and the word is the id plus 2^63 when it is
    reversed. *)
Theorem handle_of_id_and_orientation (h : Z) :
  0 <= h < 2 ^ 64 ->
  Handle.get_handle (Handle.get_id h) (Handle.get_is_reverse h) = h
  /\ 0 <= Handle.get_id h < 2 ^ 63
  /\ h = Handle.get_id h + (if Handle.get_is_reverse h then 2 ^ 63 else 0)
  /\ Handle.flip h = Handle.get_handle (Handle.get_id h) (negb (Handle.get_is_reverse h)).
Proof.
  intros Hh. pose proof (get_id_range h) as Hid.
  pose proof (handle_value h Hh) as Hval.
  assert (Hpack : Handle.get_handle (Handle.get_id h) (Handle.get_is_reverse h) = h).
  { rewrite get_handle_value by assumption. by rewrite <- Hval. }
  split; [exact Hpack |]. split; [exact Hid |]. split; [exact Hval |].
  rewrite <- Hpack at 1. by rewrite flip_get_handle.
Qed.

Lemma handle_of_id_and_orientation_witness :
  let h := 2 ^ 63 + 7 in
  0 <= h < 2 ^ 64
  /\ Handle.get_id h = 7 /\ Handle.get_is_reverse h = true
  /\ Handle.get_handle (Handle.get_id h) (Handle.get_is_reverse h) = h.
Proof.
  intros h. assert (Hh : 0 <= h < 2 ^ 64) by (unfold h; lia).
  split; [exact Hh |]. split; [reflexivity |]. split; [reflexivity |].
  exact (proj1 (handle_of_id_and_orientation h Hh)).
Defined.

(** ** Edges between handles *)

Lemma follow_edges_collect_elem (g : VG) (handle : Z) (go_left : bool) (x : Z * bool) :
  x ∈ adjacency g (Handle.get_id handle,
                   negb (xorb go_left (Handle.get_is_reverse handle))) ->
  Handle.get_handle x.1 (xorb (Handle.get_is_reverse handle) x.2)
    ∈ follow_edges_collect g handle go_left.
Proof.
  unfold follow_edges_collect, adjacency, edges_start, edges_end. simpl.
  destruct (xorb go_left (Handle.get_is_reverse handle)); simpl.
  - destruct (edges_on_start g !! Handle.get_id handle) as [found |]; simpl.
    + intros Hin. apply list_elem_of_fmap. by exists x.
    + intros Hin. by apply elem_of_nil in Hin.
  - destruct (edges_on_end g !! Handle.get_id handle) as [found |]; simpl.
    + intros Hin. apply list_elem_of_fmap. by exists x.
    + intros Hin. by apply elem_of_nil in Hin.
Qed.

(** X18. [create_edge] on two handles of nodes of the graph joins them:
    afterwards [follow_edges] to the right of [left] visits [right], and to
    the left of [right] it visits [left]; asking for the same edge from the
    other strand, [create_edge(flip(right), flip(left))], changes nothing.
    [destroy_edge] on the two handles, or on their flips in the other order,
    then takes the edge away again.  A handle on a missing node makes
    [create_edge] fail with that node id. *)
Theorem create_edge_handles_joins (g : VG) (left right : Z) :
  nodes_wf g -> edges_wf g -> 0 <= left < 2 ^ 64 -> 0 <= right < 2 ^ 64 ->
  match create_edge_handles g left right with
  | Ok g' =>
      has_node g (Handle.get_id left) = true
      /\ has_node g (Handle.get_id right) = true
      /\ edges_wf g' /\ same_nodes g g'
      /\ right ∈ follow_edges_collect g' left false
      /\ left ∈ follow_edges_collect g' right true
      /\ create_edge_handles g' (Handle.flip right) (Handle.flip left) = Ok g'
      /\ get_edge (destroy_edge_handles g' left right)
           (Handle.get_id left, negb (Handle.get_is_reverse left))
           (Handle.get_id right, Handle.get_is_reverse right) = None
      /\ destroy_edge_handles g' (Handle.flip right) (Handle.flip left)
         = destroy_edge_handles g' left right
  | Err e =>
      (has_node g (Handle.get_id left) = false /\ e = NoNode (Handle.get_id left))
      \/ (has_node g (Handle.get_id right) = false /\ e = NoNode (Handle.get_id right))
  end.
Proof.
  intros Hn Hwf Hl Hr.
  pose proof (get_id_range left) as Hil. pose proof (get_id_range right) as Hir.
  assert (Hpl : Handle.get_handle (Handle.get_id left) (Handle.get_is_reverse left) = left).
  { rewrite get_handle_value by assumption. symmetry. by apply handle_value. }
  assert (Hpr : Handle.get_handle (Handle.get_id right) (Handle.get_is_reverse right)
                = right).
  { rewrite get_handle_value by assumption. symmetry. by apply handle_value. }
  unfold create_edge_handles, get_node.
  destruct (node_by_id g !! Handle.get_id left) as [nl |] eqn:Hnl; cycle 1.
  { simpl. left. split; [| reflexivity].
    unfold has_node. apply bool_decide_eq_false. rewrite Hnl. by intros [? ?]. }
  destruct (node_by_id g !! Handle.get_id right) as [nr |] eqn:Hnr; cycle 1.
  { simpl. right. split; [| reflexivity].
    unfold has_node. apply bool_decide_eq_false. rewrite Hnr. by intros [? ?]. }
  cbn [mbind res_bind].
  pose proof Hn as (_ & _ & N3).
  destruct (N3 _ _ Hnl) as [_ ->]. destruct (N3 _ _ Hnr) as [_ ->].
  set (il := Handle.get_id left) in *. set (ir := Handle.get_id right) in *.
  set (rl := Handle.get_is_reverse left) in *.
  set (rr := Handle.get_is_reverse right) in *.
  destruct (created_edge_entries g il ir rl rr Hwf) as [Ha Hb].
  pose proof (create_edge_found g il ir rl rr) as Hfound.
  pose proof (create_edge_wf g il ir rl rr Hwf) as Hwf'.
  destruct (create_edge_spec g il ir rl rr) as [Hsame _].
  set (r := create_edge g il ir rl rr) in *. simpl.
  assert (Hby : node_by_id r.1 = node_by_id g) by (by destruct Hsame as (_ & ? & _)).
  split; [apply has_node_true; by rewrite Hnl |].
  split; [apply has_node_true; by rewrite Hnr |].
  split; [exact Hwf' |]. split; [exact Hsame |].
  split; [| split; [| split; [| split]]].
  - rewrite <- Hpr at 1. fold ir rr.
    replace rr with (xorb (Handle.get_is_reverse left) (entry_for (il, negb rl) (ir, rr)).2)
      at 1 by (unfold entry_for; fold rl; simpl; by destruct rl, rr).
    apply (follow_edges_collect_elem r.1 left false). by fold il rl.
  - rewrite <- Hpl at 1. fold il rl.
    replace rl with (xorb (Handle.get_is_reverse right) (entry_for (ir, rr) (il, negb rl)).2)
      at 1 by (unfold entry_for; fold rr; simpl; by destruct rl, rr).
    apply (follow_edges_collect_elem r.1 right true).
    change (negb (xorb true (Handle.get_is_reverse right))) with (negb (negb rr)).
    by rewrite negb_involutive.
  - unfold create_edge_handles, get_node.
    rewrite !get_id_flip, !get_is_reverse_flip, Hby. fold il ir rl rr.
    rewrite Hnr, Hnl. cbn [mbind res_bind].
    destruct (N3 _ _ Hnl) as [_ ->]. destruct (N3 _ _ Hnr) as [_ ->].
    f_equal. unfold create_edge, get_edge.
    rewrite negb_involutive, (minmax_comm (ir, rr) (il, negb rl)).
    by rewrite Hfound.
  - assert (Hd : destroy_edge_handles r.1 left right
                 = destroy_edge r.1 (il, negb rl) (ir, rr)).
    { unfold destroy_edge_handles, destroy_edge. fold il ir rl rr.
      unfold get_edge. by rewrite Hfound. }
    rewrite Hd. unfold get_edge.
    destruct (edge_by_sides (destroy_edge r.1 (il, negb rl) (ir, rr))
                !! minmax (il, negb rl) (ir, rr)) as [e |] eqn:Hlook; [| reflexivity].
    exfalso.
    pose proof (destroy_edge_wf r.1 (il, negb rl) (ir, rr) Hwf') as (_ & _ & E3 & _).
    destruct (E3 _ _ Hlook) as [Hin Hkey].
    apply (destroy_edge_edges r.1 (il, negb rl) (ir, rr) e Hwf') in Hin as [_ Hne].
    by apply Hne.
  - unfold destroy_edge_handles, get_edge.
    rewrite !get_id_flip, !get_is_reverse_flip. fold il ir rl rr.
    by rewrite negb_involutive, (minmax_comm (ir, rr) (il, negb rl)).
Qed.

Lemma create_edge_handles_joins_witness :
  let left := Handle.get_handle 2 true in
  let right := 1 in
  (nodes_wf chain_graph /\ edges_wf chain_graph
   /\ 0 <= left < 2 ^ 64 /\ 0 <= right < 2 ^ 64)
  /\ exists g', create_edge_handles chain_graph left right = Ok g'
                /\ right ∈ follow_edges_collect g' left false
                /\ left ∈ follow_edges_collect g' right true.
Proof.
  intros left right.
  assert (Hl : 0 <= left < 2 ^ 64) by (vm_compute; split; [discriminate | reflexivity]).
  assert (Hr : 0 <= right < 2 ^ 64) by (unfold right; lia).
  split; [exact (conj chain_graph_nodes_wf (conj chain_graph_edges_wf (conj Hl Hr))) |].
  pose proof (create_edge_handles_joins chain_graph left right
                chain_graph_nodes_wf chain_graph_edges_wf Hl Hr) as H.
  destruct (create_edge_handles chain_graph left right) as [g' | e] eqn:Hcreate;
    [| discriminate Hcreate].
  exists g'. destruct H as (_ & _ & _ & _ & Hright & Hleft & _).
  exact (conj eq_refl (conj Hright Hleft)).
Defined.

(** * Taking a node out and joining its neighbours *)

Lemma fold_create_edges_spec (l : list ((Z * bool) * (Z * bool))) (g : VG) :
  edges_wf g ->
  edges_wf (foldl (fun g (e : (Z * bool) * (Z * bool)) =>
                     (create_edge g e.1.1 e.2.1 e.1.2 e.2.2).1) g l)
  /\ same_nodes g (foldl (fun g (e : (Z * bool) * (Z * bool)) =>
                            (create_edge g e.1.1 e.2.1 e.1.2 e.2.2).1) g l)
  /\ (forall k e, edge_by_sides g !! k = Some e ->
        edge_by_sides (foldl (fun g (e : (Z * bool) * (Z * bool)) =>
                                (create_edge g e.1.1 e.2.1 e.1.2 e.2.2).1) g l) !! k
        = Some e)
  /\ (forall x, x ∈ l ->
        is_Some (edge_by_sides
                   (foldl (fun g (e : (Z * bool) * (Z * bool)) =>
                             (create_edge g e.1.1 e.2.1 e.1.2 e.2.2).1) g l)
                   !! minmax (x.1.1, negb x.1.2) (x.2.1, x.2.2)))
  /\ (forall e,
        e ∈ graph_edge (foldl (fun g (e : (Z * bool) * (Z * bool)) =>
                                 (create_edge g e.1.1 e.2.1 e.1.2 e.2.2).1) g l) ->
        e ∈ graph_edge g \/ exists x, x ∈ l /\ e = mkEdge x.1.1 x.2.1 x.1.2 x.2.2).
Proof.
  revert g. induction l as [| x l IH]; intros g Hwf.
  - simpl. split; [assumption |]. split; [apply same_nodes_refl |].
    split; [done |]. split; [| by left].
    intros x Hx. by apply elem_of_nil in Hx.
  - simpl.
    pose proof (create_edge_wf g x.1.1 x.2.1 x.1.2 x.2.2 Hwf) as Hwf0.
    pose proof (create_edge_found g x.1.1 x.2.1 x.1.2 x.2.2) as Hfound.
    pose proof (create_edge_edges g x.1.1 x.2.1 x.1.2 x.2.2) as Hedges.
    destruct (create_edge_spec g x.1.1 x.2.1 x.1.2 x.2.2) as [Hsame Hspec].
    set (g0 := (create_edge g x.1.1 x.2.1 x.1.2 x.2.2).1) in *.
    destruct (IH g0 Hwf0) as (Hwf1 & Hsame1 & Hkeep & Hmade & Hfrom).
    assert (Hkeep0 : forall k e, edge_by_sides g !! k = Some e ->
                                 edge_by_sides g0 !! k = Some e).
    { intros k e Hk.
      destruct (edge_by_sides g !! pair_from_edge (mkEdge x.1.1 x.2.1 x.1.2 x.2.2))
        as [e0 |] eqn:Hlook.
      - destruct Hspec as [Heq _]. by rewrite Heq.
      - destruct Hspec as (_ & _ & HS & _). rewrite HS.
        rewrite lookup_insert_ne; [assumption |]. intros <-. congruence. }
    split; [assumption |].
    split; [eapply same_nodes_trans; [exact Hsame | exact Hsame1] |].
    split; [intros k e Hk; by apply Hkeep, Hkeep0 |]. split.
    + intros y [-> | Hy]%elem_of_cons; [| by apply Hmade].
      eexists. apply Hkeep. exact Hfound.
    + intros e He. apply Hfrom in He as [He | (y & Hy & ->)].
      * apply Hedges in He as [He | [-> _]]; [by left |].
        right. exists x. split; [by left | reflexivity].
      * right. exists y. split; [by right | reflexivity].
Qed.

Lemma remove_mappings_of_none (ps : Paths.t) (id : Z) :
  Paths.has_node_mapping ps id = false -> remove_mappings_of ps id = ps.
Proof.
  unfold Paths.has_node_mapping, remove_mappings_of.
  by destruct (Paths.get_node_mapping_by_path_name ps id).
Qed.

(** X19. [remove_node_forwarding_edges] on a node of a consistent graph takes
    the node away and joins what was on its two sides: afterwards the node is
    gone, the other nodes are as before, every edge that did not attach to
    the node is still there, and for every side that was joined to the start
    of the node and every side that was joined to its end (both on other
    nodes) there is an edge between these two sides.  No other edge appears,
    none attaches to the removed node, and the mappings on the node are taken
    out of the paths (path names being distinct). *)
Theorem remove_node_forwarding_edges_joins (g : VG) (node : Node) :
  nodes_wf g -> edges_wf g -> node ∈ graph_node g -> NoDup (paths g).*1 ->
  let g' := remove_node_forwarding_edges g node in
  nodes_wf g' /\ edges_wf g'
  /\ has_node g' (node_id node) = false
  /\ graph_node g ≡ₚ node :: graph_node g'
  /\ (forall e, e ∈ graph_edge g -> ~ incident (node_id node) e -> e ∈ graph_edge g')
  /\ (forall sp ep,
        sp ∈ edges_start g (node_id node) -> ep ∈ edges_end g (node_id node) ->
        sp.1 <> node_id node -> ep.1 <> node_id node ->
        is_Some (get_edge g' (sp.1, negb sp.2) (ep.1, ep.2)))
  /\ (forall e, e ∈ graph_edge g' ->
        ~ incident (node_id node) e
        /\ (e ∈ graph_edge g
            \/ exists sp ep, sp ∈ edges_start g (node_id node)
                             /\ ep ∈ edges_end g (node_id node)
                             /\ e = mkEdge sp.1 ep.1 sp.2 ep.2))
  /\ paths g'
     = (fun p : string * list mapping_t =>
          (p.1, filter (fun m => m_node_id m <> node_id node) p.2)) <$> paths g.
Proof.
  intros Hn He Hin Hnames g'.
  set (id := node_id node) in *.
  set (l := set_of_list id_flag_pair_ltb
              (edges_start g id ≫= fun start_pair =>
                 (fun end_pair => (start_pair, end_pair)) <$> edges_end g id)).
  destruct (fold_create_edges_spec l g He) as (He1 & Hsame1 & Hkeep & Hmade & Hfrom).
  set (g1 := foldl (fun g (e : (Z * bool) * (Z * bool)) =>
                      (create_edge g e.1.1 e.2.1 e.1.2 e.2.2).1) g l) in *.
  set (ps := if Paths.has_node_mapping (paths g1) id
             then remove_mappings_of (paths g1) id else paths g1).
  assert (Hg' : g' = destroy_node_ptr (with_paths g1 ps) node) by reflexivity.
  pose proof (same_nodes_wf _ _ Hsame1 Hn) as Hn1.
  destruct Hsame1 as (SL & SB & SI & SC & SP).
  assert (Hn2 : nodes_wf (with_paths g1 ps)) by exact Hn1.
  assert (He2 : edges_wf (with_paths g1 ps)) by (by apply with_paths_edges_wf).
  assert (Hin2 : node ∈ graph_node (with_paths g1 ps)) by (simpl; by rewrite SL).
  apply list_elem_of_lookup in Hin2 as [i Hi].
  destruct (destroy_node_ptr_spec (with_paths g1 ps) node i node Hn2 He2 Hi eq_refl)
    as (Hn' & He' & HL' & HB' & HE' & _ & HP').
  rewrite <- Hg' in Hn', He', HL', HB', HE', HP'. simpl in HE', HL', HP'.
  assert (Hl : forall x, x ∈ l <-> x.1 ∈ edges_start g id /\ x.2 ∈ edges_end g id).
  { intros [sp ep]. unfold l.
    rewrite (elem_of_set_of_list _ (pair_ltb_total _ _ side_ltb_total side_ltb_total)).
    rewrite list_elem_of_bind. simpl. split.
    - intros (s & Hp & Hs). apply list_elem_of_fmap in Hp as (e & [= -> ->] & Hep).
      by split.
    - intros [Hs Hep]. exists sp. split; [| assumption].
      apply list_elem_of_fmap. by exists ep. }
  split; [exact Hn' |]. split; [exact He' |].
  split; [| split; [| split; [| split; [| split]]]].
  - unfold has_node. apply bool_decide_eq_false. rewrite HB'.
    fold id. rewrite lookup_delete_eq. by intros [? ?].
  - pose proof (release_slot_perm _ _ _ Hi) as Hperm. simpl in Hperm.
    rewrite <- HL' in Hperm. by rewrite <- SL.
  - intros e Hine Hninc. apply HE'. split; [| assumption].
    apply list_elem_of_lookup in Hine as [j Hj].
    pose proof He as (_ & E2 & _). destruct (E2 _ _ Hj) as [Hlook _].
    apply Hkeep in Hlook. pose proof He1 as (_ & _ & E3 & _).
    by destruct (E3 _ _ Hlook) as [? _].
  - intros sp ep Hsp Hep Hsp_id Hep_id.
    destruct (Hmade (sp, ep)) as [e Hlook]; [by apply Hl |]. simpl in Hlook.
    pose proof He1 as (_ & _ & E3 & _). destruct (E3 _ _ Hlook) as [Hine Hkey].
    assert (Hninc : ~ incident id e).
    { rewrite pair_from_edge_sides in Hkey.
      apply minmax_sides in Hkey as [[Ha Hb] | [Ha Hb]];
        unfold side_a, side_b in Ha, Hb; injection Ha as Ha _; injection Hb as Hb _;
        intros [Hf | Ht]; congruence. }
    assert (Hine' : e ∈ graph_edge g') by (apply HE'; by split).
    apply list_elem_of_lookup in Hine' as [j Hj].
    pose proof He' as (_ & E2' & _). destruct (E2' _ _ Hj) as [Hlook' _].
    exists e. unfold get_edge. by rewrite <- Hkey.
  - intros e Hine. apply HE' in Hine as [Hine Hninc]. split; [exact Hninc |].
    apply Hfrom in Hine as [Hine | ([sp ep] & Hx & ->)]; [by left |].
    right. exists sp, ep. apply Hl in Hx as [Hsp Hep]. by repeat split.
  - rewrite HP'. unfold ps. rewrite SP.
    rewrite <- (remove_mappings_of_spec (paths g) id Hnames).
    destruct (Paths.has_node_mapping (paths g) id) eqn:Hhas; [reflexivity |].
    symmetry. by apply remove_mappings_of_none.
Qed.

Lemma remove_node_forwarding_edges_joins_witness :
  let node := mkNode 2 [] in
  (nodes_wf null_node_graph /\ edges_wf null_node_graph
   /\ node ∈ graph_node null_node_graph /\ NoDup (paths null_node_graph).*1)
  /\ is_Some (get_edge (remove_node_forwarding_edges null_node_graph node)
                (1, true) (3, false)).
Proof.
  intros node.
  assert (Hin : node ∈ graph_node null_node_graph)
    by (apply (bool_decide_unpack _); vm_compute; exact I).
  assert (Hnames : NoDup (paths null_node_graph).*1) by constructor.
  split; [exact (conj (proj1 null_node_graph_ok)
                   (conj (proj2 null_node_graph_ok) (conj Hin Hnames))) |].
  pose proof (remove_node_forwarding_edges_joins null_node_graph node
                (proj1 null_node_graph_ok) (proj2 null_node_graph_ok) Hin Hnames)
    as (_ & _ & _ & _ & _ & Hjoin & _).
  apply (Hjoin (1, false) (3, false)).
  - apply (bool_decide_unpack _). vm_compute. exact I.
  - apply (bool_decide_unpack _). vm_compute. exact I.
  - discriminate.
  - discriminate.
Defined.

(** * Adjacency lists hold the edges and nothing else *)

Lemma new_entries_elem (e : Edge) (s : NodeSide) (x : Z * bool) :
  x ∈ new_entries e s ->
  exists o, x = entry_for s o /\ pair_from_edge e = minmax s o.
Proof.
  unfold new_entries. rewrite pair_from_edge_sides. intros [Hx | Hx]%elem_of_app.
  - destruct (decide (s = side_a e)) as [-> | _]; [| by apply elem_of_nil in Hx].
    apply list_elem_of_singleton in Hx as ->. by exists (side_b e).
  - destruct (decide (side_a e <> side_b e /\ s = side_b e)) as [[_ ->] | _];
      [| by apply elem_of_nil in Hx].
    apply list_elem_of_singleton in Hx as ->. exists (side_a e).
    split; [reflexivity | apply minmax_comm].
Qed.

Lemma new_entries_NoDup (e : Edge) (s : NodeSide) : NoDup (new_entries e s).
Proof.
  unfold new_entries.
  destruct (decide (s = side_a e)) as [-> | _];
    destruct (decide (_ /\ _)) as [[Hne Heq] | _]; simpl;
    try apply NoDup_singleton; try apply NoDup_nil_2.
  by destruct Hne.
Qed.

Lemma new_entries_not_incident (e : Edge) (id : Z) (side : bool) :
  ~ incident id e -> new_entries e (id, side) = [].
Proof.
  intros Hninc. unfold new_entries.
  rewrite decide_False; [rewrite decide_False; [reflexivity |] |].
  - intros [_ Heq]. apply Hninc. right. unfold side_b in Heq. congruence.
  - intros Heq. apply Hninc. left. unfold side_a in Heq. congruence.
Qed.

Lemma adjacency_exact_elem (g : VG) (s : NodeSide) (x : Z * bool) :
  adjacency_exact g ->
  x ∈ adjacency g s <-> exists e, e ∈ graph_edge g /\ x ∈ new_entries e s.
Proof.
  intros Hex. rewrite (Hex s), list_elem_of_bind. split.
  - intros (e & Hx & He). by exists e.
  - intros (e & He & Hx). by exists e.
Qed.

Lemma adjacency_exact_listed (g : VG) (a b : NodeSide) :
  edges_wf g -> adjacency_exact g ->
  entry_for a b ∈ adjacency g a <-> is_Some (get_edge g a b).
Proof.
  intros Hwf Hex. pose proof Hwf as (_ & E2 & E3 & E4). unfold get_edge. split.
  - intros (e & He & Hx)%(adjacency_exact_elem g a _ Hex).
    apply new_entries_elem in Hx as (o & Heq & Hkey).
    apply entry_for_inj in Heq as <-.
    apply list_elem_of_lookup in He as [i Hi]. destruct (E2 _ _ Hi) as [Hlook _].
    rewrite <- Hkey. by exists e.
  - intros [e Hlook]. destruct (E3 _ _ Hlook) as [He Hkey].
    destruct (E4 _ He) as [Ha Hb]. rewrite pair_from_edge_sides in Hkey.
    apply minmax_sides in Hkey as [[Hsa Hsb] | [Hsa Hsb]].
    + by rewrite Hsa, Hsb in Ha.
    + by rewrite Hsa, Hsb in Hb.
Qed.

Lemma adjacency_exact_NoDup (g : VG) (s : NodeSide) :
  edges_wf g -> adjacency_exact g -> NoDup (adjacency g s).
Proof.
  intros Hwf Hex. rewrite (Hex s). apply NoDup_bind.
  - intros e e' x He He' Hx Hx'.
    apply new_entries_elem in Hx as (o & -> & Hkey).
    apply new_entries_elem in Hx' as (o' & Heq & Hkey').
    apply entry_for_inj in Heq as <-.
    apply list_elem_of_lookup in He as [i Hi]. apply list_elem_of_lookup in He' as [j Hj].
    apply (edges_wf_keys_inj g i j e e' Hwf Hi Hj). congruence.
  - intros e _. apply new_entries_NoDup.
  - destruct Hwf as [E1 _]. by apply NoDup_fmap_1 in E1.
Qed.

Lemma same_edges_exact (g g' : VG) :
  same_edges g g' -> adjacency_exact g -> adjacency_exact g'.
Proof.
  intros (SL & _ & _ & SS & SE) Hex s. specialize (Hex s).
  unfold adjacency, edges_start, edges_end in *. by rewrite SL, SS, SE.
Qed.

Lemma create_edge_exact (g : VG) (from to : Z) (from_start to_end : bool) :
  adjacency_exact g -> adjacency_exact (create_edge g from to from_start to_end).1.
Proof.
  intros Hex s. destruct (create_edge_spec g from to from_start to_end) as [_ Hspec].
  destruct (edge_by_sides g !! _).
  - destruct Hspec as [-> _]. apply Hex.
  - destruct Hspec as (_ & -> & _ & _ & ->).
    rewrite bind_app, (Hex s). csimpl. by rewrite app_nil_r.
Qed.

Lemma foldl_swap_remove_perm {A : Type} `{EqDecision A} (xs l r : list A) :
  l ≡ₚ xs ++ r -> foldl swap_remove l xs ≡ₚ r.
Proof.
  revert l. induction xs as [| x xs IH]; intros l Hl; simpl; [exact Hl |].
  apply IH. apply (Permutation_cons_inv (a := x)).
  rewrite <- swap_remove_perm; [exact Hl |].
  rewrite Hl. by left.
Qed.

Lemma destroy_edge_exact (g : VG) (a b : NodeSide) :
  edges_wf g -> adjacency_exact g -> adjacency_exact (destroy_edge g a b).
Proof.
  intros Hwf Hex. pose proof Hwf as (_ & _ & E3 & _).
  unfold destroy_edge, get_edge.
  destruct (edge_by_sides g !! minmax a b) as [e |] eqn:Hlook; [| exact Hex].
  destruct (E3 _ _ Hlook) as [[i Hi]%list_elem_of_lookup _].
  destruct (destroy_edge_ptr_spec g i e Hwf Hi) as (_ & HL & _ & _ & HA).
  intros s. rewrite HA, HL. apply foldl_swap_remove_perm.
  rewrite (Hex s). rewrite (release_slot_perm _ _ _ Hi) at 1. reflexivity.
Qed.

Lemma fold_destroy_edges_exact (ps : list (NodeSide * NodeSide)) (g : VG) :
  edges_wf g -> adjacency_exact g ->
  adjacency_exact (foldl (fun g e => destroy_edge g e.1 e.2) g ps).
Proof.
  revert g. induction ps as [| p ps IH]; intros g Hwf Hex; simpl; [exact Hex |].
  apply IH; [by apply destroy_edge_wf | by apply destroy_edge_exact].
Qed.

Lemma without_edges_of_exact (g : VG) (id : Z) :
  edges_wf g -> adjacency_exact g ->
  adjacency_exact (without_edges_of g id) /\ no_edges_at (without_edges_of g id) id.
Proof.
  intros Hwf Hex.
  destruct (without_edges_of_spec g id Hwf) as (_ & _ & Hrem).
  pose proof (fold_destroy_edges_exact (edges_to_destroy g id) g Hwf Hex) as Hex1.
  unfold without_edges_of in *.
  set (g1 := foldl (fun g e => destroy_edge g e.1 e.2) g (edges_to_destroy g id)) in *.
  simpl in Hrem. split.
  - intros [n side]. specialize (Hex1 (n, side)).
    unfold adjacency, edges_start, edges_end in *. simpl in *.
    destruct (decide (n = id)) as [-> | Hne].
    + assert (Hnil : graph_edge g1 ≫= (fun e => new_entries e (id, side)) = []).
      { apply no_entries. intros x (e & Hx & He)%list_elem_of_bind.
        apply Hrem in He as [_ Hninc].
        rewrite (new_entries_not_incident e id side Hninc) in Hx.
        by apply elem_of_nil in Hx. }
      rewrite Hnil. destruct side; by rewrite lookup_delete_eq.
    + destruct side; by rewrite lookup_delete_ne.
  - unfold no_edges_at, edges_start, edges_end. simpl.
    by rewrite !lookup_delete_eq.
Qed.

Lemma destroy_node_ptr_exact (g : VG) (node : Node) :
  edges_wf g -> adjacency_exact g ->
  adjacency_exact (destroy_node_ptr g node)
  /\ (has_node g (node_id node) = true ->
      no_edges_at (destroy_node_ptr g node) (node_id node)).
Proof.
  intros Hwf Hex. rewrite destroy_node_ptr_unfold.
  destruct (has_node g (node_id node)); [| by split]. cbn [negb].
  destruct (without_edges_of_exact g (node_id node) Hwf Hex) as [Hex1 Hnone].
  pose proof (release_node_same_edges (without_edges_of g (node_id node)) (node_id node))
    as Hse.
  split; [by apply (same_edges_exact _ _ Hse) |].
  intros _. destruct Hse as (_ & _ & _ & SS & SE).
  unfold no_edges_at, edges_start, edges_end in *. by rewrite SS, SE.
Qed.

Lemma empty_graph_exact : adjacency_exact empty_graph.
Proof.
  intros [n side]. unfold adjacency, edges_start, edges_end. simpl.
  destruct side; by rewrite lookup_empty.
Qed.

(** X20. The adjacency lists hold the entries of the edges and nothing else.
    In a consistent edge store where this is so, no adjacency list has a
    repeated entry, and a side lists another side exactly when there is an
    edge between the two.  [create_node], [create_edge], [destroy_edge] and
    [destroy_node] keep it so; after [destroy_edge] between two sides neither
    lists the other any more, and after [destroy_node] of a node of the graph
    nothing is listed for that node.  The empty graph is in this state. *)
Theorem adjacency_lists_exact (g : VG) :
  edges_wf g -> adjacency_exact g ->
  (forall s, NoDup (adjacency g s))
  /\ (forall a b, entry_for a b ∈ adjacency g a <-> is_Some (get_edge g a b))
  /\ (forall seq g' n, create_node g seq = Ok (g', n) -> adjacency_exact g')
  /\ (forall from to from_start to_end,
        adjacency_exact (create_edge g from to from_start to_end).1)
  /\ (forall a b,
        adjacency_exact (destroy_edge g a b)
        /\ (entry_for a b ∉ adjacency (destroy_edge g a b) a)
        /\ (entry_for b a ∉ adjacency (destroy_edge g a b) b))
  /\ (forall node,
        adjacency_exact (destroy_node_ptr g node)
        /\ (has_node g (node_id node) = true ->
            no_edges_at (destroy_node_ptr g node) (node_id node)))
  /\ adjacency_exact empty_graph.
Proof.
  intros Hwf Hex.
  split; [intros s; by apply adjacency_exact_NoDup |].
  split; [intros a b; by apply adjacency_exact_listed |].
  split; [| split; [| split; [| split]]].
  - intros seq g' n Hcreate.
    apply create_node_fields in Hcreate as (_ & _ & Hse & _).
    by apply (same_edges_exact g).
  - intros from to from_start to_end. by apply create_edge_exact.
  - intros a b.
    pose proof (destroy_edge_exact g a b Hwf Hex) as Hex'.
    pose proof (destroy_edge_wf g a b Hwf) as Hwf'.
    assert (Hgone : get_edge (destroy_edge g a b) a b = None).
    { unfold get_edge.
      destruct (edge_by_sides (destroy_edge g a b) !! minmax a b) as [e |] eqn:Hlook;
        [| reflexivity].
      exfalso. pose proof Hwf' as (_ & _ & E3 & _).
      destruct (E3 _ _ Hlook) as [Hin Hkey].
      apply (destroy_edge_edges g a b e Hwf) in Hin as [_ Hne]. by apply Hne. }
    split; [exact Hex' |]. split.
    + rewrite (adjacency_exact_listed _ a b Hwf' Hex'), Hgone. by intros [? ?].
    + rewrite (adjacency_exact_listed _ b a Hwf' Hex'). unfold get_edge.
      rewrite minmax_comm. fold (get_edge (destroy_edge g a b) a b).
      rewrite Hgone. by intros [? ?].
  - intros node. by apply destroy_node_ptr_exact.
  - apply empty_graph_exact.
Qed.

Lemma loops_graph_exact : adjacency_exact loops_graph.
Proof.
  unfold loops_graph.
  destruct (create_node empty_graph (dna "ACGT")) as [[g1 n1] |] eqn:H1;
    [| apply empty_graph_exact].
  destruct (create_node g1 (dna "GG")) as [[g2 n2] |] eqn:H2;
    [| apply empty_graph_exact].
  do 3 apply create_edge_exact.
  apply create_node_fields in H1 as (_ & _ & Hse1 & _).
  apply create_node_fields in H2 as (_ & _ & Hse2 & _).
  apply (same_edges_exact g1); [exact Hse2 |].
  apply (same_edges_exact empty_graph); [exact Hse1 | apply empty_graph_exact].
Qed.

Lemma adjacency_lists_exact_witness :
  (edges_wf loops_graph /\ adjacency_exact loops_graph)
  /\ (forall s, NoDup (adjacency loops_graph s))
  /\ (forall a b, entry_for a b ∈ adjacency loops_graph a
                  <-> is_Some (get_edge loops_graph a b)).
Proof.
  split; [exact (conj loops_graph_edges_wf loops_graph_exact) |].
  pose proof (adjacency_lists_exact loops_graph loops_graph_edges_wf loops_graph_exact)
    as (Hnd & Hlisted & _).
  exact (conj Hnd Hlisted).
Defined.

(** * Concatenating a run of forward nodes *)

(** X21. [concat_nodes] on a run of at least two distinct nodes of a
    consistent graph, all taken forward, with a non-empty joint sequence and
    no edge on the start of the first or on the end of the last node: the
    call returns a new node that carries the sequences of the run joined in
    order, under an id that no node had; the nodes of the run are gone, the
    other nodes stay, and the edges left are the edges that did not attach
    to a node of the run.  An empty run and a run of one traversal fail the
    assertion. *)
Theorem concat_nodes_merges_run (g : VG) (front q : Node) (rest : list Node) :
  let parts := front :: q :: rest in
  counter_ok g -> nodes_wf g -> edges_wf g ->
  NoDup (node_id <$> parts) -> (forall p, p ∈ parts -> p ∈ graph_node g) ->
  mjoin (node_sequence <$> parts) <> [] ->
  edges_start g (node_id front) = [] ->
  edges_end g (node_id (List.last parts front)) = [] ->
  (exists g' merged,
     concat_nodes g (forward_run parts) = Ok (g', merged)
     /\ node_sequence merged = mjoin (node_sequence <$> parts)
     /\ has_node g (node_id merged) = false
     /\ get_node g' (node_id merged) = Ok merged
     /\ (forall p, p ∈ parts -> has_node g' (node_id p) = false)
     /\ (forall n, n ∈ graph_node g -> n ∉ parts -> n ∈ graph_node g')
     /\ (forall e, e ∈ graph_edge g'
                   <-> e ∈ graph_edge g
                       /\ forall p, p ∈ parts -> ~ incident (node_id p) e)
     /\ nodes_wf g' /\ edges_wf g')
  /\ concat_nodes g []
     = Err (AssertFailed "!nodes.empty() && nodes.front() != nodes.back()")
  /\ (forall t, concat_nodes g [t]
                = Err (AssertFailed "!nodes.empty() && nodes.front() != nodes.back()")).
Proof.
  intros parts Hc Hn He Hnd Hin Hseq Hstart Hend.
  split; [| split; [reflexivity |]]; cycle 1.
  { intros t. unfold concat_nodes. simpl.
    rewrite bool_decide_eq_true_2 by done. reflexivity. }
  destruct (concat_isolated_run g front q rest Hc Hn He Hnd Hin Hseq Hstart Hend)
    as (g' & Hconcat & Hn' & He' & Hperm & Hedges & _ & Hmerged & Hfresh & _).
  fold parts in Hconcat, Hperm, Hedges, Hmerged.
  set (merged := mkNode (next_id g) (mjoin (node_sequence <$> parts))) in *.
  exists g', merged.
  assert (Hids : NoDup (node_id <$> (parts ++ graph_node g'))).
  { rewrite <- Hperm, fmap_app. apply NoDup_app. destruct Hn as (N1 & _).
    split; [exact N1 |]. split; [| csimpl; apply NoDup_singleton].
    intros id Hid. csimpl. rewrite list_elem_of_singleton. intros ->.
    apply list_elem_of_fmap in Hid as (n & Heq & Hnin).
    specialize (Hfresh n Hnin). lia. }
  split; [exact Hconcat |]. split; [reflexivity |].
  split; [by apply has_node_fresh |].
  split; [unfold get_node; simpl; by rewrite Hmerged |].
  split; [| split; [| split; [exact Hedges | by split]]].
  - intros p Hp. destruct (has_node g' (node_id p)) eqn:Hhas; [| reflexivity].
    exfalso. destruct (has_node_elem g' (node_id p) Hn' Hhas) as (n & Hnin & Hid).
    rewrite fmap_app in Hids. apply NoDup_app in Hids as (_ & Hdisj & _).
    apply (Hdisj (node_id p)).
    + apply list_elem_of_fmap. by exists p.
    + apply list_elem_of_fmap. by exists n.
  - intros n Hnin Hout.
    assert (Hany : n ∈ parts ++ graph_node g').
    { rewrite <- Hperm. apply elem_of_app. by left. }
    by apply elem_of_app in Hany as [? | ?].
Qed.

Lemma concat_nodes_merges_run_witness :
  exists g' merged,
    concat_nodes chain_graph (forward_run [mkNode 1 (dna "A"); mkNode 2 (dna "C")])
    = Ok (g', merged)
    /\ node_sequence merged = dna "AC"
    /\ has_node g' 1 = false /\ has_node g' 2 = false
    /\ nodes_wf g' /\ edges_wf g'.
Proof.
  assert (Hc : counter_ok chain_graph)
    by (apply counter_ok_check_sound; vm_compute; reflexivity).
  assert (Hnd : NoDup (node_id <$> [mkNode 1 (dna "A"); mkNode 2 (dna "C")]))
    by (apply (bool_decide_unpack _); vm_compute; exact I).
  assert (Hin : forall p, p ∈ [mkNode 1 (dna "A"); mkNode 2 (dna "C")] ->
                          p ∈ graph_node chain_graph).
  { apply Forall_forall. apply (bool_decide_unpack _). vm_compute. exact I. }
  destruct (concat_nodes_merges_run chain_graph (mkNode 1 (dna "A")) (mkNode 2 (dna "C")) []
              Hc chain_graph_nodes_wf chain_graph_edges_wf Hnd Hin
              ltac:(discriminate) eq_refl eq_refl)
    as [(g' & merged & Hconcat & Hseq & _ & _ & Hgone & _ & _ & Hn' & He') _].
  exists g', merged. split; [exact Hconcat |]. split; [exact Hseq |].
  split; [apply (Hgone (mkNode 1 (dna "A"))); by left |].
  split; [apply (Hgone (mkNode 2 (dna "C"))); right; by left |].
  by split.
Defined.

(** * What a divided node was joined to *)

Lemma create_edge_keeps_lookup (g : VG) (from to : Z) (from_start to_end : bool)
    (k : NodeSide * NodeSide) (e : Edge) :
  edge_by_sides g !! k = Some e ->
  edge_by_sides (create_edge g from to from_start to_end).1 !! k = Some e.
Proof.
  intros Hk. destruct (create_edge_spec g from to from_start to_end) as [_ Hspec].
  destruct (edge_by_sides g !! pair_from_edge (mkEdge from to from_start to_end))
    as [e0 |] eqn:Hlook.
  - destruct Hspec as [-> _]. exact Hk.
  - destruct Hspec as (_ & _ & -> & _).
    rewrite lookup_insert_ne; [assumption |]. intros <-. congruence.
Qed.

Lemma connect_parts_keeps_lookup (parts : list Node) (g : VG)
    (k : NodeSide * NodeSide) (e : Edge) :
  edge_by_sides g !! k = Some e -> edge_by_sides (connect_parts g parts) !! k = Some e.
Proof.
  revert g. induction parts as [| a parts IH]; intros g Hk; [assumption |].
  destruct parts as [| b parts]; [assumption |].
  change (connect_parts g (a :: b :: parts))
    with (connect_parts (create_edge g (node_id a) (node_id b) false false).1 (b :: parts)).
  apply IH. by apply create_edge_keeps_lookup.
Qed.

Lemma connect_parts_joins (parts : list Node) (g : VG) (i : nat) (a b : Node) :
  parts !! i = Some a -> parts !! S i = Some b ->
  is_Some (edge_by_sides (connect_parts g parts)
             !! minmax (node_id a, true) (node_id b, false)).
Proof.
  revert g i. induction parts as [| a0 parts IH]; intros g i Ha Hb;
    [by rewrite lookup_nil in Ha |].
  destruct parts as [| b0 parts]; [apply lookup_lt_Some in Hb; simpl in Hb; lia |].
  change (connect_parts g (a0 :: b0 :: parts))
    with (connect_parts (create_edge g (node_id a0) (node_id b0) false false).1
            (b0 :: parts)).
  destruct i as [| j].
  - injection Ha as <-. injection Hb as <-. eexists.
    apply connect_parts_keeps_lookup.
    apply (create_edge_found g (node_id a0) (node_id b0) false false).
  - by apply (IH _ j).
Qed.

Lemma destroy_node_keeps_edge (g : VG) (node : Node) (a b : NodeSide) :
  nodes_wf g -> edges_wf g -> node ∈ graph_node g ->
  is_Some (get_edge g a b) -> a.1 <> node_id node -> b.1 <> node_id node ->
  is_Some (get_edge (destroy_node_ptr g node) a b).
Proof.
  intros Hn He [i Hi]%list_elem_of_lookup [e Hlook] Ha Hb. unfold get_edge in *.
  destruct (destroy_node_ptr_spec g node i node Hn He Hi eq_refl)
    as (_ & He' & _ & _ & HE' & _).
  pose proof He as (_ & _ & E3 & _). destruct (E3 _ _ Hlook) as [Hine Hkey].
  assert (Hninc : ~ incident (node_id node) e).
  { rewrite pair_from_edge_sides in Hkey.
    apply minmax_sides in Hkey as [[Hsa Hsb] | [Hsa Hsb]];
      unfold side_a, side_b in Hsa, Hsb; destruct a as [a1 a2], b as [b1 b2];
      injection Hsa as Hsa _; injection Hsb as Hsb _; simpl in *;
      intros [Hf | Ht]; congruence. }
  assert (Hine' : e ∈ graph_edge (destroy_node_ptr g node)) by (apply HE'; by split).
  apply list_elem_of_lookup in Hine' as [j Hj].
  pose proof He' as (_ & E2' & _). destruct (E2' _ _ Hj) as [Hlook' _].
  exists e. by rewrite <- Hkey.
Qed.

(** X22. [divide_node] keeps the node joined to what it was joined to.  On a
    consistent graph, with valid offsets: every edge that did not attach to
    the node stays; whatever side of another node was joined to the start of
    the node is joined to the start of the first part, and whatever was
    joined to its end is joined to the end of the last part; each part is
    joined end to start to the next one; a loop from the end of the node
    back to its start becomes an edge from the end of the last part to the
    start of the first, and the two kinds of inverting self-loops become
    self-loops on the start of the first part and on the end of the last
    part.  No edge is left on the divided node. *)
Theorem divide_node_rewires (g : VG) (node : Node) (positions : list Z) :
  counter_ok g -> nodes_wf g -> edges_wf g ->
  node ∈ graph_node g -> node_sequence node <> [] ->
  offsets_valid 0 (seq_size node) positions ->
  exists g' parts,
    divide_node g node positions = Ok (g', parts)
    /\ let first := node_id (default node (head parts)) in
       let final := node_id (List.last parts node) in
       (forall e, e ∈ graph_edge g -> ~ incident (node_id node) e -> e ∈ graph_edge g')
       /\ (forall e, e ∈ graph_edge g' -> ~ incident (node_id node) e)
       /\ (forall sp, sp ∈ edges_start g (node_id node) -> sp.1 <> node_id node ->
             is_Some (get_edge g' (sp.1, negb sp.2) (first, false)))
       /\ (forall ep, ep ∈ edges_end g (node_id node) -> ep.1 <> node_id node ->
             is_Some (get_edge g' (final, true) (ep.1, ep.2)))
       /\ (forall i a b, parts !! i = Some a -> parts !! S i = Some b ->
             is_Some (get_edge g' (node_id a, true) (node_id b, false)))
       /\ ((node_id node, false) ∈ edges_end g (node_id node) ->
           is_Some (get_edge g' (final, true) (first, false)))
       /\ ((node_id node, true) ∈ edges_start g (node_id node) ->
           is_Some (get_edge g' (first, false) (first, false)))
       /\ ((node_id node, true) ∈ edges_end g (node_id node) ->
           is_Some (get_edge g' (final, true) (final, true))).
Proof.
  intros Hc Hn He Hin Hseq Hvalid.
  destruct (divide_node_ok g node positions Hc Hn He Hin Hseq Hvalid)
    as (g' & parts' & Hdiv & _).
  exists g', parts'. split; [exact Hdiv |].
  revert Hdiv. unfold divide_node.
  destruct (check_positions node positions); [| discriminate]. simpl.
  destruct (create_parts_ok positions g node 0 Hc Hn Hvalid)
    as (g1 & parts & -> & Hpieces & HL & Hc1 & Hn1 & Hse & HP & Hfresh).
  simpl.
  set (l := divide_edges_to_create g1 node parts).
  destruct (fold_create_edges_spec l g1 (same_edges_wf _ _ Hse He))
    as (He2 & Hs2 & Hkeep2 & Hmade & _).
  set (g2 := foldl (fun g (e : (Z * bool) * (Z * bool)) =>
                      (create_edge g e.1.1 e.2.1 e.1.2 e.2.2).1) g1 l) in *.
  pose proof (connect_parts_same_nodes parts g2) as Hs3.
  pose proof (connect_parts_wf parts g2 He2) as He3.
  set (g3 := connect_parts g2 parts) in *.
  set (g4 := with_paths g3 (divide_paths node positions parts (paths g3))).
  intros [= <- <-].
  assert (Hn3 : nodes_wf g3).
  { apply (same_nodes_wf g2); [assumption |]. by apply (same_nodes_wf g1). }
  assert (Hn4 : nodes_wf g4) by exact Hn3.
  assert (He4 : edges_wf g4) by (by apply with_paths_edges_wf).
  assert (HL4 : graph_node g4 = graph_node g ++ parts).
  { destruct Hs2 as (A1 & _), Hs3 as (B1 & _). simpl. congruence. }
  assert (Hin4 : node ∈ graph_node g4) by (rewrite HL4; apply elem_of_app; by left).
  assert (Hparts : parts <> []).
  { intros Hnil. apply (f_equal length) in Hpieces.
    rewrite length_fmap, pieces_length, Hnil in Hpieces. discriminate. }
  assert (Hfirst : node_id (default node (head parts)) <> node_id node).
  { destruct parts as [| p parts0]; [done |]. simpl.
    pose proof (Hfresh p node ltac:(by left) Hin). lia. }
  assert (Hfinal : node_id (List.last parts node) <> node_id node).
  { destruct parts as [| p parts0]; [done |].
    pose proof (Hfresh _ node (last_elem_of parts0 p node) Hin). lia. }
  assert (Hstart : edges_start g1 (node_id node) = edges_start g (node_id node)).
  { destruct Hse as (_ & _ & _ & SS & _). unfold edges_start. by rewrite SS. }
  assert (Hend : edges_end g1 (node_id node) = edges_end g (node_id node)).
  { destruct Hse as (_ & _ & _ & _ & SE). unfold edges_end. by rewrite SE. }
  assert (Hl : forall x, x ∈ l <->
             x ∈ ((fun e : Z * bool =>
                     let first := if e.1 =? node_id node
                                  then (if e.2 then front_id node parts
                                        else back_id node parts)
                                  else e.1 in
                     ((first, e.2), (front_id node parts, false)))
                    <$> edges_start g (node_id node))
                 ++ ((fun e : Z * bool =>
                        let first := if e.1 =? node_id node
                                     then (if e.2 then back_id node parts
                                           else front_id node parts)
                                     else e.1 in
                        ((back_id node parts, false), (first, e.2)))
                       <$> edges_end g (node_id node))).
  { intros x. unfold l, divide_edges_to_create.
    rewrite (elem_of_set_of_list _ (pair_ltb_total _ _ side_ltb_total side_ltb_total)).
    by rewrite Hstart, Hend. }
  assert (Hlift : forall a b : NodeSide,
             is_Some (edge_by_sides g2 !! minmax a b) ->
             a.1 <> node_id node -> b.1 <> node_id node ->
             is_Some (get_edge (destroy_node_ptr g4 node) a b)).
  { intros sa sb [e Hlook] Hsa Hsb.
    apply (destroy_node_keeps_edge g4 node sa sb Hn4 He4 Hin4); [| assumption..].
    exists e. unfold get_edge. simpl. by apply connect_parts_keeps_lookup. }
  assert (Hmade_start : forall sp : Z * bool, sp ∈ edges_start g (node_id node) ->
             is_Some (edge_by_sides g2
                        !! minmax ((if sp.1 =? node_id node
                                    then (if sp.2 then front_id node parts
                                          else back_id node parts)
                                    else sp.1), negb sp.2)
                                  (front_id node parts, false))).
  { intros sp Hsp.
    apply (Hmade (((if sp.1 =? node_id node
                    then (if sp.2 then front_id node parts else back_id node parts)
                    else sp.1), sp.2), (front_id node parts, false))).
    apply Hl, elem_of_app. left. apply list_elem_of_fmap. by exists sp. }
  assert (Hmade_end : forall ep : Z * bool, ep ∈ edges_end g (node_id node) ->
             is_Some (edge_by_sides g2
                        !! minmax (back_id node parts, true)
                                  ((if ep.1 =? node_id node
                                    then (if ep.2 then back_id node parts
                                          else front_id node parts)
                                    else ep.1), ep.2))).
  { intros ep Hep.
    apply (Hmade ((back_id node parts, false),
                  ((if ep.1 =? node_id node
                    then (if ep.2 then back_id node parts else front_id node parts)
                    else ep.1), ep.2))).
    apply Hl, elem_of_app. right. apply list_elem_of_fmap. by exists ep. }
  fold (front_id node parts) (back_id node parts) in *.
  apply list_elem_of_lookup in Hin4 as Hslot. destruct Hslot as [i4 Hi4].
  destruct (destroy_node_ptr_spec g4 node i4 node Hn4 He4 Hi4 eq_refl)
    as (_ & _ & _ & _ & HE' & _).
  split; [| split; [| split; [| split; [| split; [| split; [| split]]]]]].
  - intros e Hine Hninc. apply HE'. split; [| assumption]. simpl.
    apply connect_parts_keeps.
    apply list_elem_of_lookup in Hine as [j Hj].
    pose proof He as (_ & E2 & _). destruct (E2 _ _ Hj) as [Hlook _].
    destruct Hse as (_ & SB & _). rewrite <- SB in Hlook.
    apply Hkeep2 in Hlook. pose proof He2 as (_ & _ & E3 & _).
    by destruct (E3 _ _ Hlook) as [? _].
  - intros e Hine. by apply HE' in Hine as [_ ?].
  - intros sp Hsp Hne. specialize (Hmade_start sp Hsp).
    rewrite (proj2 (Z.eqb_neq _ _) Hne) in Hmade_start.
    by apply Hlift.
  - intros ep Hep Hne. specialize (Hmade_end ep Hep).
    rewrite (proj2 (Z.eqb_neq _ _) Hne) in Hmade_end.
    by apply Hlift.
  - intros j pa pb Hpa Hpb.
    apply (destroy_node_keeps_edge g4 node _ _ Hn4 He4 Hin4).
    + unfold get_edge. simpl. by apply (connect_parts_joins parts g2 j).
    + simpl. pose proof (Hfresh pa node (list_elem_of_lookup_2 _ _ _ Hpa) Hin). lia.
    + simpl. pose proof (Hfresh pb node (list_elem_of_lookup_2 _ _ _ Hpb) Hin). lia.
  - intros Hloop. specialize (Hmade_end _ Hloop). simpl in Hmade_end.
    rewrite Z.eqb_refl in Hmade_end. by apply Hlift.
  - intros Hloop. specialize (Hmade_start _ Hloop). simpl in Hmade_start.
    rewrite Z.eqb_refl in Hmade_start. by apply Hlift.
  - intros Hloop. specialize (Hmade_end _ Hloop). simpl in Hmade_end.
    rewrite Z.eqb_refl in Hmade_end. by apply Hlift.
Qed.

Lemma divide_node_rewires_witness :
  let node := mkNode 1 (dna "ACGT") in
  exists g' parts,
    divide_node loops_graph node [2] = Ok (g', parts)
    /\ is_Some (get_edge g' (node_id (List.last parts node), true) (2, false))
    /\ is_Some (get_edge g' (node_id (List.last parts node), true)
                  (node_id (default node (head parts)), false))
    /\ is_Some (get_edge g' (node_id (List.last parts node), true)
                  (node_id (List.last parts node), true)).
Proof.
  intros node.
  assert (Hc : counter_ok loops_graph)
    by (apply counter_ok_check_sound; vm_compute; reflexivity).
  assert (Hn : nodes_wf loops_graph)
    by (apply nodes_wf_check_sound; vm_compute; reflexivity).
  assert (Hin : node ∈ graph_node loops_graph)
    by (apply (bool_decide_unpack _); vm_compute; exact I).
  assert (Hvalid : offsets_valid 0 (seq_size node) [2])
    by (simpl; split; [vm_compute; split; reflexivity | exact I]).
  destruct (divide_node_rewires loops_graph node [2] Hc Hn loops_graph_edges_wf Hin
              ltac:(discriminate) Hvalid)
    as (g' & parts & Hdiv & _ & _ & _ & Hend & _ & Hcycle & _ & Hloop).
  exists g', parts. split; [exact Hdiv |]. split; [| split].
  - apply (Hend (2, false)); [| discriminate].
    apply (bool_decide_unpack _). vm_compute. exact I.
  - apply Hcycle. apply (bool_decide_unpack _). vm_compute. exact I.
  - apply Hloop. apply (bool_decide_unpack _). vm_compute. exact I.
Defined.

(** * Re-orienting a node keeps what it is joined to *)

Lemma destroy_edge_handles_sides (g : VG) (left right : Z) :
  destroy_edge_handles g left right
  = destroy_edge g (Handle.get_id left, negb (Handle.get_is_reverse left))
                   (Handle.get_id right, Handle.get_is_reverse right).
Proof. unfold destroy_edge_handles, destroy_edge. by destruct (get_edge g _ _). Qed.

Lemma fold_edges_wf {A : Type} (f : VG -> A -> VG) (l : list A) (g : VG) :
  (forall g x, edges_wf g -> edges_wf (f g x)) -> edges_wf g -> edges_wf (foldl f g l).
Proof.
  intros Hf. revert g. induction l as [| x l IH]; intros g Hwf; simpl; [assumption |].
  apply IH. by apply Hf.
Qed.

Lemma create_edge_adjacency_grows (g : VG) (from to : Z) (from_start to_end : bool)
    (s : NodeSide) (x : Z * bool) :
  x ∈ adjacency g s -> x ∈ adjacency (create_edge g from to from_start to_end).1 s.
Proof.
  intros Hx. destruct (create_edge_spec g from to from_start to_end) as [_ Hspec].
  destruct (edge_by_sides g !! _).
  - by destruct Hspec as [-> _].
  - destruct Hspec as (_ & _ & _ & _ & ->). apply elem_of_app. by left.
Qed.

Lemma follow_edges_collect_adjacency (g : VG) (handle : Z) (go_left : bool) :
  follow_edges_collect g handle go_left
  = (fun x : Z * bool =>
       Handle.get_handle x.1 (xorb (Handle.get_is_reverse handle) x.2))
      <$> adjacency g (Handle.get_id handle,
                       negb (xorb go_left (Handle.get_is_reverse handle))).
Proof.
  unfold follow_edges_collect, adjacency, edges_start, edges_end. simpl.
  destruct (xorb go_left (Handle.get_is_reverse handle)); simpl.
  - by destruct (edges_on_start g !! Handle.get_id handle).
  - by destruct (edges_on_end g !! Handle.get_id handle).
Qed.

(** On nodes of a consistent graph, [create_edge] on handles is [create_edge]
    on their ids and orientations. *)
Lemma create_edge_handles_ok (g : VG) (left right : Z) :
  nodes_wf g ->
  has_node g (Handle.get_id left) = true -> has_node g (Handle.get_id right) = true ->
  create_edge_handles g left right
  = Ok (create_edge g (Handle.get_id left) (Handle.get_id right)
                    (Handle.get_is_reverse left) (Handle.get_is_reverse right)).1.
Proof.
  intros (_ & _ & N3) [nl Hl]%has_node_true [nr Hr]%has_node_true.
  unfold create_edge_handles, get_node. rewrite Hl, Hr. cbn [mbind res_bind].
  destruct (N3 _ _ Hl) as [_ ->]. by destruct (N3 _ _ Hr) as [_ ->].
Qed.

Section reconnect.
Variables (handle rev_handle new_handle : Z).

Let renamed (other : Z) : Z :=
  if other =? handle then Handle.flip new_handle
  else if other =? rev_handle then new_handle else other.

Lemma reconnect_right_ok (rights : list Z) (g : VG) :
  nodes_wf g -> edges_wf g -> has_node g (Handle.get_id new_handle) = true ->
  (forall r, r ∈ rights -> has_node g (Handle.get_id (renamed r)) = true) ->
  exists g',
    reconnect_right g handle rev_handle new_handle rights = Ok g'
    /\ nodes_wf g' /\ edges_wf g' /\ same_nodes g g'
    /\ (forall s x, x ∈ adjacency g s -> x ∈ adjacency g' s)
    /\ (forall r, r ∈ rights ->
          entry_for (Handle.get_id new_handle, negb (Handle.get_is_reverse new_handle))
                    (Handle.get_id (renamed r), Handle.get_is_reverse (renamed r))
            ∈ adjacency g' (Handle.get_id new_handle,
                            negb (Handle.get_is_reverse new_handle))).
Proof.
  revert g. induction rights as [| r rights IH]; intros g Hn He Hnew Hall.
  - exists g. split; [reflexivity |]. split; [assumption |]. split; [assumption |].
    split; [apply same_nodes_refl |]. split; [done |].
    intros r Hr. by apply elem_of_nil in Hr.
  - cbn [reconnect_right]. fold (renamed r).
    rewrite (create_edge_handles_ok g new_handle (renamed r) Hn Hnew)
      by (apply Hall; by left).
    cbn [mbind res_bind].
    set (il := Handle.get_id new_handle) in *.
    set (rl := Handle.get_is_reverse new_handle) in *.
    set (ir := Handle.get_id (renamed r)). set (rr := Handle.get_is_reverse (renamed r)).
    destruct (created_edge_entries g il ir rl rr He) as [Hentry _].
    pose proof (create_edge_wf g il ir rl rr He) as He1.
    destruct (create_edge_spec g il ir rl rr) as [Hs1 _].
    pose proof (same_nodes_wf _ _ Hs1 Hn) as Hn1.
    set (g1 := (create_edge g il ir rl rr).1) in *.
    assert (Hhas : forall id, has_node g1 id = has_node g id).
    { intros id. destruct Hs1 as (_ & SB & _). unfold has_node. by rewrite SB. }
    destruct (IH g1 Hn1 He1) as (g' & Hrec & Hn' & He' & Hs' & Hgrow & Hlisted).
    { by rewrite Hhas. }
    { intros r' Hr'. rewrite Hhas. apply Hall. by right. }
    exists g'. split; [exact Hrec |]. split; [exact Hn' |]. split; [exact He' |].
    split; [eapply same_nodes_trans; [exact Hs1 | exact Hs'] |]. split.
    + intros s x Hx. apply Hgrow. by apply create_edge_adjacency_grows.
    + intros r' [-> | Hr']%elem_of_cons; [| by apply Hlisted].
      apply Hgrow. exact Hentry.
Qed.

Lemma reconnect_left_ok (lefts : list Z) (g : VG) :
  nodes_wf g -> edges_wf g -> has_node g (Handle.get_id new_handle) = true ->
  (forall l, l ∈ lefts -> has_node g (Handle.get_id (renamed l)) = true) ->
  exists g',
    reconnect_left g handle rev_handle new_handle lefts = Ok g'
    /\ nodes_wf g' /\ edges_wf g' /\ same_nodes g g'
    /\ (forall s x, x ∈ adjacency g s -> x ∈ adjacency g' s)
    /\ (forall l, l ∈ lefts ->
          entry_for (Handle.get_id new_handle, Handle.get_is_reverse new_handle)
                    (Handle.get_id (renamed l), negb (Handle.get_is_reverse (renamed l)))
            ∈ adjacency g' (Handle.get_id new_handle,
                            Handle.get_is_reverse new_handle)).
Proof.
  revert g. induction lefts as [| l lefts IH]; intros g Hn He Hnew Hall.
  - exists g. split; [reflexivity |]. split; [assumption |]. split; [assumption |].
    split; [apply same_nodes_refl |]. split; [done |].
    intros l Hl. by apply elem_of_nil in Hl.
  - cbn [reconnect_left]. fold (renamed l).
    rewrite (create_edge_handles_ok g (renamed l) new_handle Hn)
      by (assumption || (apply Hall; by left)).
    cbn [mbind res_bind].
    set (ir := Handle.get_id new_handle) in *.
    set (rr := Handle.get_is_reverse new_handle) in *.
    set (il := Handle.get_id (renamed l)). set (rl := Handle.get_is_reverse (renamed l)).
    destruct (created_edge_entries g il ir rl rr He) as [_ Hentry].
    pose proof (create_edge_wf g il ir rl rr He) as He1.
    destruct (create_edge_spec g il ir rl rr) as [Hs1 _].
    pose proof (same_nodes_wf _ _ Hs1 Hn) as Hn1.
    set (g1 := (create_edge g il ir rl rr).1) in *.
    assert (Hhas : forall id, has_node g1 id = has_node g id).
    { intros id. destruct Hs1 as (_ & SB & _). unfold has_node. by rewrite SB. }
    destruct (IH g1 Hn1 He1) as (g' & Hrec & Hn' & He' & Hs' & Hgrow & Hlisted).
    { by rewrite Hhas. }
    { intros l' Hl'. rewrite Hhas. apply Hall. by right. }
    exists g'. split; [exact Hrec |]. split; [exact Hn' |]. split; [exact He' |].
    split; [eapply same_nodes_trans; [exact Hs1 | exact Hs'] |]. split.
    + intros s x Hx. apply Hgrow. by apply create_edge_adjacency_grows.
    + intros l' [-> | Hl']%elem_of_cons; [| by apply Hlisted].
      apply Hgrow. exact Hentry.
Qed.

End reconnect.

(** X23. [apply_orientation] on a reverse handle of a node of a consistent
    graph, when the neighbours of the node are nodes of the graph with ids
    below 2^63: a node with id 0 makes the call fail on the assertion of
    [create_node]; otherwise the call returns the forward handle of the same
    id, which now reads the sequence that the reverse handle read before;
    every handle that [follow_edges] visited to the right (to the left) of
    the reverse handle is visited to the right (to the left) of the new
    forward handle; the graph has the same node ids as before and its tables
    are consistent. *)
Theorem apply_orientation_keeps_neighbours (g : VG) (handle : Z) :
  nodes_wf g -> edges_wf g ->
  0 <= handle < 2 ^ 64 -> Handle.get_is_reverse handle = true ->
  has_node g (Handle.get_id handle) = true ->
  (forall x, x ∈ edges_start g (Handle.get_id handle)
                   ++ edges_end g (Handle.get_id handle) ->
             has_node g x.1 = true /\ 0 <= x.1 < 2 ^ 63) ->
  (Handle.get_id handle = 0 ->
   apply_orientation g handle = Err (AssertFailed "id != 0"))
  /\ (Handle.get_id handle <> 0 ->
      exists g',
        apply_orientation g handle = Ok (g', Handle.flip handle)
        /\ get_sequence g' (Handle.flip handle) = get_sequence g handle
        /\ (forall h, h ∈ follow_edges_collect g handle false ->
              h ∈ follow_edges_collect g' (Handle.flip handle) false)
        /\ (forall h, h ∈ follow_edges_collect g handle true ->
              h ∈ follow_edges_collect g' (Handle.flip handle) true)
        /\ (forall id, has_node g' id = has_node g id)
        /\ nodes_wf g' /\ edges_wf g').
Proof.
  intros Hn He Hword Hrev Hhas Hneigh.
  set (id := Handle.get_id handle) in *.
  pose proof (get_id_range handle) as Hid. fold id in Hid.
  assert (Hhandle : handle = Handle.get_handle id true).
  { rewrite get_handle_value by assumption.
    pose proof (handle_value handle Hword) as Hv. by rewrite Hrev in Hv. }
  assert (Hflip : Handle.flip handle = Handle.get_handle id false).
  { rewrite Hhandle at 1. by rewrite flip_get_handle. }
  assert (Hnew_id : Handle.get_id (Handle.get_handle id false) = id)
    by (by apply get_id_get_handle).
  assert (Hnew_rev : Handle.get_is_reverse (Handle.get_handle id false) = false)
    by (by apply get_is_reverse_get_handle).
  unfold apply_orientation. rewrite Hrev. cbn [negb]. cbv zeta. fold id.
  set (lefts := follow_edges_collect g handle true).
  set (rights := follow_edges_collect g handle false).
  pose proof (fold_same_nodes (fun g l => destroy_edge_handles g l handle) lefts g
                (fun g l => destroy_edge_handles_same_nodes g l handle)) as Hs1.
  pose proof (fold_edges_wf (fun g l => destroy_edge_handles g l handle) lefts g
                ltac:(intros g0 x Hw; cbv beta; rewrite destroy_edge_handles_sides;
                      by apply destroy_edge_wf) He) as He1.
  set (g1 := foldl (fun g l => destroy_edge_handles g l handle) g lefts) in *.
  pose proof (fold_same_nodes (fun g r => destroy_edge_handles g handle r) rights g1
                (fun g r => destroy_edge_handles_same_nodes g handle r)) as Hs2.
  pose proof (fold_edges_wf (fun g r => destroy_edge_handles g handle r) rights g1
                ltac:(intros g0 x Hw; cbv beta; rewrite destroy_edge_handles_sides;
                      by apply destroy_edge_wf) He1) as He2.
  set (g2 := foldl (fun g r => destroy_edge_handles g handle r) g1 rights) in *.
  pose proof (same_nodes_trans _ _ _ Hs1 Hs2) as Hs12.
  pose proof (same_nodes_wf _ _ Hs12 Hn) as Hn2.
  destruct Hs12 as (S1 & S2 & _ & _ & _).
  apply has_node_true in Hhas as [old Hold].
  unfold get_sequence at 1. rewrite S2. fold id. rewrite Hold.
  change (negb (Z.land handle Handle.HIGH_BIT =? 0)) with (Handle.get_is_reverse handle).
  rewrite Hrev. cbn [mbind res_bind].
  unfold destroy_handle, destroy_node, get_node. rewrite S2. fold id. rewrite Hold.
  cbn [mbind res_bind].
  pose proof Hn as (_ & _ & N3). destruct (N3 _ _ Hold) as [Hold_in Hold_id].
  assert (Hold2 : old ∈ graph_node g2) by (by rewrite S1).
  apply list_elem_of_lookup in Hold2 as [i Hi].
  destruct (destroy_node_ptr_spec g2 old i old Hn2 He2 Hi eq_refl)
    as (Hn3 & He3 & _ & HB3 & _).
  rewrite Hold_id, S2 in HB3.
  set (g3 := destroy_node_ptr g2 old) in *.
  split.
  { intros Hzero. unfold create_node_with_id. by rewrite Hzero. }
  intros Hnonzero.
  unfold get_sequence at 1. rewrite S2. fold id. rewrite Hold.
  change (negb (Z.land handle Handle.HIGH_BIT =? 0)) with (Handle.get_is_reverse handle).
  rewrite Hrev. cbn [mbind res_bind].
  assert (Hgone : has_node g3 id = false).
  { unfold has_node. apply bool_decide_eq_false. rewrite HB3, lookup_delete_eq.
    by intros [? ?]. }
  destruct (create_node_with_id g3 (reverse_complement (node_sequence old)) id)
    as [[g4 new_node] |] eqn:Hcreate; cycle 1.
  { unfold create_node_with_id in Hcreate.
    by rewrite (proj2 (Z.eqb_neq _ _) Hnonzero) in Hcreate. }
  destruct (create_node_with_id_wf g3 (reverse_complement (node_sequence old)) id
              Hn3 Hnonzero Hgone) as (g4' & Hcreate' & Hn4 & Hse4 & _ & _).
  rewrite Hcreate in Hcreate'. injection Hcreate' as <- ->.
  apply create_node_with_id_fields in Hcreate as (_ & _ & _ & _ & HB4 & _).
  rewrite HB3 in HB4.
  pose proof (same_edges_wf _ _ Hse4 He3) as He4.
  cbn [mbind res_bind].
  assert (Hhas4 : forall x, has_node g4 x = has_node g x).
  { intros x. unfold has_node. rewrite HB4.
    destruct (decide (x = id)) as [-> | Hne].
    - rewrite lookup_insert_eq, Hold. apply bool_decide_ext. split; by eexists.
    - by rewrite lookup_insert_ne, lookup_delete_ne by congruence. }
  assert (Hentries : forall (go_left : bool) h,
             h ∈ follow_edges_collect g handle go_left ->
             exists x, x ∈ adjacency g (id, go_left)
                       /\ h = Handle.get_handle x.1 (negb x.2)
                       /\ has_node g x.1 = true /\ 0 <= x.1 < 2 ^ 63).
  { intros go_left h. rewrite follow_edges_collect_adjacency, Hrev. fold id.
    replace (negb (xorb go_left true)) with go_left by (by destruct go_left).
    intros (x & -> & Hx)%list_elem_of_fmap. exists x. split; [exact Hx |].
    split; [reflexivity |]. apply Hneigh. apply elem_of_app.
    unfold adjacency in Hx. simpl in Hx. destruct go_left; auto. }
  assert (Hrenamed : forall (go_left : bool) h,
             h ∈ follow_edges_collect g handle go_left ->
             (if h =? handle then Handle.flip (Handle.get_handle id false)
              else if h =? Handle.flip handle then Handle.get_handle id false else h)
             = h).
  { intros go_left h _. rewrite <- Hflip, flip_flip.
    destruct (Z.eqb_spec h handle) as [-> | _]; [reflexivity |].
    by destruct (Z.eqb_spec h (Handle.flip handle)) as [-> | _]. }
  destruct (reconnect_left_ok handle (Handle.flip handle) (Handle.get_handle id false)
              lefts g4 Hn4 He4) as (g5 & Hleft & Hn5 & He5 & Hs5 & Hgrow5 & Hlisted5).
  { by rewrite Hnew_id, Hhas4, (proj2 (has_node_true g id)) by (by rewrite Hold). }
  { intros l Hl. rewrite (Hrenamed true l Hl), Hhas4.
    destruct (Hentries true l Hl) as (x & _ & -> & Hx & Hrange).
    by rewrite get_id_get_handle. }
  rewrite Hleft. cbn [mbind res_bind].
  assert (Hhas5 : forall x, has_node g5 x = has_node g x).
  { intros x. rewrite <- Hhas4. destruct Hs5 as (_ & SB & _). unfold has_node.
    by rewrite SB. }
  destruct (reconnect_right_ok handle (Handle.flip handle) (Handle.get_handle id false)
              rights g5 Hn5 He5) as (g6 & Hright & Hn6 & He6 & Hs6 & Hgrow6 & Hlisted6).
  { by rewrite Hnew_id, Hhas5, (proj2 (has_node_true g id)) by (by rewrite Hold). }
  { intros r Hr. rewrite (Hrenamed false r Hr), Hhas5.
    destruct (Hentries false r Hr) as (x & _ & -> & Hx & Hrange).
    by rewrite get_id_get_handle. }
  rewrite Hright. cbn [mbind res_bind].
  exists g6. rewrite Hflip.
  assert (HB6 : node_by_id g6 = node_by_id g4).
  { destruct Hs5 as (_ & A & _), Hs6 as (_ & B & _). congruence. }
  split; [reflexivity |].
  split; [| split; [| split; [| split; [| by split]]]].
  - unfold get_sequence. rewrite Hnew_id, HB6, HB4, lookup_insert_eq.
    fold (Handle.get_is_reverse (Handle.get_handle id false)).
    rewrite Hnew_rev. fold id. rewrite Hold.
    change (negb (Z.land handle Handle.HIGH_BIT =? 0))
      with (Handle.get_is_reverse handle).
    by rewrite Hrev.
  - intros h Hh. specialize (Hlisted6 h Hh).
    rewrite (Hrenamed false h Hh), Hnew_id, Hnew_rev in Hlisted6.
    destruct (Hentries false h Hh) as (x & _ & -> & _ & Hrange).
    rewrite get_id_get_handle, get_is_reverse_get_handle in Hlisted6 by assumption.
    rewrite follow_edges_collect_adjacency, Hnew_id, Hnew_rev.
    apply list_elem_of_fmap. exists (entry_for (id, true) (x.1, negb x.2)).
    split; [unfold entry_for; simpl; by destruct x.2 | exact Hlisted6].
  - intros h Hh. specialize (Hlisted5 h Hh).
    rewrite (Hrenamed true h Hh), Hnew_id, Hnew_rev in Hlisted5.
    destruct (Hentries true h Hh) as (x & _ & -> & _ & Hrange).
    rewrite get_id_get_handle, get_is_reverse_get_handle in Hlisted5 by assumption.
    rewrite follow_edges_collect_adjacency, Hnew_id, Hnew_rev.
    apply list_elem_of_fmap.
    exists (entry_for (id, false) (x.1, negb (negb x.2))).
    split; [unfold entry_for; simpl; by destruct x.2 |].
    apply Hgrow6. exact Hlisted5.
  - intros x. rewrite <- Hhas5. destruct Hs6 as (_ & SB & _). unfold has_node.
    by rewrite SB.
Qed.

Lemma apply_orientation_keeps_neighbours_witness :
  exists g',
    apply_orientation loops_graph node_1_reverse = Ok (g', Handle.flip node_1_reverse)
    /\ get_sequence g' (Handle.flip node_1_reverse)
       = get_sequence loops_graph node_1_reverse
    /\ (forall h, h ∈ follow_edges_collect loops_graph node_1_reverse false ->
          h ∈ follow_edges_collect g' (Handle.flip node_1_reverse) false)
    /\ (forall h, h ∈ follow_edges_collect loops_graph node_1_reverse true ->
          h ∈ follow_edges_collect g' (Handle.flip node_1_reverse) true)
    /\ (forall id, has_node g' id = has_node loops_graph id)
    /\ nodes_wf g' /\ edges_wf g'.
Proof.
  assert (Hn : nodes_wf loops_graph)
    by (apply nodes_wf_check_sound; vm_compute; reflexivity).
  assert (Hword : 0 <= node_1_reverse < 2 ^ 64)
    by (vm_compute; split; [discriminate | reflexivity]).
  assert (Hneigh : forall x,
             x ∈ edges_start loops_graph (Handle.get_id node_1_reverse)
                 ++ edges_end loops_graph (Handle.get_id node_1_reverse) ->
             has_node loops_graph x.1 = true /\ 0 <= x.1 < 2 ^ 63).
  { apply Forall_forall. apply (bool_decide_unpack _). vm_compute. exact I. }
  apply (proj2 (apply_orientation_keeps_neighbours loops_graph node_1_reverse
                  Hn loops_graph_edges_wf Hword eq_refl eq_refl Hneigh)).
  discriminate.
Defined.

(** * The edges of a node *)

Lemma pair_from_entry_for (s o : NodeSide) :
  pair_from_entry s (entry_for s o) = minmax s o.
Proof.
  destruct s as [id []]; unfold pair_from_entry; simpl.
  - apply pair_of_end_entry.
  - apply pair_of_start_entry.
Qed.

Lemma Forall2_elem_r {A B : Type} (R : A -> B -> Prop) (l : list A) (k : list B) (y : B) :
  Forall2 R l k -> y ∈ k -> exists x, x ∈ l /\ R x y.
Proof.
  intros HF [i Hi]%list_elem_of_lookup.
  destruct (Forall2_lookup_r _ _ _ _ _ HF Hi) as (x & Hx & HR).
  exists x. split; [by apply list_elem_of_lookup_2 in Hx | assumption].
Qed.

Lemma Forall2_elem_l {A B : Type} (R : A -> B -> Prop) (l : list A) (k : list B) (x : A) :
  Forall2 R l k -> x ∈ l -> exists y, y ∈ k /\ R x y.
Proof.
  intros HF [i Hi]%list_elem_of_lookup.
  destruct (Forall2_lookup_l _ _ _ _ _ HF Hi) as (y & Hy & HR).
  exists y. split; [by apply list_elem_of_lookup_2 in Hy | assumption].
Qed.

Lemma Forall2_NoDup_inj {A B : Type} (R : A -> B -> Prop) (l : list A) (k : list B) :
  Forall2 R l k -> NoDup l ->
  (forall x x' y, x ∈ l -> x' ∈ l -> R x y -> R x' y -> x = x') -> NoDup k.
Proof.
  induction 1 as [| x y l k HR HF IH]; intros Hnd Hinj; [constructor |].
  apply NoDup_cons in Hnd as [Hx Hnd]. apply NoDup_cons. split.
  - intros Hy. apply (Forall2_elem_r _ _ _ _ HF) in Hy as (x' & Hx' & HR').
    apply Hx. rewrite (Hinj x x' y); [assumption | by left | by right | assumption..].
  - apply IH; [assumption |]. intros a a' b Ha Ha'. apply Hinj; by right.
Qed.

(** The edge records found through the entries of one side: each edge that
    touches the side, once. *)
Lemma edges_of_side (g : VG) (s : NodeSide) :
  edges_wf g -> adjacency_exact g ->
  exists l,
    mapM (fun x => edge_by_sides g !! pair_from_entry s x) (adjacency g s) = Some l
    /\ NoDup l
    /\ forall e, e ∈ l <-> e ∈ graph_edge g /\ (side_a e = s \/ side_b e = s).
Proof.
  intros Hwf Hex. pose proof Hwf as (_ & E2 & E3 & E4).
  assert (Hfound : forall x, x ∈ adjacency g s ->
             exists e o, x = entry_for s o /\ e ∈ graph_edge g
                         /\ pair_from_edge e = minmax s o
                         /\ edge_by_sides g !! pair_from_entry s x = Some e).
  { intros x (e & He & Hx)%(adjacency_exact_elem g s x Hex).
    apply new_entries_elem in Hx as (o & -> & Hkey).
    exists e, o. split; [reflexivity |]. split; [assumption |]. split; [assumption |].
    rewrite pair_from_entry_for, <- Hkey.
    apply list_elem_of_lookup in He as [i Hi]. by destruct (E2 _ _ Hi). }
  destruct (mapM (fun x => edge_by_sides g !! pair_from_entry s x) (adjacency g s))
    as [l |] eqn:Hmap; cycle 1.
  { exfalso. apply mapM_None_1 in Hmap. apply Exists_exists in Hmap as (x & Hx & Hnone).
    destruct (Hfound x Hx) as (e & o & _ & _ & _ & Hsome). congruence. }
  exists l. split; [reflexivity |].
  apply mapM_Some_1 in Hmap. split.
  - apply (Forall2_NoDup_inj _ _ _ Hmap); [by apply adjacency_exact_NoDup |].
    intros x x' e Hx Hx' Hlook Hlook'.
    destruct (Hfound x Hx) as (e1 & o & -> & _ & _ & Hsome).
    destruct (Hfound x' Hx') as (e2 & o' & -> & _ & _ & Hsome').
    rewrite pair_from_entry_for in Hlook, Hlook'.
    destruct (E3 _ _ Hlook) as [_ Hkey]. destruct (E3 _ _ Hlook') as [_ Hkey'].
    rewrite Hkey' in Hkey.
    apply minmax_sides in Hkey as [[_ ->] | [<- <-]]; reflexivity.
  - intros e. split.
    + intros He. apply (Forall2_elem_r _ _ _ _ Hmap) in He as (x & Hx & Hlook).
      destruct (Hfound x Hx) as (e1 & o & -> & _ & _ & _).
      rewrite pair_from_entry_for in Hlook.
      destruct (E3 _ _ Hlook) as [Hin Hkey]. split; [assumption |].
      rewrite pair_from_edge_sides in Hkey.
      apply minmax_sides in Hkey as [[Ha _] | [_ Hb]]; auto.
    + intros [Hin Hside]. destruct (E4 _ Hin) as [Ha Hb].
      assert (Hx : exists o, entry_for s o ∈ adjacency g s
                             /\ pair_from_edge e = minmax s o).
      { destruct Hside as [<- | <-].
        - exists (side_b e). split; [assumption | apply pair_from_edge_sides].
        - exists (side_a e). split; [assumption |].
          rewrite pair_from_edge_sides. apply minmax_comm. }
      destruct Hx as (o & Hx & Hkey).
      apply (Forall2_elem_l _ _ _ _ Hmap) in Hx as (e' & He' & Hlook).
      rewrite pair_from_entry_for, <- Hkey in Hlook.
      apply list_elem_of_lookup in Hin as [i Hi]. destruct (E2 _ _ Hi) as [Hsome _].
      rewrite Hsome in Hlook. by injection Hlook as <-.
Qed.

Lemma on_both_sides_iff (e : Edge) (id : Z) :
  (side_a e = (id, false) \/ side_b e = (id, false))
  /\ (side_a e = (id, true) \/ side_b e = (id, true))
  <-> on_both_sides e /\ edge_from e = id.
Proof.
  destruct e as [f t fs te]. unfold side_a, side_b, on_both_sides. simpl.
  destruct fs, te; simpl; naive_solver.
Qed.

(** X24. [edges_of_node] in a consistent edge store whose adjacency lists are
    exact never exits: it returns every edge that attaches to the node
    exactly once, also an edge that touches both its start and its end, and
    no other edge.  [is_self_looping] then tells whether some edge joins the
    node to itself, and [has_inverting_edge] whether some edge of the node
    attaches the wrong way round. *)
Theorem edges_of_node_exact (g : VG) (id : Z) :
  edges_wf g -> adjacency_exact g ->
  exists edges loops inverting,
    edges_of_node g id = Some edges
    /\ edges ≡ₚ filter (fun e => incident id e) (graph_edge g)
    /\ is_self_looping g id = Some loops
    /\ (loops = true
        <-> exists e, e ∈ graph_edge g /\ edge_from e = id /\ edge_to e = id)
    /\ has_inverting_edge g id = Some inverting
    /\ (inverting = true
        <-> exists e, e ∈ graph_edge g /\ incident id e /\ is_inverting e = true).
Proof.
  intros Hwf Hex.
  destruct (edges_of_side g (id, false) Hwf Hex) as (ls & Hs & Hnds & Hins).
  destruct (edges_of_side g (id, true) Hwf Hex) as (le & He & Hnde & Hine).
  assert (Hend : mapM (fun off_end => edge_by_sides g !! pair_from_end_edge id off_end)
                      (edges_end g id) = Some le) by exact He.
  assert (Hstart : mapM (fun off_start =>
                           edge_by_sides g !! pair_from_start_edge id off_start)
                        (edges_start g id) = Some ls) by exact Hs.
  set (edges := ls ++ filter (fun e => ~ on_both_sides e) le).
  assert (Hrun : edges_of_node g id = Some edges).
  { unfold edges_of_node. rewrite Hstart, Hend. reflexivity. }
  assert (Hmem : forall e, e ∈ edges <-> e ∈ graph_edge g /\ incident id e).
  { intros e. unfold edges. rewrite elem_of_app, list_elem_of_filter, Hins, Hine.
    pose proof (on_both_sides_iff e id) as Hboth.
    destruct e as [f t fs te]. unfold side_a, side_b, incident, on_both_sides in *.
    simpl in *. split.
    - intros [[Hin Hside] | [Hnb [Hin Hside]]]; (split; [assumption |]);
        destruct Hside as [Hside | Hside]; injection Hside as ? ?; auto.
    - intros [Hin Hinc].
      destruct (decide (f = t /\ fs = te)) as [[-> ->] | Hnb].
      + left. split; [assumption |]. destruct Hinc as [-> | ->]; destruct te; auto.
      + destruct Hinc as [-> | ->].
        * destruct fs; [left; split; auto | right; split; [assumption | split; auto]].
        * destruct te; [right; split; [assumption | split; auto] | left; split; auto]. }
  exists edges,
    (existsb (fun e => (edge_from e =? id) && (edge_to e =? id)) edges),
    (existsb (fun e => (edge_from_start e || edge_to_end e)
                       && negb (edge_from_start e && edge_to_end e)) edges).
  split; [exact Hrun |]. split; [| split; [| split; [| split]]].
  - apply NoDup_Permutation.
    + unfold edges. apply NoDup_app. split; [assumption |]. split.
      * intros e Hs' [Hnb He']%list_elem_of_filter.
        apply Hins in Hs' as [_ Hs']. apply Hine in He' as [_ He'].
        apply Hnb. by apply (on_both_sides_iff e id).
      * by apply NoDup_filter.
    + apply NoDup_filter. destruct Hwf as [E1 _]. by apply NoDup_fmap_1 in E1.
    + intros e. rewrite Hmem, list_elem_of_filter. tauto.
  - unfold is_self_looping. by rewrite Hrun.
  - rewrite existsb_exists. split.
    + intros (e & He' & Hboth). apply list_elem_of_In, Hmem in He' as [Hin _].
      apply andb_true_iff in Hboth as [Hf Ht]. exists e. split; [assumption |]. lia.
    + intros (e & Hin & Hf & Ht). exists e. split.
      * apply list_elem_of_In, Hmem. split; [assumption | by left].
      * apply andb_true_iff. lia.
  - unfold has_inverting_edge. by rewrite Hrun.
  - rewrite existsb_exists. split.
    + intros (e & He' & Hinv). apply list_elem_of_In, Hmem in He' as [Hin Hinc].
      exists e. split; [assumption |]. split; [assumption |].
      unfold is_inverting. by destruct (edge_from_start e), (edge_to_end e).
    + intros (e & Hin & Hinc & Hinv). exists e. split.
      * apply list_elem_of_In, Hmem. by split.
      * unfold is_inverting in Hinv. by destruct (edge_from_start e), (edge_to_end e).
Qed.

Lemma edges_of_node_exact_witness :
  exists edges loops inverting,
    edges_of_node loops_graph 1 = Some edges
    /\ edges ≡ₚ filter (fun e => incident 1 e) (graph_edge loops_graph)
    /\ is_self_looping loops_graph 1 = Some loops
    /\ (loops = true
        <-> exists e, e ∈ graph_edge loops_graph /\ edge_from e = 1 /\ edge_to e = 1)
    /\ has_inverting_edge loops_graph 1 = Some inverting
    /\ (inverting = true
        <-> exists e, e ∈ graph_edge loops_graph /\ incident 1 e
                      /\ is_inverting e = true).
Proof.
  exact (edges_of_node_exact loops_graph 1 loops_graph_edges_wf loops_graph_exact).
Defined.

(** * Creating a handle and reading it back *)

(** X25. [create_handle] on a consistent graph whose next id is below 2^63
    returns a forward handle on an id that no node had; [get_sequence] and
    [get_length] on that handle give back the sequence and its length, the
    flipped handle reads the reverse complement, and what the handles of the
    old nodes read is unchanged.  With a supplied id, the id 0 is refused by
    the assertion of [create_node]. *)
Theorem create_handle_reads_back (g : VG) (sequence : list ascii) :
  counter_ok g -> nodes_wf g -> next_id g < 2 ^ 63 ->
  (exists g' handle,
     create_handle g sequence = Ok (g', handle)
     /\ Handle.get_id handle = next_id g
     /\ Handle.get_is_reverse handle = false
     /\ has_node g (Handle.get_id handle) = false
     /\ get_sequence g' handle = Ok sequence
     /\ get_length g' handle = Ok (Z.of_nat (length sequence))
     /\ get_sequence g' (Handle.flip handle) = Ok (reverse_complement sequence)
     /\ (forall other s, get_sequence g other = Ok s -> get_sequence g' other = Ok s)
     /\ counter_ok g' /\ nodes_wf g')
  /\ create_handle_with_id g sequence 0 = Err (AssertFailed "id != 0").
Proof.
  intros Hc Hn Hsmall. split; [| reflexivity].
  destruct (next_id_fresh g Hc) as [Hpos Hfresh].
  destruct (create_node_ok g sequence Hc Hn) as (g' & Hcreate & Hc' & Hn' & _).
  pose proof (create_node_fields _ _ _ _ Hcreate) as (_ & _ & _ & _ & HB & _).
  assert (Hrange : 0 <= next_id g < 2 ^ 63) by lia.
  assert (Hfree : has_node g (next_id g) = false) by (by apply has_node_fresh).
  exists g', (Handle.get_handle (next_id g) false).
  unfold create_handle. rewrite Hcreate. cbn [mbind res_bind node_id].
  rewrite get_id_get_handle by assumption.
  assert (Hrev : Handle.get_is_reverse (Handle.get_handle (next_id g) false) = false)
    by (by apply get_is_reverse_get_handle).
  assert (Hseq : get_sequence g' (Handle.get_handle (next_id g) false) = Ok sequence).
  { unfold get_sequence.
    fold (Handle.get_is_reverse (Handle.get_handle (next_id g) false)).
    rewrite get_id_get_handle, Hrev, HB, lookup_insert_eq by assumption. reflexivity. }
  split; [reflexivity |]. split; [reflexivity |]. split; [exact Hrev |].
  split; [exact Hfree |]. split; [exact Hseq |].
  split.
  { unfold get_length. by rewrite get_id_get_handle, HB, lookup_insert_eq by assumption. }
  split.
  { unfold get_sequence.
    fold (Handle.get_is_reverse (Handle.flip (Handle.get_handle (next_id g) false))).
    rewrite get_id_flip, get_is_reverse_flip, Hrev.
    by rewrite get_id_get_handle, HB, lookup_insert_eq by assumption. }
  split; [| by split].
  intros other s. unfold get_sequence. rewrite HB.
  destruct (node_by_id g !! Handle.get_id other) as [n |] eqn:Hlook; [| discriminate].
  rewrite lookup_insert_ne; [by rewrite Hlook |].
  intros Heq. unfold has_node in Hfree. apply bool_decide_eq_false in Hfree.
  apply Hfree. rewrite Heq. by eexists.
Qed.

Lemma create_handle_reads_back_witness :
  exists g' handle,
    create_handle chain_graph (dna "GATTACA") = Ok (g', handle)
    /\ Handle.get_id handle = 3
    /\ get_sequence g' handle = Ok (dna "GATTACA")
    /\ get_sequence g' (Handle.flip handle) = Ok (reverse_complement (dna "GATTACA")).
Proof.
  assert (Hc : counter_ok chain_graph)
    by (apply counter_ok_check_sound; vm_compute; reflexivity).
  destruct (create_handle_reads_back chain_graph (dna "GATTACA") Hc chain_graph_nodes_wf
              ltac:(vm_compute; reflexivity))
    as [(g' & handle & Hcreate & Hid & _ & _ & Hseq & _ & Hflip & _) _].
  exists g', handle. split; [exact Hcreate |]. split; [exact Hid |].
  split; [exact Hseq | exact Hflip].
Defined.

(** * One node for each strand *)

(** The first loop of [split_strands], over a list of nodes with distinct
    ids. *)
Lemma fold_split_node (l : list Node) (t : gmap Z (Z * bool)) :
  NoDup (node_id <$> l) ->
  let st := foldl split_node (mkSplit [] 1 ∅ ∅ t) l in
  sp_next st = 2 * Z.of_nat (length l) + 1
  /\ length (sp_nodes st) = (2 * length l)%nat
  /\ (forall i n, l !! i = Some n ->
        sp_nodes st !! (2 * i)%nat
        = Some (mkNode (strand_copy i false) (node_sequence n))
        /\ sp_nodes st !! S (2 * i)
           = Some (mkNode (strand_copy i true) (reverse_complement (node_sequence n)))
        /\ sp_forward st !! node_id n = Some (strand_copy i false)
        /\ sp_reverse st !! node_id n = Some (strand_copy i true)
        /\ sp_translation st !! strand_copy i false = Some (node_id n, false)
        /\ sp_translation st !! strand_copy i true = Some (node_id n, true))
  /\ (forall id, id ∉ node_id <$> l ->
        sp_forward st !! id = None /\ sp_reverse st !! id = None)
  /\ (forall k, ~ (1 <= k <= 2 * Z.of_nat (length l)) ->
        sp_translation st !! k = t !! k)
  /\ (forall n, n ∈ sp_nodes st -> 1 <= node_id n <= 2 * Z.of_nat (length l))
  /\ NoDup (node_id <$> sp_nodes st).
Proof.
  induction l as [| x l IH] using rev_ind; intros Hnd.
  - simpl. split; [reflexivity |]. split; [reflexivity |].
    split; [intros i n Hi; by rewrite lookup_nil in Hi |].
    split; [intros id _; by rewrite !lookup_empty |]. split; [done |].
    split; [intros n Hn; by apply elem_of_nil in Hn | constructor].
  - rewrite fmap_app in Hnd. apply NoDup_app in Hnd as (Hnd & Hfresh & _).
    specialize (IH Hnd). cbv zeta in IH.
    destruct IH as (Hnext & Hlen & Hin & Hout & Hkeep & Hids & Hnodup).
    cbv zeta. rewrite foldl_app. cbn [foldl].
    set (st := foldl split_node (mkSplit [] 1 ∅ ∅ t) l) in *.
    assert (Hx : node_id x ∉ node_id <$> l).
    { intros Hx. apply (Hfresh _ Hx). csimpl. by left. }
    assert (Hlen' : length (l ++ [x]) = S (length l))
      by (rewrite length_app; simpl; lia).
    unfold split_node.
    cbn [sp_nodes sp_next sp_forward sp_reverse sp_translation].
    rewrite Hnext, Hlen'.
    split; [lia |]. split; [rewrite length_app, Hlen; simpl; lia |].
    split; [| split; [| split; [| split]]].
    + intros i n Hi. apply lookup_app_Some in Hi as [Hi | [Hge Hi]].
      * destruct (Hin i n Hi) as (H1 & H2 & H3 & H4 & H5 & H6).
        pose proof (lookup_lt_Some _ _ _ Hi) as Hlt.
        assert (Hne : node_id x <> node_id n).
        { intros Heq. apply Hx. rewrite Heq. apply list_elem_of_fmap.
          exists n. split; [reflexivity |]. by apply list_elem_of_lookup_2 in Hi. }
        rewrite !lookup_app_l by lia. rewrite !lookup_insert_ne by assumption.
        unfold strand_copy in *.
        rewrite !lookup_insert_ne by lia. by repeat split.
      * apply list_lookup_singleton_Some in Hi as [Hi <-].
        assert (Hieq : i = length l) by lia. subst i.
        rewrite !lookup_app_r by lia.
        replace (2 * length l - length (sp_nodes st))%nat with 0%nat by lia.
        replace (S (2 * length l) - length (sp_nodes st))%nat with 1%nat by lia.
        unfold strand_copy. cbn [lookup list_lookup].
        replace (2 * Z.of_nat (length l) + 1 + 1) with (2 * Z.of_nat (length l) + 2)
          by lia.
        rewrite !lookup_insert_eq. rewrite lookup_insert_ne by lia.
        rewrite lookup_insert_eq. by repeat split.
    + intros id Hid. rewrite fmap_app, elem_of_app in Hid.
      assert (Hne : node_id x <> id).
      { intros Heq. apply Hid. right. csimpl. rewrite Heq. by left. }
      rewrite !lookup_insert_ne by assumption. apply Hout. tauto.
    + intros k Hk. rewrite !lookup_insert_ne by lia. apply Hkeep. lia.
    + intros n [Hn | Hn]%elem_of_app.
      * specialize (Hids n Hn). lia.
      * apply elem_of_cons in Hn as [-> | Hn]; [simpl; lia |].
        apply list_elem_of_singleton in Hn as ->. simpl. lia.
    + rewrite fmap_app. apply NoDup_app. split; [assumption |]. split.
      * intros id Hid Hid'. apply list_elem_of_fmap in Hid as (n & -> & Hn).
        specialize (Hids n Hn). csimpl in Hid'.
        apply elem_of_cons in Hid' as [Heq | Hid']; [lia |].
        apply list_elem_of_singleton in Hid'. lia.
      * csimpl. apply NoDup_cons. split; [| apply NoDup_singleton].
        rewrite list_elem_of_singleton. lia.
Qed.

Lemma split_edge_forward (fwd rev : gmap Z Z) (e e' : Edge) :
  e' ∈ split_edge fwd rev e -> edge_from_start e' = false /\ edge_to_end e' = false.
Proof.
  unfold split_edge.
  destruct (edge_from_start e), (edge_to_end e); simpl;
    intros [-> | [-> | []%elem_of_nil]%elem_of_cons]%elem_of_cons; by split.
Qed.

(** The two edges of [split_edge], read off the strands that the edge
    joins: an edge lets one leave [from] on the strand [from_start] and enter
    [to] on the strand [to_end], and the other way round on the opposite
    strands. *)
Lemma split_edge_strands (fwd rev : gmap Z Z) (e : Edge) :
  let copy (id : Z) (reverse : bool) :=
    default 0 ((if reverse then rev else fwd) !! id) in
  split_edge fwd rev e
  = [mkEdge (copy (edge_from e) (edge_from_start e)) (copy (edge_to e) (edge_to_end e))
            false false;
     mkEdge (copy (edge_to e) (negb (edge_to_end e)))
            (copy (edge_from e) (negb (edge_from_start e))) false false].
Proof. unfold split_edge. by destruct (edge_from_start e), (edge_to_end e). Qed.

(** The loop of [build_edge_indexes] over any list of edges: the lists and
    the node tables are kept, and every adjacency list grows by the entries
    of the edges, in the order of the list. *)
Lemma fold_index_edge_lists (l : list Edge) (g : VG) :
  graph_edge (foldl index_edge g (imap pair l)) = graph_edge g
  /\ same_nodes g (foldl index_edge g (imap pair l))
  /\ (forall s, adjacency (foldl index_edge g (imap pair l)) s
                = adjacency g s ++ (l ≫= fun e => new_entries e s)).
Proof.
  induction l as [| x l IH] using rev_ind.
  - simpl. split; [done |]. split; [apply same_nodes_refl |].
    intros s. by rewrite app_nil_r.
  - destruct IH as (HL & HS & HA).
    rewrite imap_pair_snoc, foldl_app. simpl.
    set (r := foldl index_edge g (imap pair l)) in *.
    set (r1 := with_edge_index r (<[pair_from_edge x := length l]> (edge_index r))).
    destruct (index_edge_fields r1 x) as (Hsame & HL1 & _ & _).
    change (index_edge r (length l, x)) with (index_edge_by_node_sides r1 x).
    split; [by rewrite HL1 |]. split.
    + eapply same_nodes_trans; [exact HS |].
      eapply same_nodes_trans; [| exact Hsame].
      unfold same_nodes. by repeat split.
    + intros s. rewrite adjacency_index.
      change (adjacency r1 s) with (adjacency r s).
      rewrite HA, bind_app, <- app_assoc. csimpl. by rewrite app_nil_r.
Qed.

Lemma length_bind_pairs {A B : Type} (f : A -> list B) (l : list A) :
  (forall x, length (f x) = 2%nat) -> length (l ≫= f) = (2 * length l)%nat.
Proof.
  intros Hf. induction l as [| x l IH]; [reflexivity |].
  csimpl. rewrite length_app, Hf, IH. lia.
Qed.

(** X26. [split_strands] on a graph whose nodes have distinct ids.  The node
    at slot [i] gets two copies, with the ids [2i+1] and [2i+2]: the first
    carries its sequence, the second the reverse complement, and the
    translation sends them to the node, forward and reversed; the other keys
    of the translation are kept.  The node tables of the result are
    consistent and its id counter is one more than the number of copies.
    Every edge of the result runs from an end to a start, so that the result
    has no inverting edge and is single stranded; an edge between two nodes of the graph gives two
    edges: from the copy of [from] on the strand [from_start] to the copy of
    [to] on the strand [to_end], and from the copy of [to] on the other
    strand to the copy of [from] on the other strand.  The adjacency lists
    hold the entries of these edges and nothing else. *)
Theorem split_strands_copies (g : VG) (t : gmap Z (Z * bool)) :
  NoDup (node_id <$> graph_node g) ->
  let split := (split_strands g t).1 in
  let translation := (split_strands g t).2 in
  length (graph_node split) = (2 * length (graph_node g))%nat
  /\ (forall i n, graph_node g !! i = Some n ->
        get_node split (strand_copy i false)
        = Ok (mkNode (strand_copy i false) (node_sequence n))
        /\ get_node split (strand_copy i true)
           = Ok (mkNode (strand_copy i true) (reverse_complement (node_sequence n)))
        /\ translation !! strand_copy i false = Some (node_id n, false)
        /\ translation !! strand_copy i true = Some (node_id n, true))
  /\ (forall k, ~ (1 <= k <= 2 * Z.of_nat (length (graph_node g))) ->
        translation !! k = t !! k)
  /\ nodes_wf split /\ counter_ok split
  /\ current_id split = 2 * Z.of_nat (length (graph_node g)) + 1
  /\ paths split = []
  /\ has_inverting_edges split = false /\ is_single_stranded split = true
  /\ (forall e, e ∈ graph_edge split ->
        edge_from_start e = false /\ edge_to_end e = false)
  /\ length (graph_edge split) = (2 * length (graph_edge g))%nat
  /\ (forall e i j nf nt,
        e ∈ graph_edge g ->
        graph_node g !! i = Some nf -> node_id nf = edge_from e ->
        graph_node g !! j = Some nt -> node_id nt = edge_to e ->
        mkEdge (strand_copy i (edge_from_start e)) (strand_copy j (edge_to_end e))
               false false ∈ graph_edge split
        /\ mkEdge (strand_copy j (negb (edge_to_end e)))
                  (strand_copy i (negb (edge_from_start e))) false false
           ∈ graph_edge split)
  /\ (forall s, adjacency split s = graph_edge split ≫= fun e => new_entries e s).
Proof.
  intros Hnd split translation.
  destruct (fold_split_node (graph_node g) t Hnd)
    as (Hnext & Hlen & Hin & Hout & Hkeep & Hids & Hnodup).
  unfold split, translation, split_strands. cbv zeta. cbn [fst snd].
  set (st := foldl split_node (mkSplit [] 1 ∅ ∅ t) (graph_node g)) in *.
  set (edges := graph_edge g ≫= split_edge (sp_forward st) (sp_reverse st)).
  set (g0 := mkVG (sp_nodes st) edges ∅ ∅ ∅ ∅ ∅ ∅ (sp_next st) []).
  unfold build_indexes, build_node_indexes, build_edge_indexes.
  change (graph_node g0) with (sp_nodes st).
  destruct (fold_index_node (sp_nodes st) g0 Hnodup)
    as (Nin & Nout & NL & NE & NC & NP).
  set (g1 := foldl index_node g0 (imap pair (sp_nodes st))) in *.
  destruct NE as (NE1 & NE2 & NE3 & NE4 & NE5).
  rewrite NE1. change (graph_edge g0) with edges.
  destruct (fold_index_edge_lists edges g1) as (EL & ES & EA).
  set (g2 := foldl index_edge g1 (imap pair edges)) in *.
  destruct ES as (ES1 & ES2 & ES3 & ES4 & ES5).
  assert (HN : graph_node g2 = sp_nodes st) by (by rewrite ES1, NL).
  assert (HE : graph_edge g2 = edges) by (by rewrite EL, NE1).
  assert (Hwf : nodes_wf g2).
  { split; [by rewrite HN |]. split.
    - intros i n. rewrite HN, ES2, ES3. apply Nin.
    - intros id n Hlook. rewrite HN. rewrite ES2 in Hlook.
      destruct (decide (id ∈ node_id <$> sp_nodes st)) as [Hid | Hid].
      + apply list_elem_of_fmap in Hid as (n' & -> & [i Hi]%list_elem_of_lookup).
        destruct (Nin _ _ Hi) as [Hn' _]. rewrite Hn' in Hlook. injection Hlook as <-.
        split; [by apply list_elem_of_lookup_2 in Hi | reflexivity].
      + destruct (Nout _ Hid) as [Hn' _]. rewrite Hn' in Hlook.
        unfold g0 in Hlook. simpl in Hlook. by rewrite lookup_empty in Hlook. }
  assert (Hfwd : forall e, e ∈ edges ->
                           edge_from_start e = false /\ edge_to_end e = false).
  { intros e (e0 & He & _)%list_elem_of_bind. by apply split_edge_forward in He. }
  split; [by rewrite HN |]. split.
  { intros i n Hi. destruct (Hin i n Hi) as (H1 & H2 & _ & _ & H5 & H6).
    unfold get_node. rewrite ES2.
    destruct (Nin _ _ H1) as [N1 _]. destruct (Nin _ _ H2) as [N2 _].
    simpl in N1, N2. rewrite N1, N2. by repeat split. }
  split; [exact Hkeep |]. split; [exact Hwf |]. split.
  { unfold counter_ok. rewrite ES4, NC. simpl. rewrite Hnext. split; [lia |].
    right. intros n Hn. rewrite HN in Hn. specialize (Hids n Hn). lia. }
  split; [by rewrite ES4, NC |]. split; [by rewrite ES5, NP |]. split.
  { unfold has_inverting_edges. rewrite HE.
    apply not_true_is_false. intros Hex.
    apply existsb_exists in Hex as (e & He & Hinv).
    apply list_elem_of_In in He. destruct (Hfwd e He) as [Hfs Hte].
    unfold is_inverting in Hinv. by rewrite Hfs, Hte in Hinv. }
  split.
  { unfold is_single_stranded. rewrite HE. apply forallb_forall.
    intros e He. apply list_elem_of_In in He. destruct (Hfwd e He) as [-> ->].
    reflexivity. }
  split; [by rewrite HE |]. split.
  { rewrite HE. apply length_bind_pairs. intros e.
    by rewrite split_edge_strands. }
  split.
  - intros e i j nf nt He Hi Hf Hj Ht. rewrite HE.
    destruct (Hin i nf Hi) as (_ & _ & Ff & Fr & _).
    destruct (Hin j nt Hj) as (_ & _ & Tf & Tr & _).
    rewrite Hf in Ff, Fr. rewrite Ht in Tf, Tr.
    assert (Hpair : split_edge (sp_forward st) (sp_reverse st) e
                    = [mkEdge (strand_copy i (edge_from_start e))
                              (strand_copy j (edge_to_end e)) false false;
                       mkEdge (strand_copy j (negb (edge_to_end e)))
                              (strand_copy i (negb (edge_from_start e))) false false]).
    { rewrite split_edge_strands. cbv zeta.
      destruct (edge_from_start e), (edge_to_end e); simpl;
        by rewrite ?Ff, ?Fr, ?Tf, ?Tr. }
    split; apply list_elem_of_bind; exists e; rewrite Hpair;
      (split; [| exact He]); [by left | right; by left].
  - intros s. rewrite EA, HE.
    assert (H1 : adjacency g1 s = []).
    { destruct s as [id side]. unfold adjacency, edges_start, edges_end.
      rewrite NE4, NE5. simpl. destruct side; by rewrite lookup_empty. }
    by rewrite H1.
Qed.

Lemma split_strands_copies_witness :
  NoDup (node_id <$> graph_node loops_graph)
  /\ has_inverting_edges (split_strands loops_graph ∅).1 = false
  /\ length (graph_edge (split_strands loops_graph ∅).1)
     = (2 * length (graph_edge loops_graph))%nat
  /\ nodes_wf (split_strands loops_graph ∅).1.
Proof.
  assert (Hn : NoDup (node_id <$> graph_node loops_graph))
    by (apply (bool_decide_unpack _); vm_compute; exact I).
  split; [exact Hn |].
  pose proof (split_strands_copies loops_graph ∅ Hn)
    as (_ & _ & _ & Hwf & _ & _ & _ & Hinv & _ & _ & Hlen & _).
  exact (conj Hinv (conj Hlen Hwf)).
Defined.

(** * Head and tail nodes *)

Lemma new_entries_nil (e : Edge) (s : NodeSide) :
  new_entries e s = [] <-> s <> side_a e /\ s <> side_b e.
Proof.
  unfold new_entries. split.
  - intros H. apply app_eq_nil in H as [Ha Hb].
    destruct (decide (s = side_a e)) as [-> | Hne]; [discriminate |].
    split; [assumption |]. intros ->.
    rewrite decide_True in Hb; [discriminate |]. split; congruence.
  - intros [Ha Hb]. rewrite decide_False by assumption.
    rewrite decide_False; [reflexivity |]. tauto.
Qed.

Lemma bind_nil_iff {A B : Type} (f : A -> list B) (l : list A) :
  l ≫= f = [] <-> forall x, x ∈ l -> f x = [].
Proof.
  induction l as [| x l IH]; csimpl.
  - split; [intros _ x Hx; by apply elem_of_nil in Hx | done].
  - split.
    + intros [Hx Hl]%app_eq_nil y [-> | Hy]%elem_of_cons; [assumption |].
      by apply IH.
    + intros H. rewrite (H x) by (by left). simpl. apply IH.
      intros y Hy. apply H. by right.
Qed.

(** With exact adjacency lists, a side has no entry when no edge attaches
    to it. *)
Lemma adjacency_nil (g : VG) (s : NodeSide) :
  adjacency_exact g ->
  adjacency g s = [] <-> forall e, e ∈ graph_edge g -> s <> side_a e /\ s <> side_b e.
Proof.
  intros Hex. specialize (Hex s). split.
  - intros Hnil e He. apply new_entries_nil.
    rewrite Hnil in Hex. apply Permutation_nil in Hex.
    by apply (proj1 (bind_nil_iff _ _) Hex).
  - intros Hnone.
    assert (Hb : graph_edge g ≫= (fun e => new_entries e s) = []).
    { apply bind_nil_iff. intros e He. apply new_entries_nil. by apply Hnone. }
    rewrite Hb in Hex. symmetry in Hex. by apply Permutation_nil in Hex.
Qed.

Lemma is_head_node_ptr_true (g : VG) (n : Node) :
  is_head_node_ptr g n = true <-> adjacency g (node_id n, false) = [].
Proof.
  unfold is_head_node_ptr, start_degree, adjacency. simpl.
  rewrite Nat.eqb_eq. apply length_zero_iff_nil.
Qed.

Lemma is_tail_node_ptr_true (g : VG) (n : Node) :
  is_tail_node_ptr g n = true <-> adjacency g (node_id n, true) = [].
Proof.
  unfold is_tail_node_ptr, end_degree, adjacency. simpl.
  rewrite Nat.eqb_eq. apply length_zero_iff_nil.
Qed.

Lemma filter_ext_elem {A : Type} (P Q : A -> Prop) `{!forall x, Decision (P x)}
    `{!forall x, Decision (Q x)} (l : list A) :
  (forall x, x ∈ l -> P x <-> Q x) -> filter P l = filter Q l.
Proof.
  induction l as [| x l IH]; intros Hext; [reflexivity |].
  rewrite !filter_cons.
  assert (Hl : filter P l = filter Q l) by (apply IH; intros y Hy; apply Hext; by right).
  pose proof (Hext x (list_elem_of_here _ _)) as Hx.
  destruct (decide (P x)) as [Hp | Hp], (decide (Q x)) as [Hq | Hq];
    rewrite ?Hl; try reflexivity; tauto.
Qed.

(** Creating a list of edges none of which is in the graph, with distinct
    side pairs: they are appended in order. *)
Lemma fold_create_fresh (l : list Edge) (g : VG) :
  edges_wf g -> adjacency_exact g ->
  NoDup (pair_from_edge <$> (graph_edge g ++ l)) ->
  graph_edge (foldl (fun g e => (create_edge g (edge_from e) (edge_to e)
                                             (edge_from_start e) (edge_to_end e)).1) g l)
  = graph_edge g ++ l
  /\ edges_wf (foldl (fun g e => (create_edge g (edge_from e) (edge_to e)
                                              (edge_from_start e) (edge_to_end e)).1) g l)
  /\ adjacency_exact (foldl (fun g e => (create_edge g (edge_from e) (edge_to e)
                                                     (edge_from_start e) (edge_to_end e)).1)
                            g l)
  /\ same_nodes g (foldl (fun g e => (create_edge g (edge_from e) (edge_to e)
                                                  (edge_from_start e) (edge_to_end e)).1)
                         g l).
Proof.
  revert g. induction l as [| x l IH]; intros g Hwf Hex Hnd.
  - simpl. rewrite app_nil_r. split; [reflexivity |]. split; [assumption |].
    split; [assumption | apply same_nodes_refl].
  - simpl.
    pose proof (create_edge_wf g (edge_from x) (edge_to x) (edge_from_start x)
                  (edge_to_end x) Hwf) as Hwf0.
    pose proof (create_edge_exact g (edge_from x) (edge_to x) (edge_from_start x)
                  (edge_to_end x) Hex) as Hex0.
    destruct (create_edge_spec g (edge_from x) (edge_to x) (edge_from_start x)
                (edge_to_end x)) as [Hsame Hspec].
    assert (Hx : mkEdge (edge_from x) (edge_to x) (edge_from_start x) (edge_to_end x) = x)
      by (by destruct x).
    rewrite Hx in Hspec.
    set (g0 := (create_edge g (edge_from x) (edge_to x) (edge_from_start x)
                  (edge_to_end x)).1) in *.
    assert (Hnone : edge_by_sides g !! pair_from_edge x = None).
    { destruct (edge_by_sides g !! pair_from_edge x) as [e0 |] eqn:Hlook; [| reflexivity].
      exfalso. destruct Hwf as (_ & _ & E3 & _).
      destruct (E3 _ _ Hlook) as [Hin Hkey].
      rewrite fmap_app in Hnd. apply NoDup_app in Hnd as (_ & Hdisj & _).
      apply (Hdisj (pair_from_edge x)).
      - apply list_elem_of_fmap. exists e0. by split.
      - csimpl. by left. }
    rewrite Hnone in Hspec. destruct Hspec as (_ & HL & _).
    assert (Hnd0 : NoDup (pair_from_edge <$> (graph_edge g0 ++ l))).
    { rewrite HL, <- app_assoc. exact Hnd. }
    destruct (IH g0 Hwf0 Hex0 Hnd0) as (HL1 & Hwf1 & Hex1 & Hsame1).
    split; [by rewrite HL1, HL, <- app_assoc |]. split; [assumption |].
    split; [assumption |]. eapply same_nodes_trans; [exact Hsame | exact Hsame1].
Qed.

(** The side pairs stay distinct when edges between a node [c] that no edge
    attaches to and nodes with distinct ids other than [c] are added; the
    new edges leave [c] when [out] is set and enter it otherwise. *)
Lemma star_keys_NoDup (old : list Edge) (c : Z) (out : bool) (ids : list Z) :
  NoDup (pair_from_edge <$> old) ->
  (forall e, e ∈ old -> edge_from e <> c /\ edge_to e <> c) ->
  NoDup ids -> c ∉ ids ->
  NoDup (pair_from_edge
           <$> (old ++ ((fun x => if out then mkEdge c x false false
                                  else mkEdge x c false false) <$> ids))).
Proof.
  intros Hold Hfree Hids Hc.
  rewrite fmap_app. apply NoDup_app. split; [assumption |]. split.
  - intros k (e & -> & He)%list_elem_of_fmap Hk.
    rewrite <- list_fmap_compose in Hk.
    apply list_elem_of_fmap in Hk as (x & Hkey & Hx).
    destruct (Hfree e He) as [Hf Ht].
    rewrite pair_from_edge_sides in Hkey. simpl in Hkey.
    destruct out; rewrite pair_from_edge_sides in Hkey;
      unfold side_a, side_b in Hkey; simpl in Hkey;
      apply minmax_sides in Hkey as [[H1 H2] | [H1 H2]]; congruence.
  - rewrite <- list_fmap_compose. apply NoDup_fmap_2_strong; [| assumption].
    intros x y Hx Hy Hkey. simpl in Hkey.
    destruct out; rewrite !pair_from_edge_sides in Hkey;
      unfold side_a, side_b in Hkey; simpl in Hkey;
      apply minmax_sides in Hkey as [[H1 H2] | [H1 H2]]; congruence.
Qed.

Lemma head_filter (g : VG) (n : Node) :
  Is_true (is_head_node_ptr g n) <-> adjacency g (node_id n, false) = [].
Proof. rewrite Is_true_true. apply is_head_node_ptr_true. Qed.

Lemma tail_filter (g : VG) (n : Node) :
  Is_true (is_tail_node_ptr g n) <-> adjacency g (node_id n, true) = [].
Proof. rewrite Is_true_true. apply is_tail_node_ptr_true. Qed.

Lemma same_nodes_next_id (g g' : VG) : same_nodes g g' -> next_id g' = next_id g.
Proof.
  intros (N1 & _ & _ & N4 & _). unfold next_id, max_node_id. by rewrite N1, N4.
Qed.

Lemma same_nodes_counter_ok (g g' : VG) : same_nodes g g' -> counter_ok g -> counter_ok g'.
Proof.
  intros (N1 & _ & _ & N4 & _). unfold counter_ok. by rewrite N1, N4.
Qed.

(** X27. [wrap_with_null_nodes] on a consistent graph whose edges join
    nodes of the graph.  Two nodes with the empty sequence and the next two
    ids are appended.  The first is joined to every node that had nothing on
    its start; the second is joined from every node that had nothing on its
    end, and from the first one when no node had a free start (so in the
    empty graph the two new nodes are joined to each other).  Afterwards the
    second new node is the only node with nothing on its end, and the first
    new node has nothing on its start; the second has nothing on its start
    only when nothing was joined to it.  The graph stays consistent. *)
Theorem wrap_with_null_nodes_spec (g : VG) :
  nodes_wf g -> edges_wf g -> counter_ok g -> adjacency_exact g -> edges_closed g ->
  let head := mkNode (next_id g) [] in
  let tail := mkNode (next_id g + 1) [] in
  let tails := tail_nodes g ++ match head_nodes g with [] => [head] | _ => [] end in
  exists g',
    wrap_with_null_nodes g = Ok g'
    /\ graph_node g' = graph_node g ++ [head; tail]
    /\ graph_edge g'
       = graph_edge g
         ++ ((fun h => mkEdge (node_id head) (node_id h) false false) <$> head_nodes g)
         ++ ((fun t => mkEdge (node_id t) (node_id tail) false false) <$> tails)
    /\ head_nodes g' = head :: match tails with [] => [tail] | _ => [] end
    /\ tail_nodes g' = [tail]
    /\ nodes_wf g' /\ edges_wf g' /\ counter_ok g' /\ adjacency_exact g'
    /\ edges_closed g' /\ paths g' = paths g.
Proof.
  intros Hnw Hew Hc Hex Hcl head tail tails.
  destruct (create_node_ok g [] Hc Hnw)
    as (g1 & Hcreate1 & Hc1 & Hnw1 & Hse1 & HL1 & HP1 & Hfresh).
  fold head in Hcreate1, HL1.
  pose proof (create_node_next_id g g1 [] head Hc Hcreate1) as Hnext1.
  pose proof (same_edges_wf g g1 Hse1 Hew) as Hew1.
  pose proof (same_edges_exact g g1 Hse1 Hex) as Hex1.
  assert (HE1 : graph_edge g1 = graph_edge g) by (by destruct Hse1).
  assert (Hends : forall e, e ∈ graph_edge g ->
                            edge_from e < next_id g /\ edge_to e < next_id g).
  { intros e He. destruct (Hcl e He) as [Hf Ht].
    apply (has_node_elem g _ Hnw) in Hf as (nf & Hnf & <-).
    apply (has_node_elem g _ Hnw) in Ht as (nt & Hnt & <-).
    split; by apply Hfresh. }
  (* joining the head node *)
  set (head_edges := (fun h => mkEdge (node_id head) (node_id h) false false)
                       <$> head_nodes g) in *.
  set (g2 := foldl (fun g h => (create_edge g (node_id head) (node_id h) false false).1)
                   g1 (head_nodes g)).
  assert (Hfold2 : g2 = foldl (fun g e => (create_edge g (edge_from e) (edge_to e)
                                             (edge_from_start e) (edge_to_end e)).1)
                              g1 head_edges).
  { unfold g2, head_edges. by rewrite foldl_fmap. }
  assert (Hheads : forall h, h ∈ head_nodes g -> h ∈ graph_node g).
  { intros h Hh. by apply list_elem_of_filter in Hh as [_ ?]. }
  assert (Hnd1 : NoDup (pair_from_edge <$> (graph_edge g1 ++ head_edges))).
  { rewrite HE1. unfold head_edges.
    rewrite (list_fmap_compose node_id (fun x => mkEdge (node_id head) x false false)).
    apply (star_keys_NoDup (graph_edge g) (next_id g) true (node_id <$> head_nodes g)).
    - by destruct Hew.
    - intros e He. destruct (Hends e He). lia.
    - apply NoDup_fmap_filter_ids. by destruct Hnw.
    - intros (h & Heq & Hh)%list_elem_of_fmap.
      pose proof (Hfresh h (Hheads h Hh)). lia. }
  destruct (fold_create_fresh head_edges g1 Hew1 Hex1 Hnd1)
    as (HE2 & Hew2 & Hex2 & Hsame2).
  rewrite <- Hfold2 in HE2, Hew2, Hex2, Hsame2. rewrite HE1 in HE2.
  pose proof (same_nodes_wf g1 g2 Hsame2 Hnw1) as Hnw2.
  pose proof (same_nodes_counter_ok g1 g2 Hsame2 Hc1) as Hc2.
  pose proof (same_nodes_next_id g1 g2 Hsame2) as Hnext2.
  assert (HL2 : graph_node g2 = graph_node g ++ [head]).
  { destruct Hsame2 as (-> & _). exact HL1. }
  assert (HP2 : paths g2 = paths g).
  { destruct Hsame2 as (_ & _ & _ & _ & ->). exact HP1. }
  (* the tail nodes at that point *)
  assert (Htails : tail_nodes g2 = tails).
  { unfold tail_nodes, tails. rewrite HL2, filter_app. f_equal.
    - apply filter_ext_elem. intros n Hn. rewrite !tail_filter.
      rewrite (adjacency_nil g2 _ Hex2), (adjacency_nil g _ Hex), HE2.
      pose proof (Hfresh n Hn) as Hlt. split.
      + intros Hno e He. apply Hno. apply elem_of_app. by left.
      + intros Hno e [He | He]%elem_of_app; [by apply Hno |].
        apply list_elem_of_fmap in He as (h & -> & Hh).
        unfold side_a, side_b. simpl. split; intros [= ?]. lia.
    - rewrite filter_cons, filter_nil.
      destruct (head_nodes g) as [| h hs] eqn:Hhs.
      + rewrite decide_True; [reflexivity |].
        apply tail_filter, (adjacency_nil g2 _ Hex2). rewrite HE2.
        unfold head_edges. rewrite ?Hhs. csimpl. rewrite app_nil_r.
        intros e He. destruct (Hends e He).
        unfold side_a, side_b. simpl. split; intros [= ? ?]; lia.
      + rewrite decide_False; [reflexivity |].
        rewrite tail_filter, (adjacency_nil g2 _ Hex2), HE2.
        intros Hno.
        destruct (Hno (mkEdge (node_id head) (node_id h) false false)) as [Ha _].
        * apply elem_of_app. right. unfold head_edges. rewrite ?Hhs. csimpl. by left.
        * by apply Ha. }
  (* the tail node *)
  destruct (create_node_ok g2 [] Hc2 Hnw2)
    as (g3 & Hcreate3 & Hc3 & Hnw3 & Hse3 & HL3 & HP3 & Hfresh2).
  rewrite Hnext2, Hnext1 in Hcreate3, HL3, Hfresh2. fold tail in Hcreate3, HL3.
  pose proof (same_edges_wf g2 g3 Hse3 Hew2) as Hew3.
  pose proof (same_edges_exact g2 g3 Hse3 Hex2) as Hex3.
  assert (HE3 : graph_edge g3 = graph_edge g ++ head_edges).
  { destruct Hse3 as (-> & _). exact HE2. }
  set (tail_edges := (fun t => mkEdge (node_id t) (node_id tail) false false) <$> tails).
  set (g4 := foldl (fun g t => (create_edge g (node_id t) (node_id tail) false false).1)
                   g3 (tail_nodes g2)).
  assert (Hfold4 : g4 = foldl (fun g e => (create_edge g (edge_from e) (edge_to e)
                                             (edge_from_start e) (edge_to_end e)).1)
                              g3 tail_edges).
  { unfold g4, tail_edges. by rewrite Htails, foldl_fmap. }
  assert (Htin : forall t, t ∈ tails -> t ∈ graph_node g2).
  { intros t Ht. rewrite <- Htails in Ht. by apply list_elem_of_filter in Ht as [_ ?]. }
  assert (Hends3 : forall e, e ∈ graph_edge g3 ->
                             edge_from e < next_id g + 1 /\ edge_to e < next_id g + 1).
  { intros e. rewrite HE3. intros [He | He]%elem_of_app.
    - destruct (Hends e He). lia.
    - apply list_elem_of_fmap in He as (h & -> & Hh).
      pose proof (Hfresh h (Hheads h Hh)). simpl. lia. }
  assert (Hnd3 : NoDup (pair_from_edge <$> (graph_edge g3 ++ tail_edges))).
  { unfold tail_edges.
    rewrite (list_fmap_compose node_id (fun x => mkEdge x (node_id tail) false false)).
    apply (star_keys_NoDup (graph_edge g3) (next_id g + 1) false (node_id <$> tails)).
    - by destruct Hew3.
    - intros e He. destruct (Hends3 e He). lia.
    - rewrite <- Htails. apply NoDup_fmap_filter_ids. by destruct Hnw2.
    - intros (t & Heq & Ht)%list_elem_of_fmap.
      pose proof (Hfresh2 t (Htin t Ht)). lia. }
  destruct (fold_create_fresh tail_edges g3 Hew3 Hex3 Hnd3)
    as (HE4 & Hew4 & Hex4 & Hsame4).
  rewrite <- Hfold4 in HE4, Hew4, Hex4, Hsame4. rewrite HE3, <- app_assoc in HE4.
  pose proof (same_nodes_wf g3 g4 Hsame4 Hnw3) as Hnw4.
  pose proof (same_nodes_counter_ok g3 g4 Hsame4 Hc3) as Hc4.
  assert (HL4 : graph_node g4 = graph_node g ++ [head; tail]).
  { destruct Hsame4 as (-> & _). rewrite HL3, HL2, <- app_assoc. reflexivity. }
  assert (HP4 : paths g4 = paths g).
  { destruct Hsame4 as (_ & _ & _ & _ & ->). by rewrite HP3. }
  (* what attaches to a side in the result *)
  assert (Hold : forall n, n ∈ graph_node g ->
                           adjacency g4 (node_id n, false) <> []
                           /\ adjacency g4 (node_id n, true) <> []).
  { intros n Hn. split; rewrite (adjacency_nil g4 _ Hex4), HE4; intros Hno.
    - destruct (decide (n ∈ head_nodes g)) as [Hh | Hh].
      + destruct (Hno (mkEdge (node_id head) (node_id n) false false)) as [_ Hb].
        * apply elem_of_app. right. apply elem_of_app. left.
          apply list_elem_of_fmap. by exists n.
        * by apply Hb.
      + apply Hh. apply list_elem_of_filter. split; [| assumption].
        apply head_filter, (adjacency_nil g _ Hex). intros e He.
        apply Hno. apply elem_of_app. by left.
    - destruct (decide (n ∈ tail_nodes g)) as [Ht | Ht].
      + destruct (Hno (mkEdge (node_id n) (node_id tail) false false)) as [Ha _].
        * apply elem_of_app. right. apply elem_of_app. right.
          apply list_elem_of_fmap. exists n. split; [reflexivity |].
          unfold tails. apply elem_of_app. by left.
        * by apply Ha.
      + apply Ht. apply list_elem_of_filter. split; [| assumption].
        apply tail_filter, (adjacency_nil g _ Hex). intros e He.
        apply Hno. apply elem_of_app. by left. }
  assert (Htid : forall t, t ∈ tails -> node_id t < next_id g + 1).
  { intros t Ht. by apply Hfresh2, Htin. }
  assert (Hhead_start : adjacency g4 (node_id head, false) = []).
  { apply (adjacency_nil g4 _ Hex4). rewrite HE4. simpl.
    intros e [He | [He | He]%elem_of_app]%elem_of_app.
    - destruct (Hends e He). unfold side_a, side_b. split; intros [= ? ?]; lia.
    - apply list_elem_of_fmap in He as (h & -> & Hh).
      pose proof (Hfresh h (Hheads h Hh)).
      unfold side_a, side_b. simpl. split; intros [= ?]. lia.
    - apply list_elem_of_fmap in He as (t & -> & Ht).
      unfold side_a, side_b. simpl. split; intros [= ?]. lia. }
  assert (Hhead_end : adjacency g4 (node_id head, true) <> []).
  { rewrite (adjacency_nil g4 _ Hex4), HE4. intros Hno.
    destruct (head_nodes g) as [| h hs] eqn:Hhs.
    - destruct (Hno (mkEdge (node_id head) (node_id tail) false false)) as [Ha _].
      + apply elem_of_app. right. apply elem_of_app. right.
        apply list_elem_of_fmap. exists head. split; [reflexivity |].
        unfold tails. rewrite ?Hhs. apply elem_of_app. right. by left.
      + by apply Ha.
    - destruct (Hno (mkEdge (node_id head) (node_id h) false false)) as [Ha _].
      + apply elem_of_app. right. apply elem_of_app. left.
        unfold head_edges. rewrite ?Hhs. csimpl. by left.
      + by apply Ha. }
  assert (Htail_end : adjacency g4 (node_id tail, true) = []).
  { apply (adjacency_nil g4 _ Hex4). rewrite HE4. simpl.
    intros e [He | [He | He]%elem_of_app]%elem_of_app.
    - destruct (Hends e He). unfold side_a, side_b. split; intros [= ? ?]; lia.
    - apply list_elem_of_fmap in He as (h & -> & Hh).
      pose proof (Hfresh h (Hheads h Hh)).
      unfold side_a, side_b. simpl. split; intros [= ?]. lia.
    - apply list_elem_of_fmap in He as (t & -> & Ht).
      pose proof (Htid t Ht).
      unfold side_a, side_b. simpl. split; intros [= ?]. lia. }
  assert (Htail_start : adjacency g4 (node_id tail, false) = [] <-> tails = []).
  { rewrite (adjacency_nil g4 _ Hex4), HE4. split.
    - intros Hno. destruct tails as [| t ts] eqn:Hts; [reflexivity |].
      destruct (Hno (mkEdge (node_id t) (node_id tail) false false)) as [_ Hb].
      + apply elem_of_app. right. apply elem_of_app. right.
        unfold tail_edges. csimpl. by left.
      + by destruct Hb.
    - intros Hnil. unfold tail_edges. rewrite Hnil. csimpl. rewrite app_nil_r. simpl.
      intros e [He | He]%elem_of_app.
      + destruct (Hends e He). unfold side_a, side_b. split; intros [= ? ?]; lia.
      + apply list_elem_of_fmap in He as (h & -> & Hh).
        pose proof (Hfresh h (Hheads h Hh)).
        unfold side_a, side_b. simpl. split; intros [= ?]. lia. }
  exists g4. split.
  { unfold wrap_with_null_nodes. rewrite Hcreate1. cbn [mbind res_bind].
    fold g2. rewrite Hcreate3. reflexivity. }
  split; [exact HL4 |]. split; [exact HE4 |]. split.
  { unfold head_nodes at 1. rewrite HL4, filter_app.
    rewrite (filter_none _ (graph_node g)).
    - rewrite filter_cons, decide_True by (by apply head_filter).
      rewrite filter_cons, filter_nil. simpl. f_equal.
      destruct tails as [| t ts] eqn:Hts.
      + rewrite decide_True; [reflexivity |]. by apply head_filter, Htail_start.
      + rewrite decide_False; [reflexivity |].
        rewrite head_filter, Htail_start. discriminate.
    - intros n Hn Hp. apply head_filter in Hp. by destruct (Hold n Hn). }
  split.
  { unfold tail_nodes at 1. rewrite HL4, filter_app.
    rewrite (filter_none _ (graph_node g)).
    - rewrite filter_cons, decide_False by (by rewrite tail_filter).
      rewrite filter_cons, decide_True by (by apply tail_filter).
      reflexivity.
    - intros n Hn Hp. apply tail_filter in Hp. by destruct (Hold n Hn). }
  split; [exact Hnw4 |]. split; [exact Hew4 |]. split; [exact Hc4 |].
  split; [exact Hex4 |]. split; [| exact HP4].
  assert (Hhas : forall n, n ∈ graph_node g4 -> has_node g4 (node_id n) = true).
  { intros n Hn. apply has_node_true. exists n. by apply nodes_wf_lookup. }
  intros e. rewrite HE4. intros [He | [He | He]%elem_of_app]%elem_of_app.
  - destruct (Hcl e He) as [Hf Ht].
    apply (has_node_elem g _ Hnw) in Hf as (nf & Hnf & <-).
    apply (has_node_elem g _ Hnw) in Ht as (nt & Hnt & <-).
    split; apply Hhas; rewrite HL4; apply elem_of_app; by left.
  - apply list_elem_of_fmap in He as (h & -> & Hh). simpl.
    split; [apply (Hhas head) | apply Hhas]; rewrite HL4; apply elem_of_app.
    + right. by left.
    + left. by apply Hheads.
  - apply list_elem_of_fmap in He as (t & -> & Ht). simpl.
    split; [apply Hhas | apply (Hhas tail)]; rewrite HL4.
    + apply Htin in Ht. rewrite HL2 in Ht.
      apply elem_of_app in Ht as [Ht | Ht]; apply elem_of_app; [by left | right].
      apply list_elem_of_singleton in Ht as ->. by left.
    + apply elem_of_app. right. right. by left.
Qed.

Lemma loops_graph_closed : edges_closed loops_graph.
Proof.
  assert (H : Forall (fun e => has_node loops_graph (edge_from e) = true
                               /\ has_node loops_graph (edge_to e) = true)
                     (graph_edge loops_graph))
    by (apply (bool_decide_unpack _); vm_compute; exact I).
  intros e He. by apply (proj1 (Forall_forall _ _) H).
Qed.

Lemma wrap_with_null_nodes_spec_witness :
  (nodes_wf loops_graph /\ edges_wf loops_graph /\ counter_ok loops_graph
   /\ adjacency_exact loops_graph /\ edges_closed loops_graph)
  /\ exists g',
       wrap_with_null_nodes loops_graph = Ok g'
       /\ tail_nodes g' = [mkNode (next_id loops_graph + 1) []]
       /\ nodes_wf g' /\ edges_wf g'.
Proof.
  assert (Hn : nodes_wf loops_graph)
    by (apply nodes_wf_check_sound; vm_compute; reflexivity).
  assert (Hc : counter_ok loops_graph)
    by (apply counter_ok_check_sound; vm_compute; reflexivity).
  split.
  - exact (conj Hn (conj loops_graph_edges_wf
                      (conj Hc (conj loops_graph_exact loops_graph_closed)))).
  - destruct (wrap_with_null_nodes_spec loops_graph Hn loops_graph_edges_wf Hc
                loops_graph_exact loops_graph_closed)
      as (g' & Hwrap & _ & _ & _ & Htail & Hn' & He' & _).
    exists g'. exact (conj Hwrap (conj Htail (conj Hn' He'))).
Defined.

(** * The sides joined to a side *)

(** The edges that [edges_of_node] returns, in a consistent edge store with
    exact adjacency lists. *)
Lemma edges_of_node_members (g : VG) (id : Z) :
  edges_wf g -> adjacency_exact g ->
  exists edges,
    edges_of_node g id = Some edges
    /\ forall e, e ∈ edges <-> e ∈ graph_edge g /\ incident id e.
Proof.
  intros Hwf Hex.
  destruct (edges_of_side g (id, false) Hwf Hex) as (ls & Hs & _ & Hins).
  destruct (edges_of_side g (id, true) Hwf Hex) as (le & He & _ & Hine).
  assert (Hend : mapM (fun off_end => edge_by_sides g !! pair_from_end_edge id off_end)
                      (edges_end g id) = Some le) by exact He.
  assert (Hstart : mapM (fun off_start =>
                           edge_by_sides g !! pair_from_start_edge id off_start)
                        (edges_start g id) = Some ls) by exact Hs.
  exists (ls ++ filter (fun e => ~ on_both_sides e) le). split.
  { unfold edges_of_node. rewrite Hstart, Hend. reflexivity. }
  intros e. rewrite elem_of_app, list_elem_of_filter, Hins, Hine.
  destruct e as [f t fs te]. unfold side_a, side_b, incident, on_both_sides.
  simpl. split.
  - intros [[Hin Hside] | [Hnb [Hin Hside]]]; (split; [assumption |]);
      destruct Hside as [Hside | Hside]; injection Hside as ? ?; auto.
  - intros [Hin Hinc].
    destruct (decide (f = t /\ fs = te)) as [[-> ->] | Hnb].
    + left. split; [assumption |]. destruct Hinc as [-> | ->]; destruct te; auto.
    + destruct Hinc as [-> | ->].
      * destruct fs; [left; split; auto | right; split; [assumption | split; auto]].
      * destruct te; [right; split; [assumption | split; auto] | left; split; auto].
Qed.

(** An edge record is kept for two sides when an edge joins them, in one
    direction or the other. *)
Lemma get_edge_joined (g : VG) (a b : NodeSide) :
  edges_wf g ->
  is_Some (get_edge g a b)
  <-> exists e, e ∈ graph_edge g
                /\ ((side_a e = a /\ side_b e = b) \/ (side_a e = b /\ side_b e = a)).
Proof.
  intros (_ & E2 & E3 & _). unfold get_edge. split.
  - intros [e Hlook]. destruct (E3 _ _ Hlook) as [Hin Hkey].
    exists e. split; [assumption |].
    rewrite pair_from_edge_sides in Hkey. by apply minmax_sides in Hkey.
  - intros (e & [i Hi]%list_elem_of_lookup & Hsides).
    destruct (E2 _ _ Hi) as [Hlook _]. exists e.
    rewrite pair_from_edge_sides in Hlook.
    destruct Hsides as [[<- <-] | [<- <-]]; [assumption |].
    by rewrite minmax_comm.
Qed.

(** X28. The sides joined to a side.  On a side of a node that is not in
    the graph [sides_of] fails as [get_node] does.  On a side of a node of a
    consistent graph with exact adjacency lists, [sides_to] returns the sides
    from which an edge enters the side, [sides_from] the sides to which an
    edge leaves it, and [sides_of] the sides that [get_edge] finds it joined
    to; none of them exits. *)
Theorem sides_of_joined (g : VG) (side : NodeSide) :
  nodes_wf g -> edges_wf g -> adjacency_exact g ->
  (has_node g side.1 = false -> sides_of g side = Err (NoNode side.1))
  /\ (has_node g side.1 = true ->
      exists v_to v_from v_of,
        sides_to g side = Ok (Some v_to)
        /\ sides_from g side = Ok (Some v_from)
        /\ sides_of g side = Ok (Some v_of)
        /\ (forall o, o ∈ v_to
                      <-> exists e, e ∈ graph_edge g /\ side_a e = o /\ side_b e = side)
        /\ (forall o, o ∈ v_from
                      <-> exists e, e ∈ graph_edge g /\ side_a e = side /\ side_b e = o)
        /\ (forall o, o ∈ v_of <-> is_Some (get_edge g side o))).
Proof.
  intros Hnw Hew Hex. split.
  { intros Hno. unfold has_node in Hno. apply bool_decide_eq_false in Hno.
    apply eq_None_not_Some in Hno.
    unfold sides_of, sides_to, get_node. by rewrite Hno. }
  intros [node Hnode]%has_node_true.
  destruct Hnw as (_ & _ & N3). destruct (N3 _ _ Hnode) as [_ Hid].
  destruct (edges_of_node_members g side.1 Hew Hex) as (edges & Hedges & Hmem).
  set (v_to := set_of_list side_ltb
                 ((fun edge => (edge_from edge, negb (edge_from_start edge)))
                    <$> filter (fun edge => edge_to edge = side.1
                                            /\ edge_to_end edge = side.2) edges)).
  set (v_from := set_of_list side_ltb
                   ((fun edge => (edge_to edge, edge_to_end edge))
                      <$> filter (fun edge => edge_from edge = side.1
                                              /\ edge_from_start edge <> side.2) edges)).
  assert (Hto : sides_to g side = Ok (Some v_to)).
  { unfold sides_to, get_node. rewrite Hnode. cbn [mbind res_bind].
    by rewrite Hid, Hedges. }
  assert (Hfrom : sides_from g side = Ok (Some v_from)).
  { unfold sides_from, get_node. rewrite Hnode. cbn [mbind res_bind].
    by rewrite Hid, Hedges. }
  assert (Hin_to : forall o, o ∈ v_to
                     <-> exists e, e ∈ graph_edge g /\ side_a e = o /\ side_b e = side).
  { intros o. unfold v_to. rewrite (elem_of_set_of_list _ side_ltb_total).
    rewrite list_elem_of_fmap. split.
    - intros (e & -> & [[Ht Hte] He]%list_elem_of_filter).
      apply Hmem in He as [He _]. exists e. split; [assumption |].
      split; [reflexivity |]. unfold side_b. rewrite Ht, Hte. by destruct side.
    - intros (e & He & <- & <-). exists e. split; [reflexivity |].
      apply list_elem_of_filter. split; [by split |].
      apply Hmem. split; [assumption | by right]. }
  assert (Hin_from : forall o, o ∈ v_from
                       <-> exists e, e ∈ graph_edge g /\ side_a e = side /\ side_b e = o).
  { intros o. unfold v_from. rewrite (elem_of_set_of_list _ side_ltb_total).
    rewrite list_elem_of_fmap. split.
    - intros (e & -> & [[Hf Hfs] He]%list_elem_of_filter).
      apply Hmem in He as [He _]. exists e. split; [assumption |].
      split; [| reflexivity]. unfold side_a. rewrite Hf.
      destruct side as [id is_end]. simpl in *. f_equal.
      by destruct (edge_from_start e), is_end.
    - intros (e & He & <- & <-). exists e. split; [reflexivity |].
      apply list_elem_of_filter. split.
      + split; [reflexivity |]. simpl. by destruct (edge_from_start e).
      + apply Hmem. split; [assumption | by left]. }
  exists v_to, v_from, (foldl (fun s x => set_insert side_ltb x s) v_to v_from).
  split; [exact Hto |]. split; [exact Hfrom |]. split.
  { unfold sides_of. rewrite Hto. cbn [mbind res_bind]. by rewrite Hfrom. }
  split; [exact Hin_to |]. split; [exact Hin_from |].
  intros o.
  assert (Hfold : forall (l acc : list NodeSide),
            o ∈ foldl (fun s x => set_insert side_ltb x s) acc l <-> o ∈ acc \/ o ∈ l).
  { induction l as [| y l IH]; intros acc; simpl.
    - rewrite elem_of_nil. tauto.
    - rewrite IH, (elem_of_set_insert _ side_ltb_total), elem_of_cons. tauto. }
  rewrite Hfold, Hin_to, Hin_from, (get_edge_joined g side o Hew). split.
  - intros [(e & He & Ha & Hb) | (e & He & Ha & Hb)]; exists e; auto.
  - intros (e & He & [[Ha Hb] | [Ha Hb]]); [right | left]; exists e; auto.
Qed.

Lemma sides_of_joined_witness :
  (nodes_wf loops_graph /\ edges_wf loops_graph /\ adjacency_exact loops_graph)
  /\ exists v_of,
       sides_of loops_graph (1, true) = Ok (Some v_of)
       /\ forall o, o ∈ v_of <-> is_Some (get_edge loops_graph (1, true) o).
Proof.
  assert (Hn : nodes_wf loops_graph)
    by (apply nodes_wf_check_sound; vm_compute; reflexivity).
  split; [exact (conj Hn (conj loops_graph_edges_wf loops_graph_exact)) |].
  destruct (sides_of_joined loops_graph (1, true) Hn loops_graph_edges_wf
              loops_graph_exact) as [_ Hyes].
  destruct (Hyes eq_refl) as (v_to & v_from & v_of & _ & _ & Hof & _ & _ & Hall).
  exists v_of. exact (conj Hof Hall).
Defined.

(** * Edges reversed at both ends *)

Lemma flip_edge_sides (e : Edge) :
  edge_from_start e = true -> edge_to_end e = true ->
  side_a (flip_edge e) = side_b e /\ side_b (flip_edge e) = side_a e
  /\ side_a e <> side_b e.
Proof.
  intros Hfs Hte. unfold flip_edge, side_a, side_b. rewrite Hfs, Hte. simpl.
  split; [reflexivity |]. split; [reflexivity |]. intros [= _ ?].
Qed.

Lemma flip_edge_key (e : Edge) : pair_from_edge (flip_edge e) = pair_from_edge e.
Proof.
  destruct (edge_from_start e) eqn:Hfs, (edge_to_end e) eqn:Hte;
    try (unfold flip_edge; by rewrite Hfs, Hte).
  destruct (flip_edge_sides e Hfs Hte) as (Ha & Hb & _).
  rewrite !pair_from_edge_sides, Ha, Hb. apply minmax_comm.
Qed.

Lemma flip_edge_entries (e : Edge) (s : NodeSide) :
  new_entries (flip_edge e) s = new_entries e s.
Proof.
  destruct (edge_from_start e) eqn:Hfs, (edge_to_end e) eqn:Hte;
    try (unfold flip_edge; by rewrite Hfs, Hte).
  destruct (flip_edge_sides e Hfs Hte) as (Ha & Hb & Hne).
  unfold new_entries. rewrite Ha, Hb.
  destruct (decide (s = side_a e)) as [-> | Hsa].
  - rewrite decide_False by done. rewrite decide_True by (split; congruence).
    rewrite decide_False; [reflexivity |]. intros [_ ?]. congruence.
  - destruct (decide (s = side_b e)) as [-> | Hsb].
    + rewrite decide_False; [| tauto]. rewrite decide_True by done. reflexivity.
    + rewrite !decide_False; [reflexivity | tauto | tauto].
Qed.

Lemma flip_edge_forward (e : Edge) :
  edge_from_start (flip_edge e) && edge_to_end (flip_edge e) = false.
Proof.
  unfold flip_edge.
  destruct (edge_from_start e) eqn:Hfs, (edge_to_end e) eqn:Hte; simpl;
    by rewrite ?Hfs, ?Hte.
Qed.

Lemma flip_edge_inverting (e : Edge) : is_inverting (flip_edge e) = is_inverting e.
Proof.
  unfold flip_edge, is_inverting.
  destruct (edge_from_start e) eqn:Hfs, (edge_to_end e) eqn:Hte; simpl;
    by rewrite ?Hfs, ?Hte.
Qed.

Lemma bind_flip_edges (l : list Edge) (s : NodeSide) :
  (flip_edge <$> l) ≫= (fun e => new_entries e s) = l ≫= fun e => new_entries e s.
Proof.
  induction l as [| e l IH]; [reflexivity |].
  rewrite fmap_cons, !bind_cons, flip_edge_entries, IH. reflexivity.
Qed.

Lemma existsb_flip_edges (l : list Edge) :
  existsb is_inverting (flip_edge <$> l) = existsb is_inverting l.
Proof.
  induction l as [| e l IH]; [reflexivity |].
  rewrite fmap_cons. simpl. by rewrite flip_edge_inverting, IH.
Qed.

(** With exact adjacency lists, the entries of every edge are in the lists
    of its sides. *)
Lemma exact_entries_listed (g : VG) (e : Edge) :
  adjacency_exact g -> e ∈ graph_edge g ->
  entry_for (side_a e) (side_b e) ∈ adjacency g (side_a e)
  /\ entry_for (side_b e) (side_a e) ∈ adjacency g (side_b e).
Proof.
  intros Hex He. destruct (new_entries_own e) as [Ha Hb].
  split; apply (adjacency_exact_elem g _ _ Hex); by exists e.
Qed.

(** One turn of the loop on an edge that is reversed at both ends. *)
Lemma flip_edge_at_spec (g : VG) (i : nat) (e : Edge) :
  edges_wf g -> adjacency_exact g -> graph_edge g !! i = Some e ->
  edge_from_start e = true -> edge_to_end e = true ->
  graph_edge (flip_edge_at g i) = <[i := flip_edge e]> (graph_edge g)
  /\ edges_wf (flip_edge_at g i) /\ adjacency_exact (flip_edge_at g i)
  /\ same_nodes g (flip_edge_at g i).
Proof.
  intros Hwf Hex Hi Hfs Hte. pose proof Hwf as (E1 & E2 & E3 & _).
  destruct (E2 _ _ Hi) as [Hlook Hidx].
  assert (Hhas : has_edge g e = true) by (apply has_edge_true; by eexists).
  assert (Hflip : flip_edge e = mkEdge (edge_to e) (edge_from e) false false).
  { unfold flip_edge. by rewrite Hfs, Hte. }
  pose proof (flip_edge_key e) as Hkey.
  unfold flip_edge_at. rewrite Hi, Hfs, Hte. cbn [andb]. cbv zeta.
  rewrite <- Hflip.
  set (g1 := unindex_edge_by_node_sides g e).
  destruct (unindex_edge_fields g e Hhas) as (Hsame1 & HL1 & HI1 & HB1).
  fold g1 in Hsame1, HL1, HI1, HB1.
  set (g2 := with_graph_edge g1 (<[i := flip_edge e]> (graph_edge g1))).
  destruct (index_edge_fields g2 (flip_edge e)) as (Hsame3 & HL3 & HI3 & HB3).
  set (g3 := index_edge_by_node_sides g2 (flip_edge e)) in *.
  assert (HL : graph_edge g3 = <[i := flip_edge e]> (graph_edge g)).
  { rewrite HL3. unfold g2. simpl. by rewrite HL1. }
  assert (HB : edge_by_sides g3
               = <[pair_from_edge e := flip_edge e]> (edge_by_sides g)).
  { rewrite HB3, Hkey. unfold g2. simpl. rewrite HB1. apply insert_delete_eq. }
  assert (HI : edge_index g3 = edge_index g).
  { rewrite HI3. unfold g2. simpl. exact HI1. }
  assert (Hlt : (i < length (graph_edge g))%nat) by (by apply lookup_lt_Some in Hi).
  assert (Hexact : adjacency_exact g3).
  { intros s. rewrite HL, insert_take_drop by assumption.
    unfold g3. rewrite adjacency_index.
    change (adjacency g2 s) with (adjacency g1 s).
    unfold g1. rewrite (adjacency_unindex g e s Hhas).
    rewrite bind_app. csimpl. rewrite flip_edge_entries.
    rewrite (Permutation_app_comm (new_entries e s)), app_assoc.
    apply Permutation_app_tail. rewrite <- bind_app.
    apply foldl_swap_remove_perm.
    rewrite (Hex s). rewrite <- (take_drop_middle _ _ _ Hi) at 1.
    rewrite !bind_app. csimpl.
    rewrite (Permutation_app_comm (take i (graph_edge g) ≫= _)), <- app_assoc.
    apply Permutation_app_head. apply Permutation_app_comm. }
  split; [exact HL |]. split; [| split; [exact Hexact |]].
  - split; [| split; [| split]].
    + rewrite HL, list_fmap_insert, Hkey.
      rewrite list_insert_id; [assumption |]. by rewrite list_lookup_fmap, Hi.
    + intros j e0. rewrite HL, HB, HI. intros Hj.
      destruct (decide (i = j)) as [<- | Hij].
      * rewrite list_lookup_insert_eq in Hj by assumption. injection Hj as <-.
        rewrite Hkey, lookup_insert_eq. by split.
      * rewrite list_lookup_insert_ne in Hj by assumption.
        destruct (E2 _ _ Hj) as [Hl Hx]. split; [| assumption].
        rewrite lookup_insert_ne; [assumption |]. intros Heq.
        destruct (edges_wf_keys_inj g i j e e0 Hwf Hi Hj Heq). congruence.
    + intros k e0. rewrite HL, HB. intros Hk.
      apply lookup_insert_Some in Hk as [[<- <-] | [Hne Hk]].
      * split; [| exact Hkey]. apply list_elem_of_lookup. exists i.
        by apply list_lookup_insert_eq.
      * destruct (E3 _ _ Hk) as [[j Hj]%list_elem_of_lookup Hkey0].
        split; [| assumption]. apply list_elem_of_lookup. exists j.
        rewrite list_lookup_insert_ne; [assumption |]. intros <-.
        rewrite Hi in Hj. injection Hj as <-. congruence.
    + intros e0 He0. by apply exact_entries_listed.
  - eapply same_nodes_trans; [exact Hsame1 |].
    eapply same_nodes_trans; [| exact Hsame3].
    unfold same_nodes. by repeat split.
Qed.

Lemma flip_edge_at_other (g : VG) (i : nat) (e : Edge) :
  graph_edge g !! i = Some e -> edge_from_start e && edge_to_end e = false ->
  flip_edge_at g i = g /\ flip_edge e = e.
Proof.
  intros Hi Hno. unfold flip_edge_at, flip_edge. by rewrite Hi, Hno.
Qed.

(** The loop of [flip_doubly_reversed_edges], from slot [k] on. *)
Lemma fold_flip_edges (l : list Edge) (m k : nat) (g : VG) :
  (k + m)%nat = length l ->
  graph_edge g = (flip_edge <$> take k l) ++ drop k l ->
  edges_wf g -> adjacency_exact g ->
  graph_edge (foldl flip_edge_at g (seq k m)) = flip_edge <$> l
  /\ edges_wf (foldl flip_edge_at g (seq k m))
  /\ adjacency_exact (foldl flip_edge_at g (seq k m))
  /\ same_nodes g (foldl flip_edge_at g (seq k m)).
Proof.
  revert k g. induction m as [| m IH]; intros k g Hlen HL Hwf Hex.
  - simpl. rewrite HL, take_ge, drop_ge, app_nil_r by lia.
    split; [reflexivity |]. split; [assumption |].
    split; [assumption | apply same_nodes_refl].
  - simpl.
    destruct (lookup_lt_is_Some_2 l k) as [e He]; [lia |].
    assert (Hk : length (flip_edge <$> take k l) = k).
    { rewrite length_fmap, length_take. lia. }
    assert (Hi : graph_edge g !! k = Some e).
    { rewrite HL, lookup_app_r by lia. rewrite Hk, Nat.sub_diag.
      by rewrite (drop_S _ _ _ He). }
    assert (Hstep : graph_edge (flip_edge_at g k)
                    = (flip_edge <$> take (S k) l) ++ drop (S k) l
                    /\ edges_wf (flip_edge_at g k)
                    /\ adjacency_exact (flip_edge_at g k)
                    /\ same_nodes g (flip_edge_at g k)).
    { rewrite (take_S_r _ _ _ He), fmap_app, <- app_assoc. csimpl.
      destruct (edge_from_start e && edge_to_end e) eqn:Hboth.
      - apply andb_true_iff in Hboth as [Hfs Hte].
        destruct (flip_edge_at_spec g k e Hwf Hex Hi Hfs Hte)
          as (HL' & Hwf' & Hex' & Hsame').
        split; [| by split].
        rewrite HL', HL, (drop_S _ _ _ He).
        rewrite insert_app_r_alt by lia. by rewrite Hk, Nat.sub_diag.
      - destruct (flip_edge_at_other g k e Hi Hboth) as [-> ->].
        split; [by rewrite HL, (drop_S _ _ _ He) |].
        split; [assumption |]. split; [assumption | apply same_nodes_refl]. }
    destruct Hstep as (HL' & Hwf' & Hex' & Hsame').
    destruct (IH (S k) (flip_edge_at g k) ltac:(lia) HL' Hwf' Hex')
      as (HLf & Hwff & Hexf & Hsamef).
    split; [assumption |]. split; [assumption |]. split; [assumption |].
    eapply same_nodes_trans; [exact Hsame' | exact Hsamef].
Qed.

(** X29. [flip_doubly_reversed_edges] on a consistent edge store with exact
    adjacency lists.  Every edge that runs from a start to an end is replaced,
    in its slot, by the edge from the end of its [to] node to the start of its
    [from] node; the other edges are kept.  Afterwards no edge is reversed at
    both ends.  Every edge joins the same two sides as before: [get_edge]
    finds the replaced record under the same sides, every adjacency list
    holds the same entries, and the same edges are inverting.  The node
    tables are untouched, and the tables stay consistent. *)
Theorem flip_doubly_reversed_edges_spec (g : VG) :
  edges_wf g -> adjacency_exact g ->
  let g' := flip_doubly_reversed_edges g in
  graph_edge g' = flip_edge <$> graph_edge g
  /\ (forall e, e ∈ graph_edge g' -> edge_from_start e && edge_to_end e = false)
  /\ pair_from_edge <$> graph_edge g' = pair_from_edge <$> graph_edge g
  /\ (forall a b, get_edge g' a b = flip_edge <$> get_edge g a b)
  /\ (forall s, adjacency g' s ≡ₚ adjacency g s)
  /\ has_inverting_edges g' = has_inverting_edges g
  /\ edges_wf g' /\ adjacency_exact g' /\ same_nodes g g'.
Proof.
  intros Hwf Hex g'.
  destruct (fold_flip_edges (graph_edge g) (length (graph_edge g)) 0 g)
    as (HL & Hwf' & Hex' & Hsame); [reflexivity | by rewrite drop_0 | assumption..|].
  fold (flip_doubly_reversed_edges g) in HL, Hwf', Hex', Hsame. fold g' in HL, Hwf', Hex', Hsame.
  split; [exact HL |]. split.
  { intros e. rewrite HL. intros (e0 & -> & _)%list_elem_of_fmap.
    apply flip_edge_forward. }
  split.
  { rewrite HL, <- list_fmap_compose. apply list_fmap_ext.
    intros i e _. apply flip_edge_key. }
  split.
  { intros a b. unfold get_edge.
    pose proof Hwf as (_ & E2 & E3 & _). pose proof Hwf' as (_ & E2' & E3' & _).
    destruct (edge_by_sides g !! minmax a b) as [e |] eqn:Hlook; simpl.
    - destruct (E3 _ _ Hlook) as [[i Hi]%list_elem_of_lookup Hkey].
      assert (Hi' : graph_edge g' !! i = Some (flip_edge e)).
      { by rewrite HL, list_lookup_fmap, Hi. }
      destruct (E2' _ _ Hi') as [Hl' _]. by rewrite flip_edge_key, Hkey in Hl'.
    - destruct (edge_by_sides g' !! minmax a b) as [e' |] eqn:Hlook'; [| reflexivity].
      destruct (E3' _ _ Hlook') as [He' Hkey']. rewrite HL in He'.
      apply list_elem_of_fmap in He' as (e & -> & [i Hi]%list_elem_of_lookup).
      destruct (E2 _ _ Hi) as [Hl _]. rewrite <- flip_edge_key, Hkey' in Hl.
      congruence. }
  split.
  { intros s. by rewrite (Hex' s), (Hex s), HL, bind_flip_edges. }
  split; [| by split].
  unfold has_inverting_edges. rewrite HL. apply existsb_flip_edges.
Qed.

Lemma reversed_edge_graph_ok :
  edges_wf reversed_edge_graph /\ adjacency_exact reversed_edge_graph.
Proof.
  split; [apply create_edge_wf, chain_graph_edges_wf |].
  apply create_edge_exact. unfold chain_graph.
  destruct (create_node empty_graph (dna "A")) as [[g1 n1] |] eqn:H1;
    [| apply empty_graph_exact].
  destruct (create_node g1 (dna "C")) as [[g2 n2] |] eqn:H2;
    [| apply empty_graph_exact].
  apply create_edge_exact.
  apply create_node_fields in H1 as (_ & _ & Hse1 & _).
  apply create_node_fields in H2 as (_ & _ & Hse2 & _).
  apply (same_edges_exact g1); [exact Hse2 |].
  apply (same_edges_exact empty_graph); [exact Hse1 | apply empty_graph_exact].
Qed.

Lemma flip_doubly_reversed_edges_spec_witness :
  (edges_wf reversed_edge_graph /\ adjacency_exact reversed_edge_graph)
  /\ graph_edge (flip_doubly_reversed_edges reversed_edge_graph)
     = flip_edge <$> graph_edge reversed_edge_graph
  /\ edges_wf (flip_doubly_reversed_edges reversed_edge_graph).
Proof.
  split; [exact reversed_edge_graph_ok |].
  destruct reversed_edge_graph_ok as [Hwf Hex].
  destruct (flip_doubly_reversed_edges_spec reversed_edge_graph Hwf Hex)
    as (HL & _ & _ & _ & _ & _ & Hwf' & _).
  exact (conj HL Hwf').
Defined.

(** * Joining the head nodes to a node *)

Lemma erase_first_filter (node : Node) (l : list Node) :
  NoDup l -> erase_first node l = filter (fun x => x <> node) l.
Proof.
  induction l as [| x l IH]; [reflexivity |].
  intros [Hx Hl]%NoDup_cons. simpl. rewrite filter_cons.
  destruct (decide (x = node)) as [-> | Hne].
  - rewrite decide_False by (intros H; by apply H).
    symmetry. apply filter_all. intros y Hy ->. done.
  - rewrite decide_True by assumption. f_equal. by apply IH.
Qed.

(** The side pairs stay distinct when edges from one side to the starts of
    nodes with distinct ids are added, if nothing was attached to those
    starts. *)
Lemma spoke_keys_NoDup (old : list Edge) (c : Z) (from_start : bool) (ids : list Z) :
  NoDup (pair_from_edge <$> old) ->
  (forall e x, e ∈ old -> x ∈ ids -> (x, false) <> side_a e /\ (x, false) <> side_b e) ->
  NoDup ids ->
  NoDup (pair_from_edge <$> (old ++ ((fun x => mkEdge c x from_start false) <$> ids))).
Proof.
  intros Hold Hfree Hids.
  rewrite fmap_app. apply NoDup_app. split; [assumption |]. split.
  - intros k (e & -> & He)%list_elem_of_fmap Hk.
    rewrite <- list_fmap_compose in Hk.
    apply list_elem_of_fmap in Hk as (x & Hkey & Hx).
    destruct (Hfree e x He Hx) as [Ha Hb]. simpl in Hkey.
    rewrite !pair_from_edge_sides in Hkey.
    apply minmax_sides in Hkey as [[_ H2] | [H1 _]]; unfold side_b in *; simpl in *;
      congruence.
  - rewrite <- list_fmap_compose. apply NoDup_fmap_2_strong; [| assumption].
    intros x y Hx Hy Hkey. simpl in Hkey. rewrite !pair_from_edge_sides in Hkey.
    unfold side_a, side_b in Hkey. simpl in Hkey.
    apply minmax_sides in Hkey as [[H1 H2] | [H1 H2]]; congruence.
Qed.

(** Creating edges leaves the list of a side that none of them attaches to
    as it is. *)
Lemma fold_create_adjacency_other (l : list Edge) (g : VG) (s : NodeSide) :
  l ≫= (fun e => new_entries e s) = [] ->
  adjacency (foldl (fun g e => (create_edge g (edge_from e) (edge_to e)
                                  (edge_from_start e) (edge_to_end e)).1) g l) s
  = adjacency g s.
Proof.
  revert g. induction l as [| e l IH]; intros g Hbind; [reflexivity |].
  csimpl in Hbind. apply app_eq_nil in Hbind as [He Hl]. simpl.
  rewrite (IH _ Hl).
  destruct (create_edge_spec g (edge_from e) (edge_to e) (edge_from_start e)
              (edge_to_end e)) as [_ Hspec].
  assert (Hx : mkEdge (edge_from e) (edge_to e) (edge_from_start e) (edge_to_end e) = e)
    by (by destruct e).
  rewrite Hx in Hspec. destruct (edge_by_sides g !! pair_from_edge e).
  - by destruct Hspec as [-> _].
  - destruct Hspec as (_ & _ & _ & _ & ->). by rewrite He, app_nil_r.
Qed.

(** X30. [join_heads] with a node of a consistent graph with exact adjacency
    lists.  An edge from the node (from its start when [from_start] is set,
    else from its end) to the start of every other node that had nothing on
    its start is appended, in the order of the node list.  Afterwards no
    other node is left with nothing on its start; the node itself is, when it
    was before and its start was not used for the new edges.  The ends of
    the other nodes hold what they held, the nodes are untouched and the
    graph stays consistent. *)
Theorem join_heads_spec (g : VG) (node : Node) (from_start : bool) :
  nodes_wf g -> edges_wf g -> adjacency_exact g -> node ∈ graph_node g ->
  let heads := filter (fun h => h <> node) (head_nodes g) in
  let g' := join_heads g node from_start in
  graph_edge g'
  = graph_edge g ++ ((fun h => mkEdge (node_id node) (node_id h) from_start false) <$> heads)
  /\ (forall h, h ∈ head_nodes g' -> h = node)
  /\ (node ∈ head_nodes g' <-> node ∈ head_nodes g /\ (from_start = false \/ heads = []))
  /\ (forall n, n ∈ graph_node g -> n <> node ->
        adjacency g' (node_id n, true) = adjacency g (node_id n, true))
  /\ same_nodes g g' /\ nodes_wf g' /\ edges_wf g' /\ adjacency_exact g'.
Proof.
  intros Hnw Hew Hex Hnode heads g'.
  pose proof Hnw as (N1 & _).
  assert (Hnd : NoDup (graph_node g)) by (by apply NoDup_fmap_1 in N1).
  assert (Hheads_in : forall h, h ∈ heads -> h ∈ graph_node g /\ h <> node
                                /\ adjacency g (node_id h, false) = []).
  { intros h [Hne [Hp Hin]%list_elem_of_filter]%list_elem_of_filter.
    split; [assumption |]. split; [assumption | by apply head_filter]. }
  assert (Hid_inj : forall a b, a ∈ graph_node g -> b ∈ graph_node g ->
                                node_id a = node_id b -> a = b).
  { intros a b [i Hi]%list_elem_of_lookup [j Hj]%list_elem_of_lookup Heq.
    by destruct (nodes_wf_ids_inj g i j a b Hnw Hi Hj Heq). }
  set (new_edges := (fun h => mkEdge (node_id node) (node_id h) from_start false)
                      <$> heads).
  assert (Hfold : g' = foldl (fun g e => (create_edge g (edge_from e) (edge_to e)
                                            (edge_from_start e) (edge_to_end e)).1)
                             g new_edges).
  { unfold g', join_heads, connect_node_to_nodes, new_edges, heads.
    rewrite erase_first_filter by (by apply NoDup_filter).
    by rewrite foldl_fmap. }
  assert (Hkeys : NoDup (pair_from_edge <$> (graph_edge g ++ new_edges))).
  { unfold new_edges.
    rewrite (list_fmap_compose node_id
               (fun x => mkEdge (node_id node) x from_start false)).
    apply spoke_keys_NoDup.
    - by destruct Hew.
    - intros e x He (h & -> & Hh)%list_elem_of_fmap.
      destruct (Hheads_in h Hh) as (_ & _ & Hnil).
      by apply (proj1 (adjacency_nil g _ Hex) Hnil).
    - unfold heads, head_nodes. by do 2 apply NoDup_fmap_filter_ids. }
  destruct (fold_create_fresh new_edges g Hew Hex Hkeys) as (HL & Hew' & Hex' & Hsame).
  rewrite <- Hfold in HL, Hew', Hex', Hsame.
  pose proof (same_nodes_wf g g' Hsame Hnw) as Hnw'.
  assert (HN : graph_node g' = graph_node g) by (by destruct Hsame).
  assert (Hstart : forall n, n ∈ graph_node g ->
            adjacency g' (node_id n, false) = []
            <-> adjacency g (node_id n, false) = []
                /\ (n ∉ heads) /\ (n = node -> from_start = false \/ heads = [])).
  { intros n Hn. rewrite (adjacency_nil g' _ Hex'), (adjacency_nil g _ Hex), HL. split.
    - intros Hno. split; [intros e He; apply Hno, elem_of_app; by left |]. split.
      + intros Hh.
        destruct (Hno (mkEdge (node_id node) (node_id n) from_start false)) as [_ Hb].
        * apply elem_of_app. right. apply list_elem_of_fmap. by exists n.
        * by apply Hb.
      + intros ->. destruct from_start; [right | by left].
        destruct heads as [| h hs] eqn:Hhs; [reflexivity |].
        destruct (Hno (mkEdge (node_id node) (node_id h) true false)) as [Ha _].
        * apply elem_of_app. right. unfold new_edges. csimpl. by left.
        * by destruct Ha.
    - intros (Hold & Hnh & Hself) e [He | He]%elem_of_app; [by apply Hold |].
      apply list_elem_of_fmap in He as (h & -> & Hh).
      destruct (Hheads_in h Hh) as (Hhin & Hhne & _).
      unfold side_a, side_b. simpl. split.
      + intros [= Hid Hfs]. apply Hid_inj in Hid; [| assumption..]. subst n.
        destruct (Hself eq_refl) as [-> | Hnil]; [discriminate |].
        rewrite Hnil in Hh. by apply elem_of_nil in Hh.
      + intros [= Hid]. apply Hid_inj in Hid; [| assumption..]. by subst n. }
  split; [exact HL |]. split.
  { intros h [Hp Hin]%list_elem_of_filter. rewrite HN in Hin.
    apply head_filter, (Hstart h Hin) in Hp as (Hold & Hnh & _).
    destruct (decide (h = node)) as [-> | Hne]; [reflexivity |].
    exfalso. apply Hnh. apply list_elem_of_filter. split; [assumption |].
    apply list_elem_of_filter. split; [by apply head_filter | assumption]. }
  split.
  { unfold head_nodes at 1 2. rewrite !list_elem_of_filter, HN, !head_filter.
    rewrite (Hstart node Hnode). split.
    - intros [(Hold & _ & Hself) _]. split; [by split | by apply Hself].
    - intros [[Hold _] Hself]. split; [| assumption]. split; [assumption |].
      split; [| done]. by intros [? _]%list_elem_of_filter. }
  split.
  { intros n Hn Hne.
    rewrite Hfold. apply fold_create_adjacency_other.
    apply bind_nil_iff. intros e (h & -> & Hh)%list_elem_of_fmap.
    destruct (Hheads_in h Hh) as (Hhin & Hhne & _).
    apply new_entries_nil. unfold side_a, side_b. simpl. split.
    - intros [= Hid _]. apply Hid_inj in Hid; [| assumption..]. by subst n.
    - intros [= _]. }
  split; [exact Hsame |]. split; [exact Hnw' |]. split; [exact Hew' | exact Hex'].
Qed.

Lemma join_heads_spec_witness :
  (nodes_wf chain_graph /\ edges_wf chain_graph /\ adjacency_exact chain_graph
   /\ mkNode 2 (dna "C") ∈ graph_node chain_graph)
  /\ (forall h, h ∈ head_nodes (join_heads chain_graph (mkNode 2 (dna "C")) false)
                -> h = mkNode 2 (dna "C"))
  /\ edges_wf (join_heads chain_graph (mkNode 2 (dna "C")) false).
Proof.
  assert (Hex : adjacency_exact chain_graph).
  { unfold chain_graph.
    destruct (create_node empty_graph (dna "A")) as [[g1 n1] |] eqn:H1;
      [| apply empty_graph_exact].
    destruct (create_node g1 (dna "C")) as [[g2 n2] |] eqn:H2;
      [| apply empty_graph_exact].
    apply create_edge_exact.
    apply create_node_fields in H1 as (_ & _ & Hse1 & _).
    apply create_node_fields in H2 as (_ & _ & Hse2 & _).
    apply (same_edges_exact g1); [exact Hse2 |].
    apply (same_edges_exact empty_graph); [exact Hse1 | apply empty_graph_exact]. }
  assert (Hin : mkNode 2 (dna "C") ∈ graph_node chain_graph)
    by (apply (bool_decide_unpack _); vm_compute; exact I).
  split; [exact (conj chain_graph_nodes_wf (conj chain_graph_edges_wf (conj Hex Hin))) |].
  pose proof (join_heads_spec chain_graph (mkNode 2 (dna "C")) false
                chain_graph_nodes_wf chain_graph_edges_wf Hex Hin)
    as (_ & Hheads & _ & _ & _ & _ & Hwf & _).
  exact (conj Hheads Hwf).
Defined.

(** * Re-orienting a node: the replacement *)

(** C10. On a forward handle [apply_orientation] returns the handle and the
    graph as they are.  On a reverse handle, when the call returns, the
    handle it returns is the forward handle of the same node id, the node
    stored under that id carries the reverse complement of the old stored
    sequence, and the path collection is the one of the graph before the
    call; in a consistent graph the old node has left its slot of the node
    list, the new node stands at the end of the list, and the node tables are
    consistent, so that the new node is the only node with that id.  The call
    does return on a reverse handle of a node of a consistent graph whose id
    is not 0 and whose neighbours are nodes of the graph with ids below
    2^63. *)
Theorem apply_orientation_reuses_id (g : VG) (handle : Z) :
  (Handle.get_is_reverse handle = false -> apply_orientation g handle = Ok (g, handle))
  /\ (Handle.get_is_reverse handle = true ->
      forall (g' : VG) (new_handle : Z),
        apply_orientation g handle = Ok (g', new_handle) ->
        exists old : Node,
          node_by_id g !! Handle.get_id handle = Some old
          /\ new_handle = Handle.get_handle (Handle.get_id handle) false
          /\ node_by_id g' !! Handle.get_id handle
             = Some (mkNode (Handle.get_id handle)
                            (reverse_complement (node_sequence old)))
          /\ paths g' = paths g
          /\ (nodes_wf g -> edges_wf g ->
              exists i : nat,
                graph_node g !! i = Some old
                /\ graph_node g'
                   = release_slot (graph_node g) i
                     ++ [mkNode (Handle.get_id handle)
                                (reverse_complement (node_sequence old))]
                /\ old :: graph_node g'
                   ≡ₚ graph_node g
                      ++ [mkNode (Handle.get_id handle)
                                 (reverse_complement (node_sequence old))]
                /\ nodes_wf g'
                /\ (forall n, n ∈ graph_node g' -> node_id n = Handle.get_id handle ->
                      n = mkNode (Handle.get_id handle)
                                 (reverse_complement (node_sequence old)))))
  /\ (nodes_wf g -> edges_wf g ->
      0 <= handle < 2 ^ 64 -> Handle.get_is_reverse handle = true ->
      has_node g (Handle.get_id handle) = true -> Handle.get_id handle <> 0 ->
      (forall x, x ∈ edges_start g (Handle.get_id handle)
                       ++ edges_end g (Handle.get_id handle) ->
                 has_node g x.1 = true /\ 0 <= x.1 < 2 ^ 63) ->
      exists g',
        apply_orientation g handle
        = Ok (g', Handle.get_handle (Handle.get_id handle) false)).
Proof.
  split; [| split].
  - intros Hfwd. unfold apply_orientation. by rewrite Hfwd.
  - intros Hrev g' new_handle. unfold apply_orientation. rewrite Hrev. cbn [negb].
    set (lefts := follow_edges_collect g handle true).
    set (rights := follow_edges_collect g handle false).
    pose proof (fold_same_nodes (fun g l => destroy_edge_handles g l handle) lefts g
                  (fun g l => destroy_edge_handles_same_nodes g l handle)) as Hs1.
    pose proof (fun He : edges_wf g =>
                  fold_edges_wf (fun g l => destroy_edge_handles g l handle) lefts g
                    ltac:(intros g0 x Hw; cbv beta; rewrite destroy_edge_handles_sides;
                          by apply destroy_edge_wf) He) as He1.
    set (g1 := foldl (fun g l => destroy_edge_handles g l handle) g lefts) in *.
    pose proof (fold_same_nodes (fun g r => destroy_edge_handles g handle r) rights g1
                  (fun g r => destroy_edge_handles_same_nodes g handle r)) as Hs2.
    pose proof (fun He : edges_wf g1 =>
                  fold_edges_wf (fun g r => destroy_edge_handles g handle r) rights g1
                    ltac:(intros g0 x Hw; cbv beta; rewrite destroy_edge_handles_sides;
                          by apply destroy_edge_wf) He) as He2.
    set (g2 := foldl (fun g r => destroy_edge_handles g handle r) g1 rights) in *.
    pose proof (same_nodes_trans _ _ _ Hs1 Hs2) as Hs12.
    pose proof Hs12 as (S1 & S2 & _ & _ & S5).
    unfold get_sequence. rewrite S2.
    destruct (node_by_id g !! Handle.get_id handle) as [old |] eqn:Hold; [| discriminate].
    change (negb (Z.land handle Handle.HIGH_BIT =? 0)) with (Handle.get_is_reverse handle).
    rewrite Hrev. simpl.
    unfold destroy_handle, destroy_node, get_node. rewrite S2, Hold. simpl.
    destruct (create_node_with_id _ _ _) as [[g4 new_node] |] eqn:Hc; [| discriminate].
    simpl.
    pose proof Hc as Hc'.
    apply create_node_with_id_fields in Hc as (Hnz & Hn & _ & HL4 & HB & _ & _ & HP).
    destruct (reconnect_left g4 _ _ _ lefts) as [g5 |] eqn:Hl; [| discriminate]. simpl.
    destruct (reconnect_right g5 _ _ _ rights) as [g6 |] eqn:Hr; [| discriminate]. simpl.
    intros [= <- <-].
    apply reconnect_left_same_nodes in Hl. apply reconnect_right_same_nodes in Hr.
    pose proof (same_nodes_trans _ _ _ Hl Hr) as Hs46.
    pose proof Hs46 as (T1 & T2 & _ & _ & T5).
    exists old. split; [reflexivity |]. split; [reflexivity |]. split; [| split].
    + rewrite T2, HB, lookup_insert_eq. by rewrite Hn.
    + by rewrite T5, HP, destroy_node_ptr_paths, S5.
    + intros Hnw Hew.
      pose proof (same_nodes_wf _ _ Hs12 Hnw) as Hn2.
      pose proof (He2 (He1 Hew)) as Hew2.
      pose proof Hnw as (_ & _ & N3). destruct (N3 _ _ Hold) as [Hold_in Hold_id].
      apply list_elem_of_lookup in Hold_in as [i Hi].
      assert (Hi2 : graph_node g2 !! i = Some old) by (by rewrite S1).
      destruct (destroy_node_ptr_spec g2 old i old Hn2 Hew2 Hi2 eq_refl)
        as (Hn3 & _ & HL3 & HB3 & _).
      assert (Hgone : has_node (destroy_node_ptr g2 old) (Handle.get_id handle) = false).
      { unfold has_node. apply bool_decide_eq_false.
        rewrite HB3, Hold_id, lookup_delete_eq. by intros [? ?]. }
      destruct (create_node_with_id_wf (destroy_node_ptr g2 old)
                  (reverse_complement (node_sequence old)) (Handle.get_id handle)
                  Hn3 Hnz Hgone) as (g4' & Hc4 & Hn4 & _).
      rewrite Hc' in Hc4. injection Hc4 as <- _.
      pose proof (same_nodes_wf _ _ Hs46 Hn4) as Hn6.
      assert (HL6 : graph_node g6
                    = release_slot (graph_node g) i
                      ++ [mkNode (Handle.get_id handle)
                                 (reverse_complement (node_sequence old))]).
      { by rewrite T1, HL4, HL3, S1, Hn. }
      exists i. split; [exact Hi |]. split; [exact HL6 |]. split; [| split; [exact Hn6 |]].
      * rewrite HL6, app_comm_cons. apply Permutation_app_tail.
        symmetry. by apply release_slot_perm.
      * intros n Hin Hid.
        assert (Hnew : mkNode (Handle.get_id handle)
                              (reverse_complement (node_sequence old)) ∈ graph_node g6).
        { rewrite HL6. apply elem_of_app. right. by left. }
        apply list_elem_of_lookup in Hin as [j Hj].
        apply list_elem_of_lookup in Hnew as [k Hk].
        by destruct (nodes_wf_ids_inj g6 j k _ _ Hn6 Hj Hk Hid).
  - intros Hn He Hword Hrev Hhas Hnonzero Hneigh.
    set (id := Handle.get_id handle) in *.
    pose proof (get_id_range handle) as Hid. fold id in Hid.
    assert (Hhandle : handle = Handle.get_handle id true).
    { rewrite get_handle_value by assumption.
      pose proof (handle_value handle Hword) as Hv. by rewrite Hrev in Hv. }
    assert (Hflip : Handle.flip handle = Handle.get_handle id false).
    { rewrite Hhandle at 1. by rewrite flip_get_handle. }
    assert (Hnew_id : Handle.get_id (Handle.get_handle id false) = id)
      by (by apply get_id_get_handle).
    unfold apply_orientation. rewrite Hrev. cbn [negb]. cbv zeta. fold id.
    set (lefts := follow_edges_collect g handle true).
    set (rights := follow_edges_collect g handle false).
    pose proof (fold_same_nodes (fun g l => destroy_edge_handles g l handle) lefts g
                  (fun g l => destroy_edge_handles_same_nodes g l handle)) as Hs1.
    pose proof (fold_edges_wf (fun g l => destroy_edge_handles g l handle) lefts g
                  ltac:(intros g0 x Hw; cbv beta; rewrite destroy_edge_handles_sides;
                        by apply destroy_edge_wf) He) as He1.
    set (g1 := foldl (fun g l => destroy_edge_handles g l handle) g lefts) in *.
    pose proof (fold_same_nodes (fun g r => destroy_edge_handles g handle r) rights g1
                  (fun g r => destroy_edge_handles_same_nodes g handle r)) as Hs2.
    pose proof (fold_edges_wf (fun g r => destroy_edge_handles g handle r) rights g1
                  ltac:(intros g0 x Hw; cbv beta; rewrite destroy_edge_handles_sides;
                        by apply destroy_edge_wf) He1) as He2.
    set (g2 := foldl (fun g r => destroy_edge_handles g handle r) g1 rights) in *.
    pose proof (same_nodes_trans _ _ _ Hs1 Hs2) as Hs12.
    pose proof (same_nodes_wf _ _ Hs12 Hn) as Hn2.
    destruct Hs12 as (S1 & S2 & _ & _ & _).
    apply has_node_true in Hhas as [old Hold].
    unfold get_sequence at 1. rewrite S2. fold id. rewrite Hold.
    change (negb (Z.land handle Handle.HIGH_BIT =? 0)) with (Handle.get_is_reverse handle).
    rewrite Hrev. cbn [mbind res_bind].
    unfold destroy_handle, destroy_node, get_node. rewrite S2. fold id. rewrite Hold.
    cbn [mbind res_bind].
    pose proof Hn as (_ & _ & N3). destruct (N3 _ _ Hold) as [Hold_in Hold_id].
    assert (Hold2 : old ∈ graph_node g2) by (by rewrite S1).
    apply list_elem_of_lookup in Hold2 as [i Hi].
    destruct (destroy_node_ptr_spec g2 old i old Hn2 He2 Hi eq_refl)
      as (Hn3 & He3 & _ & HB3 & _).
    rewrite Hold_id, S2 in HB3.
    set (g3 := destroy_node_ptr g2 old) in *.
    assert (Hgone : has_node g3 id = false).
    { unfold has_node. apply bool_decide_eq_false. rewrite HB3, lookup_delete_eq.
      by intros [? ?]. }
    destruct (create_node_with_id_wf g3 (reverse_complement (node_sequence old)) id
                Hn3 Hnonzero Hgone) as (g4 & Hcreate & Hn4 & Hse4 & _ & _).
    rewrite Hcreate. cbn [mbind res_bind].
    apply create_node_with_id_fields in Hcreate as (_ & _ & _ & _ & HB4 & _).
    rewrite HB3 in HB4.
    pose proof (same_edges_wf _ _ Hse4 He3) as He4.
    assert (Hhas4 : forall x, has_node g4 x = has_node g x).
    { intros x. unfold has_node. rewrite HB4.
      destruct (decide (x = id)) as [-> | Hne].
      - rewrite lookup_insert_eq, Hold. apply bool_decide_ext. split; by eexists.
      - by rewrite lookup_insert_ne, lookup_delete_ne by congruence. }
    assert (Hentries : forall (go_left : bool) h,
               h ∈ follow_edges_collect g handle go_left ->
               exists x, h = Handle.get_handle x.1 (negb x.2)
                         /\ has_node g x.1 = true /\ 0 <= x.1 < 2 ^ 63).
    { intros go_left h. rewrite follow_edges_collect_adjacency, Hrev. fold id.
      replace (negb (xorb go_left true)) with go_left by (by destruct go_left).
      intros (x & -> & Hx)%list_elem_of_fmap. exists x.
      split; [reflexivity |]. apply Hneigh. apply elem_of_app.
      unfold adjacency in Hx. simpl in Hx. destruct go_left; auto. }
    assert (Hrenamed : forall h,
               (if h =? handle then Handle.flip (Handle.get_handle id false)
                else if h =? Handle.flip handle then Handle.get_handle id false else h)
               = h).
    { intros h. rewrite <- Hflip, flip_flip.
      destruct (Z.eqb_spec h handle) as [-> | _]; [reflexivity |].
      by destruct (Z.eqb_spec h (Handle.flip handle)) as [-> | _]. }
    destruct (reconnect_left_ok handle (Handle.flip handle) (Handle.get_handle id false)
                lefts g4 Hn4 He4) as (g5 & Hleft & Hn5 & He5 & Hs5 & _).
    { by rewrite Hnew_id, Hhas4, (proj2 (has_node_true g id)) by (by rewrite Hold). }
    { intros l Hl. rewrite (Hrenamed l), Hhas4.
      destruct (Hentries true l Hl) as (x & -> & Hx & Hrange).
      by rewrite get_id_get_handle. }
    rewrite Hleft. cbn [mbind res_bind].
    assert (Hhas5 : forall x, has_node g5 x = has_node g x).
    { intros x. rewrite <- Hhas4. destruct Hs5 as (_ & SB & _). unfold has_node.
      by rewrite SB. }
    destruct (reconnect_right_ok handle (Handle.flip handle) (Handle.get_handle id false)
                rights g5 Hn5 He5) as (g6 & Hright & _).
    { by rewrite Hnew_id, Hhas5, (proj2 (has_node_true g id)) by (by rewrite Hold). }
    { intros r Hr. rewrite (Hrenamed r), Hhas5.
      destruct (Hentries false r Hr) as (x & -> & Hx & Hrange).
      by rewrite get_id_get_handle. }
    rewrite Hright. cbn [mbind res_bind].
    by exists g6.
Qed.

Lemma apply_orientation_reuses_id_witness :
  (Handle.get_is_reverse node_2_reverse = true
   /\ apply_orientation loops_graph node_2_reverse
      = Ok (loops_graph_node_2_reoriented, Handle.get_handle 2 false)
   /\ nodes_wf loops_graph /\ edges_wf loops_graph)
  /\ graph_node loops_graph = [mkNode 1 (dna "ACGT"); mkNode 2 (dna "GG")]
  /\ graph_node loops_graph_node_2_reoriented
     = [mkNode 1 (dna "ACGT"); mkNode 2 (dna "CC")]
  /\ exists old : Node,
       node_by_id loops_graph !! Handle.get_id node_2_reverse = Some old
       /\ Handle.get_handle 2 false
          = Handle.get_handle (Handle.get_id node_2_reverse) false
       /\ node_by_id loops_graph_node_2_reoriented !! Handle.get_id node_2_reverse
          = Some (mkNode (Handle.get_id node_2_reverse)
                         (reverse_complement (node_sequence old)))
       /\ paths loops_graph_node_2_reoriented = paths loops_graph
       /\ exists i : nat,
            graph_node loops_graph !! i = Some old
            /\ graph_node loops_graph_node_2_reoriented
               = release_slot (graph_node loops_graph) i
                 ++ [mkNode (Handle.get_id node_2_reverse)
                            (reverse_complement (node_sequence old))]
            /\ nodes_wf loops_graph_node_2_reoriented.
Proof.
  assert (Hrev : Handle.get_is_reverse node_2_reverse = true) by reflexivity.
  assert (Hrun : apply_orientation loops_graph node_2_reverse
                 = Ok (loops_graph_node_2_reoriented, Handle.get_handle 2 false))
    by (vm_compute; reflexivity).
  assert (Hn : nodes_wf loops_graph)
    by (apply nodes_wf_check_sound; vm_compute; reflexivity).
  split; [exact (conj Hrev (conj Hrun (conj Hn loops_graph_edges_wf))) |].
  split; [vm_compute; reflexivity |]. split; [vm_compute; reflexivity |].
  destruct (proj1 (proj2 (apply_orientation_reuses_id loops_graph node_2_reverse))
              Hrev _ _ Hrun) as (old & Hold & Hh & Hnew & Hp & Hlist).
  destruct (Hlist Hn loops_graph_edges_wf) as (i & Hi & HL & _ & Hn' & _).
  exists old. split; [exact Hold |]. split; [exact Hh |]. split; [exact Hnew |].
  split; [exact Hp |]. exists i. exact (conj Hi (conj HL Hn')).
Defined.

(** * Dividing a node: the check of the offsets *)

(** The check reports the first offset that lies outside the closed
    interval. *)
Lemma check_positions_first (node : Node) (pre post : list Z) (bad : Z) :
  (forall pos, pos ∈ pre -> 0 <= pos <= seq_size node) ->
  bad < 0 \/ seq_size node < bad ->
  check_positions node (pre ++ bad :: post)
  = Err (DivideOutOfRange (node_id node) bad (seq_size node)).
Proof.
  intros Hpre Hbad. unfold check_positions.
  assert (Hfind : List.find (fun pos => (pos <? 0) || (seq_size node <? pos))
                            (pre ++ bad :: post) = Some bad).
  { induction pre as [| p pre IH]; simpl.
    - assert (Hb : (bad <? 0) || (seq_size node <? bad) = true).
      { apply orb_true_iff. destruct Hbad; [left | right]; by apply Z.ltb_lt. }
      by rewrite Hb.
    - assert (Hp : (p <? 0) || (seq_size node <? p) = false).
      { pose proof (Hpre p ltac:(by left)). apply orb_false_iff.
        split; apply Z.ltb_ge; lia. }
      rewrite Hp. apply IH. intros pos Hpos. apply Hpre. by right. }
  by rewrite Hfind.
Qed.

Lemma offsets_valid_in_range (last_pos len : Z) (offsets : list Z) :
  offsets_valid last_pos len offsets -> offsets_in_range last_pos len offsets.
Proof.
  revert last_pos. induction offsets as [| pos rest IH]; intros last_pos; [done |].
  simpl. intros [Hpos Hrest]. split; [lia | by apply IH].
Qed.

Lemma offsets_in_range_bounds (last_pos len : Z) (offsets : list Z) (pos : Z) :
  0 <= last_pos -> offsets_in_range last_pos len offsets -> pos ∈ offsets ->
  0 <= pos <= len.
Proof.
  revert last_pos. induction offsets as [| p rest IH]; intros last_pos Hlast Hr Hpos.
  - by apply elem_of_nil in Hpos.
  - destruct Hr as [Hp Hr]. apply elem_of_cons in Hpos as [-> | Hpos]; [lia |].
    apply (IH p); [lia | assumption | assumption].
Qed.

Lemma pieces_concat_in_range (s : list ascii) (last_pos : Z) (offsets : list Z) :
  0 <= last_pos -> offsets_in_range last_pos (Z.of_nat (length s)) offsets ->
  mjoin (pieces s last_pos offsets) = drop (Z.to_nat last_pos) s.
Proof.
  revert last_pos. induction offsets as [| pos rest IH]; intros last_pos H0 Hr; simpl.
  - apply app_nil_r.
  - destruct Hr as [Hpos Hr]. rewrite IH by (assumption || lia).
    rewrite <- (take_drop (Z.to_nat (pos - last_pos)) (drop (Z.to_nat last_pos) s)) at 2.
    f_equal. rewrite drop_drop. f_equal. lia.
Qed.

(** The last piece is what follows the last offset. *)
Lemma pieces_snoc (s : list ascii) (last_pos pos : Z) (offsets : list Z) :
  exists init,
    pieces s last_pos (offsets ++ [pos]) = init ++ [drop (Z.to_nat pos) s].
Proof.
  revert last_pos. induction offsets as [| p rest IH]; intros last_pos; simpl.
  - by exists [take (Z.to_nat (pos - last_pos)) (drop (Z.to_nat last_pos) s)].
  - destruct (IH p) as (init & ->).
    by exists (take (Z.to_nat (p - last_pos)) (drop (Z.to_nat last_pos) s) :: init).
Qed.

Lemma create_parts_in_range (positions : list Z) (g : VG) (node : Node) (last_pos : Z) :
  counter_ok g -> nodes_wf g ->
  offsets_in_range last_pos (seq_size node) positions ->
  exists g1 parts,
    create_parts g node last_pos positions = Ok (g1, parts)
    /\ node_sequence <$> parts = pieces (node_sequence node) last_pos positions
    /\ graph_node g1 = graph_node g ++ parts
    /\ counter_ok g1 /\ nodes_wf g1 /\ same_edges g g1
    /\ (forall p n, p ∈ parts -> n ∈ graph_node g -> node_id n < node_id p).
Proof.
  revert g last_pos. induction positions as [| pos rest IH];
    intros g last_pos Hc Hwf Hr; simpl.
  - destruct (create_node_ok g (drop (Z.to_nat last_pos) (node_sequence node)) Hc Hwf)
      as (g1 & -> & Hc1 & Hwf1 & Hse & HL & HP & Hfresh).
    simpl. eexists _, _. split; [reflexivity |].
    split; [reflexivity |]. split; [exact HL |].
    split; [exact Hc1 |]. split; [exact Hwf1 |]. split; [exact Hse |].
    intros p n Hp Hn. apply list_elem_of_singleton in Hp as ->. simpl. by apply Hfresh.
  - destruct Hr as [Hpos Hr].
    destruct (create_node_ok g (substr (node_sequence node) last_pos (pos - last_pos)) Hc Hwf)
      as (g1 & -> & Hc1 & Hwf1 & Hse & HL & HP & Hfresh).
    simpl.
    destruct (IH g1 pos Hc1 Hwf1 Hr)
      as (g2 & parts & -> & Hseq & HL2 & Hc2 & Hwf2 & Hse2 & Hfresh2).
    simpl. eexists _, _. split; [reflexivity |].
    split; [| split; [| split; [exact Hc2 | split; [exact Hwf2 | split]]]].
    + csimpl. rewrite Hseq. f_equal. unfold substr.
      destruct (Z.ltb_spec (pos - last_pos) 0); [lia | reflexivity].
    + rewrite HL2, HL, <- app_assoc. reflexivity.
    + eapply same_edges_trans; eassumption.
    + intros p n Hp Hn. apply elem_of_cons in Hp as [-> | Hp].
      * simpl. by apply Hfresh.
      * apply (Hfresh2 p n Hp). rewrite HL. apply elem_of_app. by left.
Qed.

(** [divide_node] on offsets that do not decrease within [0, length]. *)
Lemma divide_node_in_range (g : VG) (node : Node) (positions : list Z) :
  counter_ok g -> nodes_wf g -> edges_wf g -> node ∈ graph_node g ->
  offsets_in_range 0 (seq_size node) positions ->
  exists g' parts,
    divide_node g node positions = Ok (g', parts)
    /\ length parts = S (length positions)
    /\ node_sequence <$> parts = pieces (node_sequence node) 0 positions
    /\ mjoin (node_sequence <$> parts) = node_sequence node
    /\ has_node g' (node_id node) = false
    /\ graph_node g ++ parts ≡ₚ node :: graph_node g'.
Proof.
  intros Hc Hn He Hin Hr.
  assert (Hrange : forall pos, pos ∈ positions -> 0 <= pos <= seq_size node).
  { intros pos. by apply (offsets_in_range_bounds 0). }
  unfold divide_node. rewrite (check_positions_ok node positions Hrange). simpl.
  destruct (create_parts_in_range positions g node 0 Hc Hn Hr)
    as (g1 & parts & -> & Hpieces & HL & Hc1 & Hn1 & Hse & Hfresh).
  simpl.
  set (g2 := foldl _ g1 _).
  assert (Hs2 : same_nodes g1 g2).
  { apply (fold_create_edge_same_nodes
             (fun e : Z * bool * (Z * bool) => (e.1.1, e.2.1, e.1.2, e.2.2))). }
  assert (He2 : edges_wf g2).
  { apply (fold_create_edge_wf
             (fun e : Z * bool * (Z * bool) => (e.1.1, e.2.1, e.1.2, e.2.2))).
    by apply (same_edges_wf _ _ Hse). }
  pose proof (connect_parts_same_nodes parts g2) as Hs3.
  pose proof (connect_parts_wf parts g2 He2) as He3.
  set (g3 := connect_parts g2 parts) in *.
  set (g4 := with_paths g3 _).
  assert (Hn3 : nodes_wf g3).
  { apply (same_nodes_wf g2); [assumption |]. by apply (same_nodes_wf g1). }
  assert (Hn4 : nodes_wf g4) by exact Hn3.
  assert (He4 : edges_wf g4) by (by apply with_paths_edges_wf).
  assert (HL4 : graph_node g4 = graph_node g ++ parts).
  { destruct Hs2 as (A1 & _), Hs3 as (B1 & _). simpl. congruence. }
  apply list_elem_of_lookup in Hin as [i Hi].
  assert (Hi4 : graph_node g4 !! i = Some node).
  { rewrite HL4. by apply lookup_app_l_Some. }
  destruct (destroy_node_ptr_spec g4 node i node Hn4 He4 Hi4 eq_refl)
    as (_ & _ & HL' & HB' & _).
  eexists _, _. split; [reflexivity |].
  split; [| split; [exact Hpieces | split; [| split]]].
  - rewrite <- (length_fmap node_sequence), Hpieces. apply pieces_length.
  - rewrite Hpieces. by rewrite pieces_concat_in_range by (done || lia).
  - unfold has_node. apply bool_decide_eq_false. rewrite HB', lookup_delete_eq.
    by intros [? ?].
  - rewrite HL', <- HL4. by apply release_slot_perm.
Qed.

(** C5 (as the code has it). [divide_node] rejects an offset below 0 or
    above the length of the sequence with a fatal error that names the node
    and the first such offset: the one before which every offset lies within
    [0, length].  The offsets 0 and [length] themselves pass the check: on a
    consistent graph, offsets that do not decrease and stay within
    [0, length] are accepted, the node is replaced by [len(offsets) + 1] new
    nodes that carry the pieces in order, the first of them empty when the
    first offset is 0 and the last of them empty when the last offset is the
    length.  When every offset lies strictly inside (0, length) and the
    offsets increase strictly, none of the pieces is empty. *)
Theorem divide_node_offsets (g : VG) (node : Node) (positions : list Z) :
  (forall pre bad post,
     positions = pre ++ bad :: post ->
     (forall pos, pos ∈ pre -> 0 <= pos <= seq_size node) ->
     bad < 0 \/ seq_size node < bad ->
     divide_node g node positions
     = Err (DivideOutOfRange (node_id node) bad (seq_size node)))
  /\ (forall pos, pos ∈ positions -> pos < 0 \/ seq_size node < pos ->
        exists bad, bad ∈ positions /\ (bad < 0 \/ seq_size node < bad)
                    /\ divide_node g node positions
                       = Err (DivideOutOfRange (node_id node) bad (seq_size node)))
  /\ ((forall pos, pos ∈ positions -> 0 <= pos <= seq_size node) ->
      check_positions node positions = Ok tt)
  /\ (counter_ok g -> nodes_wf g -> edges_wf g -> node ∈ graph_node g ->
      offsets_in_range 0 (seq_size node) positions ->
      exists g' parts,
        divide_node g node positions = Ok (g', parts)
        /\ length parts = S (length positions)
        /\ node_sequence <$> parts = pieces (node_sequence node) 0 positions
        /\ mjoin (node_sequence <$> parts) = node_sequence node
        /\ has_node g' (node_id node) = false
        /\ graph_node g ++ parts ≡ₚ node :: graph_node g'
        /\ (forall rest, positions = 0 :: rest ->
              exists first others,
                parts = first :: others /\ node_sequence first = [])
        /\ (forall pre, positions = pre ++ [seq_size node] ->
              exists others last,
                parts = others ++ [last] /\ node_sequence last = []))
  /\ (counter_ok g -> nodes_wf g -> edges_wf g ->
      node ∈ graph_node g -> node_sequence node <> [] ->
      offsets_valid 0 (seq_size node) positions ->
      exists g' parts,
        divide_node g node positions = Ok (g', parts)
        /\ length parts = S (length positions)
        /\ node_sequence <$> parts = pieces (node_sequence node) 0 positions
        /\ Forall (fun part => node_sequence part <> []) parts
        /\ mjoin (node_sequence <$> parts) = node_sequence node
        /\ has_node g' (node_id node) = false
        /\ (forall part, part ∈ parts -> node_by_id g' !! node_id part = Some part)
        /\ graph_node g ++ parts ≡ₚ node :: graph_node g').
Proof.
  split; [| split; [| split; [| split]]].
  - intros pre bad post -> Hpre Hbad.
    unfold divide_node. by rewrite (check_positions_first node pre post bad Hpre Hbad).
  - intros pos Hin Hbad.
    destruct (check_positions_bad node positions pos Hin Hbad) as (bad & Hb1 & Hb2 & Hchk).
    exists bad. split; [assumption |]. split; [assumption |].
    unfold divide_node. by rewrite Hchk.
  - apply check_positions_ok.
  - intros Hc Hn He Hin Hr.
    destruct (divide_node_in_range g node positions Hc Hn He Hin Hr)
      as (g' & parts & Hdiv & Hlen & Hpieces & Hjoin & Hgone & Hperm).
    exists g', parts. do 6 (split; [assumption |]). split.
    + intros rest ->. simpl in Hpieces.
      destruct parts as [| first others]; [discriminate |].
      injection Hpieces as Hfirst _. by exists first, others.
    + intros pre ->.
      destruct (pieces_snoc (node_sequence node) 0 (seq_size node) pre) as (init & Hinit).
      rewrite Hinit in Hpieces.
      apply fmap_app_inv in Hpieces as (others & tl & _ & Htl & ->).
      destruct tl as [| last [| ? ?]]; try discriminate.
      injection Htl as Hlast. exists others, last. split; [reflexivity |].
      rewrite <- Hlast. unfold seq_size. rewrite Nat2Z.id. apply drop_all.
  - intros Hc Hn He Hin Hseq Hvalid.
    destruct (divide_node_ok g node positions Hc Hn He Hin Hseq Hvalid)
      as (g' & parts & H1 & H2 & H3 & H4 & H5 & H6 & H7 & H8 & _).
    exists g', parts. by repeat split.
Qed.

Lemma divide_node_offsets_witness :
  ([4; 9; -1] = [4] ++ 9 :: [-1]
   /\ (forall pos, pos ∈ [4] -> 0 <= pos <= seq_size scenario_node)
   /\ (9 < 0 \/ seq_size scenario_node < 9))
  /\ divide_node scenario_graph scenario_node [4; 9; -1]
     = Err (DivideOutOfRange (node_id scenario_node) 9 (seq_size scenario_node))
  /\ (counter_ok scenario_graph /\ nodes_wf scenario_graph /\ edges_wf scenario_graph
      /\ scenario_node ∈ graph_node scenario_graph
      /\ offsets_in_range 0 (seq_size scenario_node) [0; 8]
      /\ node_sequence scenario_node <> []
      /\ offsets_valid 0 (seq_size scenario_node) [4; 6])
  /\ (exists g' parts,
        divide_node scenario_graph scenario_node [0; 8] = Ok (g', parts)
        /\ length parts = 3%nat
        /\ (exists first others, parts = first :: others /\ node_sequence first = [])
        /\ (exists others last, parts = others ++ [last] /\ node_sequence last = []))
  /\ (exists g' parts,
        divide_node scenario_graph scenario_node [4; 6] = Ok (g', parts)
        /\ length parts = 3%nat
        /\ node_sequence <$> parts = pieces (node_sequence scenario_node) 0 [4; 6]
        /\ Forall (fun part => node_sequence part <> []) parts
        /\ mjoin (node_sequence <$> parts) = node_sequence scenario_node
        /\ has_node g' (node_id scenario_node) = false
        /\ (forall part, part ∈ parts -> node_by_id g' !! node_id part = Some part)
        /\ graph_node scenario_graph ++ parts ≡ₚ scenario_node :: graph_node g').
Proof.
  assert (Hpre : forall pos, pos ∈ [4] -> 0 <= pos <= seq_size scenario_node).
  { intros pos Hpos. apply list_elem_of_singleton in Hpos as ->.
    vm_compute. split; discriminate. }
  assert (Hbad : 9 < 0 \/ seq_size scenario_node < 9) by (right; vm_compute; reflexivity).
  assert (Hnode : scenario_node ∈ graph_node scenario_graph)
    by (apply (bool_decide_unpack _); vm_compute; exact I).
  assert (Hseq : node_sequence scenario_node <> []) by discriminate.
  assert (Hrange : offsets_in_range 0 (seq_size scenario_node) [0; 8])
    by (vm_compute; repeat split; discriminate).
  assert (Hvalid : offsets_valid 0 (seq_size scenario_node) [4; 6])
    by (vm_compute; repeat split; reflexivity).
  destruct scenario_graph_ok as (Hc & Hn & He).
  split; [exact (conj eq_refl (conj Hpre Hbad)) |].
  split.
  { exact (proj1 (divide_node_offsets scenario_graph scenario_node [4; 9; -1])
             [4] 9 [-1] eq_refl Hpre Hbad). }
  split; [exact (conj Hc (conj Hn (conj He (conj Hnode (conj Hrange (conj Hseq Hvalid)))))) |].
  split.
  { destruct (proj1 (proj2 (proj2 (proj2
                (divide_node_offsets scenario_graph scenario_node [0; 8]))))
                Hc Hn He Hnode Hrange)
      as (g' & parts & Hdiv & Hlen & _ & _ & _ & _ & Hfirst & Hlast).
    exists g', parts. split; [exact Hdiv |]. split; [exact Hlen |].
    split; [exact (Hfirst [8] eq_refl) | exact (Hlast [0] eq_refl)]. }
  exact (proj2 (proj2 (proj2 (proj2
           (divide_node_offsets scenario_graph scenario_node [4; 6]))))
           Hc Hn He Hnode Hseq Hvalid).
Defined.

(** C5, the claim as written fails: the offset 0 lies outside the open
    interval (0, length), yet [divide_node] does not fail on it; it makes an
    empty first piece.  The same holds for the offset [length]. *)
Lemma divide_node_accepts_boundary_offsets :
  (exists g' parts,
     divide_node scenario_graph scenario_node [0] = Ok (g', parts)
     /\ node_sequence <$> parts = [[]; dna "AAAACCCC"])
  /\ (exists g' parts,
        divide_node scenario_graph scenario_node [8] = Ok (g', parts)
        /\ node_sequence <$> parts = [dna "AAAACCCC"; []]).
Proof.
  split; eexists _, _; (split; [vm_compute; reflexivity | reflexivity]).
Qed.

(** * Concatenation undoes division: the paths *)

(** ** Maps by rank are sorted *)







(** ** The path after the round trip *)





(** ** Paths that follow edges *)




(** ** The round trip *)






